(** * Gradient layout of [weasyprint/images.py]

    A shallow embedding of the gradient layout engine: stop resolution
    ([process_color_stops]), normalisation ([normalize_stop_positions]),
    the average colour ([gradient_average_color]) and the two [layout]
    methods with the radial repeat tiler ([_repeat]).

    Numbers.  Python mixes [int] and [float] freely in this module; both are
    embedded as exact rationals [Q], and Python's numeric [==], [<], [<=] are
    the decidable [Qeq_bool], [Qle_bool] tests.  Rounding of floating point
    arithmetic is therefore not part of the model: the statements below are
    about the arithmetic the code writes down.

    Errors.  Every Python operation that can raise (indexing, true and floor
    division, [assert], arithmetic on [None], tuple unpacking) is embedded in
    the [result] monad, so that "does not divide by zero" and "the assertion
    holds" are statements about the embedded code.

    The functions of the [math] module that the code calls
    ([hypot], [sin], [cos], [sqrt]) are a parameter, the class [Math]. *)

From stdpp Require Import base list strings sorting gmap.
From Stdlib Require Import Ascii QArith Qround Qabs Lqa.

Open Scope Q_scope.

(** ** Exceptions and the error monad *)

Inductive exception :=
| IndexError
| TypeError
| ValueError
| ZeroDivisionError
| AssertionError.

Inductive result (A : Type) :=
| Ok (a : A)
| Raise (e : exception).
Arguments Ok {A} a.
Arguments Raise {A} e.

#[export] Instance result_ret : MRet result := fun A a => Ok a.
#[export] Instance result_bind : MBind result :=
  fun A B f m => match m with Ok a => f a | Raise e => Raise e end.

Definition py_assert (b : bool) : result unit :=
  if b then Ok tt else Raise AssertionError.

(** [for x in l: s = body(s, x)], stopping at the first exception. *)
Fixpoint for_in {A S : Type} (l : list A) (body : S -> A -> result S) (s : S)
  : result S :=
  match l with
  | [] => Ok s
  | x :: l' => s' ← body s x; for_in l' body s'
  end.

(** ** Python numbers *)

Definition Qlt_bool (a b : Q) : bool := negb (Qle_bool b a).

Infix "==?" := Qeq_bool (at level 70, no associativity) : Q_scope.
Infix "<?" := Qlt_bool (at level 70, no associativity) : Q_scope.
Infix "<=?" := Qle_bool (at level 70, no associativity) : Q_scope.

(** [a / b] *)
Definition py_div (a b : Q) : result Q :=
  if b ==? 0 then Raise ZeroDivisionError else Ok (a / b).

(** [a // b] *)
Definition py_floordiv (a b : Q) : result Q :=
  if b ==? 0 then Raise ZeroDivisionError else Ok (inject_Z (Qfloor (a / b))).

(** [int(x)] truncates towards zero. *)
Definition py_int (x : Q) : Z := Z.quot (Qnum x) (Zpos (Qden x)).

(** [math.ceil(x)] *)
Definition py_ceil (x : Q) : Z := Qceiling x.

(** A value that may be [None], used where a number is needed. *)
Definition number (v : option Q) : result Q :=
  match v with
  | Some q => Ok q
  | None => Raise TypeError
  end.

(** ** Python lists *)

(** [l[i]], with Python's negative indices. *)
Definition py_index {A} (l : list A) (i : Z) : result A :=
  let k := if (i <? 0)%Z then (Z.of_nat (length l) + i)%Z else i in
  if (k <? 0)%Z then Raise IndexError
  else match l !! Z.to_nat k with
       | Some x => Ok x
       | None => Raise IndexError
       end.

(** [l[i] = v] *)
Definition py_setitem {A} (l : list A) (i : Z) (v : A) : result (list A) :=
  let k := if (i <? 0)%Z then (Z.of_nat (length l) + i)%Z else i in
  if (k <? 0)%Z then Raise IndexError
  else if (k <? Z.of_nat (length l))%Z then Ok (<[Z.to_nat k := v]> l)
       else Raise IndexError.

(** [range(a, b)] *)
Definition py_range (a b : Z) : list Z :=
  map (fun k => (a + Z.of_nat k)%Z) (seq 0 (Z.to_nat (b - a))).

(** Start or stop of a slice: a negative bound counts from the end, and
    bounds outside the list are clipped. *)
Definition py_bound {A} (l : list A) (i : Z) : nat :=
  Z.to_nat (if (i <? 0)%Z then Z.max 0 (Z.of_nat (length l) + i) else i).

(** [l[i:]] *)
Definition py_slice_from {A} (l : list A) (i : Z) : list A :=
  drop (py_bound l i) l.

(** [l[:i]] *)
Definition py_slice_to {A} (l : list A) (i : Z) : list A :=
  take (py_bound l i) l.

(** [l * n] *)
Definition py_repeat_list {A} (l : list A) (n : Z) : list A :=
  concat (replicate (Z.to_nat n) l).

(** [enumerate(l, start)] *)
Definition py_enumerate {A} (start : Z) (l : list A) : list (Z * A) :=
  imap (fun i x => ((start + Z.of_nat i)%Z, x)) l.

(** ** Dimensions and percentages *)

Inductive Dimension :=
| Px (value : Q)
| Percent (value : Q).

(** Modelled from the spec: [layout.percentages.percentage] is imported by
    [images.py] and lives in another file.  A percentage resolves to
    percentage x reference; a length in px is its value; [None] stays
    [None].  [percentage_of] is the function on a value that is not
    [None]. *)
Definition percentage_of (value : Dimension) (refer_to : Q) : Q :=
  match value with
  | Px v => v
  | Percent v => refer_to * v / 100
  end.

Definition percentage (value : option Dimension) (refer_to : Q) : option Q :=
  match value with
  | None => None
  | Some value => Some (percentage_of value refer_to)
  end.

(** ** [process_color_stops] *)

Definition is_None {A} (v : option A) : bool :=
  match v with None => true | Some _ => false end.

(** Body of the loop of lines 222-227: make sure positions are increasing. *)
Definition increasing_body (st : list (option Q) * Q) (i : Z)
  : result (list (option Q) * Q) :=
  let '(positions, previous_pos) := st in
  position ← py_index positions i;
  match position with
  | Some position =>
      if position <? previous_pos
      then positions ← py_setitem positions i (Some previous_pos);
           Ok (positions, previous_pos)
      else Ok (positions, position)
  | None => Ok (positions, previous_pos)
  end.

(** Body of the loop of lines 231-237: assign missing values. *)
Definition assign_body (st : list (option Q) * Z) (i : Z)
  : result (list (option Q) * Z) :=
  let '(positions, previous_i) := st in
  position ← py_index positions i;
  match position with
  | Some position =>
      b ← py_index positions previous_i;
      base ← number b;
      increment ← py_div (position - base) (inject_Z (i - previous_i));
      positions ← for_in (py_range (previous_i + 1) i)
        (fun positions j =>
           py_setitem positions j (Some (base + inject_Z j * increment)))
        positions;
      Ok (positions, i)
  | None => Ok (positions, previous_i)
  end.

(** The list returned holds numbers only; a [None] left in it would raise
    [TypeError] at its first use by the callers. *)
Definition numbers (positions : list (option Q)) : result (list Q) :=
  for_in positions (fun acc p => q ← number p; Ok (acc ++ [q])) [].

Definition process_color_stops (vector_length : Q)
    (positions : list (option Dimension)) : result (list Q) :=
  (* Resolve percentages *)
  let positions := map (fun position => percentage position vector_length)
                       positions in
  (* First and last default to 100% *)
  first ← py_index positions 0;
  positions ← (if is_None first then py_setitem positions 0 (Some 0)
               else Ok positions);
  last ← py_index positions (-1);
  positions ← (if is_None last
               then py_setitem positions (-1) (Some vector_length)
               else Ok positions);
  (* Make sure positions are increasing *)
  p0 ← py_index positions 0;
  previous_pos ← number p0;
  '(positions, _) ← for_in (py_range 0 (Z.of_nat (length positions)))
                      increasing_body (positions, previous_pos);
  (* Assign missing values *)
  '(positions, _) ← for_in (py_range 0 (Z.of_nat (length positions)))
                      assign_body (positions, (-1)%Z);
  numbers positions.

(** ** [normalize_stop_positions] *)

Definition normalize_stop_positions (positions : list Q)
  : result (Q * Q * list Q) :=
  first ← py_index positions 0;
  last ← py_index positions (-1);
  let total_length := last - first in
  if total_length ==? 0
  then Ok (first, last, replicate (length positions) 0)
  else
    positions ← for_in positions
      (fun acc pos => q ← py_div (pos - first) total_length; Ok (acc ++ [q]))
      [];
    Ok (first, last, positions).

(** ** [gradient_average_color] *)

Definition color : Type := Q * Q * Q * Q.

Definition average_step (premul_r premul_g premul_b alpha : list Q)
    (weight : Q) (acc : color) (j : Z) : result color :=
  let '(result_r, result_g, result_b, result_a) := acc in
  r ← py_index premul_r j;
  g ← py_index premul_g j;
  b ← py_index premul_b j;
  a ← py_index alpha j;
  Ok (result_r + r * weight, result_g + g * weight,
      result_b + b * weight, result_a + a * weight).

Definition gradient_average_color (colors : list color) (positions : list Q)
  : result color :=
  let nb_stops := length positions in
  py_assert (1 <? nb_stops)%nat;;
  py_assert (nb_stops =? length colors)%nat;;
  last ← py_index positions (-1);
  first ← py_index positions 0;
  let total_length := last - first in
  let '(positions, total_length) :=
    if total_length ==? 0
    then (map inject_Z (py_range 0 (Z.of_nat nb_stops)),
          inject_Z (Z.of_nat nb_stops) - 1)
    else (positions, total_length) in
  let premul_r := map (fun c : color => let '(r, g, b, a) := c in r * a) colors in
  let premul_g := map (fun c : color => let '(r, g, b, a) := c in g * a) colors in
  let premul_b := map (fun c : color => let '(r, g, b, a) := c in b * a) colors in
  let alpha := map (fun c : color => let '(r, g, b, a) := c in a) colors in
  let total_weight := 2 * total_length in
  acc ← for_in (py_enumerate 1 (py_slice_from positions 1))
    (fun acc ip =>
       let '(i, position) := ip in
       previous ← py_index positions (i - 1);
       weight ← py_div (position - previous) total_weight;
       for_in [(i - 1)%Z; i]
         (average_step premul_r premul_g premul_b alpha weight) acc)
    (0, 0, 0, 0);
  let '(result_r, result_g, result_b, result_a) := acc in
  (* Un-premultiply: *)
  if negb (result_a ==? 0)
  then r ← py_div result_r result_a;
       g ← py_div result_g result_a;
       b ← py_div result_b result_a;
       Ok (r, g, b, result_a)
  else Ok (0, 0, 0, 0).

(** ** The [math] module *)

(** The functions of Python's [math] module used by the layout code.  They
    are not rational functions, so the layout is parametrised by them. *)
Class Math := {
  hypot : Q -> Q -> Q;
  sin : Q -> Q;
  cos : Q -> Q;
  sqrt : Q -> Q;
}.

(** ** Strings *)

(** [s.split(sep)] for a one-character separator. *)
Fixpoint split_on (sep : Ascii.ascii) (s : string) : list string :=
  match s with
  | EmptyString => [EmptyString]
  | String c s' =>
      if Ascii.eqb c sep then EmptyString :: split_on sep s'
      else match split_on sep s' with
           | [] => [String c EmptyString]
           | w :: ws => String c w :: ws
           end
  end.

(** [a, b = l] *)
Definition unpack2 {A} (l : list A) : result (A * A) :=
  match l with
  | [a; b] => Ok (a, b)
  | _ => Raise ValueError
  end.

Definition startswith (s p : string) : bool := String.prefix p s.

Definition endswith (s p : string) : bool :=
  String.eqb
    (String.substring (String.length s - String.length p) (String.length p) s)
    p
  && (String.length p <=? String.length s)%nat.

(** ** [min] and [max] *)

(** [min(x, *l, key=key)]: the first smallest argument. *)
Definition py_min {A} (key : A -> Q) (x : A) (l : list A) : A :=
  fold_left (fun best y => if key y <? key best then y else best) l x.

(** [max(x, *l, key=key)]: the first largest argument. *)
Definition py_max {A} (key : A -> Q) (x : A) (l : list A) : A :=
  fold_left (fun best y => if key best <? key y then y else best) l x.

(** ** The value returned by [layout] *)

(** [(scale_y, type_, points, positions, colors)] *)
Record Layout := mkLayout {
  scale_y : Q;
  type_ : string;
  points : option (list Q);
  positions : list Q;
  colors : list color;
}.

(** ** [class Gradient] *)

Module Gradient.

Record t := mk {
  colors : list color;
  stop_positions : list (option Dimension);
  repeating : bool;
}.

Definition __init__ (color_stops : list (color * option Dimension))
    (repeating : bool) : result t :=
  py_assert (negb (bool_decide (color_stops = [])));;
  Ok {| colors := map fst color_stops;
        stop_positions := map snd color_stops;
        repeating := repeating |}.

End Gradient.

(** ** [class LinearGradient] *)

Module LinearGradient.

(** [(direction_type, direction)]: [('corner', keyword)] or
    [('angle', radians)]. *)
Inductive direction_t :=
| corner (keyword : string)
| angle (radians : Q).

Record t := mk {
  colors : list color;
  stop_positions : list (option Dimension);
  repeating : bool;
  direction : direction_t;
}.

Definition __init__ (color_stops : list (color * option Dimension))
    (direction : direction_t) (repeating : bool) : result t :=
  g ← Gradient.__init__ color_stops repeating;
  Ok {| colors := Gradient.colors g;
        stop_positions := Gradient.stop_positions g;
        repeating := Gradient.repeating g;
        direction := direction |}.

(** Lines 376-391: the (dx, dy) unit vector giving the direction. *)
Definition unit_vector `{Math} (self : t) (width height : Q)
  : result (Q * Q) :=
  match direction self with
  | corner keyword =>
      '(y, x) ← unpack2 (split_on "_"%char keyword);
      let factor_x := if String.eqb x "left" then -1 else 1 in
      let factor_y := if String.eqb y "top" then -1 else 1 in
      let diagonal := hypot width height in
      dx ← py_div (factor_x * height) diagonal;
      dy ← py_div (factor_y * width) diagonal;
      Ok (dx, dy)
  | angle a => Ok (sin a, - cos a)
  end.

(** Lines 397-405: explicit colors at boundaries (not repeating). *)
Definition boundaries (positions : list Q) (colors : list color)
  : result (list Q * list color) :=
  p0 ← py_index positions 0;
  p1 ← py_index positions 1;
  '(positions, colors) ←
    (if p0 ==? p1
     then c0 ← py_index colors 0;
          Ok ((p0 - 1) :: positions, c0 :: colors)
     else Ok (positions, colors));
  p_2 ← py_index positions (-2);
  p_1 ← py_index positions (-1);
  if p_2 ==? p_1
  then c_1 ← py_index colors (-1);
       Ok (positions ++ [p_1 + 1], colors ++ [c_1])
  else Ok (positions, colors).

Definition layout `{Math} (self : t) (width height : Q) : result Layout :=
  (* Only one color, render the gradient as a solid color *)
  if (length (colors self) =? 1)%nat
  then c ← py_index (colors self) 0;
       Ok (mkLayout 1 "solid" None [] [c])
  else
    '(dx, dy) ← unit_vector self width height;
    (* Normalize colors positions *)
    let colors := colors self in
    let vector_length := Qabs (width * dx) + Qabs (height * dy) in
    positions ← process_color_stops vector_length (stop_positions self);
    '(positions, colors) ←
      (if negb (repeating self) then boundaries positions colors
       else Ok (positions, colors));
    '(first, last, positions) ← normalize_stop_positions positions;
    (* Render as a solid color if the first and last positions are the
       same *)
    if (first ==? last) && repeating self
    then color ← gradient_average_color colors positions;
         Ok (mkLayout 1 "solid" None [] [color])
    else
      (* Define the coordinates of the starting and ending points *)
      let start_x := (width - dx * vector_length) / 2 in
      let start_y := (height - dy * vector_length) / 2 in
      let points := [start_x + dx * first; start_y + dy * first;
                     start_x + dx * last; start_y + dy * last] in
      Ok (mkLayout 1 "linear" (Some points) positions colors).

End LinearGradient.

(** ** [class RadialGradient] *)

Module RadialGradient.

(** [(size_type, size)]: [('keyword', name)] or
    [('explicit', (radius_x, radius_y))]. *)
Inductive size_t :=
| keyword (name : string)
| explicit (radius_x radius_y : Dimension).

Record t := mk {
  colors : list color;
  stop_positions : list (option Dimension);
  repeating : bool;
  (* Center of the ending shape. (origin_x, pos_x, origin_y, pos_y) *)
  center : string * Dimension * string * Dimension;
  (* Type of ending shape: 'circle' or 'ellipse' *)
  shape : string;
  size : size_t;
}.

Definition __init__ (color_stops : list (color * option Dimension))
    (shape : string) (size : size_t)
    (center : string * Dimension * string * Dimension) (repeating : bool)
  : result t :=
  g ← Gradient.__init__ color_stops repeating;
  Ok {| colors := Gradient.colors g;
        stop_positions := Gradient.stop_positions g;
        repeating := Gradient.repeating g;
        center := center;
        shape := shape;
        size := size |}.

(** [pick = min if self.size.startswith('closest') else max] *)
Definition pick {A} (name : string) (key : A -> Q) (x : A) (l : list A) : A :=
  if startswith name "closest" then py_min key x l else py_max key x l.

Definition _resolve_size `{Math} (self : t)
    (width height center_x center_y : Q) : Q * Q :=
  match size self with
  | explicit size_x size_y =>
      (percentage_of size_x width, percentage_of size_y height)
  | keyword name =>
      let left := Qabs center_x in
      let right := Qabs (width - center_x) in
      let top := Qabs center_y in
      let bottom := Qabs (height - center_y) in
      if endswith name "side"
      then
        if String.eqb (shape self) "circle"
        then let size_xy := pick name id left [right; top; bottom] in
             (size_xy, size_xy)
        else (pick name id left [right], pick name id top [bottom])
      else
        if String.eqb (shape self) "circle"
        then let size_xy :=
               pick name id (hypot left top)
                 [hypot left bottom; hypot right top; hypot right bottom] in
             (size_xy, size_xy)
        else let '(corner_x, corner_y) :=
               pick name (fun a : Q * Q => hypot (fst a) (snd a)) (left, top)
                 [(left, bottom); (right, top); (right, bottom)] in
             (corner_x * sqrt 2, corner_y * sqrt 2)
  end.

Definition _handle_degenerate (size_x size_y : Q) : Q * Q :=
  if (size_x ==? size_y) && (size_y ==? 0) then (1e-7, 1e-7)
  else if size_x ==? 0 then (1e-7, 1e7)
  else if size_y ==? 0 then (1e7, 1e-7)
  else (size_x, size_y).

(** Lines 460-468: explicit colors at boundaries (not repeating). *)
Definition boundaries (positions : list Q) (colors : list color)
  : result (list Q * list color) :=
  p0 ← py_index positions 0;
  '(positions, colors) ←
    (if 0 <? p0
     then p1 ← py_index positions 1;
          if p0 ==? p1
          then c0 ← py_index colors 0;
               Ok (0 :: positions, c0 :: colors)
          else Ok (positions, colors)
     else Ok (positions, colors));
  p_2 ← py_index positions (-2);
  p_1 ← py_index positions (-1);
  if p_2 ==? p_1
  then c_1 ← py_index colors (-1);
       Ok (positions ++ [p_1 + 1], colors ++ [c_1])
  else Ok (positions, colors).

(** Lines 472-475: add vector lengths to first position until positive. *)
Definition shift (positions : list Q) : result (list Q) :=
  p_1 ← py_index positions (-1);
  p0 ← py_index positions 0;
  let vector_length := p_1 - p0 in
  q ← py_floordiv (- p0) vector_length;
  let offset := vector_length * (1 + q) in
  Ok (map (fun position => position + offset) positions).

(** Lines 481-497: the loop that keeps colors with position >= 0; the
    lists are returned unchanged when the loop ends without [break]. *)
Fixpoint keep_from_zero (colors : list color) (positions : list Q)
    (l : list (Z * Q)) : result (list color * list Q) :=
  match l with
  | [] => Ok (colors, positions)
  | (i, position) :: l' =>
      if position ==? 0
      then (* Keep colors and positions from this rank *)
        Ok (py_slice_from colors i, py_slice_from positions i)
      else if 0 <? position
      then (* Interpolate with previous rank to get color at 0 *)
        color ← py_index colors i;
        previous_color ← py_index colors (i - 1);
        previous_position ← py_index positions (i - 1);
        py_assert (previous_position <? 0);;
        intermediate_color ← gradient_average_color
          [previous_color; previous_color; color; color]
          [previous_position; 0; 0; position];
        Ok ([intermediate_color] ++ py_slice_from colors i,
            [0] ++ py_slice_from positions i)
      else keep_from_zero colors positions l'
  end.

(** Lines 469-497: PDF doesn't like negative radiuses, shift into the
    positive realm.  [inl] is the early [return] of line 480. *)
Definition positive_realm (self : t) (positions : list Q)
    (colors : list color) : result (Layout + list Q * list color) :=
  p0 ← py_index positions 0;
  if p0 <? 0
  then
    if repeating self
    then positions ← shift positions;
         Ok (inr (positions, colors))
    else
      p_1 ← py_index positions (-1);
      if p_1 <=? 0
      then (* All stops are negative, fill with the last color *)
        c ← py_index (RadialGradient.colors self) (-1);
        Ok (inl (mkLayout 1 "solid" None [] [c]))
      else
        '(colors, positions) ←
          keep_from_zero colors positions (py_enumerate 0 positions);
        Ok (inr (positions, colors))
  else Ok (inr (positions, colors)).

(** Lines 525-529 *)
Definition max_distance `{Math} (width height scale_y : Q) (points : list Q)
  : result Q :=
  p0 ← py_index points 0;
  p1 ← py_index points 1;
  h ← py_div height scale_y;
  Ok (py_max id
        (hypot (width - p0) (h - p1))
        [hypot (width - p0) (- p1 * scale_y);
         hypot (- p0) (h - p1);
         hypot (- p0) (- p1 * scale_y)]).

(** Lines 571-598: the loop over the reversed positions.  When it ends
    without [return], [_repeat] returns [None], which [layout] cannot
    unpack. *)
Fixpoint center_scan (original_colors : list color)
    (original_positions : list Q) (full_repeat : Z) (ratio : Q)
    (points positions : list Q) (colors : list color) (l : list (Z * Q))
  : result (list Q * list Q * list color) :=
  match l with
  | [] => Raise TypeError
  | (i, position) :: l' =>
      if position ==? ratio
      then
        (* The center is a color of the gradient, truncate original
           colors and positions and prepend them *)
        let colors := py_slice_from original_colors (- i) ++ colors in
        let new_positions :=
          map (fun position => position - inject_Z full_repeat - 1)
              (py_slice_from original_positions (- i)) in
        let positions := new_positions ++ positions in
        Ok (points, positions, colors)
      else if position <? ratio
      then
        (* The center is between two colors of the gradient, define the
           center color as the average of these two gradient colors *)
        color ← py_index original_colors (- i);
        next_color ← py_index original_colors (- (i - 1));
        next_position ← py_index original_positions (- (i - 1));
        let average_colors := [color; color; next_color; next_color] in
        let average_positions := [position; ratio; ratio; next_position] in
        zero_color ← gradient_average_color average_colors average_positions;
        let colors :=
          [zero_color] ++ py_slice_from original_colors (- (i - 1))
            ++ colors in
        let new_positions :=
          map (fun position => position - 1 - inject_Z full_repeat)
              (py_slice_from original_positions (- (i - 1))) in
        let positions :=
          [ratio - 1 - inject_Z full_repeat] ++ new_positions ++ positions in
        Ok (points, positions, colors)
      else center_scan original_colors original_positions full_repeat ratio
             points positions colors l'
  end.

Definition _repeat `{Math} (width height scale_y : Q)
    (points positions : list Q) (colors : list color)
  : result (list Q * list Q * list color) :=
  (* Keep original lists and values, they're useful *)
  let original_colors := colors in
  let original_positions := positions in
  p5 ← py_index points 5;
  p2 ← py_index points 2;
  let gradient_length := p5 - p2 in
  (* Get the maximum distance between the center and the corners, to find
     how many times we have to repeat the colors outside *)
  max_distance ← max_distance width height scale_y points;
  q ← py_div (max_distance - p5) gradient_length;
  let repeat_after := py_ceil q in
  let '(points, positions, colors) :=
    if (0 <? repeat_after)%Z
    then
      (* Repeat colors and extrapolate positions *)
      let repeat := (1 + repeat_after)%Z in
      (py_slice_to points 5
         ++ [p5 + gradient_length * inject_Z repeat_after],
       flat_map (fun i => map (fun position => inject_Z i + position)
                              positions)
                (py_range 0 repeat),
       py_repeat_list colors repeat)
    else (points, positions, colors) in
  p2 ← py_index points 2;
  if p2 ==? 0
  then (* Inner circle has 0 radius, no need to repeat inside, return *)
    Ok (points, positions, colors)
  else
    (* Find how many times we have to repeat the colors inside *)
    repeat_before ← py_div p2 gradient_length;
    (* Set the inner circle size to 0 *)
    let points := py_slice_to points 2 ++ [0] ++ py_slice_from points 3 in
    (* Find how many times the whole gradient can be repeated *)
    let full_repeat := py_int repeat_before in
    let '(positions, colors) :=
      if negb (full_repeat =? 0)%Z
      then
        (flat_map (fun i => map (fun position =>
                                   inject_Z (i - full_repeat) + position)
                                original_positions)
                  (py_range 0 full_repeat) ++ positions,
         colors ++ py_repeat_list original_colors full_repeat)
      else (positions, colors) in
    (* Find the ratio of gradient that must be added to reach the center *)
    let partial_repeat := repeat_before - inject_Z full_repeat in
    if partial_repeat ==? 0
    then (* No partial repeat, return *)
      Ok (points, positions, colors)
    else
      o0 ← py_index original_positions 0;
      o_1 ← py_index original_positions (-1);
      py_assert ((o0 ==? 0) && (o_1 ==? 1));;
      py_assert ((0 <? partial_repeat) && (partial_repeat <? 1));;
      let reverse := rev original_positions in
      let ratio := 1 - partial_repeat in
      center_scan original_colors original_positions full_repeat ratio
        points positions colors (py_enumerate 1 reverse).

(** Lines 443-450: the center of the gradient. *)
Definition resolved_center (self : t) (width height : Q) : Q * Q :=
  let '(origin_x, center_x, origin_y, center_y) := center self in
  let center_x := percentage_of center_x width in
  let center_y := percentage_of center_y height in
  let center_x :=
    if String.eqb origin_x "right" then width - center_x else center_x in
  let center_y :=
    if String.eqb origin_y "bottom" then height - center_y
    else center_y in
  (center_x, center_y).

(** Lines 453-454: the sizes of the ending shape. *)
Definition resolved_size `{Math} (self : t) (width height : Q) : Q * Q :=
  let '(center_x, center_y) := resolved_center self width height in
  let '(size_x, size_y) :=
    _resolve_size self width height center_x center_y in
  _handle_degenerate size_x size_y.

(** Lines 438-509 of [layout]: everything up to the coordinates of the
    gradient circles.  [inl] is an early [return] (a solid color), [inr]
    carries [(scale_y, points, positions, colors)]. *)
Definition circles `{Math} (self : t) (width height : Q)
  : result (Layout + Q * list Q * list Q * list color) :=
  (* Only one color, render the gradient as a solid color *)
  if (length (colors self) =? 1)%nat
  then c ← py_index (colors self) 0;
       Ok (inl (mkLayout 1 "solid" None [] [c]))
  else
    (* Define the center of the gradient *)
    let '(center_x, center_y) := resolved_center self width height in
    (* Resolve sizes and vertical scale *)
    let '(size_x, size_y) := resolved_size self width height in
    scale_y ← py_div size_y size_x;
    (* Normalize colors positions *)
    let colors := colors self in
    positions ← process_color_stops size_x (stop_positions self);
    '(positions, colors) ←
      (if negb (repeating self) then boundaries positions colors
       else Ok (positions, colors));
    r ← positive_realm self positions colors;
    match r with
    | inl solid => Ok (inl solid)
    | inr (positions, colors) =>
        '(first, last, positions) ← normalize_stop_positions positions;
        (* Render as a solid color if the first and last positions are
           the same *)
        if (first ==? last) && repeating self
        then color ← gradient_average_color colors positions;
             Ok (inl (mkLayout 1 "solid" None [] [color]))
        else
          (* Define the coordinates of the gradient circles *)
          cy ← py_div center_y scale_y;
          let points := [center_x; cy; first; center_x; cy; last] in
          Ok (inr (scale_y, points, positions, colors))
    end.

Definition layout `{Math} (self : t) (width height : Q) : result Layout :=
  r ← circles self width height;
  match r with
  | inl solid => Ok solid
  | inr (scale_y, points, positions, colors) =>
      '(points, positions, colors) ←
        (if repeating self
         then _repeat width height scale_y points positions colors
         else Ok (points, positions, colors));
      Ok (mkLayout scale_y "radial" (Some points) positions colors)
  end.

End RadialGradient.

(** ** A rational instance of [math]

    Used to run the layout on concrete gradients.  The square root is
    rounded down to a multiple of 1/denominator, and is exact on squares of
    rationals ([hypot 3 4 = 5]); sine and cosine are their Taylor
    polynomials of degree 3 and 2, exact at angle 0. *)

Definition sqrt_down (x : Q) : Q :=
  inject_Z (Z.sqrt (Qnum x * Zpos (Qden x))) / inject_Z (Zpos (Qden x)).

Definition rational_math : Math := {|
  hypot := fun x y => sqrt_down (Qred (x * x + y * y));
  sin := fun x => x - x * x * x / 6;
  cos := fun x => 1 - x * x / 2;
  sqrt := fun x => sqrt_down (Qred x);
|}.


(** ** The loops of [process_color_stops], by recursion on the list

    The index-based loops above are proved equal to these functions, which
    are easier to reason about: [increasing] is the first loop, started
    with [previous_pos]; [assigned] is the second loop after the stop at
    [previous_i], whose position is [base], and a run of [gap] missing
    positions; [resolved] is the whole function on a non-empty list. *)

Fixpoint increasing (previous_pos : Q) (l : list (option Q))
  : list (option Q) :=
  match l with
  | [] => []
  | None :: l' => None :: increasing previous_pos l'
  | Some position :: l' =>
      if position <? previous_pos
      then Some previous_pos :: increasing previous_pos l'
      else Some position :: increasing position l'
  end.

Fixpoint assigned (previous_i : Z) (base : Q) (gap : nat)
    (l : list (option Q)) : list (option Q) :=
  match l with
  | [] => replicate gap None
  | None :: l' => assigned previous_i base (S gap) l'
  | Some position :: l' =>
      let i := (previous_i + 1 + Z.of_nat gap)%Z in
      let increment := (position - base) / inject_Z (i - previous_i) in
      map (fun j => Some (base + inject_Z j * increment))
          (py_range (previous_i + 1) i)
        ++ Some position :: assigned i position 0 l'
  end.

Definition default_first (l : list (option Q)) : list (option Q) :=
  match l with
  | None :: l' => Some 0 :: l'
  | _ => l
  end.

Definition default_last (vector_length : Q) (l : list (option Q))
  : list (option Q) :=
  match last l with
  | Some None => <[pred (length l) := Some vector_length]> l
  | _ => l
  end.

(** The values of a list of positions, the missing ones left out. *)
Definition values (l : list (option Q)) : list Q := omap id l.

Definition resolved (vector_length : Q) (positions : list (option Dimension))
  : list Q :=
  match default_last vector_length
          (default_first
             (map (fun position => percentage position vector_length)
                  positions)) with
  | Some first :: l => first :: values (assigned 0 first 0 (increasing first l))
  | _ => []
  end.

(** The last position of the list is set. *)
Fixpoint ends_set (l : list (option Q)) : Prop :=
  match l with
  | [] => False
  | [x] => is_Some x
  | _ :: l' => ends_set l'
  end.

(** ** Example colors *)

Definition red : color := (1, 0, 0, 1).
Definition green : color := (0, 1, 0, 1).
Definition blue : color := (0, 0, 1, 1).

(** Equality of colors, channel by channel. *)
Definition color_eq (c1 c2 : color) : Prop :=
  let '(r1, g1, b1, a1) := c1 in
  let '(r2, g2, b2, a2) := c2 in
  r1 == r2 /\ g1 == g2 /\ b1 == b2 /\ a1 == a2.

(** Positions that are ascending from exactly 0 to exactly 1. *)
Definition unit_interval (l : list Q) : Prop :=
  StronglySorted Qle l
  /\ Forall (fun q => 0 <= q <= 1) l
  /\ (exists first, head l = Some first /\ first == 0)
  /\ (exists last_, last l = Some last_ /\ last_ == 1).

(** The color interpolated at position [p] between a stop of color [c0] at
    [p0] and a stop of color [c1] at [p1], channel by channel.  This
    definition follows the words of the specification ("the value
    interpolated between the two stops"), not the code; premultiplying by
    alpha changes nothing for opaque colors. *)
Definition interpolated_color (c0 : color) (p0 : Q) (c1 : color) (p1 : Q)
    (p : Q) : color :=
  let '(r0, g0, b0, a0) := c0 in
  let '(r1, g1, b1, a1) := c1 in
  let t := (p - p0) / (p1 - p0) in
  (r0 + (r1 - r0) * t, g0 + (g1 - g0) * t, b0 + (b1 - b0) * t,
   a0 + (a1 - a0) * t).

(** The runs of missing positions that the assignment of line 236 fills
    between the two set positions around them: in [anchored previous_i base
    gap l], every run of [l] follows the stop of index 0 or 1, or lies
    between two stops of one position ([previous_i], [base] and [gap] are
    those of [assigned]). *)
Fixpoint anchored (previous_i : Z) (base : Q) (gap : nat)
    (l : list (option Q)) : Prop :=
  match l with
  | [] => True
  | None :: l' => anchored previous_i base (S gap) l'
  | Some position :: l' =>
      (gap = 0%nat \/ (previous_i <= 1)%Z \/ position == base)
      /\ anchored (previous_i + 1 + Z.of_nat gap) position 0 l'
  end.

(** The same, for the positions given to [process_color_stops]: the runs
    are those left once the first and last positions have their defaults,
    and the positions around a run are compared after they are made
    increasing. *)
Definition runs_anchored (vector_length : Q)
    (positions : list (option Dimension)) : Prop :=
  match default_last vector_length
          (default_first
             (map (fun position => percentage position vector_length)
                  positions)) with
  | Some first :: l => anchored 0 first 0 (increasing first l)
  | _ => True
  end.

(** The positions from the first one that is not negative: those that a
    radial gradient that does not repeat keeps (lines 477-497). *)
Fixpoint from_zero (l : list Q) : list Q :=
  match l with
  | [] => []
  | q :: l' => if q <? 0 then from_zero l' else l
  end.

(** * More of [images.py]

    The rest of this file extends the embedding beyond the gradient layout
    and proves further properties of the code. *)

(** ** The sums of [gradient_average_color], by recursion on the lists

    The loop of lines 278-284 adds, for every pair of adjacent stops, the
    weight of the segment between them times the channel value of each of
    its two ends.  [weighted_sum channel total_weight colors positions] is
    that sum for one channel; the loop is proved to compute it. *)

Definition premul_r (c : color) : Q := let '(r, g, b, a) := c in r * a.
Definition premul_g (c : color) : Q := let '(r, g, b, a) := c in g * a.
Definition premul_b (c : color) : Q := let '(r, g, b, a) := c in b * a.
Definition alpha (c : color) : Q := let '(r, g, b, a) := c in a.

Fixpoint weighted_sum (channel : color -> Q) (total_weight : Q)
    (colors : list color) (positions : list Q) : Q :=
  match colors, positions with
  | c0 :: colors', p0 :: positions' =>
      match colors', positions' with
      | c1 :: _, p1 :: _ =>
          (channel c0 + channel c1) * ((p1 - p0) / total_weight)
          + weighted_sum channel total_weight colors' positions'
      | _, _ => 0
      end
  | _, _ => 0
  end.

(** Lines 268-271: the positions and the total length used for the
    weights; stops that all have one position are spaced evenly. *)
Definition weighting (positions : list Q) (first last_ : Q) : list Q * Q :=
  if last_ - first ==? 0
  then (map inject_Z (py_range 0 (Z.of_nat (length positions))),
        inject_Z (Z.of_nat (length positions)) - 1)
  else (positions, last_ - first).

(** A color whose four components are between 0 and 1. *)
Definition valid_color (c : color) : Prop :=
  let '(r, g, b, a) := c in
  0 <= r <= 1 /\ 0 <= g <= 1 /\ 0 <= b <= 1 /\ 0 <= a <= 1.

(** Positions whose adjacent differences are all [d]. *)
Fixpoint steps (d : Q) (positions : list Q) : Prop :=
  match positions with
  | p0 :: positions' =>
      match positions' with
      | p1 :: _ => p1 - p0 == d /\ steps d positions'
      | [] => True
      end
  | [] => True
  end.

(** ** Drawing gradients

    The [draw] methods receive a [context], the PDF stream of the page,
    which is defined outside this file.  It is embedded by the calls that
    [draw] makes on it and on the shading dictionary that [add_shading]
    returns, in order, with their arguments.  The identifier of that
    dictionary, [shading.id], is chosen by the stream and is a parameter.
    When [draw] raises, the result is the exception, without the calls made
    before it. *)

Module pydyf.

(** The PDF objects that [draw] builds.  Numbers, [int] or [float], are
    rationals, as everywhere in this development; a [Dictionary] keeps its
    items in the order in which they are written. *)
#[local] Unset Elimination Schemes.
Inductive object :=
| number (x : Q)
| str (s : string)
| bytes (s : string)
| Array (items : list object)
| Dictionary (items : list (string * object)).
#[local] Set Elimination Schemes.

End pydyf.

Module Stream.

Inductive call :=
| rectangle (x y width height : Q)
| set_color_rgb (r g b : Q)
| fill
| add_shading
(* shading[key] = value *)
| setitem (key : string) (value : pydyf.object)
| transform (a b c d e f : Q)
| shading (id : string).

End Stream.

(** A gradient is an instance of one of the two subclasses of [Gradient];
    [Gradient_layout] is the call [self.layout(...)] made by [draw]. *)
Inductive gradient :=
| linear (self : LinearGradient.t)
| radial (self : RadialGradient.t).

Definition Gradient_layout `{Math} (self : gradient) (width height : Q)
  : result Layout :=
  match self with
  | linear self => LinearGradient.layout self width height
  | radial self => RadialGradient.layout self width height
  end.

Definition Gradient_repeating (self : gradient) : bool :=
  match self with
  | linear self => LinearGradient.repeating self
  | radial self => RadialGradient.repeating self
  end.

(** [colors[i][:3]] *)
Definition rgb (c : color) : list pydyf.object :=
  let '(r, g, b, _) := c in [pydyf.number r; pydyf.number g; pydyf.number b].

(** [l[i:j]] *)
Definition py_slice {A} (l : list A) (i j : Z) : list A :=
  take (py_bound l j - py_bound l i) (drop (py_bound l i) l).

(** [pydyf.Array(points)]: [points] is [None] for a solid color. *)
Definition coordinates (points : option (list Q)) : result pydyf.object :=
  match points with
  | Some points => Ok (pydyf.Array (map pydyf.number points))
  | None => Raise TypeError
  end.

(** Lines 327-333: the function that interpolates between two colors. *)
Definition function_between (c0 c1 : color) : pydyf.object :=
  pydyf.Dictionary
    [("FunctionType", pydyf.number 2);
     ("Domain", pydyf.Array [pydyf.number 0; pydyf.number 1]);
     ("C0", pydyf.Array (rgb c0));
     ("C1", pydyf.Array (rgb c1));
     ("N", pydyf.number 1)].

(** Lines 326-334: the functions between adjacent colors,
    [[... for i in range(len(colors) - 1)]]. *)
Definition color_functions (colors : list color)
  : result (list pydyf.object) :=
  for_in (py_range 0 (Z.of_nat (length colors) - 1))
    (fun functions i =>
       function ← (c0 ← py_index colors i;
                   c1 ← py_index colors (i + 1);
                   Ok (function_between c0 c1));
       Ok (functions ++ [function]))
    [].

Definition Gradient_draw `{Math} (self : gradient) (id : string)
    (concrete_width concrete_height : Q) : result (list Stream.call) :=
  plan ← Gradient_layout self concrete_width concrete_height;
  let '(mkLayout scale_y type_ points positions colors) := plan in
  if String.eqb type_ "solid"
  then
    c ← py_index colors 0;
    let '(r, g, b, _) := c in
    Ok [Stream.rectangle 0 0 concrete_width concrete_height;
        Stream.set_color_rgb r g b;
        Stream.fill]
  else
    let shading_type := if String.eqb type_ "linear" then 2 else 3 in
    first ← py_index positions 0;
    last ← py_index positions (-1);
    coords ← coordinates points;
    first' ← py_index positions 0;
    last' ← py_index positions (-1);
    functions ← color_functions colors;
    let function :=
      pydyf.Dictionary
        [("FunctionType", pydyf.number 3);
         ("Domain", pydyf.Array [pydyf.number first'; pydyf.number last']);
         ("Encode",
          pydyf.Array
            (py_repeat_list [pydyf.number 0; pydyf.number 1]
               (Z.of_nat (length colors) - 1)));
         ("Bounds", pydyf.Array (map pydyf.number (py_slice positions 1 (-1))));
         ("Functions", pydyf.Array functions)] in
    Ok ([Stream.add_shading;
         Stream.setitem "ShadingType" (pydyf.number shading_type);
         Stream.setitem "ColorSpace" (pydyf.str "/DeviceRGB");
         Stream.setitem "Domain"
           (pydyf.Array [pydyf.number first; pydyf.number last]);
         Stream.setitem "Coords" coords;
         Stream.setitem "Function" function]
        ++ (if negb (Gradient_repeating self)
            then [Stream.setitem "Extend"
                    (pydyf.Array [pydyf.bytes "true"; pydyf.bytes "true"])]
            else [])
        ++ [Stream.transform 1 0 0 scale_y 0 0;
            Stream.shading id]).

(** A gradient returned by the constructor of its class. *)
Definition constructed (self : gradient) : Prop :=
  match self with
  | linear self =>
      exists color_stops direction repeating,
        LinearGradient.__init__ color_stops direction repeating = Ok self
  | radial self =>
      exists color_stops shape size center repeating,
        RadialGradient.__init__ color_stops shape size center repeating
        = Ok self
  end.

(** ** Raster images *)

(** [float('inf')] is the one value of this file that is not a rational. *)
Inductive extended :=
| finite (q : Q)
| inf.

Module RasterImage.

(** What the code reads of a [PIL] image: its size in pixels. *)
Record pillow := mk_pillow {
  width : Z;
  height : Z;
}.

Record t := mk {
  pillow_image : pillow;
  optimize_image : bool;
  _intrinsic_width : Z;
  _intrinsic_height : Z;
  intrinsic_ratio : extended;
}.

Definition __init__ (pillow_image : pillow) (optimize_image : bool) : t :=
  let _intrinsic_width := width pillow_image in
  let _intrinsic_height := height pillow_image in
  {| pillow_image := pillow_image;
     optimize_image := optimize_image;
     _intrinsic_width := _intrinsic_width;
     _intrinsic_height := _intrinsic_height;
     intrinsic_ratio :=
       if negb (_intrinsic_height =? 0)%Z
       then finite (inject_Z _intrinsic_width / inject_Z _intrinsic_height)
       else inf |}.

(** Raster images are affected by the 'image-resolution' property. *)
Definition get_intrinsic_size (self : t) (image_resolution _font_size : Q)
  : result (Q * Q) :=
  w ← py_div (inject_Z (_intrinsic_width self)) image_resolution;
  h ← py_div (inject_Z (_intrinsic_height self)) image_resolution;
  Ok (w, h).

End RasterImage.

(** ** Exceptions of the image loader *)

(** The exceptions that cross [get_image_from_uri]: the two that it handles,
    [KeyError], and [Exception] for any other one, given by the name of its
    type and its [str()]. *)
Inductive error :=
| URLFetchingError (message : string)
| ImageLoadingError (message : string)
| KeyError (key : string)
| Exception (name value : string).

(** [type(exception).__name__] *)
Definition type_name (exception : error) : string :=
  match exception with
  | URLFetchingError _ => "URLFetchingError"
  | ImageLoadingError _ => "ImageLoadingError"
  | KeyError _ => "KeyError"
  | Exception name _ => name
  end.

(** [str(exception)] *)
Definition str (exception : error) : string :=
  match exception with
  | URLFetchingError message => message
  | ImageLoadingError message => message
  | KeyError key => "'" ++ key ++ "'"
  | Exception _ value => value
  end.

(** [ImageLoadingError.from_exception] *)
Definition from_exception (exception : error) : error :=
  let name := type_name exception in
  let value := str exception in
  ImageLoadingError
    (if negb (String.eqb value "") then name ++ ": " ++ value else name).

Inductive outcome (A : Type) :=
| returned (a : A)
| raised (e : error).
Arguments returned {A} a.
Arguments raised {A} e.

#[export] Instance outcome_ret : MRet outcome := fun A a => returned a.
#[export] Instance outcome_bind : MBind outcome :=
  fun A B f m => match m with returned a => f a | raised e => raised e end.

(** What [images.py] calls outside itself to load an image.  A resource is
    the dictionary that [fetch] yields on entering the [with] statement; its
    values are strings, the one under ["file_obj"] naming a file object.  A
    MIME type that is not a string is only compared with ["image/svg+xml"],
    as any other string is.  Leaving the [with] statement runs code of
    [weasyprint.urls] that is not part of this file, and is taken not to
    raise. *)
Class Libraries := {
  (* the type of [url_fetcher] *)
  url_fetcher_t : Type;
  (* the type of [xml.etree.ElementTree] elements *)
  Element : Type;
  (* [with fetch(url_fetcher, url) as result], of [weasyprint.urls] *)
  fetch : url_fetcher_t -> string -> outcome (gmap string string);
  (* [file_obj.read()] *)
  read : string -> outcome string;
  (* [Image.open(BytesIO(string))], of [PIL] *)
  Image_open : string -> outcome RasterImage.pillow;
  (* [ElementTree.fromstring(svg_data)] *)
  ElementTree_fromstring : string -> outcome Element;
}.

(** [d[key]] *)
Definition getitem (d : gmap string string) (key : string) : outcome string :=
  match d !! key with
  | Some v => returned v
  | None => raised (KeyError key)
  end.

(** [s.lower()], on the letters A to Z. *)
Fixpoint lower (s : string) : string :=
  match s with
  | EmptyString => EmptyString
  | String c s' =>
      let n := Ascii.nat_of_ascii c in
      String (if (65 <=? n)%nat && (n <=? 90)%nat
              then Ascii.ascii_of_nat (n + 32)
              else c)
             (lower s')
  end.

(** ** SVG images *)

(** The truth value of a number: [if x:], [x and y], [x or None]. *)
Definition truthy (x : Q) : bool := negb (x ==? 0).

Module SVGImage.

Record t `{Libraries} := mk {
  _base_url : option string;
  _svg_data : string;
  _url_fetcher : url_fetcher_t;
  _tree : Element;
}.

Definition __init__ `{Libraries} (svg_data base_url : string)
    (url_fetcher : url_fetcher_t) : outcome t :=
  (* Don't pass data URIs to CairoSVG. *)
  let _base_url :=
    if negb (startswith (lower base_url) "data:") then Some base_url
    else None in
  match ElementTree_fromstring svg_data with
  | returned tree =>
      returned {| _base_url := _base_url;
                  _svg_data := svg_data;
                  _url_fetcher := url_fetcher;
                  _tree := tree |}
  | raised e => raised (from_exception e)
  end.

(** Lines 124-141 of [get_intrinsic_size]: the intrinsic width, height and
    ratio, from the width and height that [cairosvg.surface.size] gives for
    the attributes of the root element (0 when missing or a percentage) and
    from the view box that [cairosvg.surface.node_format] gives ([None], or
    the numbers of the [viewBox] attribute).  The result is
    [(self._intrinsic_width, self._intrinsic_height, self.intrinsic_ratio)];
    the method returns the first two. *)
Definition intrinsic (_width _height : Q) (viewbox : option (list Q))
  : result (option Q * option Q * option Q) :=
  let _intrinsic_width := if truthy _width then Some _width else None in
  let _intrinsic_height := if truthy _height then Some _height else None in
  let if_viewbox :=
    match viewbox with
    | Some (_ :: _) => true
    | _ => false
    end in
  let viewbox := default [] viewbox in
  if if_viewbox
  then
    if truthy _width && truthy _height
    then
      intrinsic_ratio ← py_div _width _height;
      Ok (_intrinsic_width, _intrinsic_height, Some intrinsic_ratio)
    else
      v2 ← py_index viewbox 2;
      both ← (if truthy v2
              then v3 ← py_index viewbox 3; Ok (truthy v3)
              else Ok false);
      if both : bool
      then
        v2 ← py_index viewbox 2;
        v3 ← py_index viewbox 3;
        intrinsic_ratio ← py_div v2 v3;
        if truthy _width
        then
          _intrinsic_height ← py_div _width intrinsic_ratio;
          Ok (_intrinsic_width, Some _intrinsic_height, Some intrinsic_ratio)
        else if truthy _height
        then
          Ok (Some (_height * intrinsic_ratio), _intrinsic_height,
              Some intrinsic_ratio)
        else Ok (_intrinsic_width, _intrinsic_height, Some intrinsic_ratio)
      else Ok (_intrinsic_width, _intrinsic_height, None)
  else
    if truthy _width && truthy _height
    then
      intrinsic_ratio ← py_div _width _height;
      Ok (_intrinsic_width, _intrinsic_height, Some intrinsic_ratio)
    else Ok (_intrinsic_width, _intrinsic_height, None).

End SVGImage.

(** ** [get_image_from_uri] *)

Inductive image `{Libraries} :=
| raster (self : RasterImage.t)
| svg (self : SVGImage.t).

(** Lines 171-188: the body of the [try] statement. *)
Definition load_image `{Libraries} (url_fetcher : url_fetcher_t)
    (optimize_images : bool) (url : string) (forced_mime_type : option string)
  : outcome image :=
  result ← fetch url_fetcher url;
  string ← (if bool_decide (is_Some (result !! "string"))
            then getitem result "string"
            else file_obj ← getitem result "file_obj"; read file_obj);
  mime_type ← match forced_mime_type with
              | Some forced =>
                  if negb (String.eqb forced "") then returned forced
                  else getitem result "mime_type"
              | None => getitem result "mime_type"
              end;
  if String.eqb mime_type "image/svg+xml"
  then
    (* No fallback for XML-based mimetypes *)
    image ← SVGImage.__init__ string url url_fetcher;
    returned (svg image)
  else
    (* Try to rely on given mimetype *)
    match Image_open string with
    | raised exception => raised (from_exception exception)
    | returned pillow_image =>
        returned (raster (RasterImage.__init__ pillow_image optimize_images))
    end.

(** The cache maps a URL to an image, or to [None] when loading failed.
    The state is the cache and the messages logged by [LOGGER.error], each
    given by the URL and the [str()] of the exception. *)
Definition get_image_from_uri `{Libraries}
    (cache : gmap string (option image)) (log : list (string * string))
    (url_fetcher : url_fetcher_t) (optimize_images : bool) (url : string)
    (forced_mime_type : option string)
  : outcome (option image * gmap string (option image)
             * list (string * string)) :=
  match cache !! url with
  | Some image => returned (image, cache, log)
  | None =>
      match load_image url_fetcher optimize_images url forced_mime_type with
      | returned image =>
          returned (Some image, <[url := Some image]> cache, log)
      | raised (URLFetchingError _ as exception)
      | raised (ImageLoadingError _ as exception) =>
          returned (None, <[url := None]> cache, log ++ [(url, str exception)])
      | raised exception => raised exception
      end
  end.

(** ** An instance of the libraries

    Used to run the loader on concrete resources: the URL ["image.png"]
    leads to a picture of 4 by 2 pixels, ["drawing.svg"] to the file object
    of an SVG document, ["text.txt"] to data that [PIL] does not identify,
    ["closed.png"] to a file object whose [read()] raises,
    ["missing.png"] to a [URLFetchingError], and any other URL to an
    [OSError] of the fetcher.  A file object is named by its content. *)
Definition example_libraries : Libraries := {|
  url_fetcher_t := unit;
  Element := string;
  fetch := fun _ url =>
    if String.eqb url "image.png"
    then returned {["string" := "PNG"; "mime_type" := "image/png"]}
    else if String.eqb url "drawing.svg"
    then returned {["file_obj" := "<svg/>"; "mime_type" := "image/svg+xml"]}
    else if String.eqb url "text.txt"
    then returned {["string" := "hello"; "mime_type" := "text/plain"]}
    else if String.eqb url "closed.png"
    then returned {["file_obj" := "closed"; "mime_type" := "image/png"]}
    else if String.eqb url "missing.png"
    then raised (URLFetchingError "HTTP Error 404: Not Found")
    else raised (Exception "OSError" "connection reset");
  read := fun file_obj =>
    if String.eqb file_obj "closed"
    then raised (Exception "ValueError" "I/O operation on closed file.")
    else returned file_obj;
  Image_open := fun data =>
    if String.eqb data "PNG"
    then returned (RasterImage.mk_pillow 4 2)
    else raised (Exception "UnidentifiedImageError"
                   "cannot identify image file");
  ElementTree_fromstring := fun svg_data =>
    if String.eqb svg_data "<svg/>" then returned "svg"%string
    else raised (Exception "ParseError" "syntax error: line 1, column 0");
|}.
(** * Verification *)

(** ** Boolean tests on rationals *)

Lemma Qlt_bool_iff (a b : Q) : (a <? b) = true <-> a < b.
Proof.
  unfold Qlt_bool. rewrite negb_true_iff, <- not_true_iff_false, Qle_bool_iff.
  split; [apply Qnot_le_lt | apply Qlt_not_le].
Qed.

Lemma Qeq_bool_reflect (a b : Q) : reflect (a == b) (a ==? b).
Proof. apply iff_reflect. symmetry. apply Qeq_bool_iff. Qed.

Lemma Qle_bool_reflect (a b : Q) : reflect (a <= b) (a <=? b).
Proof. apply iff_reflect. symmetry. apply Qle_bool_iff. Qed.

Lemma Qlt_bool_reflect (a b : Q) : reflect (a < b) (a <? b).
Proof. apply iff_reflect. symmetry. apply Qlt_bool_iff. Qed.

(** Case analysis on the first rational test of the goal. *)
Ltac Qcase :=
  match goal with
  | |- context [?a ==? ?b] => destruct (Qeq_bool_reflect a b)
  | |- context [?a <? ?b] => destruct (Qlt_bool_reflect a b)
  | |- context [?a <=? ?b] => destruct (Qle_bool_reflect a b)
  end.

(** ** The error monad *)

Lemma bind_Ok {A B} (m : result A) (f : A -> result B) (b : B) :
  m ≫= f = Ok b <-> exists a, m = Ok a /\ f a = Ok b.
Proof.
  destruct m as [a|e]; simpl; split.
  - intros Hf. by exists a.
  - by intros (a' & [= <-] & Hf).
  - intros [=].
  - by intros (a' & [=] & _).
Qed.

(** Invert a hypothesis [m ≫= f = Ok b]. *)
Ltac inv_bind H :=
  let a := fresh "a" in
  let Ha := fresh "Ha" in
  apply bind_Ok in H; destruct H as (a & Ha & H).

Lemma bind_ret {A B} (a : A) (f : A -> result B) : Ok a ≫= f = f a.
Proof. done. Qed.

Lemma py_assert_Ok (b : bool) (u : unit) : py_assert b = Ok u <-> b = true.
Proof. destruct b, u; simpl; split; congruence. Qed.

Lemma for_in_app {A S} (l1 l2 : list A) (body : S -> A -> result S) (s : S) :
  for_in (l1 ++ l2) body s = for_in l1 body s ≫= for_in l2 body.
Proof.
  revert s. induction l1 as [|x l1 IH]; intros s; simpl; [done|].
  destruct (body s x) as [s'|e]; simpl; [apply IH | done].
Qed.

(** ** Python lists *)

Lemma py_range_nil (a b : Z) : (b <= a)%Z -> py_range a b = [].
Proof.
  intros Hab. unfold py_range. by replace (Z.to_nat (b - a)) with 0%nat by lia.
Qed.

Lemma py_range_cons (a b : Z) :
  (a < b)%Z -> py_range a b = a :: py_range (a + 1) b.
Proof.
  intros Hab. unfold py_range.
  replace (Z.to_nat (b - a)) with (S (Z.to_nat (b - (a + 1)))) by lia.
  simpl. f_equal; [lia|].
  rewrite <- seq_shift, map_map. apply map_ext. intros k; lia.
Qed.

Lemma py_range_length (a b : Z) : length (py_range a b) = Z.to_nat (b - a).
Proof. unfold py_range. by rewrite length_map, length_seq. Qed.

Lemma py_index_middle {A} (pre post : list A) (x : A) (i : Z) :
  i = Z.of_nat (length pre) -> py_index (pre ++ x :: post) i = Ok x.
Proof.
  intros ->. unfold py_index.
  destruct (Z.ltb_spec (Z.of_nat (length pre)) 0); [lia|].
  destruct (Z.ltb_spec (Z.of_nat (length pre)) 0); [lia|].
  by rewrite Nat2Z.id, list_lookup_middle.
Qed.

Lemma py_index_0 {A} (x : A) (l : list A) : py_index (x :: l) 0 = Ok x.
Proof. done. Qed.

Lemma py_index_last {A} (pre : list A) (x : A) :
  py_index (pre ++ [x]) (-1) = Ok x.
Proof.
  unfold py_index. destruct (Z.ltb_spec (-1) 0); [|lia].
  rewrite length_app. simpl length.
  destruct (Z.ltb_spec (Z.of_nat (length pre + 1) + -1) 0); [lia|].
  replace (Z.to_nat (Z.of_nat (length pre + 1) + -1)) with (length pre) by lia.
  by rewrite list_lookup_middle.
Qed.

Lemma py_setitem_middle {A} (pre post : list A) (x v : A) (i : Z) :
  i = Z.of_nat (length pre) ->
  py_setitem (pre ++ x :: post) i v = Ok (pre ++ v :: post).
Proof.
  intros ->. unfold py_setitem.
  destruct (Z.ltb_spec (Z.of_nat (length pre)) 0); [lia|].
  destruct (Z.ltb_spec (Z.of_nat (length pre)) 0); [lia|].
  rewrite length_app. simpl length.
  destruct (Z.ltb_spec (Z.of_nat (length pre))
              (Z.of_nat (length pre + S (length post)))); [|lia].
  rewrite Nat2Z.id. f_equal.
  rewrite insert_app_r_alt by lia. by rewrite Nat.sub_diag.
Qed.

Lemma py_setitem_last {A} (pre : list A) (x v : A) :
  py_setitem (pre ++ [x]) (-1) v = Ok (pre ++ [v]).
Proof.
  unfold py_setitem. destruct (Z.ltb_spec (-1) 0); [|lia].
  rewrite length_app. simpl length.
  destruct (Z.ltb_spec (Z.of_nat (length pre + 1) + -1) 0); [lia|].
  destruct (Z.ltb_spec (Z.of_nat (length pre + 1) + -1)
              (Z.of_nat (length pre + 1))); [|lia].
  replace (Z.to_nat (Z.of_nat (length pre + 1) + -1)) with (length pre) by lia.
  f_equal. rewrite insert_app_r_alt by lia. by rewrite Nat.sub_diag.
Qed.

(** ** [process_color_stops]: the loops as recursive functions *)

Lemma increasing_body_step (pre post : list (option Q)) (x : option Q)
    (previous_pos : Q) (a : Z) :
  a = Z.of_nat (length pre) ->
  increasing_body (pre ++ x :: post, previous_pos) a
  = Ok match x with
       | Some position =>
           if position <? previous_pos
           then (pre ++ Some previous_pos :: post, previous_pos)
           else (pre ++ x :: post, position)
       | None => (pre ++ x :: post, previous_pos)
       end.
Proof.
  intros Ha. unfold increasing_body.
  rewrite py_index_middle, bind_ret by done.
  destruct x as [position|]; [|done].
  destruct (position <? previous_pos); [|done].
  rewrite py_setitem_middle, bind_ret by done. done.
Qed.

Lemma increasing_loop (l pre : list (option Q)) (previous_pos : Q) (a : Z) :
  a = Z.of_nat (length pre) ->
  exists previous_pos',
    for_in (py_range a (a + Z.of_nat (length l)))
           increasing_body (pre ++ l, previous_pos)
    = Ok (pre ++ increasing previous_pos l, previous_pos').
Proof.
  revert pre previous_pos a.
  induction l as [|x l IH]; intros pre previous_pos a Ha.
  - rewrite py_range_nil by (simpl; lia). by exists previous_pos.
  - rewrite py_range_cons by (simpl length; lia).
    replace (a + Z.of_nat (length (x :: l)))%Z
      with (a + 1 + Z.of_nat (length l))%Z by (simpl length; lia).
    assert (Hstep : forall (y : option Q) t,
      pre ++ y :: t = (pre ++ [y]) ++ t) by (intros; by rewrite <- app_assoc).
    assert (Hlen : forall y : option Q,
      (a + 1)%Z = Z.of_nat (length (pre ++ [y])))
      by (intros; rewrite length_app; simpl; lia).
    cbn [for_in]. rewrite increasing_body_step, bind_ret by done.
    destruct x as [position|]; cbn [increasing].
    + destruct (position <? previous_pos).
      * rewrite (Hstep (Some previous_pos) l),
          (Hstep (Some previous_pos) (increasing _ _)).
        by apply IH.
      * rewrite (Hstep (Some position) l),
          (Hstep (Some position) (increasing _ _)).
        by apply IH.
    + rewrite (Hstep None l), (Hstep None (increasing _ _)). by apply IH.
Qed.

Lemma fill_loop (f : Z -> option Q) (xs pre post : list (option Q))
    (a b : Z) :
  a = Z.of_nat (length pre) ->
  b = (a + Z.of_nat (length xs))%Z ->
  for_in (py_range a b)
         (fun positions j => py_setitem positions j (f j))
         (pre ++ xs ++ post)
  = Ok (pre ++ map f (py_range a b) ++ post).
Proof.
  revert pre a. induction xs as [|x xs IH]; intros pre a Ha Hb.
  - by rewrite py_range_nil by (simpl in Hb; lia).
  - rewrite py_range_cons by (simpl length in Hb; lia).
    cbn [for_in map app]. rewrite py_setitem_middle, bind_ret by done.
    replace (pre ++ f a :: xs ++ post) with ((pre ++ [f a]) ++ xs ++ post)
      by (by rewrite <- app_assoc).
    rewrite IH; [by rewrite <- app_assoc| |].
    + rewrite length_app; simpl; lia.
    + simpl length in Hb. lia.
Qed.

Lemma replicate_None_cons (gap : nat) (l : list (option Q)) :
  replicate gap None ++ None :: l = replicate (S gap) None ++ l.
Proof. induction gap as [|gap IH]; simpl; [done|]. by rewrite IH. Qed.

Lemma assign_body_None (pre post : list (option Q)) (previous_i a : Z) :
  a = Z.of_nat (length pre) ->
  assign_body (pre ++ None :: post, previous_i) a
  = Ok (pre ++ None :: post, previous_i).
Proof.
  intros Ha. unfold assign_body.
  rewrite (py_index_middle pre post None a), bind_ret by done. done.
Qed.

Lemma assign_body_Some (pre post : list (option Q)) (gap : nat)
    (base position : Q) (previous_i i : Z) :
  previous_i = Z.of_nat (length pre) ->
  i = (previous_i + 1 + Z.of_nat gap)%Z ->
  assign_body (pre ++ Some base :: replicate gap None ++ Some position :: post,
               previous_i) i
  = Ok (pre ++ Some base
          :: map (fun j => Some (base + inject_Z j
                                  * ((position - base)
                                     / inject_Z (i - previous_i))))
                 (py_range (previous_i + 1) i)
          ++ Some position :: post, i).
Proof.
  intros Hp Hi. unfold assign_body.
  assert (Hi' : i = Z.of_nat (length (pre ++ Some base :: replicate gap None))).
  { rewrite length_app. cbn [length]. rewrite length_replicate. lia. }
  replace (pre ++ Some base :: replicate gap None ++ Some position :: post)
    with ((pre ++ Some base :: replicate gap None) ++ Some position :: post)
    by (by rewrite <- app_assoc).
  rewrite (py_index_middle _ post (Some position) i), bind_ret by done.
  rewrite <- app_assoc. cbn [app].
  rewrite (py_index_middle pre _ (Some base) previous_i), bind_ret by done.
  cbn [number].
  rewrite bind_ret. unfold py_div.
  destruct (Qeq_bool_reflect (inject_Z (i - previous_i)) 0) as [E|_].
  { exfalso. revert E. unfold Qeq, inject_Z. simpl. lia. }
  rewrite bind_ret.
  replace (pre ++ Some base :: replicate gap None ++ Some position :: post)
    with ((pre ++ [Some base]) ++ replicate gap None
            ++ Some position :: post)
    by (by rewrite <- app_assoc).
  rewrite (fill_loop _ (replicate gap None) (pre ++ [Some base]) _
             (previous_i + 1) i), bind_ret.
  2:{ rewrite length_app; simpl; lia. }
  2:{ rewrite length_replicate; lia. }
  by rewrite <- app_assoc.
Qed.

Lemma assign_loop (l pre : list (option Q)) (gap : nat) (base : Q)
    (previous_i i : Z) :
  previous_i = Z.of_nat (length pre) ->
  i = (previous_i + 1 + Z.of_nat gap)%Z ->
  exists previous_i',
    for_in (py_range i (i + Z.of_nat (length l))) assign_body
           (pre ++ Some base :: replicate gap None ++ l, previous_i)
    = Ok (pre ++ Some base :: assigned previous_i base gap l, previous_i').
Proof.
  revert pre gap base previous_i i.
  induction l as [|x l IH]; intros pre gap base previous_i i Hp Hi.
  - rewrite py_range_nil by (simpl; lia). cbn [for_in assigned].
    rewrite app_nil_r. eauto.
  - rewrite py_range_cons by (simpl length; lia).
    replace (i + Z.of_nat (length (x :: l)))%Z
      with (i + 1 + Z.of_nat (length l))%Z by (simpl length; lia).
    cbn [for_in].
    destruct x as [position|]; cbn [assigned].
    + rewrite (assign_body_Some pre l gap base position previous_i i),
        bind_ret by done.
      rewrite <- Hi.
      set (filled := map _ (py_range (previous_i + 1) i)).
      destruct (IH ((pre ++ [Some base]) ++ filled) 0%nat position i (i + 1)%Z)
        as [p' IHp].
      { rewrite !length_app. unfold filled.
        rewrite length_map, py_range_length. simpl. lia. }
      { lia. }
      exists p'. cbn [replicate app] in IHp.
      rewrite <- !app_assoc in IHp. cbn [app] in IHp.
      exact IHp.
    + replace (pre ++ Some base :: replicate gap None ++ None :: l)
        with ((pre ++ Some base :: replicate gap None) ++ None :: l)
        by (by rewrite <- app_assoc).
      rewrite assign_body_None, bind_ret
        by (rewrite length_app; cbn [length]; rewrite length_replicate; lia).
      destruct (IH pre (S gap) base previous_i (i + 1)%Z) as [p' IHp];
        [done|lia|].
      exists p'. rewrite <- app_assoc. cbn [app].
      rewrite replicate_None_cons. exact IHp.
Qed.

Lemma ends_set_snoc (l : list (option Q)) :
  ends_set l <-> exists pre v, l = pre ++ [Some v].
Proof.
  induction l as [|x [|y l] IH].
  - split; [done|]. intros (pre & v & Hl). by destruct pre.
  - split.
    + intros [v ->]. by exists [], v.
    + intros (pre & v & Hl). destruct pre as [|? [|? ?]]; simplify_eq/=.
      by eexists.
  - change (ends_set (x :: y :: l)) with (ends_set (y :: l)).
    rewrite IH. split.
    + intros (pre & v & ->). by exists (x :: pre), v.
    + intros (pre & v & Hl). destruct pre as [|x' pre]; simplify_eq/=.
      by exists pre, v.
Qed.

Lemma ends_set_cons (x : option Q) (l : list (option Q)) :
  ends_set l -> ends_set (x :: l).
Proof. by destruct l. Qed.

Lemma increasing_length (l : list (option Q)) (p : Q) :
  length (increasing p l) = length l.
Proof.
  revert p. induction l as [|[x|] l IH]; intros p; simpl; [done| |].
  - destruct (x <? p); simpl; by rewrite IH.
  - by rewrite IH.
Qed.

Lemma increasing_cons (x : option Q) (l : list (option Q)) (p : Q) :
  exists z p', increasing p (x :: l) = z :: increasing p' l
               /\ (is_Some x -> is_Some z).
Proof.
  destruct x as [x|]; simpl; [destruct (x <? p)|]; eauto.
Qed.

Lemma increasing_ends_set (l : list (option Q)) (p : Q) :
  ends_set l -> ends_set (increasing p l).
Proof.
  revert p. induction l as [|x [|y l] IH]; intros p; [done| |].
  - intros Hx. destruct (increasing_cons x [] p) as (z & p' & -> & Hz).
    by apply Hz.
  - intros Hl. change (ends_set (y :: l)) in Hl.
    destruct (increasing_cons x (y :: l) p) as (z & p' & -> & _).
    apply ends_set_cons, IH, Hl.
Qed.

Lemma assigned_all_Some (l : list (option Q)) (previous_i : Z) (base : Q)
    (gap : nat) :
  match l with [] => gap = 0%nat | _ => ends_set l end ->
  Forall is_Some (assigned previous_i base gap l).
Proof.
  revert previous_i base gap.
  induction l as [|x l IH]; intros previous_i base gap Hl.
  - subst gap. constructor.
  - destruct x as [position|]; cbn [assigned].
    + apply Forall_app. split.
      * apply Forall_forall. intros y Hy. apply list_elem_of_In in Hy.
        apply in_map_iff in Hy. destruct Hy as (j & <- & _). by eexists.
      * constructor; [by eexists|]. apply IH. by destruct l.
    + apply IH. destruct l; [by destruct Hl|done].
Qed.

Lemma numbers_values (l : list (option Q)) :
  Forall is_Some l -> numbers l = Ok (values l).
Proof.
  unfold numbers. intros Hl.
  enough (forall acc,
    for_in l (fun acc p => q ← number p; Ok (acc ++ [q])) acc
    = Ok (acc ++ values l)) as H by apply (H []).
  induction Hl as [|x l [q ->] _ IH]; intros acc; simpl.
  - by rewrite app_nil_r.
  - rewrite IH, <- app_assoc. done.
Qed.

Lemma default_last_snoc (vector_length : Q) (pre : list (option Q))
    (y : option Q) :
  default_last vector_length (pre ++ [y])
  = pre ++ [Some (default vector_length y)].
Proof.
  unfold default_last. rewrite last_snoc.
  destruct y as [v|]; [done|].
  rewrite length_app. simpl length.
  replace (pred (length pre + 1)) with (length pre + 0)%nat by lia.
  by rewrite insert_app_r.
Qed.

Lemma default_last_cons_Some (vector_length v : Q) (l : list (option Q)) :
  exists l', default_last vector_length (Some v :: l) = Some v :: l'
             /\ length l' = length l
             /\ match l' with [] => True | _ => ends_set l' end.
Proof.
  destruct (decide (l = [])) as [->|Hl].
  - by exists [].
  - destruct (exists_last Hl) as (pre & y & ->).
    rewrite app_comm_cons, default_last_snoc. eexists. split; [done|].
    split; [by rewrite !length_app|].
    assert (ends_set (pre ++ [Some (default vector_length y)]))
      by (apply ends_set_snoc; eauto).
    by destruct pre.
Qed.

Lemma assign_body_first (first v : Q) (l : list (option Q)) :
  py_index (Some first :: l) (-1) = Ok (Some v) ->
  assign_body (Some first :: l, (-1)%Z) 0 = Ok (Some first :: l, 0%Z).
Proof.
  intros Hlast. unfold assign_body.
  rewrite py_index_0, bind_ret, Hlast, bind_ret. cbn [number].
  rewrite bind_ret. unfold py_div.
  destruct (Qeq_bool_reflect (inject_Z (0 - -1)) 0) as [E|_]; [done|].
  rewrite bind_ret.
  rewrite (py_range_nil (-1 + 1) 0) by lia. cbn [for_in].
  by rewrite !bind_ret.
Qed.

(** The index-based code computes [resolved]. *)
Lemma process_color_stops_resolved (vector_length : Q)
    (positions : list (option Dimension)) :
  positions <> [] ->
  process_color_stops vector_length positions
  = Ok (resolved vector_length positions).
Proof.
  intros Hne. unfold process_color_stops, resolved.
  set (l0 := map _ positions).
  assert (Hl0 : l0 <> []) by (unfold l0; by destruct positions).
  clearbody l0. destruct l0 as [|x l0]; [done|]. clear Hl0.
  rewrite py_index_0, bind_ret.
  assert (Hfirst : exists first,
    default_first (x :: l0) = Some first :: l0
    /\ (if is_None x then py_setitem (x :: l0) 0 (Some 0) else Ok (x :: l0))
       = Ok (Some first :: l0)).
  { destruct x as [v|]; [by exists v|]. by exists 0. }
  destruct Hfirst as (first & -> & ->). rewrite bind_ret.
  destruct (default_last_cons_Some vector_length first l0)
    as (l1 & Hl1 & Hlen & Hend).
  assert (Hlast : exists last,
    py_index (Some first :: l0) (-1) = Ok last
    /\ (if is_None last
        then py_setitem (Some first :: l0) (-1) (Some vector_length)
        else Ok (Some first :: l0)) = Ok (Some first :: l1)).
  { destruct (exists_last (l:=Some first :: l0)) as (pre & y & Hy); [done|].
    rewrite Hy in Hl1 |- *. rewrite default_last_snoc in Hl1.
    exists y. rewrite py_index_last. split; [done|].
    destruct y as [v|]; simpl in *; [by rewrite Hl1|].
    by rewrite py_setitem_last, Hl1. }
  destruct Hlast as (last & -> & Hset). rewrite bind_ret, Hset, bind_ret.
  rewrite Hl1. clear Hset Hl1.
  rewrite py_index_0, bind_ret. cbn [number]. rewrite bind_ret.
  destruct (increasing_loop (Some first :: l1) [] first 0 eq_refl)
    as [p' Hinc].
  rewrite Z.add_0_l in Hinc. cbn [app] in Hinc. rewrite Hinc, bind_ret.
  clear Hinc. cbn [increasing].
  assert ((first <? first) = false) as ->.
  { destruct (Qlt_bool_reflect first first) as [H|]; [|done].
    by apply Qlt_irrefl in H. }
  set (l2 := increasing first l1).
  assert (Hend2 : match l2 with [] => True | _ => ends_set l2 end).
  { unfold l2. destruct l1 as [|y l1]; [done|].
    pose proof (increasing_ends_set (y :: l1) first Hend) as H.
    by destruct (increasing first (y :: l1)). }
  assert (Hlast2 : exists v, py_index (Some first :: l2) (-1) = Ok (Some v)).
  { destruct l2 as [|y l2]; [by exists first|].
    apply (ends_set_cons (Some first)) in Hend2.
    apply ends_set_snoc in Hend2. destruct Hend2 as (pre & v & ->).
    exists v. apply py_index_last. }
  destruct Hlast2 as [v Hlast2].
  rewrite py_range_cons by (simpl length; lia).
  cbn [for_in]. rewrite (assign_body_first first v l2 Hlast2), bind_ret.
  destruct (assign_loop l2 [] 0 first 0 1 eq_refl eq_refl) as [p2 Hass].
  cbn [replicate app] in Hass.
  replace (Z.of_nat (length (Some first :: l2))) with (1 + Z.of_nat (length l2))%Z
    by (simpl length; lia).
  change (0 + 1)%Z with 1%Z. rewrite Hass, bind_ret. clear Hass.
  rewrite numbers_values.
  - done.
  - constructor; [by eexists|]. apply assigned_all_Some.
    by destruct l2.
Qed.

(** ** Properties of the resolved positions *)

Lemma resolved_cons (vector_length : Q) (positions : list (option Dimension)) :
  positions <> [] ->
  exists first l1,
    default_last vector_length
      (default_first (map (fun p => percentage p vector_length) positions))
    = Some first :: l1
    /\ resolved vector_length positions
       = first :: values (assigned 0 first 0 (increasing first l1))
    /\ Some first
       = default 0 <$> head (map (fun p => percentage p vector_length)
                                 positions)
    /\ Some first :: l1
       = default_last vector_length
           (Some first
              :: tail (map (fun p => percentage p vector_length) positions)).
Proof.
  intros Hne. unfold resolved.
  destruct positions as [|d positions]; [done|]. cbn [map head tail fmap].
  set (l0 := map _ positions). clearbody l0.
  assert (default_first (percentage d vector_length :: l0)
          = Some (default 0 (percentage d vector_length)) :: l0) as ->
    by (by destruct (percentage d vector_length)).
  destruct (default_last_cons_Some vector_length
              (default 0 (percentage d vector_length)) l0)
    as (l1 & Hl1 & _).
  rewrite Hl1. eauto 10.
Qed.

Lemma increasing_snoc (l : list (option Q)) (v p : Q) :
  exists v',
    increasing p (l ++ [Some v]) = increasing p l ++ [Some v']
    /\ p <= v'
    /\ ((forall w, In (Some w) l -> w <= v) -> p <= v -> v' = v).
Proof.
  revert p. induction l as [|x l IH]; intros p.
  - simpl. destruct (Qlt_bool_reflect v p) as [Hv|Hv].
    + exists p. split; [done|]. split; [lra|]. intros _ Hp. lra.
    + exists v. split; [done|]. split; [lra|done].
  - destruct x as [x|]; cbn [app increasing].
    + destruct (Qlt_bool_reflect x p) as [Hx|Hx].
      * destruct (IH p) as (v' & -> & Hp & Hv). exists v'.
        split; [done|]. split; [done|].
        intros Hl Hpv. apply Hv; [|done].
        intros w Hw. apply Hl. by right.
      * destruct (IH x) as (v' & -> & Hp & Hv). exists v'.
        split; [done|]. split; [lra|].
        intros Hl Hpv. apply Hv.
        -- intros w Hw. apply Hl. by right.
        -- apply Hl. by left.
    + destruct (IH p) as (v' & -> & Hp & Hv). exists v'.
      split; [done|]. split; [done|].
      intros Hl Hpv. apply Hv; [|done].
      intros w Hw. apply Hl. by right.
Qed.

Lemma assigned_snoc (l : list (option Q)) (p : Q) (previous_i : Z) (base : Q)
    (gap : nat) :
  exists l', assigned previous_i base gap (l ++ [Some p]) = l' ++ [Some p].
Proof.
  revert previous_i base gap.
  induction l as [|x l IH]; intros previous_i base gap.
  - cbn [app assigned replicate]. eauto.
  - destruct x as [x|]; cbn [app assigned].
    + destruct (IH (previous_i + 1 + Z.of_nat gap)%Z x 0%nat) as [l' ->].
      eexists. rewrite app_comm_cons, app_assoc. done.
    + apply IH.
Qed.

Lemma values_snoc (l : list (option Q)) (p : Q) :
  values (l ++ [Some p]) = values l ++ [p].
Proof. unfold values. by rewrite omap_app. Qed.

Lemma resolved_length (vector_length : Q)
    (positions : list (option Dimension)) :
  length (resolved vector_length positions) = length positions.
Proof.
  destruct (decide (positions = [])) as [->|Hne]; [done|].
  destruct (resolved_cons vector_length positions Hne)
    as (first & l1 & Hd & -> & _ & Hl1).
  assert (Hlen : length (Some first :: l1) = length positions).
  { rewrite Hl1. unfold default_last.
    assert (length (Some first
                      :: tail (map (fun p => percentage p vector_length)
                                   positions)) = length positions) as Ht
      by (destruct positions; [done|]; simpl; by rewrite length_map).
    destruct (last _) as [[|]|]; by rewrite ?length_insert. }
  assert (Hends : match l1 with [] => True | _ => ends_set l1 end).
  { destruct (default_last_cons_Some vector_length first
                (tail (map (fun p => percentage p vector_length) positions)))
      as (l1' & Hl1' & _ & Hends).
    rewrite <- Hl1 in Hl1'. by simplify_eq. }
  assert (Hall : Forall is_Some (assigned 0 first 0 (increasing first l1))).
  { apply assigned_all_Some.
    destruct l1 as [|y l1]; [done|].
    pose proof (increasing_ends_set (y :: l1) first Hends) as H.
    by destruct (increasing first (y :: l1)). }
  assert (Hvalues : forall l : list (option Q),
    Forall is_Some l -> length (values l) = length l).
  { clear. induction 1 as [|x l [v ->] _ IH]; [done|].
    change (values (Some v :: l)) with (v :: values l).
    cbn [length]. by rewrite IH. }
  cbn [length]. rewrite Hvalues by done. rewrite <- Hlen. cbn [length].
  f_equal.
  assert (Hassigned : forall l previous_i base gap,
    length (assigned previous_i base gap l) = (gap + length l)%nat).
  { clear. induction l as [|[x|] l IH]; intros previous_i base gap;
      cbn [assigned length].
    - rewrite length_replicate. lia.
    - rewrite length_app, length_map, py_range_length. cbn [length].
      rewrite IH. lia.
    - rewrite IH. lia. }
  by rewrite Hassigned, increasing_length.
Qed.

(** The first resolved position is at most the last one. *)
Lemma resolved_first_last (vector_length : Q)
    (positions : list (option Dimension)) :
  positions <> [] ->
  exists first last_,
    head (resolved vector_length positions) = Some first
    /\ last (resolved vector_length positions) = Some last_
    /\ first <= last_.
Proof.
  intros Hne.
  destruct (resolved_cons vector_length positions Hne)
    as (first & l1 & _ & -> & _ & Hl1).
  destruct (default_last_cons_Some vector_length first
              (tail (map (fun p => percentage p vector_length) positions)))
    as (l1' & Hl1' & _ & Hends).
  rewrite <- Hl1 in Hl1'. simplify_eq.
  exists first. cbn [head].
  destruct l1' as [|y l1]; [exists first; split; [done|]; split; [done|lra]|].
  apply ends_set_snoc in Hends. destruct Hends as (pre & v & ->).
  destruct (increasing_snoc pre v first) as (v' & -> & Hv' & _).
  destruct (assigned_snoc (increasing first pre) v' 0 first 0) as [l' ->].
  exists v'. rewrite values_snoc, app_comm_cons, last_snoc. done.
Qed.

(** ** Defaults of the first and last positions *)

(** C3, as amended: on a non-empty input with [0 <= vector_length], a first
    position that is unset resolves to exactly 0; a last position that is
    unset resolves to exactly [vector_length] when the list has at least two
    positions and no set position exceeds [vector_length] (a larger earlier
    position is where the last one is clamped to, and a single unset position
    resolves to 0). *)
Theorem process_color_stops_defaults (vector_length : Q)
    (positions : list (option Dimension)) :
  positions <> [] ->
  0 <= vector_length ->
  exists out,
    process_color_stops vector_length positions = Ok out
    /\ (head positions = Some None -> head out = Some 0)
    /\ (last positions = Some None ->
        (2 <= length positions)%nat ->
        (forall d, In (Some d) positions ->
                   percentage_of d vector_length <= vector_length) ->
        last out = Some vector_length).
Proof.
  intros Hne Hvl. exists (resolved vector_length positions).
  split; [by apply process_color_stops_resolved|].
  destruct (resolved_cons vector_length positions Hne)
    as (first & l1 & _ & -> & Hfirst & Hl1).
  split.
  - intros Hhead. destruct positions as [|[d|] positions]; simplify_eq/=.
    done.
  - intros Hlast Hlen Hle.
    destruct positions as [|d0 positions]; [done|].
    destruct (exists_last (l:=positions)) as (mid & d & ->);
      [by destruct positions; simpl in Hlen; try lia|].
    rewrite app_comm_cons, last_snoc in Hlast. simplify_eq.
    cbn [map tail] in Hl1. rewrite map_app in Hl1. cbn [map percentage] in Hl1.
    rewrite app_comm_cons, default_last_snoc in Hl1. cbn [default] in Hl1.
    simplify_eq/=.
    set (pre := map (fun p => percentage p vector_length) mid).
    set (first := default 0 (percentage d0 vector_length)).
    destruct (increasing_snoc pre vector_length first) as (v' & -> & _ & Hv').
    rewrite Hv'.
    + destruct (assigned_snoc (increasing first pre) vector_length 0 first 0)
        as [l' ->].
      by rewrite values_snoc, app_comm_cons, last_snoc.
    + intros w Hw. unfold pre in Hw. apply in_map_iff in Hw.
      destruct Hw as ([d|] & Hd & Hin); simplify_eq/=.
      apply Hle. right. apply in_or_app. by left.
    + unfold first. destruct d0 as [d0|]; simpl; [|done].
      apply Hle. by left.
Qed.

(** The theorem at three unset positions on a vector of length 50. *)
Lemma process_color_stops_defaults_witness :
  exists out,
    process_color_stops 50 [None; None; None] = Ok out
    /\ head out = Some 0 /\ last out = Some 50.
Proof.
  destruct (process_color_stops_defaults 50 [None; None; None])
    as (out & Hout & Hhead & Hlast); [done|done|].
  exists out. split; [done|]. split; [by apply Hhead|].
  apply Hlast; [done|simpl; lia|].
  intros d [Hd|[Hd|[Hd|[]]]]; discriminate.
Defined.

(** C3, as stated, fails: the last position is unset, and resolves to
    150, not to the vector length 50. *)
Lemma process_color_stops_last_clamped :
  exists out last_,
    process_color_stops 50 [None; Some (Px 150); None] = Ok out
    /\ last [None; Some (Px 150); @None Dimension] = Some None
    /\ last out = Some last_
    /\ ~ last_ == 50.
Proof.
  exists [0; 150; 150], 150. split; [by vm_compute|].
  split; [done|]. split; [done|]. by intros [=].
Qed.

(** ** Monotonicity of the resolved positions *)

Lemma values_Some (qs : list Q) : values (map Some qs) = qs.
Proof.
  induction qs as [|q qs IH]; [done|].
  change (values (map Some (q :: qs))) with (q :: values (map Some qs)).
  by rewrite IH.
Qed.

Lemma values_app (l1 l2 : list (option Q)) :
  values (l1 ++ l2) = values l1 ++ values l2.
Proof. apply omap_app. Qed.

Lemma assigned_gap (k : nat) (l : list (option Q)) (previous_i : Z) (base : Q)
    (gap : nat) :
  assigned previous_i base gap (replicate k None ++ l)
  = assigned previous_i base (gap + k) l.
Proof.
  revert gap. induction k as [|k IH]; intros gap; cbn [replicate app assigned].
  - by rewrite Nat.add_0_r.
  - rewrite IH. f_equal. lia.
Qed.

Lemma assigned_set (qs : list Q) (previous_i : Z) (base : Q) :
  assigned previous_i base 0 (map Some qs) = map Some qs.
Proof.
  revert previous_i base. induction qs as [|q qs IH]; intros previous_i base.
  - done.
  - cbn [map assigned]. rewrite py_range_nil by lia. cbn [map app].
    by rewrite IH.
Qed.

Lemma increasing_unset (k : nat) (l : list (option Q)) (p : Q) :
  increasing p (replicate k None ++ l) = replicate k None ++ increasing p l.
Proof. induction k as [|k IH]; simpl; [done|]. by rewrite IH. Qed.

(** Clamping a list of set positions: the result is sorted above the
    starting value and keeps every upper bound. *)
Lemma increasing_set (qs : list Q) (p : Q) :
  exists qs',
    increasing p (map Some qs) = map Some qs'
    /\ length qs' = length qs
    /\ StronglySorted Qle (p :: qs')
    /\ (forall M, p <= M -> Forall (fun q => q <= M) qs ->
                  Forall (fun q => q <= M) qs').
Proof.
  revert p. induction qs as [|q qs IH]; intros p.
  - exists []. split; [done|]. split; [done|].
    split; [repeat constructor|]. intros; constructor.
  - cbn [map increasing].
    destruct (Qlt_bool_reflect q p) as [Hq|Hq].
    + destruct (IH p) as (qs' & -> & Hlen & Hsorted & Hbound).
      exists (p :: qs'). split; [done|]. split; [simpl; lia|]. split.
      * constructor; [done|]. constructor; [lra|].
        by apply StronglySorted_inv in Hsorted as [_ ?].
      * intros M HM Hall. constructor; [done|].
        apply Hbound; [done|]. by inversion Hall.
    + destruct (IH q) as (qs' & -> & Hlen & Hsorted & Hbound).
      exists (q :: qs'). split; [done|]. split; [simpl; lia|]. split.
      * constructor; [done|]. constructor; [lra|].
        apply StronglySorted_inv in Hsorted as [_ Hall].
        eapply Forall_impl; [exact Hall|]. simpl. intros; lra.
      * intros M HM Hall. inversion Hall; subst.
        constructor; [done|]. by apply Hbound.
Qed.

(** The positions assigned between two stops are sorted. *)
Lemma interpolated_sorted (base increment : Q) (a b : Z) :
  0 <= increment ->
  StronglySorted Qle
    (map (fun j => base + inject_Z j * increment) (py_range a b)).
Proof.
  intros Hinc. remember (Z.to_nat (b - a)) as n eqn:Hn.
  revert a Hn. induction n as [|n IH]; intros a Hn.
  - rewrite py_range_nil by lia. constructor.
  - rewrite py_range_cons by lia. cbn [map]. constructor.
    + apply IH. lia.
    + apply Forall_forall. intros y Hy. apply list_elem_of_In in Hy.
      apply in_map_iff in Hy. destruct Hy as (j & <- & Hj).
      unfold py_range in Hj. apply in_map_iff in Hj.
      destruct Hj as (k & <- & _).
      assert (inject_Z a <= inject_Z (a + 1 + Z.of_nat k))
        by (rewrite <- Zle_Qle; lia).
      nra.
Qed.

Lemma values_cons_Some (v : Q) (l : list (option Q)) :
  values (Some v :: l) = v :: values l.
Proof. done. Qed.

Lemma values_cons_None (l : list (option Q)) : values (None :: l) = values l.
Proof. done. Qed.

Lemma values_replicate_None (k : nat) : values (replicate k None) = [].
Proof. induction k as [|k IH]; [done|]. by cbn [replicate]. Qed.

(** Made increasing, the set positions are sorted above the starting value
    and keep every upper bound. *)
Lemma increasing_sorted (l : list (option Q)) (p : Q) :
  StronglySorted Qle (p :: values (increasing p l))
  /\ forall M, p <= M -> Forall (fun q => q <= M) (values l) ->
               Forall (fun q => q <= M) (values (increasing p l)).
Proof.
  revert p. induction l as [|[q|] l IH]; intros p; cbn [increasing].
  - split; [repeat constructor|]. intros; constructor.
  - destruct (Qlt_bool_reflect q p) as [Hq|Hq]; rewrite !values_cons_Some.
    + destruct (IH p) as [Hsorted Hbound]. split.
      * constructor; [done|]. constructor; [lra|].
        by apply StronglySorted_inv in Hsorted as [_ ?].
      * intros M HM Hall. constructor; [done|].
        apply Hbound; [done|]. by inversion Hall.
    + destruct (IH q) as [Hsorted Hbound]. split.
      * constructor; [done|]. constructor; [lra|].
        apply StronglySorted_inv in Hsorted as [_ Hall].
        eapply Forall_impl; [exact Hall|]. simpl. intros; lra.
      * intros M HM Hall. inversion Hall; subst.
        constructor; [done|]. by apply Hbound.
  - rewrite !values_cons_None. apply IH.
Qed.

(** The positions assigned to a run that is anchored lie between the two
    set positions around it. *)
Lemma assigned_run_bounds (previous_i : Z) (base position : Q) (gap : nat)
    (x : Q) :
  (0 <= previous_i)%Z ->
  base <= position ->
  gap = 0%nat \/ (previous_i <= 1)%Z \/ position == base ->
  x ∈ map (fun j => base + inject_Z j
                           * ((position - base)
                              / inject_Z (previous_i + 1 + Z.of_nat gap
                                          - previous_i)))
          (py_range (previous_i + 1) (previous_i + 1 + Z.of_nat gap)) ->
  base <= x <= position.
Proof.
  intros Hp Hle Hrun Hx. apply list_elem_of_In, in_map_iff in Hx.
  destruct Hx as (j & <- & Hj). unfold py_range in Hj.
  apply in_map_iff in Hj. destruct Hj as (k & <- & Hk). apply in_seq in Hk.
  replace (previous_i + 1 + Z.of_nat gap - previous_i)%Z
    with (Z.of_nat gap + 1)%Z by lia.
  set (J := inject_Z (previous_i + 1 + Z.of_nat k)).
  set (K := inject_Z (Z.of_nat gap + 1)).
  assert (HK : 0 < K) by (unfold K; rewrite <- (Zlt_Qlt 0); lia).
  assert (HJ0 : 0 <= J) by (unfold J; rewrite <- (Zle_Qle 0); lia).
  assert (Hinc : 0 <= (position - base) / K)
    by (apply Qle_shift_div_l; [done|lra]).
  assert (HKinc : K * ((position - base) / K) == position - base)
    by (field; lra).
  destruct Hrun as [->|[Hanchor|Heq]].
  - simpl in Hk. lia.
  - assert (HJK : J <= K) by (unfold J, K; rewrite <- Zle_Qle; lia).
    split; nra.
  - assert (Hz : (position - base) / K == 0).
    { unfold Qdiv. rewrite Heq. ring. }
    rewrite Hz. split; lra.
Qed.

Lemma assigned_sorted (l : list (option Q)) :
  forall (previous_i : Z) (base : Q) (gap : nat) (M : Q),
    (0 <= previous_i)%Z ->
    StronglySorted Qle (base :: values l) ->
    Forall (fun q => q <= M) (base :: values l) ->
    anchored previous_i base gap l ->
    StronglySorted Qle (base :: values (assigned previous_i base gap l))
    /\ Forall (fun q => q <= M) (values (assigned previous_i base gap l)).
Proof.
  induction l as [|[position|] l IH];
    intros previous_i base gap M Hp Hsorted Hbound Hrun; cbn [assigned].
  - rewrite values_replicate_None. split; [repeat constructor|constructor].
  - rewrite values_cons_Some in Hsorted, Hbound.
    cbn [anchored] in Hrun. destruct Hrun as [Hrun Hrest].
    apply StronglySorted_inv in Hsorted as [Hsorted Hbase].
    apply Forall_cons in Hbase as [Hle Hbase].
    apply Forall_cons in Hbound as [HbM Hbound].
    destruct (IH (previous_i + 1 + Z.of_nat gap)%Z position 0%nat M)
      as [Hs' Hb']; [lia|done|done|done|].
    rewrite values_app, values_cons_Some.
    rewrite <- (map_map _ Some), values_Some.
    set (fills := map _ (py_range _ _)).
    assert (Hfills : forall x, x ∈ fills -> base <= x <= position)
      by (intros x Hx; by eapply assigned_run_bounds).
    assert (Hinc : 0 <= (position - base)
                        / inject_Z (previous_i + 1 + Z.of_nat gap
                                    - previous_i)).
    { apply Qle_shift_div_l; [|lra]. rewrite <- (Zlt_Qlt 0). lia. }
    apply Forall_cons in Hbound as [HpM _].
    split.
    + constructor.
      * apply StronglySorted_app_2; [|by apply interpolated_sorted|done].
        intros x1 x2 Hx1 Hx2. apply Hfills in Hx1.
        apply StronglySorted_inv in Hs' as [_ Hq].
        apply elem_of_cons in Hx2 as [->|Hx2]; [lra|].
        rewrite Forall_forall in Hq. specialize (Hq _ Hx2). lra.
      * apply Forall_app. split.
        -- apply Forall_forall. intros x Hx. apply Hfills in Hx. lra.
        -- constructor; [done|].
           apply StronglySorted_inv in Hs' as [_ Hq].
           eapply Forall_impl; [exact Hq|]. simpl. intros; lra.
    + apply Forall_app. split.
      * apply Forall_forall. intros x Hx. apply Hfills in Hx. lra.
      * by constructor.
  - rewrite values_cons_None in Hsorted, Hbound. cbn [anchored] in Hrun.
    by apply IH.
Qed.

Lemma default_last_values (vector_length : Q) (l : list (option Q))
    (P : Q -> Prop) :
  P vector_length ->
  Forall P (values l) ->
  Forall P (values (default_last vector_length l)).
Proof.
  intros Hvl Hall. destruct (decide (l = [])) as [->|Hne]; [done|].
  destruct (exists_last Hne) as (pre & y & ->).
  rewrite default_last_snoc, values_app in *.
  apply Forall_app in Hall as [Hpre Hy]. apply Forall_app. split; [done|].
  destruct y as [y|]; [done|]. by repeat constructor.
Qed.

(** C4, as amended: on a non-empty input with [0 <= vector_length] whose
    first position, when it is set, is not negative and whose set positions
    do not exceed [vector_length], the output is non-decreasing and every
    value lies in [[0, vector_length]], provided that every run of missing
    positions is anchored: once the first and last positions have their
    defaults, the run follows the stop of index 0 or 1, or the two set
    positions around it are equal after they are made increasing.  (On the
    other runs line 236 adds [j * increment] with the index [j] of the
    list, and the last position of the run exceeds the next set position:
    see [process_color_stops_overshoots].) *)
Theorem process_color_stops_monotone (vector_length : Q)
    (positions : list (option Dimension)) :
  positions <> [] ->
  0 <= vector_length ->
  (forall d, head positions = Some (Some d) ->
             0 <= percentage_of d vector_length) ->
  (forall d, In (Some d) positions ->
             percentage_of d vector_length <= vector_length) ->
  runs_anchored vector_length positions ->
  exists out,
    process_color_stops vector_length positions = Ok out
    /\ StronglySorted Qle out
    /\ Forall (fun q => 0 <= q <= vector_length) out.
Proof.
  intros Hne Hvl Hhead Hset Hruns. exists (resolved vector_length positions).
  split; [by apply process_color_stops_resolved|].
  destruct (resolved_cons vector_length positions Hne)
    as (first & l1 & Hd & -> & Hfirst & Hl1).
  unfold runs_anchored in Hruns. rewrite Hd in Hruns.
  assert (Hf : 0 <= first <= vector_length).
  { destruct positions as [|[d|] positions]; simplify_eq/=; [|lra].
    split; [by apply Hhead|]. apply Hset. by left. }
  assert (Hupper : Forall (fun q => q <= vector_length) (values l1)).
  { assert (Hall : Forall (fun q => q <= vector_length)
                     (values (Some first :: l1))).
    { rewrite Hl1. apply default_last_values; [lra|].
      rewrite values_cons_Some. constructor; [lra|].
      apply Forall_forall. intros q Hq. unfold values in Hq.
      apply list_elem_of_omap in Hq as (x & Hx & Hq). simpl in Hq. subst x.
      destruct positions as [|d0 positions]; [done|]. cbn [map tail] in Hx.
      apply list_elem_of_In, in_map_iff in Hx. destruct Hx as ([d|] & Hd' & Hin);
        simplify_eq/=.
      apply Hset. by right. }
    rewrite values_cons_Some in Hall. by apply Forall_cons in Hall as [_ ?]. }
  destruct (increasing_sorted l1 first) as [Hsorted Hbound].
  specialize (Hbound vector_length ltac:(lra) Hupper).
  destruct (assigned_sorted (increasing first l1) 0 first 0 vector_length)
    as [Hs Hb]; [lia|done|constructor; [lra|done]|done|].
  split; [done|].
  constructor; [done|].
  apply StronglySorted_inv in Hs as [_ Hge].
  rewrite Forall_forall in Hb, Hge |- *. intros q Hq.
  specialize (Hb _ Hq). specialize (Hge _ Hq). lra.
Qed.

(** The theorem on [None, -5px, None, 30%, 60px, None, 60px, None] with
    vector length 100: the output is [0; 0; 30; 30; 60; 60; 60; 100]. *)
Lemma process_color_stops_monotone_witness :
  exists out,
    process_color_stops 100
      [None; Some (Px (-5)); None; Some (Percent 30); Some (Px 60); None;
       Some (Px 60); None]
    = Ok out
    /\ StronglySorted Qle out
    /\ Forall (fun q => 0 <= q <= 100) out.
Proof.
  apply (process_color_stops_monotone 100
           [None; Some (Px (-5)); None; Some (Percent 30); Some (Px 60); None;
            Some (Px 60); None]).
  - done.
  - lra.
  - intros d Hd. done.
  - intros d Hd. simpl in Hd.
    repeat (destruct Hd as [Hd|Hd]; [simplify_eq; by vm_compute|]). done.
  - unfold runs_anchored. cbn. repeat split; auto.
    + right. left. lia.
    + right. right. reflexivity.
Defined.

(** The condition on the runs is necessary: where the output is
    non-decreasing, every run is anchored. *)
Lemma assigned_anchored (l : list (option Q)) :
  forall (previous_i : Z) (base : Q) (gap : nat),
    (0 <= previous_i)%Z ->
    StronglySorted Qle (base :: values l) ->
    StronglySorted Qle (base :: values (assigned previous_i base gap l)) ->
    anchored previous_i base gap l.
Proof.
  induction l as [|[position|] l IH];
    intros previous_i base gap Hp Hsorted Hout; cbn [assigned anchored] in *.
  - done.
  - rewrite values_cons_Some in Hsorted.
    apply StronglySorted_inv in Hsorted as [Hsorted Hbase].
    apply Forall_cons in Hbase as [Hle _].
    rewrite values_app, values_cons_Some in Hout.
    rewrite <- (map_map _ Some), values_Some in Hout.
    apply StronglySorted_inv in Hout as [Hout _].
    apply StronglySorted_app in Hout as (Hbetween & Hfills & Hrest).
    split; [|apply IH; [lia|done|done]].
    destruct gap as [|gap]; [by left|].
    destruct (decide (previous_i <= 1)%Z) as [|Hlate]; [right; by left|].
    right. right.
    assert (Hlast : base + inject_Z (previous_i + 1 + Z.of_nat gap)
                           * ((position - base)
                              / inject_Z (previous_i + 1 + Z.of_nat (S gap)
                                          - previous_i))
                    <= position).
    { apply (Hbetween _ position); [|by left].
      apply list_elem_of_In, in_map_iff. eexists. split; [reflexivity|].
      unfold py_range. apply in_map_iff. exists gap. split; [lia|].
      apply in_seq. lia. }
    replace (previous_i + 1 + Z.of_nat (S gap) - previous_i)%Z
      with (Z.of_nat gap + 2)%Z in Hlast by lia.
    set (J := inject_Z (previous_i + 1 + Z.of_nat gap)) in *.
    set (K := inject_Z (Z.of_nat gap + 2)) in *.
    assert (HK : 0 < K) by (unfold K; rewrite <- (Zlt_Qlt 0); lia).
    assert (HJK : K < J) by (unfold J, K; rewrite <- Zlt_Qlt; lia).
    assert (HKinc : K * ((position - base) / K) == position - base)
      by (field; lra).
    assert (Hinc : 0 <= (position - base) / K)
      by (apply Qle_shift_div_l; [done|lra]).
    nra.
  - rewrite values_cons_None in Hsorted. by apply IH.
Qed.

Lemma process_color_stops_sorted_anchored (vector_length : Q)
    (positions : list (option Dimension)) (out : list Q) :
  process_color_stops vector_length positions = Ok out ->
  StronglySorted Qle out ->
  runs_anchored vector_length positions.
Proof.
  intros Hout Hsorted.
  destruct (decide (positions = [])) as [->|Hne]; [done|].
  rewrite process_color_stops_resolved in Hout by done. simplify_eq.
  destruct (resolved_cons vector_length positions Hne)
    as (first & l1 & Hd & Hr & _ & _).
  unfold runs_anchored. rewrite Hd. rewrite Hr in Hsorted.
  apply assigned_anchored; [lia| |done].
  apply increasing_sorted.
Qed.

(** Made increasing, every set position is reached or exceeded. *)
Lemma increasing_above (l : list (option Q)) (p v : Q) :
  v ∈ values l -> exists w, w ∈ values (increasing p l) /\ v <= w.
Proof.
  revert p. induction l as [|[q|] l IH]; intros p Hv; cbn [increasing].
  - by apply elem_of_nil in Hv.
  - rewrite values_cons_Some in Hv. apply elem_of_cons in Hv as [->|Hv].
    + destruct (Qlt_bool_reflect q p) as [Hq|Hq]; rewrite values_cons_Some.
      * exists p. split; [by left|lra].
      * exists q. split; [by left|lra].
    + destruct (Qlt_bool_reflect q p) as [Hq|Hq]; rewrite values_cons_Some.
      * destruct (IH p Hv) as (w & Hw & Hle). exists w. split; [by right|done].
      * destruct (IH q Hv) as (w & Hw & Hle). exists w. split; [by right|done].
  - rewrite values_cons_None in *. by apply IH.
Qed.

(** The assignment keeps the set positions. *)
Lemma assigned_keeps (l : list (option Q)) (v : Q) :
  forall (previous_i : Z) (base : Q) (gap : nat),
    v ∈ values l -> v ∈ values (assigned previous_i base gap l).
Proof.
  induction l as [|[position|] l IH]; intros previous_i base gap Hv;
    cbn [assigned].
  - by apply elem_of_nil in Hv.
  - rewrite values_cons_Some in Hv.
    rewrite values_app, values_cons_Some. apply elem_of_app. right.
    apply elem_of_cons in Hv as [->|Hv]; [by left|right; by apply IH].
  - rewrite values_cons_None in Hv. by apply IH.
Qed.

(** The conditions on the set positions are necessary: where every value
    of the output lies in [[0, vector_length]], the first position is not
    negative and no set position exceeds [vector_length]. *)
Lemma process_color_stops_in_range (vector_length : Q)
    (positions : list (option Dimension)) (out : list Q) :
  process_color_stops vector_length positions = Ok out ->
  Forall (fun q => 0 <= q <= vector_length) out ->
  (forall d, head positions = Some (Some d) ->
             0 <= percentage_of d vector_length)
  /\ (forall d, In (Some d) positions ->
                percentage_of d vector_length <= vector_length).
Proof.
  intros Hout Hall.
  destruct (decide (positions = [])) as [->|Hne]; [done|].
  rewrite process_color_stops_resolved in Hout by done. simplify_eq.
  destruct (resolved_cons vector_length positions Hne)
    as (first & l1 & Hd & Hr & Hfirst & Hl1).
  rewrite Hr in Hall. apply Forall_cons in Hall as [Hf Hall].
  rewrite Forall_forall in Hall.
  split.
  - intros d Hhead. destruct positions as [|d0 positions]; simplify_eq/=. lra.
  - intros d Hin. destruct positions as [|d0 positions]; [done|].
    destruct Hin as [->|Hin]; [simplify_eq/=; lra|].
    cbn [map tail] in Hl1.
    assert (Hv : percentage_of d vector_length ∈ values l1).
    { apply list_elem_of_omap.
      exists (Some (percentage_of d vector_length)). split; [|done].
      assert (Hmem : Some (percentage_of d vector_length)
                     ∈ map (fun p => percentage p vector_length) positions).
      { apply list_elem_of_In, in_map_iff. by exists (Some d). }
      destruct (map (fun p => percentage p vector_length) positions)
        as [|y0 l0] eqn:Hl0 using rev_ind; [by apply elem_of_nil in Hmem|].
      clear IHl0.
      rewrite app_comm_cons, default_last_snoc in Hl1.
      rewrite <- app_comm_cons in Hl1. injection Hl1 as ->.
      apply elem_of_app in Hmem as [Hmem|Hmem];
        [apply elem_of_app; by left|].
      apply list_elem_of_singleton in Hmem. subst y0.
      apply elem_of_app. right. by left. }
    destruct (increasing_above l1 first _ Hv) as (w & Hw & Hle).
    apply (assigned_keeps _ _ 0%Z first 0%nat) in Hw.
    specialize (Hall _ Hw). lra.
Qed.

(** C4, as stated, fails: positions set outside [[0, vector_length]] are
    kept, here -10 and 150 on a vector of length 50. *)
Lemma process_color_stops_out_of_range :
  exists out first,
    process_color_stops 50 [Some (Px (-10)); Some (Px 50); Some (Px 150)]
    = Ok out
    /\ head out = Some first
    /\ ~ (0 <= first <= 50).
Proof.
  exists [-10; 50; 150], (-10). split; [by vm_compute|]. split; [done|].
  intros [H _]. by apply H.
Qed.

(** The assignment of missing positions adds [j * increment] to the previous
    set position, with [j] the index in the list and not the distance to that
    position: after a set position of index 2, the value assigned at index 3
    exceeds the next set position. *)
Lemma process_color_stops_overshoots :
  process_color_stops 20
    [Some (Px 0); Some (Px 0); Some (Px 10); None; Some (Px 20)]
  = Ok [0; 0; 10; 10 + inject_Z 3 * ((20 - 10) / inject_Z (4 - 2)); 20]
  /\ 20 < 10 + inject_Z 3 * ((20 - 10) / inject_Z (4 - 2)).
Proof. split; by vm_compute. Qed.

(** ** Single-stop gradients *)

(** C9: a linear or radial gradient built from exactly one color stop lays
    out as the solid color of that stop, for every box and every direction,
    shape, size and center. *)
Theorem single_stop_solid `{Math} (c : color) (position : option Dimension)
    (direction : LinearGradient.direction_t) (shape : string)
    (size : RadialGradient.size_t)
    (center : string * Dimension * string * Dimension) (repeating : bool)
    (width height : Q) :
  (self ← LinearGradient.__init__ [(c, position)] direction repeating;
   LinearGradient.layout self width height)
  = Ok (mkLayout 1 "solid" None [] [c])
  /\ (self ← RadialGradient.__init__ [(c, position)] shape size center
                repeating;
      RadialGradient.layout self width height)
     = Ok (mkLayout 1 "solid" None [] [c]).
Proof. split; reflexivity. Qed.

(** ** Degenerate radial sizes *)

(** C8: [_handle_degenerate] replaces a size (0, 0) by (1e-7, 1e-7), a zero
    [size_x] alone by (1e-7, 1e7) and a zero [size_y] alone by (1e7, 1e-7);
    the [size_x] it returns is never 0, so [scale_y = size_y / size_x] does
    not divide by zero, and [scale_y] is positive in the three degenerate
    cases and whenever the sizes are not negative. *)
Theorem handle_degenerate_scale (size_x size_y : Q) :
  exists sx sy scale,
    RadialGradient._handle_degenerate size_x size_y = (sx, sy)
    /\ ~ sx == 0
    /\ py_div sy sx = Ok scale
    /\ (size_x == 0 -> size_y == 0 -> (sx, sy) = (1e-7, 1e-7))
    /\ (size_x == 0 -> ~ size_y == 0 -> (sx, sy) = (1e-7, 1e7))
    /\ (~ size_x == 0 -> size_y == 0 -> (sx, sy) = (1e7, 1e-7))
    /\ (size_x == 0 \/ size_y == 0 -> 0 < scale)
    /\ (0 <= size_x -> 0 <= size_y -> 0 < scale).
Proof.
  unfold RadialGradient._handle_degenerate.
  destruct (Qeq_bool_reflect size_x size_y) as [Hxy|Hxy];
    destruct (Qeq_bool_reflect size_y 0) as [Hy|Hy];
    destruct (Qeq_bool_reflect size_x 0) as [Hx|Hx]; cbn [andb];
    try (exfalso; lra);
    (eexists _, _, _; split; [reflexivity|]; unfold py_div;
     match goal with
     | |- context [?a ==? 0] =>
         destruct (Qeq_bool_reflect a 0) as [Hz|Hz];
           [exfalso; revert Hz; try done; lra|]
     end;
     split; [done|]; split; [reflexivity|];
     repeat split; intros; try done; try lra).
  - apply Qlt_shift_div_l; lra.
  - apply Qlt_shift_div_l; lra.
Qed.

(** The theorem at size (0, 0): the sizes become (1e-7, 1e-7) and the
    scale is positive. *)
Lemma handle_degenerate_scale_witness :
  exists scale,
    RadialGradient._handle_degenerate 0 0 = (1e-7, 1e-7)
    /\ py_div 1e-7 1e-7 = Ok scale
    /\ 0 < scale.
Proof.
  destruct (handle_degenerate_scale 0 0)
    as (sx & sy & scale & Hd & _ & Hdiv & H00 & _ & _ & Hpos & _).
  specialize (H00 (Qeq_refl 0) (Qeq_refl 0)). injection H00 as -> ->.
  exists scale. split; [done|]. split; [done|].
  apply Hpos. by left.
Defined.

(** ** Negative positions of a repeating radial gradient *)

Lemma floor_period (p0 v : Q) :
  0 < v ->
  0 < p0 + v * (1 + inject_Z (Qfloor (- p0 / v))) <= v.
Proof.
  intros Hv.
  pose proof (Qfloor_le (- p0 / v)) as Hle.
  pose proof (Qlt_floor (- p0 / v)) as Hlt.
  rewrite inject_Z_plus in Hlt. change (inject_Z 1) with 1 in Hlt.
  assert (Hx : v * (- p0 / v) == - p0) by (field; lra).
  set (x := - p0 / v) in *. set (f := inject_Z (Qfloor x)) in *.
  split; nra.
Qed.

(** C2, as amended: when the first position of a repeating radial gradient
    is negative and the span [positions[-1] - positions[0]] is positive,
    every position is shifted by [span * (1 + floor(-positions[0] / span))],
    and the first position is then positive and at most [span]. *)
Theorem repeating_shift (self : RadialGradient.t) (positions : list Q)
    (colors : list color) (p0 p_1 : Q) :
  RadialGradient.repeating self = true ->
  py_index positions 0 = Ok p0 ->
  py_index positions (-1) = Ok p_1 ->
  p0 < 0 ->
  0 < p_1 - p0 ->
  exists offset,
    offset = (p_1 - p0) * (1 + inject_Z (Qfloor (- p0 / (p_1 - p0))))
    /\ RadialGradient.positive_realm self positions colors
       = Ok (inr (map (fun position => position + offset) positions, colors))
    /\ 0 < p0 + offset <= p_1 - p0.
Proof.
  intros Hrep Hp0 Hp_1 Hneg Hspan. eexists. split; [reflexivity|]. split.
  - unfold RadialGradient.positive_realm. rewrite Hp0, bind_ret.
    destruct (Qlt_bool_reflect p0 0) as [_|]; [|done].
    rewrite Hrep. unfold RadialGradient.shift.
    rewrite Hp_1, bind_ret, Hp0, bind_ret. unfold py_floordiv.
    destruct (Qeq_bool_reflect (p_1 - p0) 0) as [E|_]; [lra|].
    by rewrite !bind_ret.
  - by apply floor_period.
Qed.

(** The theorem on the positions [-10; 50]: the shift is 60. *)
Lemma repeating_shift_witness :
  exists offset,
    offset = (50 - -10) * (1 + inject_Z (Qfloor (- -10 / (50 - -10))))
    /\ RadialGradient.positive_realm
         (RadialGradient.mk [red; green] [Some (Px (-10)); Some (Px 50)] true
            ("left", Px 0, "top", Px 0) "circle"
            (RadialGradient.keyword "farthest-corner"))
         [-10; 50] [red; green]
       = Ok (inr (map (fun position => position + offset) [-10; 50],
                  [red; green]))
    /\ 0 < -10 + offset <= 50 - -10.
Proof.
  apply (repeating_shift _ [-10; 50] [red; green] (-10) 50); try reflexivity.
Defined.

(** C2, as stated, fails: on the positions [-10; 50] the first position is
    moved to 50, that is by 60, and not by
    [60 * ceil(1 - (-10) / 60) = 120]. *)
Lemma repeating_shift_not_ceil :
  exists out first,
    RadialGradient.positive_realm
      (RadialGradient.mk [red; green] [Some (Px (-10)); Some (Px 50)] true
         ("left", Px 0, "top", Px 0) "circle"
         (RadialGradient.keyword "farthest-corner"))
      [-10; 50] [red; green]
    = Ok (inr (out, [red; green]))
    /\ head out = Some first
    /\ first == 50
    /\ ~ first == -10 + (50 - -10) * inject_Z (Qceiling (1 - -10 / (50 - -10))).
Proof.
  eexists _, _. split; [by vm_compute|]. split; [reflexivity|].
  split; by vm_compute.
Qed.

(** ** Indexing in range *)

Lemma py_index_lookup {A} (l : list A) (i : nat) (x : A) :
  l !! i = Some x -> py_index l (Z.of_nat i) = Ok x.
Proof.
  intros Hx. unfold py_index.
  destruct (Z.ltb_spec (Z.of_nat i) 0); [lia|].
  destruct (Z.ltb_spec (Z.of_nat i) 0); [lia|].
  by rewrite Nat2Z.id, Hx.
Qed.

Lemma py_index_nonneg {A} (l : list A) (i : Z) :
  (0 <= i < Z.of_nat (length l))%Z -> exists x, py_index l i = Ok x.
Proof.
  intros Hi. destruct (lookup_lt_is_Some_2 l (Z.to_nat i)) as [x Hx]; [lia|].
  exists x. rewrite <- (Z2Nat.id i) by lia. by apply py_index_lookup.
Qed.

Lemma py_index_neg {A} (l : list A) (i : Z) :
  (- Z.of_nat (length l) <= i < 0)%Z ->
  py_index l i = py_index l (Z.of_nat (length l) + i).
Proof.
  intros Hi. unfold py_index.
  destruct (Z.ltb_spec i 0); [|lia].
  destruct (Z.ltb_spec (Z.of_nat (length l) + i) 0); [lia|].
  destruct (Z.ltb_spec (Z.of_nat (length l) + i) 0); [lia|]. done.
Qed.

Lemma py_index_in_range {A} (l : list A) (i : Z) :
  (- Z.of_nat (length l) <= i < Z.of_nat (length l))%Z ->
  exists x, py_index l i = Ok x.
Proof.
  intros Hi. destruct (Z.ltb_spec i 0).
  - rewrite py_index_neg by lia. apply py_index_nonneg. lia.
  - apply py_index_nonneg. lia.
Qed.

Lemma py_index_Ok_length {A} (l : list A) (i : Z) (x : A) :
  py_index l i = Ok x ->
  (- Z.of_nat (length l) <= i < Z.of_nat (length l))%Z.
Proof.
  unfold py_index. intros Hx.
  destruct (Z.ltb_spec i 0).
  - destruct (Z.ltb_spec (Z.of_nat (length l) + i) 0); [done|].
    destruct (l !! _) eqn:Hl; [|done].
    apply lookup_lt_Some in Hl. lia.
  - destruct (Z.ltb_spec i 0); [lia|].
    destruct (l !! _) eqn:Hl; [|done].
    apply lookup_lt_Some in Hl. lia.
Qed.

Lemma py_index_head {A} (l : list A) (x : A) :
  py_index l 0 = Ok x <-> head l = Some x.
Proof.
  destruct l as [|a l]; [split; by vm_compute|].
  rewrite py_index_0. simpl. split; congruence.
Qed.

Lemma py_index_last_iff {A} (l : list A) (x : A) :
  py_index l (-1) = Ok x <-> last l = Some x.
Proof.
  destruct (decide (l = [])) as [->|Hne]; [split; by vm_compute|].
  destruct (exists_last Hne) as (pre & y & ->).
  rewrite py_index_last, last_snoc. split; congruence.
Qed.

Lemma py_index_map {A B} (f : A -> B) (l : list A) (i : Z) (x : A) :
  py_index l i = Ok x -> py_index (map f l) i = Ok (f x).
Proof.
  unfold py_index. rewrite length_map. intros Hx.
  destruct (_ <? 0)%Z; [done|].
  rewrite list_lookup_fmap. destruct (l !! _); by simplify_eq/=.
Qed.

Lemma py_bound_nonneg {A} (l : list A) (i : Z) :
  (0 <= i)%Z -> py_bound l i = Z.to_nat i.
Proof. intros Hi. unfold py_bound. by destruct (Z.ltb_spec i 0); [lia|]. Qed.

Lemma py_bound_neg {A} (l : list A) (i : Z) :
  (0 < i <= Z.of_nat (length l))%Z ->
  py_bound l (- i) = (length l - Z.to_nat i)%nat.
Proof.
  intros Hi. unfold py_bound. destruct (Z.ltb_spec (- i) 0); lia.
Qed.

(** A loop whose body cannot raise on the elements of the list returns. *)
Lemma for_in_total {A S} (P : A -> Prop) (l : list A)
    (body : S -> A -> result S) (s : S) :
  Forall P l ->
  (forall s x, P x -> exists s', body s x = Ok s') ->
  exists s', for_in l body s = Ok s'.
Proof.
  intros Hl Hbody. revert s.
  induction Hl as [|x l Hx _ IH]; intros s; cbn [for_in]; [eauto|].
  destruct (Hbody s x Hx) as [s' ->]. rewrite bind_ret. apply IH.
Qed.

(** A loop that appends one computed value per element is a [map]. *)
Lemma for_in_map {A B} (f : A -> B) (g : A -> result B) (l : list A)
    (acc : list B) :
  Forall (fun x => g x = Ok (f x)) l ->
  for_in l (fun acc x => q ← g x; Ok (acc ++ [q])) acc = Ok (acc ++ map f l).
Proof.
  intros Hl. revert acc.
  induction Hl as [|x l Hx _ IH]; intros acc; cbn [for_in map].
  - by rewrite app_nil_r.
  - rewrite Hx, !bind_ret, IH, <- app_assoc. done.
Qed.

(** ** [normalize_stop_positions] *)

Lemma normalize_stop_positions_spec (positions : list Q) (first last_ : Q) :
  head positions = Some first ->
  last positions = Some last_ ->
  normalize_stop_positions positions
  = Ok (first, last_,
        if last_ - first ==? 0 then replicate (length positions) 0
        else map (fun pos => (pos - first) / (last_ - first)) positions).
Proof.
  intros Hfirst Hlast. unfold normalize_stop_positions.
  apply py_index_head in Hfirst. apply py_index_last_iff in Hlast.
  rewrite Hfirst, bind_ret, Hlast, bind_ret.
  destruct (Qeq_bool_reflect (last_ - first) 0) as [E|E]; [done|].
  rewrite (for_in_map (fun pos => (pos - first) / (last_ - first))).
  - by rewrite bind_ret.
  - apply Forall_forall. intros pos _. unfold py_div.
    by destruct (Qeq_bool_reflect (last_ - first) 0).
Qed.

Lemma normalize_stop_positions_Ok (positions normalized : list Q)
    (first last_ : Q) :
  normalize_stop_positions positions = Ok (first, last_, normalized) ->
  head positions = Some first
  /\ last positions = Some last_
  /\ length normalized = length positions
  /\ normalized
     = if last_ - first ==? 0 then replicate (length positions) 0
       else map (fun pos => (pos - first) / (last_ - first)) positions.
Proof.
  intros Hn.
  destruct positions as [|p positions]; [done|].
  destruct (exists_last (l:=p :: positions)) as (pre & y & Hy); [done|].
  assert (Hhead : head (p :: positions) = Some p) by done.
  assert (Hlast : last (p :: positions) = Some y)
    by (rewrite Hy; apply last_snoc).
  rewrite (normalize_stop_positions_spec _ p y Hhead Hlast) in Hn.
  injection Hn as <- <- <-. repeat split; try done.
  destruct (_ ==? _); cbn [length];
    by rewrite ?length_replicate, ?length_map.
Qed.

(** ** [gradient_average_color] returns a color *)

Lemma py_enumerate_Forall {A} (start : Z) (l : list A) :
  Forall (fun ix : Z * A =>
            (start <= fst ix < start + Z.of_nat (length l))%Z)
         (py_enumerate start l).
Proof.
  apply Forall_lookup. intros i [j x] Hi. unfold py_enumerate in Hi.
  rewrite list_lookup_imap in Hi.
  destruct (l !! i) eqn:Hl; simplify_eq/=.
  apply lookup_lt_Some in Hl. lia.
Qed.

Lemma average_step_total (premul_r premul_g premul_b alpha : list Q)
    (weight : Q) (acc : color) (j : Z) (n : nat) :
  length premul_r = n -> length premul_g = n -> length premul_b = n ->
  length alpha = n ->
  (0 <= j < Z.of_nat n)%Z ->
  exists acc',
    average_step premul_r premul_g premul_b alpha weight acc j = Ok acc'.
Proof.
  intros Hr Hg Hb Ha Hj. unfold average_step.
  destruct acc as [[[result_r result_g] result_b] result_a].
  destruct (py_index_nonneg premul_r j) as [r ->]; [lia|].
  destruct (py_index_nonneg premul_g j) as [g ->]; [lia|].
  destruct (py_index_nonneg premul_b j) as [b ->]; [lia|].
  destruct (py_index_nonneg alpha j) as [a ->]; [lia|].
  rewrite !bind_ret. eauto.
Qed.

Lemma gradient_average_color_total (colors : list color) (positions : list Q) :
  length colors = length positions ->
  (2 <= length positions)%nat ->
  exists c, gradient_average_color colors positions = Ok c.
Proof.
  intros Hlen Hn. unfold gradient_average_color.
  destruct (Nat.ltb_spec 1 (length positions)) as [_|]; [|lia].
  cbn [py_assert]. rewrite bind_ret.
  destruct (Nat.eqb_spec (length positions) (length colors)) as [_|];
    [|lia].
  cbn [py_assert]. rewrite bind_ret.
  destruct (py_index_in_range positions (-1)) as [last_ ->]; [lia|].
  destruct (py_index_in_range positions 0) as [first ->]; [lia|].
  rewrite !bind_ret.
  set (n := length positions) in *.
  assert (Hcase : exists positions' total_length,
    (if last_ - first ==? 0
     then (map inject_Z (py_range 0 (Z.of_nat n)), inject_Z (Z.of_nat n) - 1)
     else (positions, last_ - first)) = (positions', total_length)
    /\ length positions' = n /\ ~ total_length == 0).
  { destruct (Qeq_bool_reflect (last_ - first) 0) as [E|E].
    - eexists _, _. split; [done|]. split.
      + rewrite length_map, py_range_length. lia.
      + assert (inject_Z 2 <= inject_Z (Z.of_nat n))
          by (rewrite <- Zle_Qle; lia).
        change (inject_Z 2) with 2 in *. lra.
    - eexists _, _. split; [done|]. by split. }
  destruct Hcase as (positions' & total_length & -> & Hlen' & Htotal).
  set (premul_r := map _ colors). set (premul_g := map _ colors).
  set (premul_b := map _ colors). set (alpha := map _ colors).
  match goal with
  | |- context [for_in ?l ?body ?s] =>
      destruct (for_in_total
                  (fun ix : Z * Q => (1 <= fst ix < Z.of_nat n)%Z) l body s)
        as [[[[result_r result_g] result_b] result_a] ->]
  end.
  - eapply Forall_impl; [apply py_enumerate_Forall|].
    intros [i x]. cbn [fst]. unfold py_slice_from.
    rewrite py_bound_nonneg, length_drop by lia. lia.
  - intros acc [i position] Hi. cbn [fst] in Hi.
    destruct (py_index_nonneg positions' (i - 1)) as [previous ->]; [lia|].
    rewrite bind_ret. unfold py_div.
    destruct (Qeq_bool_reflect (2 * total_length) 0) as [E|_]; [lra|].
    rewrite bind_ret. cbn [for_in].
    destruct (average_step_total premul_r premul_g premul_b alpha
                ((position - previous) / (2 * total_length)) acc (i - 1) n)
      as [acc1 ->]; try (unfold premul_r, premul_g, premul_b, alpha;
                         by rewrite length_map); [lia|].
    rewrite bind_ret.
    destruct (average_step_total premul_r premul_g premul_b alpha
                ((position - previous) / (2 * total_length)) acc1 i n)
      as [acc2 ->]; try (unfold premul_r, premul_g, premul_b, alpha;
                         by rewrite length_map); [lia|].
    rewrite bind_ret. eauto.
  - rewrite bind_ret. unfold py_div.
    destruct (Qeq_bool_reflect result_a 0); cbn [negb]; eauto.
Qed.

(** ** Construction of gradients *)

Lemma Gradient_init_Ok (color_stops : list (color * option Dimension))
    (repeating : bool) (g : Gradient.t) :
  Gradient.__init__ color_stops repeating = Ok g ->
  color_stops <> []
  /\ g = Gradient.mk (map fst color_stops) (map snd color_stops) repeating.
Proof.
  unfold Gradient.__init__. intros Hg.
  destruct color_stops as [|stop color_stops]; [done|].
  cbn in Hg. by simplify_eq.
Qed.

Lemma LinearGradient_init_Ok (color_stops : list (color * option Dimension))
    (direction : LinearGradient.direction_t) (repeating : bool)
    (self : LinearGradient.t) :
  LinearGradient.__init__ color_stops direction repeating = Ok self ->
  color_stops <> []
  /\ self = LinearGradient.mk (map fst color_stops) (map snd color_stops)
              repeating direction.
Proof.
  unfold LinearGradient.__init__. intros Hself. inv_bind Hself.
  apply Gradient_init_Ok in Ha as [Hne ->]. by simplify_eq/=.
Qed.

Lemma RadialGradient_init_Ok (color_stops : list (color * option Dimension))
    (shape : string) (size : RadialGradient.size_t)
    (center : string * Dimension * string * Dimension) (repeating : bool)
    (self : RadialGradient.t) :
  RadialGradient.__init__ color_stops shape size center repeating = Ok self ->
  color_stops <> []
  /\ self = RadialGradient.mk (map fst color_stops) (map snd color_stops)
              repeating center shape size.
Proof.
  unfold RadialGradient.__init__. intros Hself. inv_bind Hself.
  apply Gradient_init_Ok in Ha as [Hne ->]. by simplify_eq/=.
Qed.

Lemma process_color_stops_Ok (vector_length : Q)
    (positions : list (option Dimension)) (out : list Q) :
  process_color_stops vector_length positions = Ok out ->
  positions <> [] /\ out = resolved vector_length positions
  /\ length out = length positions.
Proof.
  intros Hout. destruct (decide (positions = [])) as [->|Hne]; [done|].
  rewrite process_color_stops_resolved in Hout by done. simplify_eq.
  by rewrite resolved_length.
Qed.

(** ** The sizes of the ending shape *)

Lemma handle_degenerate_nonzero (size_x size_y sx sy : Q) :
  RadialGradient._handle_degenerate size_x size_y = (sx, sy) ->
  ~ sx == 0 /\ ~ sy == 0
  /\ (0 <= size_x -> 0 <= size_y -> 0 < sx /\ 0 < sy).
Proof.
  unfold RadialGradient._handle_degenerate.
  destruct (Qeq_bool_reflect size_x size_y) as [Hxy|Hxy];
    destruct (Qeq_bool_reflect size_y 0) as [Hy|Hy];
    destruct (Qeq_bool_reflect size_x 0) as [Hx|Hx]; cbn [andb];
    try (exfalso; lra); intros [= <- <-];
    repeat split; intros; try done; try lra.
Qed.

Lemma resolved_size_nonzero `{Math} (self : RadialGradient.t)
    (width height sx sy : Q) :
  RadialGradient.resolved_size self width height = (sx, sy) ->
  ~ sx == 0 /\ ~ sy == 0.
Proof.
  unfold RadialGradient.resolved_size.
  destruct (RadialGradient.resolved_center _ _ _) as [center_x center_y].
  destruct (RadialGradient._resolve_size _ _ _ _ _) as [size_x size_y].
  intros Hd. apply handle_degenerate_nonzero in Hd. tauto.
Qed.

Lemma py_div_nonzero (a b : Q) : ~ b == 0 -> py_div a b = Ok (a / b).
Proof. intros Hb. unfold py_div. by destruct (Qeq_bool_reflect b 0). Qed.

Lemma py_div_Ok (a b q : Q) : py_div a b = Ok q -> ~ b == 0 /\ q = a / b.
Proof.
  unfold py_div. destruct (Qeq_bool_reflect b 0); [done|].
  intros [= <-]. done.
Qed.

(** ** Repeating gradients of zero period *)

Lemma positive_realm_repeating (self : RadialGradient.t)
    (positions positions' : list Q) (colors colors' : list color) :
  RadialGradient.repeating self = true ->
  RadialGradient.positive_realm self positions colors
  = Ok (inr (positions', colors')) ->
  colors' = colors /\ length positions' = length positions.
Proof.
  intros Hrep. unfold RadialGradient.positive_realm. rewrite Hrep.
  intros Hr. inv_bind Hr. destruct (a <? 0).
  - inv_bind Hr. unfold RadialGradient.shift in Ha0.
    inv_bind Ha0. inv_bind Ha0. inv_bind Ha0. simplify_eq.
    by rewrite length_map.
  - by simplify_eq.
Qed.

(** When [normalize_stop_positions] returns equal first and last positions
    for a repeating gradient, linear or radial, the layout is a solid color,
    the average color of its colors and normalized positions as they are at
    that point. *)
Lemma repeating_zero_period_solid `{Math} (width height first last_ : Q)
    (normalized : list Q) :
  first == last_ ->
  (forall color_stops direction self dx dy positions,
      LinearGradient.__init__ color_stops direction true = Ok self ->
      length color_stops <> 1%nat ->
      LinearGradient.unit_vector self width height = Ok (dx, dy) ->
      process_color_stops (Qabs (width * dx) + Qabs (height * dy))
        (LinearGradient.stop_positions self) = Ok positions ->
      normalize_stop_positions positions = Ok (first, last_, normalized) ->
      exists color,
        gradient_average_color (LinearGradient.colors self) normalized
        = Ok color
        /\ LinearGradient.layout self width height
           = Ok (mkLayout 1 "solid" None [] [color]))
  /\ (forall color_stops shape size center self positions positions' colors',
         RadialGradient.__init__ color_stops shape size center true
         = Ok self ->
         length color_stops <> 1%nat ->
         process_color_stops
           (fst (RadialGradient.resolved_size self width height))
           (RadialGradient.stop_positions self) = Ok positions ->
         RadialGradient.positive_realm self positions
           (RadialGradient.colors self) = Ok (inr (positions', colors')) ->
         normalize_stop_positions positions'
         = Ok (first, last_, normalized) ->
         exists color,
           gradient_average_color colors' normalized = Ok color
           /\ RadialGradient.layout self width height
              = Ok (mkLayout 1 "solid" None [] [color])).
Proof.
  intros Heq. apply Qeq_bool_iff in Heq. split.
  - intros color_stops direction self dx dy positions Hinit Hlen Hvec Hpos
      Hnorm.
    apply LinearGradient_init_Ok in Hinit as [Hne ->].
    cbn [LinearGradient.colors LinearGradient.stop_positions] in *.
    apply process_color_stops_Ok in Hpos as Hp. destruct Hp as (_ & _ & Hlp).
    apply normalize_stop_positions_Ok in Hnorm as Hn.
    destruct Hn as (_ & _ & Hln & _).
    destruct (gradient_average_color_total (map fst color_stops) normalized)
      as [color Hcolor].
    { rewrite Hln, Hlp. by rewrite !length_map. }
    { rewrite Hln, Hlp, length_map.
      destruct color_stops as [|? [|? ?]]; simpl in *; try done; lia. }
    exists color. split; [done|].
    unfold LinearGradient.layout.
    cbn [LinearGradient.colors LinearGradient.stop_positions
         LinearGradient.repeating].
    rewrite length_map.
    destruct (Nat.eqb_spec (length color_stops) 1) as [|_]; [done|].
    rewrite Hvec, bind_ret, Hpos, bind_ret. cbn [negb].
    rewrite bind_ret, Hnorm, bind_ret, Heq. cbn [andb].
    by rewrite Hcolor, bind_ret.
  - intros color_stops shape size center self positions positions' colors'
      Hinit Hlen Hpos Hrealm Hnorm.
    apply RadialGradient_init_Ok in Hinit as [Hne ->].
    cbn [RadialGradient.colors RadialGradient.stop_positions] in *.
    apply process_color_stops_Ok in Hpos as Hp. destruct Hp as (_ & _ & Hlp).
    apply positive_realm_repeating in Hrealm as Hr; [|done].
    destruct Hr as [-> Hlr].
    apply normalize_stop_positions_Ok in Hnorm as Hn.
    destruct Hn as (_ & _ & Hln & _).
    destruct (gradient_average_color_total (map fst color_stops) normalized)
      as [color Hcolor].
    { rewrite Hln, Hlr, Hlp. by rewrite !length_map. }
    { rewrite Hln, Hlr, Hlp, length_map.
      destruct color_stops as [|? [|? ?]]; simpl in *; try done; lia. }
    exists color. split; [done|].
    unfold RadialGradient.layout, RadialGradient.circles.
    cbn [RadialGradient.colors RadialGradient.stop_positions
         RadialGradient.repeating].
    rewrite length_map.
    destruct (Nat.eqb_spec (length color_stops) 1) as [|_]; [done|].
    destruct (RadialGradient.resolved_center _ _ _) as [center_x center_y].
    destruct (RadialGradient.resolved_size _ _ _) as [size_x size_y] eqn:Hsize.
    apply resolved_size_nonzero in Hsize as [Hsx Hsy].
    rewrite (py_div_nonzero size_y size_x Hsx), bind_ret.
    cbn [fst] in Hpos. rewrite Hpos, bind_ret. cbn [negb].
    rewrite bind_ret, Hrealm, bind_ret, Hnorm, bind_ret, Heq. cbn [andb].
    by rewrite Hcolor, !bind_ret.
Qed.

(** Two stops at 5px, for a repeating linear gradient of angle 0 and for a
    repeating circle of radius 10, in a box of 100 by 100. *)
Lemma repeating_zero_period_solid_example :
  (exists color,
      LinearGradient.layout (H:=rational_math)
        (LinearGradient.mk [red; blue] [Some (Px 5); Some (Px 5)] true
           (LinearGradient.angle 0)) 100 100
      = Ok (mkLayout 1 "solid" None [] [color]))
  /\ (exists color,
         RadialGradient.layout (H:=rational_math)
           (RadialGradient.mk [red; blue] [Some (Px 5); Some (Px 5)] true
              ("left", Px 0, "top", Px 0) "circle"
              (RadialGradient.explicit (Px 10) (Px 10))) 100 100
         = Ok (mkLayout 1 "solid" None [] [color])).
Proof.
  destruct (repeating_zero_period_solid (H:=rational_math) 100 100 5 5 [0; 0])
    as [Hlinear Hradial]; [reflexivity|].
  split.
  - edestruct (Hlinear [(red, Some (Px 5)); (blue, Some (Px 5))]
                 (LinearGradient.angle 0)) as (color & _ & Hlayout);
      [reflexivity|done|reflexivity|by vm_compute|reflexivity|].
    by exists color.
  - edestruct (Hradial [(red, Some (Px 5)); (blue, Some (Px 5))] "circle"
                 (RadialGradient.explicit (Px 10) (Px 10))
                 ("left", Px 0, "top", Px 0)) as (color & _ & Hlayout);
      [reflexivity|done|by vm_compute|reflexivity|reflexivity|].
    by exists color.
Defined.

(** ** The repeat tiler *)

Lemma py_int_nonneg (x : Q) :
  0 <= x -> inject_Z (py_int x) <= x < inject_Z (py_int x) + 1.
Proof.
  intros Hx. assert (py_int x = Qfloor x) as ->.
  { destruct x as [n d]. unfold py_int, Qfloor. cbn [Qnum Qden].
    apply Z.quot_div_nonneg; [|lia].
    unfold Qle in Hx. simpl in Hx. lia. }
  pose proof (Qfloor_le x). pose proof (Qlt_floor x) as Hlt.
  rewrite inject_Z_plus in Hlt. change (inject_Z 1) with 1 in Hlt. lra.
Qed.

Lemma flat_map_length_const {A B} (f : A -> list B) (l : list A) (n : nat) :
  (forall x, length (f x) = n) ->
  length (flat_map f l) = (length l * n)%nat.
Proof.
  intros Hf. induction l as [|x l IH]; [done|].
  cbn [flat_map length]. rewrite length_app, Hf, IH. lia.
Qed.

Lemma py_repeat_list_length {A} (l : list A) (n : Z) :
  length (py_repeat_list l n) = (Z.to_nat n * length l)%nat.
Proof.
  unfold py_repeat_list. induction (Z.to_nat n) as [|k IH]; [done|].
  cbn [replicate concat]. rewrite length_app, IH. lia.
Qed.

Lemma py_slice_from_length {A B} (l1 : list A) (l2 : list B) (i : Z) :
  length l1 = length l2 ->
  length (py_slice_from l1 i) = length (py_slice_from l2 i).
Proof.
  intros Hlen. unfold py_slice_from, py_bound.
  by rewrite !length_drop, Hlen.
Qed.

Lemma center_scan_spec (original_colors : list color)
    (original_positions : list Q) (full_repeat : Z) (ratio : Q)
    (points positions : list Q) (colors : list color) (l : list (Z * Q)) :
  length original_colors = length original_positions ->
  length colors = length positions ->
  Forall (fun ix : Z * Q =>
            (1 <= fst ix <= Z.of_nat (length original_positions))%Z) l ->
  Exists (fun ix : Z * Q => snd ix <= ratio) l ->
  exists positions' colors',
    RadialGradient.center_scan original_colors original_positions full_repeat
      ratio points positions colors l
    = Ok (points, positions', colors')
    /\ length colors' = length positions'
    /\ (length positions <= length positions')%nat.
Proof.
  intros Hlo Hlc Hall Hex.
  induction l as [|[i position] l IH]; [by apply Exists_nil in Hex|].
  apply Forall_cons in Hall as [Hi Hall]. cbn [fst] in Hi.
  cbn [RadialGradient.center_scan].
  destruct (Qeq_bool_reflect position ratio) as [Heq|Hne].
  { eexists _, _. split; [done|].
    rewrite !length_app, length_map.
    rewrite (py_slice_from_length original_colors original_positions)
      by done.
    split; lia. }
  destruct (Qlt_bool_reflect position ratio) as [Hlt|Hge].
  - destruct (py_index_in_range original_colors (- i)) as [color ->];
      [lia|].
    destruct (py_index_in_range original_colors (- (i - 1)))
      as [next_color ->]; [lia|].
    destruct (py_index_in_range original_positions (- (i - 1)))
      as [next_position ->]; [lia|].
    rewrite !bind_ret.
    destruct (gradient_average_color_total
                [color; color; next_color; next_color]
                [position; ratio; ratio; next_position])
      as [zero_color ->]; [done|simpl; lia|].
    rewrite bind_ret. eexists _, _. split; [done|].
    rewrite !length_app, length_map.
    rewrite (py_slice_from_length original_colors original_positions)
      by done.
    cbn [length]. split; lia.
  - apply Exists_cons in Hex as [Hle|Hex]; [cbn [snd] in Hle; lra|].
    by apply IH.
Qed.

Lemma max_distance_Ok `{Math} (width height s : Q) (points : list Q)
    (cx cy r0 r1 cx' cy' : Q) :
  ~ s == 0 ->
  points = [cx; cy; r0; cx'; cy'; r1] ->
  exists md, RadialGradient.max_distance width height s points = Ok md.
Proof.
  intros Hs ->. unfold RadialGradient.max_distance.
  change (py_index [cx; cy; r0; cx'; cy'; r1] 0) with (Ok cx).
  change (py_index [cx; cy; r0; cx'; cy'; r1] 1) with (Ok cy).
  rewrite !bind_ret, (py_div_nonzero height s Hs), bind_ret. eauto.
Qed.

(** What [_repeat] returns on the circles and normalized stops that
    [layout] passes to it. *)
Lemma repeat_spec `{Math} (width height s cx cy first last_ : Q)
    (positions : list Q) (colors : list color) (p0 p_1 : Q) :
  0 <= first -> first < last_ -> ~ s == 0 ->
  head positions = Some p0 -> p0 == 0 ->
  last positions = Some p_1 -> p_1 == 1 ->
  length colors = length positions ->
  (2 <= length positions)%nat ->
  exists md r2 r5 positions' colors',
    RadialGradient.max_distance width height s
      [cx; cy; first; cx; cy; last_] = Ok md
    /\ RadialGradient._repeat width height s [cx; cy; first; cx; cy; last_]
         positions colors
       = Ok ([cx; cy; r2; cx; cy; r5], positions', colors')
    /\ r2 == 0
    /\ r5 = (if (0 <? py_ceil ((md - last_) / (last_ - first)))%Z
             then last_ + (last_ - first)
                          * inject_Z (py_ceil ((md - last_) / (last_ - first)))
             else last_)
    /\ md <= r5
    /\ length colors' = length positions'
    /\ (2 <= length positions')%nat.
Proof.
  intros Hfirst Hlt Hs Hhead Hp0 Hlast Hp_1 Hlen Hn.
  destruct (max_distance_Ok width height s _ cx cy first last_ cx cy Hs eq_refl)
    as [md Hmd].
  exists md. unfold RadialGradient._repeat. rewrite Hmd.
  change (py_index [cx; cy; first; cx; cy; last_] 5) with (Ok last_).
  change (py_index [cx; cy; first; cx; cy; last_] 2) with (Ok first).
  rewrite !bind_ret.
  assert (Hgl : ~ last_ - first == 0) by lra.
  rewrite (py_div_nonzero _ _ Hgl), bind_ret.
  set (gl := last_ - first) in *.
  assert (Hglpos : 0 < gl) by (unfold gl; lra).
  set (ra := py_ceil ((md - last_) / gl)).
  set (r5 := if (0 <? ra)%Z then last_ + gl * inject_Z ra else last_).
  assert (Hmdr5 : md <= r5).
  { pose proof (Qle_ceiling ((md - last_) / gl)) as Hc.
    change (Qceiling ((md - last_) / gl)) with ra in Hc.
    assert (Hq : gl * ((md - last_) / gl) == md - last_) by (field; lra).
    assert (Hmul : gl * ((md - last_) / gl) <= gl * inject_Z ra)
      by (by apply Qmult_le_l).
    unfold r5. destruct (Z.ltb_spec 0 ra) as [Hra|Hra].
    - lra.
    - assert (inject_Z ra <= 0) by (by rewrite (Zle_Qle ra 0) in Hra).
      assert (gl * inject_Z ra <= 0) by nra. lra. }
  (* the outward repeats *)
  assert (Hout : exists positions1 colors1,
    (if (0 <? ra)%Z
     then (py_slice_to [cx; cy; first; cx; cy; last_] 5
             ++ [last_ + gl * inject_Z ra],
           flat_map (fun i => map (fun position => inject_Z i + position)
                                  positions) (py_range 0 (1 + ra)),
           py_repeat_list colors (1 + ra))
     else ([cx; cy; first; cx; cy; last_], positions, colors))
    = ([cx; cy; first; cx; cy; r5], positions1, colors1)
    /\ length colors1 = length positions1
    /\ (2 <= length positions1)%nat).
  { unfold r5. destruct (Z.ltb_spec 0 ra) as [Hra|Hra].
    - eexists _, _. split; [reflexivity|].
      rewrite py_repeat_list_length.
      rewrite (flat_map_length_const _ _ (length positions))
        by (intros; by rewrite length_map).
      rewrite py_range_length, Hlen.
      replace (Z.to_nat (1 + ra - 0)) with (Z.to_nat (1 + ra)) by lia.
      split; [done|]. nia.
    - eexists _, _. split; [reflexivity|]. by split. }
  destruct Hout as (positions1 & colors1 & -> & Hlen1 & Hn1).
  change (py_index [cx; cy; first; cx; cy; r5] 2) with (Ok first).
  rewrite bind_ret.
  destruct (Qeq_bool_reflect first 0) as [Hzero|Hnz].
  { exists first, r5, positions1, colors1. by repeat split. }
  rewrite (py_div_nonzero _ _ Hgl), bind_ret.
  change (py_slice_to [cx; cy; first; cx; cy; r5] 2
            ++ [0] ++ py_slice_from [cx; cy; first; cx; cy; r5] 3)
    with [cx; cy; 0; cx; cy; r5].
  set (rb := first / gl).
  assert (Hrb : 0 <= rb).
  { unfold rb. apply Qle_shift_div_l; lra. }
  pose proof (py_int_nonneg rb Hrb) as Hint.
  set (fr := py_int rb) in *.
  (* the whole inward repeats *)
  assert (Hin : exists positions2 colors2,
    (if negb (fr =? 0)%Z
     then (flat_map (fun i => map (fun position =>
                                     inject_Z (i - fr) + position)
                                  positions) (py_range 0 fr) ++ positions1,
           colors1 ++ py_repeat_list colors fr)
     else (positions1, colors1))
    = (positions2, colors2)
    /\ length colors2 = length positions2
    /\ (2 <= length positions2)%nat).
  { destruct (fr =? 0)%Z; cbn [negb].
    - eexists _, _. split; [reflexivity|]. by split.
    - eexists _, _. split; [reflexivity|].
      rewrite !length_app, py_repeat_list_length.
      rewrite (flat_map_length_const _ _ (length positions))
        by (intros; by rewrite length_map).
      rewrite py_range_length, Hlen, Hlen1.
      replace (Z.to_nat (fr - 0)) with (Z.to_nat fr) by lia.
      split; lia. }
  destruct Hin as (positions2 & colors2 & -> & Hlen2 & Hn2).
  destruct (Qeq_bool_reflect (rb - inject_Z fr) 0) as [Hpartial|Hpartial].
  { exists 0, r5, positions2, colors2. by repeat split. }
  apply py_index_head in Hhead. apply py_index_last_iff in Hlast.
  rewrite Hhead, bind_ret, Hlast, bind_ret.
  apply Qeq_bool_iff in Hp0 as Hp0b. apply Qeq_bool_iff in Hp_1 as Hp_1b.
  rewrite Hp0b, Hp_1b. cbn [andb py_assert]. rewrite bind_ret.
  destruct (Qlt_bool_reflect 0 (rb - inject_Z fr)) as [_|]; [|lra].
  destruct (Qlt_bool_reflect (rb - inject_Z fr) 1) as [_|]; [|lra].
  cbn [andb py_assert]. rewrite bind_ret.
  destruct (center_scan_spec colors positions fr (1 - (rb - inject_Z fr))
              [cx; cy; 0; cx; cy; r5] positions2 colors2
              (py_enumerate 1 (rev positions)))
    as (positions' & colors' & -> & Hlen' & Hn'); [done|done| | |].
  - eapply Forall_impl; [apply py_enumerate_Forall|].
    intros [i x]. cbn [fst]. rewrite length_rev. lia.
  - apply py_index_head in Hhead.
    destruct positions as [|p positions]; [done|]. simplify_eq/=.
    unfold py_enumerate. rewrite imap_app. apply Exists_app. right.
    cbn [imap]. apply Exists_cons_hd. cbn [snd]. lra.
  - exists 0, r5, positions', colors'. repeat split; try done. lia.
Qed.

(** ** The circles passed to the tiler *)

Lemma head_map {A B} (f : A -> B) (l : list A) :
  head (map f l) = f <$> head l.
Proof. by destruct l. Qed.

Lemma last_map {A B} (f : A -> B) (l : list A) :
  last (map f l) = f <$> last l.
Proof. apply (fmap_last f l). Qed.

Lemma positive_realm_repeating_spec (self : RadialGradient.t)
    (positions positions' : list Q) (colors colors' : list color)
    (f0 l0 : Q) :
  RadialGradient.repeating self = true ->
  head positions = Some f0 ->
  last positions = Some l0 ->
  f0 <= l0 ->
  RadialGradient.positive_realm self positions colors
  = Ok (inr (positions', colors')) ->
  exists f1 l1,
    head positions' = Some f1 /\ last positions' = Some l1
    /\ 0 <= f1 /\ l1 - f1 == l0 - f0
    /\ colors' = colors /\ length positions' = length positions.
Proof.
  intros Hrep Hhead Hlast Hle. unfold RadialGradient.positive_realm.
  apply py_index_head in Hhead as Hp0.
  apply py_index_last_iff in Hlast as Hp_1.
  rewrite Hp0, bind_ret, Hrep.
  destruct (Qlt_bool_reflect f0 0) as [Hneg|Hpos].
  - unfold RadialGradient.shift. rewrite Hp_1, bind_ret, Hp0, bind_ret.
    unfold py_floordiv.
    destruct (Qeq_bool_reflect (l0 - f0) 0) as [|Hspan]; [done|].
    rewrite !bind_ret.
    assert (Hv : 0 < l0 - f0) by lra.
    pose proof (floor_period f0 (l0 - f0) Hv) as Hf.
    set (offset := (l0 - f0) * (1 + inject_Z (Qfloor (- f0 / (l0 - f0)))))
      in *.
    clearbody offset. intros [= <- <-].
    rewrite head_map, last_map, Hhead, Hlast, length_map.
    exists (f0 + offset), (l0 + offset).
    repeat split; try done; lra.
  - intros [= <- <-]. exists f0, l0. repeat split; try done; lra.
Qed.

Lemma circles_repeating `{Math}
    (color_stops : list (color * option Dimension)) (shape : string)
    (size : RadialGradient.size_t)
    (center : string * Dimension * string * Dimension)
    (self : RadialGradient.t) (width height s : Q)
    (points positions : list Q) (colors : list color) :
  RadialGradient.__init__ color_stops shape size center true = Ok self ->
  RadialGradient.circles self width height
  = Ok (inr (s, points, positions, colors)) ->
  exists cx cy first last_ p0 p_1,
    points = [cx; cy; first; cx; cy; last_]
    /\ 0 <= first /\ first < last_ /\ ~ s == 0
    /\ head positions = Some p0 /\ p0 == 0
    /\ last positions = Some p_1 /\ p_1 == 1
    /\ length colors = length positions
    /\ (2 <= length positions)%nat.
Proof.
  intros Hinit Hc. apply RadialGradient_init_Ok in Hinit as [Hne ->].
  unfold RadialGradient.circles in Hc.
  cbn [RadialGradient.colors RadialGradient.stop_positions
       RadialGradient.repeating] in Hc.
  rewrite length_map in Hc.
  destruct (Nat.eqb_spec (length color_stops) 1) as [|Hlen];
    [by inv_bind Hc|].
  destruct (RadialGradient.resolved_center _ _ _) as [center_x center_y].
  destruct (RadialGradient.resolved_size _ _ _) as [size_x size_y] eqn:Hsize.
  apply resolved_size_nonzero in Hsize as [Hsx Hsy].
  rewrite (py_div_nonzero size_y size_x Hsx), bind_ret in Hc.
  inv_bind Hc. rename a into resolved_positions.
  apply process_color_stops_Ok in Ha as (Hne' & -> & Hlp).
  cbn [negb] in Hc. rewrite bind_ret in Hc. inv_bind Hc.
  destruct a as [solid|[positions' colors']]; [done|].
  destruct (resolved_first_last size_x (map snd color_stops) Hne')
    as (f0 & l0 & Hf0 & Hl0 & Hfl).
  apply (positive_realm_repeating_spec _ _ _ _ _ f0 l0) in Ha; try done.
  destruct Ha as (f1 & l1 & Hf1 & Hl1 & Hpos & Hspan & -> & Hlen').
  rewrite (normalize_stop_positions_spec _ f1 l1 Hf1 Hl1), bind_ret in Hc.
  destruct (Qeq_bool_reflect f1 l1) as [|Hne1]; cbn [andb] in Hc;
    [by inv_bind Hc|].
  rewrite (py_div_nonzero center_y (size_y / size_x)) in Hc.
  2:{ intros Hz. apply Hsy.
      assert (size_x * (size_y / size_x) == size_y) as <- by (field; lra).
      rewrite Hz. ring. }
  rewrite bind_ret in Hc.
  destruct (Qeq_bool_reflect (l1 - f1) 0) as [|Hspan1]; [lra|].
  simplify_eq.
  rewrite head_map, last_map, Hf1, Hl1, !length_map, Hlen', Hlp, length_map.
  cbn [fmap option_fmap option_map].
  eexists _, _, f1, l1, _, _. split; [reflexivity|].
  repeat split; try done.
  - lra.
  - intros Hz. apply Hsy.
    assert (size_x * (size_y / size_x) == size_y) as <- by (field; lra).
    rewrite Hz. ring.
  - field. lra.
  - field. lra.
  - destruct color_stops as [|? [|? ?]]; simpl in *; try done; lia.
Qed.

(** C10: when [layout] calls [_repeat], the normalized positions start at 0
    and end at 1 and the period [points[5] - points[2]] is positive, and
    [_repeat] returns: no assertion fails and no division is by zero. *)
Theorem repeat_preconditions `{Math}
    (color_stops : list (color * option Dimension)) (shape : string)
    (size : RadialGradient.size_t)
    (center : string * Dimension * string * Dimension)
    (self : RadialGradient.t) (width height s : Q)
    (points positions : list Q) (colors : list color) :
  RadialGradient.__init__ color_stops shape size center true = Ok self ->
  RadialGradient.circles self width height
  = Ok (inr (s, points, positions, colors)) ->
  exists p0 p_1 r0 r1,
    py_index positions 0 = Ok p0 /\ p0 == 0
    /\ py_index positions (-1) = Ok p_1 /\ p_1 == 1
    /\ py_index points 2 = Ok r0 /\ py_index points 5 = Ok r1
    /\ 0 < r1 - r0
    /\ exists result,
         RadialGradient._repeat width height s points positions colors
         = Ok result.
Proof.
  intros Hinit Hc.
  destruct (circles_repeating _ _ _ _ _ _ _ _ _ _ _ Hinit Hc)
    as (cx & cy & first & last_ & p0 & p_1 & -> & Hfirst & Hlt & Hs
        & Hhead & Hp0 & Hlast & Hp_1 & Hlen & Hn).
  destruct (repeat_spec width height s cx cy first last_ positions colors
              p0 p_1) as (md & r2 & r5 & positions' & colors' & _ & Hr & _);
    try done.
  exists p0, p_1, first, last_.
  apply py_index_head in Hhead. apply py_index_last_iff in Hlast.
  repeat split; try done; [lra|eauto].
Qed.

(** The theorem on a repeating circle of radius 1 centered at the corner of
    a box of 3 by 4, with stops at 3px, 5px and 7px. *)
Lemma repeat_preconditions_witness :
  exists s points positions colors result,
    RadialGradient.circles (H:=rational_math)
      (RadialGradient.mk [red; green; blue]
         [Some (Px 3); Some (Px 5); Some (Px 7)] true
         ("left", Px 0, "top", Px 0) "circle"
         (RadialGradient.explicit (Px 1) (Px 1))) 3 4
    = Ok (inr (s, points, positions, colors))
    /\ RadialGradient._repeat (H:=rational_math) 3 4 s points positions colors
       = Ok result.
Proof.
  edestruct (repeat_preconditions (H:=rational_math)
               [(red, Some (Px 3)); (green, Some (Px 5)); (blue, Some (Px 7))]
               "circle" (RadialGradient.explicit (Px 1) (Px 1))
               ("left", Px 0, "top", Px 0))
    as (p0 & p_1 & r0 & r1 & _ & _ & _ & _ & _ & _ & _ & result & Hresult);
    [reflexivity|by vm_compute|].
  eexists _, _, _, _, result. split; [by vm_compute|exact Hresult].
Defined.

(** The circles returned by [_repeat] for [layout] have an inner radius
    of 0; when [ceil((max_distance - outer) / period)] is positive the outer
    radius is extended by that many periods; and the outer radius returned
    is at least [max_distance], the number that lines 525-529 compute. *)
Theorem repeat_covers_box `{Math}
    (color_stops : list (color * option Dimension)) (shape : string)
    (size : RadialGradient.size_t)
    (center : string * Dimension * string * Dimension)
    (self : RadialGradient.t) (width height s : Q)
    (points positions : list Q) (colors : list color) :
  RadialGradient.__init__ color_stops shape size center true = Ok self ->
  RadialGradient.circles self width height
  = Ok (inr (s, points, positions, colors)) ->
  exists max_distance r0 r1 cx cy r2 r5 positions' colors',
    RadialGradient.max_distance width height s points = Ok max_distance
    /\ py_index points 2 = Ok r0 /\ py_index points 5 = Ok r1
    /\ RadialGradient._repeat width height s points positions colors
       = Ok ([cx; cy; r2; cx; cy; r5], positions', colors')
    /\ RadialGradient.layout self width height
       = Ok (mkLayout s "radial" (Some [cx; cy; r2; cx; cy; r5])
               positions' colors')
    /\ r2 == 0
    /\ ((0 < py_ceil ((max_distance - r1) / (r1 - r0)))%Z ->
        r5 = r1 + (r1 - r0)
                  * inject_Z (py_ceil ((max_distance - r1) / (r1 - r0))))
    /\ max_distance <= r5.
Proof.
  intros Hinit Hc.
  destruct (circles_repeating _ _ _ _ _ _ _ _ _ _ _ Hinit Hc)
    as (cx & cy & first & last_ & p0 & p_1 & -> & Hfirst & Hlt & Hs
        & Hhead & Hp0 & Hlast & Hp_1 & Hlen & Hn).
  destruct (repeat_spec width height s cx cy first last_ positions colors
              p0 p_1)
    as (md & r2 & r5 & positions' & colors' & Hmd & Hr & Hr2 & Hr5 & Hcover
        & _); try done.
  exists md, first, last_, cx, cy, r2, r5, positions', colors'.
  repeat split; try done.
  - unfold RadialGradient.layout. rewrite Hc, bind_ret.
    apply RadialGradient_init_Ok in Hinit as [_ ->].
    cbn [RadialGradient.repeating]. by rewrite Hr, bind_ret.
  - intros Hra. apply Z.ltb_lt in Hra. by rewrite Hra in Hr5.
Qed.

(** The theorem on a repeating circle of radius 1 centered at the corner of
    a box of 3 by 4, with stops at 0px and 1px: the farthest corner is at
    distance 5, and the outer radius is extended from 1 to 5. *)
Lemma repeat_covers_box_witness :
  exists positions' colors' cx cy r2 r5,
    RadialGradient.layout (H:=rational_math)
      (RadialGradient.mk [red; green] [Some (Px 0); Some (Px 1)] true
         ("left", Px 0, "top", Px 0) "circle"
         (RadialGradient.explicit (Px 1) (Px 1))) 3 4
    = Ok (mkLayout (1 / 1) "radial" (Some [cx; cy; r2; cx; cy; r5])
            positions' colors')
    /\ r2 == 0 /\ r5 == 5.
Proof.
  edestruct (repeat_covers_box (H:=rational_math)
               [(red, Some (Px 0)); (green, Some (Px 1))]
               "circle" (RadialGradient.explicit (Px 1) (Px 1))
               ("left", Px 0, "top", Px 0))
    as (md & r0 & r1 & cx & cy & r2 & r5 & positions' & colors' & Hmd & Hr0
        & Hr1 & _ & Hlayout & Hr2 & Hr5 & _);
    [reflexivity|by vm_compute|].
  exists positions', colors', cx, cy, r2, r5.
  split; [exact Hlayout|]. split; [exact Hr2|].
  vm_compute in Hmd, Hr0, Hr1. simplify_eq.
  rewrite Hr5 by (by vm_compute). by vm_compute.
Defined.

(** C6 fails on the code when the vertical scale is not 1.  The circles
    are drawn in coordinates whose y axis is divided by [scale_y]: the
    center is at [center_y / scale_y] and the bottom of the box at
    [height / scale_y].  Lines 527 and 529 take the distance to the top
    corners with [-points[1] * scale_y], their distance in the coordinates
    of the box.  For a repeating ellipse of explicit size (2, 1) at the
    bottom left corner of a box of 3 by 4, with stops at 0px and 1px, the
    center of the circles is (0, 8), [max_distance] is 5 and the outer
    radius is extended from 1 to 5, by four periods; the top right corner
    of the box, (3, 0), is at distance sqrt(73) from the center, beyond the
    outer circle. *)
Theorem repeat_misses_corner :
  exists plan cx cy inner outer,
    RadialGradient.layout (H:=rational_math)
      (RadialGradient.mk [red; green] [Some (Px 0); Some (Px 1)] true
         ("left", Px 0, "bottom", Px 0) "ellipse"
         (RadialGradient.explicit (Px 2) (Px 1))) 3 4
    = Ok plan
    /\ type_ plan = "radial"
    /\ scale_y plan == 1 / 2
    /\ points plan = Some [cx; cy; inner; cx; cy; outer]
    /\ cx == 0 /\ cy == 8 /\ inner == 0 /\ outer == 5
    /\ RadialGradient.max_distance (H:=rational_math) 3 4 (scale_y plan)
         [cx; cy; 0; cx; cy; 1] = Ok 5
    /\ outer == 1 + (1 - 0) * inject_Z (py_ceil ((5 - 1) / (1 - 0)))
    /\ outer * outer
       < (3 - cx) * (3 - cx)
         + (0 / scale_y plan - cy) * (0 / scale_y plan - cy).
Proof.
  eexists _, _, _, _, _. split; [by vm_compute|]. split; [reflexivity|].
  split; [by vm_compute|]. split; [reflexivity|].
  repeat split; by vm_compute.
Qed.

(** ** Negative positions of a radial gradient that does not repeat *)

Lemma py_enumerate_cons {A} (start : Z) (x : A) (l : list A) :
  py_enumerate start (x :: l) = (start, x) :: py_enumerate (start + 1) l.
Proof.
  unfold py_enumerate. cbn [imap]. f_equal; [f_equal; lia|].
  apply imap_ext. intros i y _. simpl. f_equal. lia.
Qed.

Lemma last_drop {A} (l : list A) (i : nat) :
  (i < length l)%nat -> last (drop i l) = last l.
Proof.
  intros Hi. rewrite <- (take_drop i l) at 2. rewrite last_app.
  destruct (last (drop i l)) eqn:Hl; [done|].
  apply last_None in Hl. apply (f_equal length) in Hl.
  rewrite length_drop in Hl. simpl in Hl. lia.
Qed.

Lemma py_slice_from_nat {A} (l : list A) (i : nat) :
  py_slice_from l (Z.of_nat i) = drop i l.
Proof.
  unfold py_slice_from. by rewrite py_bound_nonneg, Nat2Z.id by lia.
Qed.

(** The scan stops at the first position that is not negative. *)
Lemma keep_from_zero_spec (cs : list color) (ps pre post : list Q) :
  ps = pre ++ post ->
  pre <> [] ->
  Forall (fun q => q < 0) pre ->
  Exists (fun q => 0 < q) post ->
  length cs = length ps ->
  exists (i : nat) position colors' positions',
    RadialGradient.keep_from_zero cs ps
      (py_enumerate (Z.of_nat (length pre)) post)
    = Ok (colors', positions')
    /\ ps !! i = Some position
    /\ (forall j q, (j < i)%nat -> ps !! j = Some q -> q < 0)
    /\ 0 <= position
    /\ (0 < i < length ps)%nat
    /\ ((position == 0 /\ colors' = drop i cs /\ positions' = drop i ps)
        \/ (0 < position
            /\ exists previous_color color_ previous_position c,
                cs !! (i - 1)%nat = Some previous_color
                /\ cs !! i = Some color_
                /\ ps !! (i - 1)%nat = Some previous_position
                /\ gradient_average_color
                     [previous_color; previous_color; color_; color_]
                     [previous_position; 0; 0; position] = Ok c
                /\ colors' = c :: drop i cs
                /\ positions' = 0 :: drop i ps)).
Proof.
  intros Hps Hne Hneg Hex Hlen. revert pre Hps Hne Hneg.
  induction post as [|position post IH]; intros pre Hps Hne Hneg;
    [by apply Exists_nil in Hex|].
  rewrite py_enumerate_cons. cbn [RadialGradient.keep_from_zero].
  assert (Hi : ps !! length pre = Some position)
    by (rewrite Hps; apply list_lookup_middle; done).
  assert (Hbefore : forall j q,
    (j < length pre)%nat -> ps !! j = Some q -> q < 0).
  { intros j q Hj Hq. rewrite Hps, lookup_app_l in Hq by done.
    rewrite Forall_forall in Hneg. apply Hneg.
    by apply list_elem_of_lookup_2 in Hq. }
  assert (Hrange : (0 < length pre < length ps)%nat).
  { rewrite Hps, length_app. cbn [length].
    destruct pre; [done|]. cbn [length]. lia. }
  destruct (Qeq_bool_reflect position 0) as [Hzero|Hnz].
  { exists (length pre), position. eexists _, _. split; [reflexivity|].
    rewrite !py_slice_from_nat.
    repeat split; try done; try lra; try lia. left. by repeat split. }
  destruct (Qlt_bool_reflect 0 position) as [Hpos|Hnpos].
  - destruct (lookup_lt_is_Some_2 cs (length pre)) as [color_ Hcolor];
      [lia|].
    destruct (lookup_lt_is_Some_2 cs (length pre - 1)) as [previous Hprev];
      [lia|].
    destruct (lookup_lt_is_Some_2 ps (length pre - 1)) as [pp Hpp]; [lia|].
    rewrite (py_index_lookup cs _ _ Hcolor), bind_ret.
    replace (Z.of_nat (length pre) - 1)%Z with (Z.of_nat (length pre - 1))
      by lia.
    rewrite (py_index_lookup cs _ _ Hprev), bind_ret.
    rewrite (py_index_lookup ps _ _ Hpp), bind_ret.
    assert (Hppneg : pp < 0) by (apply (Hbefore (length pre - 1)%nat); [lia|done]).
    destruct (Qlt_bool_reflect pp 0) as [_|]; [|done].
    cbn [py_assert]. rewrite bind_ret.
    destruct (gradient_average_color_total
                [previous; previous; color_; color_] [pp; 0; 0; position])
      as [c Hc]; [done|simpl; lia|].
    rewrite Hc, bind_ret, !py_slice_from_nat.
    exists (length pre), position. eexists _, _. split; [reflexivity|].
    repeat split; try done; try lra; try lia.
    right. split; [done|]. exists previous, color_, pp, c. by repeat split.
  - apply Exists_cons in Hex as [Hpos|Hex]; [lra|].
    destruct (IH Hex (pre ++ [position]))
      as (i & position' & colors' & positions' & Hk & Hrest).
    + by rewrite <- app_assoc.
    + by destruct pre.
    + apply Forall_app. split; [done|]. constructor; [lra|done].
    + exists i, position', colors', positions'. split; [|done].
      rewrite <- Hk. do 2 f_equal. rewrite length_app. simpl. lia.
Qed.

Lemma radial_boundaries_length (ps ps' : list Q) (cs cs' : list color) :
  length cs = length ps ->
  RadialGradient.boundaries ps cs = Ok (ps', cs') ->
  length cs' = length ps' /\ (length ps <= length ps')%nat.
Proof.
  intros Hlen Hb. unfold RadialGradient.boundaries in Hb.
  inv_bind Hb. inv_bind Hb. destruct a0 as [ps1 cs1].
  assert (H1 : length cs1 = length ps1 /\ (length ps <= length ps1)%nat).
  { destruct (0 <? a); [|by simplify_eq].
    inv_bind Ha0. destruct (a ==? a0); [|by simplify_eq].
    inv_bind Ha0. simplify_eq. simpl. lia. }
  destruct H1 as [Hlen1 Hle1].
  inv_bind Hb. inv_bind Hb. destruct (a0 ==? a1); [|by simplify_eq].
  inv_bind Hb. simplify_eq. rewrite !length_app. simpl. lia.
Qed.

(** Lines 477-497 as seen from [layout], for a radial gradient that does not
    repeat and whose first position (after the boundary stops are added) is
    negative: if the last position is not positive the layout is the solid
    last color; otherwise the layout is radial, its first normalized
    position is 0, and its first color is the color of the first stop that
    is not negative when that stop is exactly at 0, and else the average
    color computed from that stop and the one before it, placed around
    position 0. *)
Lemma negative_stops_clipped `{Math}
    (color_stops : list (color * option Dimension)) (shape : string)
    (size : RadialGradient.size_t)
    (center : string * Dimension * string * Dimension)
    (self : RadialGradient.t) (width height p0 p_1 : Q)
    (resolved_positions ps : list Q) (cs : list color) :
  RadialGradient.__init__ color_stops shape size center false = Ok self ->
  length color_stops <> 1%nat ->
  process_color_stops (fst (RadialGradient.resolved_size self width height))
    (RadialGradient.stop_positions self) = Ok resolved_positions ->
  RadialGradient.boundaries resolved_positions (RadialGradient.colors self)
  = Ok (ps, cs) ->
  head ps = Some p0 ->
  p0 < 0 ->
  last ps = Some p_1 ->
  (p_1 <= 0 ->
   exists c,
     last (RadialGradient.colors self) = Some c
     /\ RadialGradient.layout self width height
        = Ok (mkLayout 1 "solid" None [] [c]))
  /\ (0 < p_1 ->
      exists (i : nat) position plan q c,
        ps !! i = Some position
        /\ (forall j q', (j < i)%nat -> ps !! j = Some q' -> q' < 0)
        /\ 0 <= position
        /\ RadialGradient.layout self width height = Ok plan
        /\ type_ plan = "radial"
        /\ head (positions plan) = Some q /\ q == 0
        /\ head (colors plan) = Some c
        /\ (position == 0 -> cs !! i = Some c)
        /\ (0 < position ->
            exists previous_color color_ previous_position,
              cs !! (i - 1)%nat = Some previous_color
              /\ cs !! i = Some color_
              /\ ps !! (i - 1)%nat = Some previous_position
              /\ gradient_average_color
                   [previous_color; previous_color; color_; color_]
                   [previous_position; 0; 0; position] = Ok c)).
Proof.
  intros Hinit Hlen Hpos Hb Hhead Hneg Hlast.
  apply RadialGradient_init_Ok in Hinit as [Hne ->].
  cbn [RadialGradient.colors RadialGradient.stop_positions] in *.
  apply process_color_stops_Ok in Hpos as Hp. destruct Hp as (_ & _ & Hlp).
  rewrite length_map in Hlp.
  apply radial_boundaries_length in Hb as Hbl;
    [|by rewrite length_map, Hlp].
  destruct Hbl as [Hlcs Hlps].
  assert (Hprefix :
    RadialGradient.layout
      (RadialGradient.mk (map fst color_stops) (map snd color_stops) false
         center shape size) width height
    = (let '(center_x, center_y) :=
         RadialGradient.resolved_center
           (RadialGradient.mk (map fst color_stops) (map snd color_stops)
              false center shape size) width height in
       let '(size_x, size_y) :=
         RadialGradient.resolved_size
           (RadialGradient.mk (map fst color_stops) (map snd color_stops)
              false center shape size) width height in
       r ← RadialGradient.positive_realm
             (RadialGradient.mk (map fst color_stops) (map snd color_stops)
                false center shape size) ps cs;
       match r with
       | inl solid => Ok solid
       | inr (positions, colors) =>
           '(first, last_, positions) ← normalize_stop_positions positions;
           cy ← py_div center_y (size_y / size_x);
           Ok (mkLayout (size_y / size_x) "radial"
                 (Some [center_x; cy; first; center_x; cy; last_])
                 positions colors)
       end)).
  { unfold RadialGradient.layout, RadialGradient.circles.
    cbn [RadialGradient.colors RadialGradient.stop_positions
         RadialGradient.repeating].
    rewrite length_map.
    destruct (Nat.eqb_spec (length color_stops) 1) as [|_]; [done|].
    destruct (RadialGradient.resolved_center _ _ _) as [center_x center_y].
    destruct (RadialGradient.resolved_size _ _ _)
      as [size_x size_y] eqn:Hsize.
    apply resolved_size_nonzero in Hsize as [Hsx Hsy].
    rewrite (py_div_nonzero size_y size_x Hsx), bind_ret.
    cbn [fst] in Hpos. rewrite Hpos, bind_ret. cbn [negb].
    rewrite Hb, bind_ret.
    destruct (RadialGradient.positive_realm _ ps cs) as [[solid|[ps' cs']]|e];
      try done.
    rewrite !bind_ret.
    destruct (normalize_stop_positions ps') as [[[first last_] normalized]|e];
      [|done].
    rewrite !bind_ret. rewrite andb_false_r.
    destruct (py_div center_y (size_y / size_x)); by rewrite ?bind_ret. }
  rewrite Hprefix. clear Hprefix.
  destruct (RadialGradient.resolved_center _ _ _) as [center_x center_y].
  destruct (RadialGradient.resolved_size _ _ _) as [size_x size_y] eqn:Hsize.
  apply resolved_size_nonzero in Hsize as [Hsx Hsy].
  unfold RadialGradient.positive_realm. cbn [RadialGradient.repeating].
  apply py_index_head in Hhead as Hp0.
  apply py_index_last_iff in Hlast as Hp_1.
  rewrite Hp0, bind_ret.
  destruct (Qlt_bool_reflect p0 0) as [_|]; [|done].
  rewrite Hp_1, bind_ret. cbn [RadialGradient.colors].
  split.
  - intros Hle. destruct (Qle_bool_reflect p_1 0) as [_|]; [|done].
    destruct (py_index_in_range (map fst color_stops) (-1)) as [c Hc].
    { rewrite length_map. destruct color_stops; [done|]. simpl. lia. }
    exists c. split; [by apply py_index_last_iff|].
    by rewrite Hc, !bind_ret.
  - intros Hgt. destruct (Qle_bool_reflect p_1 0) as [|_]; [lra|].
    destruct ps as [|p ps]; [done|]. cbn [head] in Hhead. simplify_eq.
    rewrite py_enumerate_cons. cbn [RadialGradient.keep_from_zero].
    destruct (Qeq_bool_reflect p0 0) as [|_]; [lra|].
    destruct (Qlt_bool_reflect 0 p0) as [|_]; [lra|].
    destruct (keep_from_zero_spec cs (p0 :: ps) [p0] ps)
      as (i & position & colors' & positions' & Hk & Hi & Hbefore & Hnonneg
          & Hrange & Hcases); try done.
    { repeat constructor. done. }
    { destruct (decide (ps = [])) as [->|Hps]; [simplify_eq/=; lra|].
      destruct (exists_last Hps) as (pre & y & ->).
      rewrite app_comm_cons, last_snoc in Hlast. simplify_eq.
      apply Exists_app. right. by constructor. }
    change (Z.of_nat (length [p0])) with (0 + 1)%Z in Hk.
    rewrite Hk, !bind_ret.
    assert (Hshape : exists first l',
      positions' = first :: l' /\ first == 0
      /\ last positions' = Some p_1 /\ head colors' <> None).
    { destruct Hcases as [(Hz & -> & ->)|(Hz & pc & c_ & pp & c & _ & _ & _
                                          & _ & -> & ->)].
      - rewrite (drop_S _ _ _ Hi). eexists _, _. split; [done|].
        split; [done|]. rewrite <- (drop_S _ _ _ Hi), last_drop by lia.
        split; [done|].
        destruct (lookup_lt_is_Some_2 cs i) as [ci Hci]; [lia|].
        by rewrite (drop_S _ _ _ Hci).
      - eexists _, _. split; [done|]. split; [done|]. split; [|done].
        rewrite last_cons, last_drop by lia. by rewrite Hlast. }
    destruct Hshape as (first & l' & -> & Hfirst & Hlast' & Hcolors).
    rewrite (normalize_stop_positions_spec (first :: l') first p_1 eq_refl Hlast').
    rewrite bind_ret.
    destruct (Qeq_bool_reflect (p_1 - first) 0) as [|Hspan]; [lra|].
    rewrite py_div_nonzero, bind_ret.
    2:{ intros Hz. apply Hsy.
        assert (size_x * (size_y / size_x) == size_y) as <- by (field; lra).
        rewrite Hz. ring. }
    destruct colors' as [|c colors']; [done|].
    exists i, position. eexists. exists ((first - first) / (p_1 - first)), c.
    split; [done|]. split; [done|]. split; [done|].
    split; [reflexivity|]. split; [done|]. split; [done|].
    split; [field; lra|]. split; [done|].
    destruct Hcases as [(Hz & Hc & Hp)|(Hz & pc & c_ & pp & c' & Hpc & Hc_
                                        & Hpp & Havg & Hc & Hp)].
    + split; [|lra]. intros _.
      destruct (lookup_lt_is_Some_2 cs i) as [ci Hci]; [lia|].
      rewrite (drop_S _ _ _ Hci) in Hc. by simplify_eq.
    + split; [lra|]. intros _. simplify_eq. by exists pc, c_, pp.
Qed.

(** Scenario D: an ellipse of explicit size (50, 20) with stops at -10px,
    50px and 150px.  The first stop that is not negative is the second one,
    and the first color of the layout is the average color computed from
    the first two stops. *)
Lemma negative_stops_clipped_scenario_D :
  exists plan q c,
    RadialGradient.layout (H:=rational_math)
      (RadialGradient.mk [red; green; blue]
         [Some (Px (-10)); Some (Px 50); Some (Px 150)] false
         ("left", Percent 50, "top", Percent 50) "ellipse"
         (RadialGradient.explicit (Px 50) (Px 20))) 100 100
    = Ok plan
    /\ head (positions plan) = Some q /\ q == 0
    /\ head (colors plan) = Some c
    /\ gradient_average_color [red; red; green; green] [-10; 0; 0; 50] = Ok c.
Proof.
  edestruct (negative_stops_clipped (H:=rational_math)
               [(red, Some (Px (-10))); (green, Some (Px 50));
                (blue, Some (Px 150))]
               "ellipse" (RadialGradient.explicit (Px 50) (Px 20))
               ("left", Percent 50, "top", Percent 50))
    as [_ Hclip];
    [reflexivity|done|by vm_compute|by vm_compute|reflexivity|by vm_compute
    |reflexivity|].
  destruct Hclip as (i & position & plan & q & c & Hi & Hbefore & Hnonneg
                     & Hlayout & _ & Hq & Hq0 & Hc & _ & Havg);
    [reflexivity|].
  exists plan, q, c. repeat split; try done.
  destruct i as [|[|i]].
  - simplify_eq/=. by destruct Hnonneg.
  - simplify_eq/=.
    destruct Havg as (previous_color & color_ & previous_position & Hpc & Hc_
                      & Hpp & Havg); [reflexivity|].
    by simplify_eq/=.
  - exfalso. assert (Hfalse : 50 < 0) by (apply (Hbefore 1%nat); [lia|done]).
    by vm_compute in Hfalse.
Defined.

(** When a stop lies exactly at 0 its color is kept: with stops at -10px,
    0px and 50px the first color of the layout is the color of the second
    stop, and not an average computed from a pair of stops around 0,
    whichever pair is taken. *)
Lemma negative_stops_exact_zero :
  exists plan c c1 c2,
    RadialGradient.layout (H:=rational_math)
      (RadialGradient.mk [red; green; blue]
         [Some (Px (-10)); Some (Px 0); Some (Px 50)] false
         ("left", Percent 50, "top", Percent 50) "ellipse"
         (RadialGradient.explicit (Px 50) (Px 20))) 100 100
    = Ok plan
    /\ head (colors plan) = Some c
    /\ color_eq c green
    /\ gradient_average_color [red; red; green; green] [-10; 0; 0; 0] = Ok c1
    /\ ~ color_eq c c1
    /\ gradient_average_color [green; green; blue; blue] [0; 0; 0; 50] = Ok c2
    /\ ~ color_eq c c2.
Proof.
  eexists _, _, _, _. split; [by vm_compute|]. split; [reflexivity|].
  split; [by vm_compute|]. split; [by vm_compute|].
  split; [vm_compute; by intros ([=] & _)|].
  split; [by vm_compute|]. vm_compute. by intros (_ & [=] & _).
Qed.

(** ** Sorted positions *)

Lemma sorted_bounds (l : list Q) (first last_ : Q) :
  StronglySorted Qle l ->
  head l = Some first ->
  last l = Some last_ ->
  Forall (fun q => first <= q <= last_) l.
Proof.
  intros Hsorted Hhead Hlast. apply Forall_forall. intros q Hq. split.
  - destruct l as [|p l]; [done|]. cbn [head] in Hhead. simplify_eq.
    apply StronglySorted_inv in Hsorted as [_ Hall].
    apply elem_of_cons in Hq as [->|Hq]; [lra|].
    rewrite Forall_forall in Hall. by apply Hall.
  - destruct (decide (l = [])) as [->|Hne]; [done|].
    destruct (exists_last Hne) as (pre & y & ->).
    rewrite last_snoc in Hlast. simplify_eq.
    apply elem_of_app in Hq as [Hq|Hq].
    + eapply StronglySorted_app_1_elem_of; [exact Hsorted|done|].
      by apply list_elem_of_singleton.
    + apply list_elem_of_singleton in Hq. subst. lra.
Qed.

Lemma py_index_elem_of {A} (l : list A) (i : Z) (x : A) :
  py_index l i = Ok x -> x ∈ l.
Proof.
  unfold py_index. intros Hx.
  destruct (_ <? 0)%Z; [done|].
  destruct (l !! _) eqn:Hl; simplify_eq.
  by apply list_elem_of_lookup_2 in Hl.
Qed.

Lemma normalized_unit_interval (l : list Q) (first last_ : Q) :
  StronglySorted Qle l ->
  head l = Some first ->
  last l = Some last_ ->
  first < last_ ->
  unit_interval (map (fun pos => (pos - first) / (last_ - first)) l).
Proof.
  intros Hsorted Hhead Hlast Hlt.
  pose proof (sorted_bounds l first last_ Hsorted Hhead Hlast) as Hbounds.
  assert (Hinv : 0 < / (last_ - first)) by (apply Qinv_lt_0_compat; lra).
  assert (Hone : (last_ - first) / (last_ - first) == 1) by (field; lra).
  unfold unit_interval. repeat split.
  - apply (StronglySorted_fmap _ Qle Qle); [|done].
    intros x y Hxy. unfold Qdiv. nra.
  - apply Forall_forall. intros q Hq. apply list_elem_of_In in Hq.
    apply in_map_iff in Hq. destruct Hq as (p & <- & Hp).
    rewrite Forall_forall in Hbounds.
    apply list_elem_of_In, Hbounds in Hp. unfold Qdiv in *. split; nra.
  - rewrite head_map, Hhead. eexists. split; [done|]. unfold Qdiv. ring.
  - rewrite last_map, Hlast. eexists. split; [done|]. done.
Qed.

(** ** Boundary stops *)

(** The stop appended after the last position (lines 403-405 and
    466-468). *)
Lemma append_boundary_spec (ps ps' : list Q) (cs cs' : list color)
    (p_2 p_1 : Q) :
  py_index ps (-2) = Ok p_2 ->
  py_index ps (-1) = Ok p_1 ->
  (if p_2 ==? p_1
   then c_1 ← py_index cs (-1); Ok (ps ++ [p_1 + 1], cs ++ [c_1])
   else Ok (ps, cs)) = Ok (ps', cs') ->
  length cs = length ps ->
  length cs' = length ps'
  /\ (2 <= length ps')%nat
  /\ head ps' = head ps
  /\ (StronglySorted Qle ps ->
      StronglySorted Qle ps'
      /\ exists first last_,
          head ps' = Some first /\ last ps' = Some last_ /\ first < last_).
Proof.
  intros Hp_2 Hp_1 Hps' Hlen.
  apply py_index_Ok_length in Hp_2 as Hn.
  apply py_index_elem_of in Hp_2 as Hin.
  apply py_index_last_iff in Hp_1 as Hlast.
  destruct ps as [|p0 ps]; [done|].
  destruct (Qeq_bool_reflect p_2 p_1) as [Heq|Hne].
  - inv_bind Hps'. simplify_eq. cbn [length] in *.
    rewrite !length_app. cbn [length].
    split; [lia|]. split; [lia|]. split; [done|].
    intros Hsorted. change (p0 :: ps ++ [p_1 + 1])
      with ((p0 :: ps) ++ [p_1 + 1]).
    pose proof (sorted_bounds _ p0 p_1 Hsorted eq_refl Hlast) as Hbounds.
    split.
    + apply StronglySorted_app_2; [|done|repeat constructor].
      intros x1 x2 Hx1 Hx2. apply list_elem_of_singleton in Hx2. subst.
      rewrite Forall_forall in Hbounds. specialize (Hbounds _ Hx1). lra.
    + exists p0, (p_1 + 1). split; [done|].
      split; [by rewrite last_snoc|].
      rewrite Forall_forall in Hbounds.
      specialize (Hbounds p0 ltac:(by left)). lra.
  - simplify_eq. split; [done|]. split; [cbn [length] in *; lia|].
    split; [done|]. intros Hsorted. split; [done|].
    pose proof (sorted_bounds _ p0 p_1 Hsorted eq_refl Hlast) as Hbounds.
    rewrite Forall_forall in Hbounds. specialize (Hbounds _ Hin).
    exists p0, p_1. split; [done|]. split; [done|]. lra.
Qed.

Lemma linear_boundaries_spec (ps ps' : list Q) (cs cs' : list color) :
  LinearGradient.boundaries ps cs = Ok (ps', cs') ->
  length cs = length ps ->
  length cs' = length ps'
  /\ (2 <= length ps')%nat
  /\ (StronglySorted Qle ps ->
      StronglySorted Qle ps'
      /\ exists first last_,
          head ps' = Some first /\ last ps' = Some last_ /\ first < last_).
Proof.
  intros Hb Hlen. unfold LinearGradient.boundaries in Hb.
  inv_bind Hb. rename a into p0. inv_bind Hb. rename a into p1.
  inv_bind Hb. destruct a as [ps1 cs1].
  inv_bind Hb. rename a into p_2. inv_bind Hb. rename a into p_1.
  assert (H1 : length cs1 = length ps1
               /\ (StronglySorted Qle ps -> StronglySorted Qle ps1)).
  { destruct (Qeq_bool_reflect p0 p1); [|by simplify_eq].
    inv_bind Ha1. simplify_eq. split; [simpl; lia|].
    intros Hsorted. constructor; [done|].
    apply py_index_head in Ha.
    destruct (decide (ps = [])) as [->|Hne]; [done|].
    destruct (exists_last Hne) as (pre & y & Hy).
    assert (Hlast : last ps = Some y) by (rewrite Hy; apply last_snoc).
    pose proof (sorted_bounds _ p0 y Hsorted Ha Hlast) as Hbounds.
    eapply Forall_impl; [exact Hbounds|]. simpl. intros; lra. }
  destruct H1 as [Hlen1 Hsorted1].
  destruct (append_boundary_spec ps1 ps' cs1 cs' p_2 p_1 Ha2 Ha3 Hb Hlen1)
    as (Hl & Hn & _ & Hs).
  split; [done|]. split; [done|]. intros Hsorted. by apply Hs, Hsorted1.
Qed.

Lemma radial_boundaries_spec (ps ps' : list Q) (cs cs' : list color) :
  RadialGradient.boundaries ps cs = Ok (ps', cs') ->
  length cs = length ps ->
  length cs' = length ps'
  /\ (2 <= length ps')%nat
  /\ (StronglySorted Qle ps ->
      StronglySorted Qle ps'
      /\ exists first last_,
          head ps' = Some first /\ last ps' = Some last_ /\ first < last_).
Proof.
  intros Hb Hlen. unfold RadialGradient.boundaries in Hb.
  inv_bind Hb. rename a into p0.
  inv_bind Hb. destruct a as [ps1 cs1].
  inv_bind Hb. rename a into p_2. inv_bind Hb. rename a into p_1.
  assert (H1 : length cs1 = length ps1
               /\ (StronglySorted Qle ps -> StronglySorted Qle ps1)).
  { destruct (Qlt_bool_reflect 0 p0) as [Hpos|]; [|by simplify_eq].
    inv_bind Ha0. rename a into p1.
    destruct (Qeq_bool_reflect p0 p1); [|by simplify_eq].
    inv_bind Ha0. simplify_eq. split; [simpl; lia|].
    intros Hsorted. constructor; [done|].
    apply py_index_head in Ha.
    destruct (decide (ps = [])) as [->|Hne]; [done|].
    destruct (exists_last Hne) as (pre & y & Hy).
    assert (Hlast : last ps = Some y) by (rewrite Hy; apply last_snoc).
    pose proof (sorted_bounds _ p0 y Hsorted Ha Hlast) as Hbounds.
    eapply Forall_impl; [exact Hbounds|]. simpl. intros; lra. }
  destruct H1 as [Hlen1 Hsorted1].
  destruct (append_boundary_spec ps1 ps' cs1 cs' p_2 p_1 Ha1 Ha2 Hb Hlen1)
    as (Hl & Hn & _ & Hs).
  split; [done|]. split; [done|]. intros Hsorted. by apply Hs, Hsorted1.
Qed.

Lemma sorted_drop (l : list Q) (i : nat) :
  StronglySorted Qle l -> StronglySorted Qle (drop i l).
Proof.
  intros Hsorted. rewrite <- (take_drop i l) in Hsorted.
  by apply StronglySorted_app_1_r in Hsorted.
Qed.

(** What the clipping of negative positions returns when the gradient does
    not repeat and is not solid. *)
Lemma positive_realm_clip_spec (self : RadialGradient.t)
    (ps ps' : list Q) (cs cs' : list color) (f t : Q) :
  RadialGradient.repeating self = false ->
  RadialGradient.positive_realm self ps cs = Ok (inr (ps', cs')) ->
  length cs = length ps ->
  (2 <= length ps)%nat ->
  head ps = Some f ->
  last ps = Some t ->
  length cs' = length ps'
  /\ (2 <= length ps')%nat
  /\ (exists f' t',
        head ps' = Some f' /\ last ps' = Some t' /\ (f < t -> f' < t'))
  /\ (StronglySorted Qle ps -> StronglySorted Qle ps').
Proof.
  intros Hrep Hrealm Hlen Hn Hhead Hlast.
  unfold RadialGradient.positive_realm in Hrealm.
  apply py_index_head in Hhead as Hp0.
  apply py_index_last_iff in Hlast as Hp_1.
  rewrite Hp0, bind_ret, Hrep in Hrealm.
  destruct (Qlt_bool_reflect f 0) as [Hneg|Hnonneg].
  2:{ simplify_eq. split; [done|]. split; [done|]. split; [eauto|done]. }
  rewrite Hp_1, bind_ret in Hrealm.
  destruct (Qle_bool_reflect t 0) as [|Hpos]; [by inv_bind Hrealm|].
  destruct ps as [|p ps]; [done|]. cbn [head] in Hhead. simplify_eq.
  rewrite py_enumerate_cons in Hrealm.
  cbn [RadialGradient.keep_from_zero] in Hrealm.
  destruct (Qeq_bool_reflect f 0) as [|_]; [lra|].
  destruct (Qlt_bool_reflect 0 f) as [|_]; [lra|].
  destruct (keep_from_zero_spec cs (f :: ps) [f] ps)
    as (i & position & colors' & positions' & Hk & Hi & Hbefore & Hnonneg
        & Hrange & Hcases); try done.
  { repeat constructor. done. }
  { destruct (decide (ps = [])) as [->|Hps]; [simplify_eq/=; lra|].
    destruct (exists_last Hps) as (pre & y & ->).
    rewrite app_comm_cons, last_snoc in Hlast. simplify_eq.
    apply Exists_app. right. constructor. lra. }
  change (Z.of_nat (length [f])) with (0 + 1)%Z in Hk.
  rewrite Hk, bind_ret in Hrealm. simplify_eq.
  assert (Hlast' : last (drop i (f :: ps)) = Some t)
    by (by rewrite last_drop by lia).
  destruct Hcases as [(Hz & -> & ->)|(Hz & pc & c_ & pp & c & _ & _ & _
                                      & _ & -> & ->)].
  - rewrite !length_drop, Hlen. split; [done|].
    rewrite (drop_S _ _ _ Hi) in Hlast' |- *.
    split.
    { destruct (drop (S i) (f :: ps)) as [|y l'] eqn:Hd.
      - cbn in Hlast'. simplify_eq. lra.
      - apply (f_equal length) in Hd. rewrite length_drop in Hd.
        cbn [length] in *. lia. }
    split.
    { exists position, t. split; [done|]. split; [done|]. intros _. lra. }
    intros Hsorted. rewrite <- (drop_S _ _ _ Hi). by apply sorted_drop.
  - cbn [length]. rewrite !length_drop, Hlen. split; [done|].
    split; [lia|]. split.
    { exists 0, t. split; [done|]. split; [|intros _; lra].
      by rewrite last_cons, Hlast'. }
    intros Hsorted. constructor; [by apply sorted_drop|].
    apply (sorted_drop _ i) in Hsorted.
    rewrite (drop_S _ _ _ Hi) in Hsorted |- *.
    apply StronglySorted_inv in Hsorted as [_ Hall].
    constructor; [lra|]. eapply Forall_impl; [exact Hall|].
    simpl. intros; lra.
Qed.

(** ** The resolved size is not negative *)

Lemma fold_left_elem_of {A} (f : A -> A -> A) (l : list A) (x : A) :
  (forall a b, f a b = a \/ f a b = b) ->
  fold_left f l x ∈ x :: l.
Proof.
  intros Hf. revert x. induction l as [|y l IH]; intros x; cbn [fold_left].
  - by left.
  - specialize (IH (f x y)). apply elem_of_cons in IH as [->|IH].
    + destruct (Hf x y) as [->| ->]; [by left|right; by left].
    + right. by right.
Qed.

Lemma pick_elem_of {A} (name : string) (key : A -> Q) (x : A) (l : list A) :
  RadialGradient.pick name key x l ∈ x :: l.
Proof.
  unfold RadialGradient.pick, py_min, py_max.
  destruct (startswith name "closest"); apply fold_left_elem_of;
    intros a b; destruct (_ <? _); auto.
Qed.

Lemma resolve_size_nonneg `{Math} (self : RadialGradient.t)
    (width height center_x center_y sx sy : Q) :
  (forall a b, 0 <= hypot a b) ->
  0 <= sqrt 2 ->
  (forall rx ry, RadialGradient.size self = RadialGradient.explicit rx ry ->
                 0 <= percentage_of rx width /\ 0 <= percentage_of ry height) ->
  RadialGradient._resolve_size self width height center_x center_y = (sx, sy) ->
  0 <= sx /\ 0 <= sy.
Proof.
  intros Hhypot Hsqrt Hexplicit. unfold RadialGradient._resolve_size.
  destruct (RadialGradient.size self) as [name|rx ry].
  2:{ intros [= <- <-]. by apply Hexplicit. }
  set (left := Qabs center_x). set (right := Qabs (width - center_x)).
  set (top := Qabs center_y). set (bottom := Qabs (height - center_y)).
  assert (Hl : 0 <= left) by apply Qabs_nonneg.
  assert (Hr : 0 <= right) by apply Qabs_nonneg.
  assert (Ht : 0 <= top) by apply Qabs_nonneg.
  assert (Hb : 0 <= bottom) by apply Qabs_nonneg.
  assert (Hpick : forall x l, Forall (fun q => 0 <= q) (x :: l) ->
                              0 <= RadialGradient.pick name id x l).
  { intros x l Hall. rewrite Forall_forall in Hall. apply Hall.
    apply pick_elem_of. }
  destruct (endswith name "side"); destruct (String.eqb _ "circle").
  - intros [= <- <-]. split; apply Hpick; by repeat constructor.
  - intros [= <- <-]. split; apply Hpick; by repeat constructor.
  - intros [= <- <-]. split; apply Hpick; by repeat constructor.
  - pose proof (pick_elem_of name (fun a : Q * Q => hypot a.1 a.2)
                  (left, top) [(left, bottom); (right, top); (right, bottom)])
      as Hin.
    destruct (RadialGradient.pick _ _ _ _) as [corner_x corner_y].
    intros [= <- <-].
    assert (0 <= corner_x /\ 0 <= corner_y) as [Hx Hy].
    { repeat (apply elem_of_cons in Hin as [Hin|Hin];
              [by simplify_eq|]).
      by apply elem_of_nil in Hin. }
    split; nra.
Qed.

Lemma resolved_size_positive `{Math} (self : RadialGradient.t)
    (width height sx sy : Q) :
  (forall a b, 0 <= hypot a b) ->
  0 <= sqrt 2 ->
  (forall rx ry, RadialGradient.size self = RadialGradient.explicit rx ry ->
                 0 <= percentage_of rx width /\ 0 <= percentage_of ry height) ->
  RadialGradient.resolved_size self width height = (sx, sy) ->
  0 < sy / sx.
Proof.
  intros Hhypot Hsqrt Hexplicit. unfold RadialGradient.resolved_size.
  destruct (RadialGradient.resolved_center _ _ _) as [center_x center_y].
  destruct (RadialGradient._resolve_size _ _ _ _ _) as [size_x size_y] eqn:Hs.
  apply resolve_size_nonneg in Hs as [Hx Hy]; try done.
  intros Hd. apply handle_degenerate_nonzero in Hd as (_ & _ & Hpos).
  destruct (Hpos Hx Hy). apply Qlt_shift_div_l; lra.
Qed.

(** ** What [circles] returns *)

Lemma positive_realm_inl (self : RadialGradient.t) (ps : list Q)
    (cs : list color) (solid : Layout) :
  RadialGradient.positive_realm self ps cs = Ok (inl solid) ->
  type_ solid = "solid".
Proof.
  unfold RadialGradient.positive_realm. intros Hr. inv_bind Hr.
  destruct (a <? 0); [|done].
  destruct (RadialGradient.repeating self); [by inv_bind Hr|].
  inv_bind Hr. destruct (a0 <=? 0).
  - inv_bind Hr. by simplify_eq.
  - inv_bind Hr. by destruct a1.
Qed.

Lemma circles_inl `{Math} (self : RadialGradient.t) (width height : Q)
    (solid : Layout) :
  RadialGradient.circles self width height = Ok (inl solid) ->
  type_ solid = "solid".
Proof.
  unfold RadialGradient.circles. intros Hc.
  destruct (length (RadialGradient.colors self) =? 1)%nat.
  { inv_bind Hc. by simplify_eq. }
  destruct (RadialGradient.resolved_center _ _ _) as [center_x center_y].
  destruct (RadialGradient.resolved_size _ _ _) as [size_x size_y].
  inv_bind Hc. inv_bind Hc. inv_bind Hc. destruct a1 as [ps cs].
  inv_bind Hc. destruct a1 as [l|[ps' cs']].
  { simplify_eq. by eapply positive_realm_inl. }
  inv_bind Hc. destruct a1 as [[first last_] normalized].
  destruct ((first ==? last_) && RadialGradient.repeating self).
  - inv_bind Hc. by simplify_eq.
  - by inv_bind Hc.
Qed.

Lemma circles_inr `{Math}
    (color_stops : list (color * option Dimension)) (shape : string)
    (size : RadialGradient.size_t)
    (center : string * Dimension * string * Dimension) (repeating : bool)
    (self : RadialGradient.t) (width height s : Q)
    (points normalized : list Q) (cs : list color) :
  RadialGradient.__init__ color_stops shape size center repeating = Ok self ->
  RadialGradient.circles self width height
  = Ok (inr (s, points, normalized, cs)) ->
  exists sx sy ps,
    RadialGradient.resolved_size self width height = (sx, sy)
    /\ s = sy / sx
    /\ process_color_stops sx (RadialGradient.stop_positions self) = Ok ps
    /\ length cs = length normalized
    /\ (2 <= length normalized)%nat
    /\ (repeating = false -> StronglySorted Qle ps ->
        unit_interval normalized).
Proof.
  intros Hinit Hc. apply RadialGradient_init_Ok in Hinit as [Hne ->].
  unfold RadialGradient.circles in Hc.
  cbn [RadialGradient.colors RadialGradient.stop_positions
       RadialGradient.repeating] in Hc.
  rewrite length_map in Hc.
  destruct (Nat.eqb_spec (length color_stops) 1) as [|Hlen];
    [by inv_bind Hc|].
  assert (Hn : (2 <= length color_stops)%nat)
    by (destruct color_stops as [|? [|? ?]]; simpl in *; try done; lia).
  destruct (RadialGradient.resolved_center _ _ _) as [center_x center_y].
  destruct (RadialGradient.resolved_size _ _ _) as [size_x size_y] eqn:Hsize.
  inv_bind Hc. apply py_div_Ok in Ha as [Hsx ->].
  inv_bind Hc. rename a into ps.
  apply process_color_stops_Ok in Ha as Hp. destruct Hp as (_ & _ & Hlp).
  rewrite length_map in Hlp.
  inv_bind Hc. destruct a as [ps1 cs1].
  inv_bind Hc. destruct a as [solid|[ps2 cs2]]; [done|].
  inv_bind Hc. destruct a as [[first last_] normalized'].
  apply normalize_stop_positions_Ok in Ha2 as (Hhead & Hlast & Hln & Hnorm).
  destruct repeating; cbn [negb] in Ha0.
  - simplify_eq.
    apply positive_realm_repeating in Ha1 as [-> Hl2]; [|done].
    destruct ((first ==? last_) && true); [by inv_bind Hc|].
    inv_bind Hc. simplify_eq.
    eexists _, _, _. split; [done|]. split; [reflexivity|].
    split; [eassumption|].
    rewrite Hln, Hl2, Hlp, length_map. by repeat split.
  - rewrite andb_false_r in Hc. inv_bind Hc. simplify_eq.
    eexists _, _, _. split; [done|]. split; [reflexivity|].
    split; [eassumption|].
    apply radial_boundaries_spec in Ha0 as (Hl1 & Hn1 & Hs1);
      [|by rewrite length_map].
    destruct ps1 as [|f ps1]; [simpl in Hn1; lia|].
    destruct (exists_last (l:=f :: ps1)) as (pre & t & Hy); [done|].
    assert (Hlast1 : last (f :: ps1) = Some t)
      by (rewrite Hy; apply last_snoc).
    eapply positive_realm_clip_spec in Ha1
      as (Hl2 & Hn2 & (f' & t' & Hf' & Ht' & Hft) & Hs2);
      [|done|done|done|reflexivity|exact Hlast1].
    rewrite Hln. split; [done|]. split; [done|].
    intros _ Hsorted. destruct (Hs1 Hsorted) as (Hsorted1 & f1 & t1 & Hf1 & Ht1
                                                 & Hlt1).
    cbn [head] in Hf1. simplify_eq.
    specialize (Hft Hlt1). specialize (Hs2 Hsorted1).
    destruct (Qeq_bool_reflect (last_ - first) 0) as [|_]; [lra|].
    by apply normalized_unit_interval.
Qed.

(** ** The rational square root *)

Lemma sqrt_down_nonneg (x : Q) : 0 <= sqrt_down x.
Proof.
  unfold sqrt_down. apply Qle_shift_div_l.
  - by rewrite <- (Zlt_Qlt 0).
  - rewrite Qmult_0_l, <- (Zle_Qle 0). apply Z.sqrt_nonneg.
Qed.

(** A repeating circle of radius 1 centered at the corner of a box of 3 by
    4, with stops at 0px and 1px, is tiled over five periods: its last
    position is 5. *)
Lemma layout_repeating_radial_tiled :
  exists plan last_,
    RadialGradient.layout (H:=rational_math)
      (RadialGradient.mk [red; green] [Some (Px 0); Some (Px 1)] true
         ("left", Px 0, "top", Px 0) "circle"
         (RadialGradient.explicit (Px 1) (Px 1))) 3 4 = Ok plan
    /\ type_ plan = "radial"
    /\ last (positions plan) = Some last_
    /\ last_ == 5
    /\ ~ last_ == 1.
Proof.
  eexists _, _. split; [by vm_compute|]. split; [reflexivity|].
  split; [reflexivity|]. split; by vm_compute.
Qed.

(** ** The color at position 0 *)

(** For opaque colors, the average color that line 492 computes from the
    stop before 0 and the stop after 0 is the color interpolated at 0 with
    the colors of the two stops exchanged: each color is weighted by the
    distance of its own stop to 0, instead of the distance of the other
    one. *)
Lemma average_around_zero (r0 g0 b0 r1 g1 b1 previous_position position : Q) :
  previous_position < 0 ->
  0 < position ->
  exists c,
    gradient_average_color
      [(r0, g0, b0, 1); (r0, g0, b0, 1); (r1, g1, b1, 1); (r1, g1, b1, 1)]
      [previous_position; 0; 0; position] = Ok c
    /\ color_eq c (interpolated_color (r1, g1, b1, 1) previous_position
                     (r0, g0, b0, 1) position 0).
Proof.
  intros Hpp Hp. unfold gradient_average_color.
  set (pp := previous_position) in *. set (p := position) in *.
  cbn [length Nat.ltb Nat.leb Nat.eqb py_assert]. rewrite !bind_ret.
  change (py_index [pp; 0; 0; p] (-1)) with (Ok p).
  change (py_index [pp; 0; 0; p] 0) with (Ok pp).
  rewrite !bind_ret.
  destruct (Qeq_bool_reflect (p - pp) 0) as [|_]; [lra|].
  assert (Hw : ~ 2 * (p - pp) == 0) by lra.
  change (py_enumerate 1 (py_slice_from [pp; 0; 0; p] 1))
    with [(1%Z, 0); (2%Z, 0); (3%Z, p)].
  cbn [for_in map].
  change (py_index [pp; 0; 0; p] (1 - 1)) with (Ok pp).
  change (py_index [pp; 0; 0; p] (2 - 1)) with (Ok 0).
  change (py_index [pp; 0; 0; p] (3 - 1)) with (Ok 0).
  rewrite !bind_ret, !(py_div_nonzero _ _ Hw), !bind_ret.
  unfold average_step.
  repeat match goal with
  | |- context [py_index ?l ?i] =>
      let x := eval cbv [py_index Z.ltb Z.compare Z.to_nat Z.sub Z.add Z.opp
                         Pos.to_nat Pos.iter_op Nat.add lookup list_lookup
                         Z.pos_sub Z.succ_double Z.pred_double Z.double
                         Pos.pred_double] in (py_index l i) in
      change (py_index l i) with x
  end.
  repeat first [rewrite bind_ret | rewrite (py_div_nonzero _ _ Hw)
                | progress cbv beta iota].
  set (a := 0 + 1 * ((0 - pp) / (2 * (p - pp)))
            + 1 * ((0 - pp) / (2 * (p - pp))) + 1 * ((0 - 0) / (2 * (p - pp)))
            + 1 * ((0 - 0) / (2 * (p - pp))) + 1 * ((p - 0) / (2 * (p - pp)))
            + 1 * ((p - 0) / (2 * (p - pp)))).
  assert (Ha : a == 1) by (unfold a; field; lra).
  destruct (Qeq_bool_reflect a 0) as [|Hnz]; [lra|]. cbn [negb].
  rewrite !(py_div_nonzero _ _ Hnz), !bind_ret.
  eexists. split; [reflexivity|].
  unfold color_eq, interpolated_color.
  repeat split; try (rewrite Ha; field; lra).
Qed.

(** C5 fails on the code, on the gradient of the claim itself (scenario D:
    an ellipse of explicit size (50, 20) with stops red at -10px, green at
    50px and blue at 150px, not repeating).  The first color of the plan is
    (1/6, 5/6, 0, 1), while the color interpolated at position 0 between
    red at -10 and green at 50 is (5/6, 1/6, 0, 1); the color returned is
    the interpolation with red and green exchanged. *)
Theorem clipped_color_not_interpolated :
  exists plan q c,
    RadialGradient.layout (H:=rational_math)
      (RadialGradient.mk [red; green; blue]
         [Some (Px (-10)); Some (Px 50); Some (Px 150)] false
         ("left", Percent 50, "top", Percent 50) "ellipse"
         (RadialGradient.explicit (Px 50) (Px 20))) 100 100
    = Ok plan
    /\ head (positions plan) = Some q /\ q == 0
    /\ head (colors plan) = Some c
    /\ color_eq c (1 / 6, 5 / 6, 0, 1)
    /\ color_eq (interpolated_color red (-10) green 50 0) (5 / 6, 1 / 6, 0, 1)
    /\ ~ color_eq c (interpolated_color red (-10) green 50 0)
    /\ color_eq c (interpolated_color green (-10) red 50 0).
Proof.
  eexists _, _, _. split; [by vm_compute|]. split; [reflexivity|].
  split; [by vm_compute|]. split; [reflexivity|].
  split; [by vm_compute|]. split; [by vm_compute|].
  split; [|by vm_compute]. vm_compute. by intros ([=] & _).
Qed.

(** ** Repeating radial gradients of zero span *)

(** C7 fails on the code for a repeating radial gradient whose positions
    all lie at one negative value: the span is 0, the floor division of
    line 474 raises, and no solid color is returned. *)
Theorem repeating_zero_span_raises `{Math}
    (color_stops : list (color * option Dimension)) (shape : string)
    (size : RadialGradient.size_t)
    (center : string * Dimension * string * Dimension)
    (self : RadialGradient.t) (width height first last_ : Q)
    (ps : list Q) :
  RadialGradient.__init__ color_stops shape size center true = Ok self ->
  process_color_stops (fst (RadialGradient.resolved_size self width height))
    (RadialGradient.stop_positions self) = Ok ps ->
  length ps <> 1%nat ->
  head ps = Some first ->
  last ps = Some last_ ->
  first < 0 ->
  last_ - first == 0 ->
  RadialGradient.layout self width height = Raise ZeroDivisionError.
Proof.
  intros Hinit Hps Hlen Hhead Hlast Hneg Hspan.
  apply RadialGradient_init_Ok in Hinit as [Hne ->].
  apply process_color_stops_Ok in Hps as Hp. destruct Hp as (_ & _ & Hlp).
  unfold RadialGradient.layout, RadialGradient.circles.
  cbn [RadialGradient.colors RadialGradient.stop_positions
       RadialGradient.repeating] in *.
  rewrite !length_map in *.
  destruct (Nat.eqb_spec (length color_stops) 1) as [|_]; [lia|].
  destruct (RadialGradient.resolved_center _ _ _) as [center_x center_y].
  destruct (RadialGradient.resolved_size _ _ _) as [size_x size_y] eqn:Hsize.
  apply resolved_size_nonzero in Hsize as [Hsx Hsy].
  rewrite (py_div_nonzero size_y size_x Hsx), bind_ret.
  cbn [fst] in Hps. rewrite Hps, bind_ret. cbn [negb]. rewrite bind_ret.
  unfold RadialGradient.positive_realm. cbn [RadialGradient.repeating].
  apply py_index_head in Hhead. apply py_index_last_iff in Hlast.
  rewrite Hhead, bind_ret.
  destruct (Qlt_bool_reflect first 0) as [_|]; [|done].
  unfold RadialGradient.shift. rewrite Hlast, bind_ret, Hhead, bind_ret.
  unfold py_floordiv.
  by destruct (Qeq_bool_reflect (last_ - first) 0).
Qed.

(** The theorem on a repeating circle of radius 50 with stops red and green
    both at -10px. *)
Lemma repeating_zero_span_raises_witness :
  RadialGradient.layout (H:=rational_math)
    (RadialGradient.mk [red; green] [Some (Px (-10)); Some (Px (-10))] true
       ("left", Px 0, "top", Px 0) "circle"
       (RadialGradient.explicit (Px 50) (Px 50))) 3 4
  = Raise ZeroDivisionError.
Proof.
  eapply (repeating_zero_span_raises (H:=rational_math)
            [(red, Some (Px (-10))); (green, Some (Px (-10)))] "circle"
            (RadialGradient.explicit (Px 50) (Px 50))
            ("left", Px 0, "top", Px 0) _ 3 4 (-10) (-10) [-10; -10]);
    try reflexivity; try done.
Defined.

(** ** Boundary stops and the test on the last position *)

(** With stops at -5px, -0.5px and -0.5px, the last position returned by
    [process_color_stops] is negative, but the boundary stop appended at
    [-0.5 + 1] is positive: the plan is radial, not solid. *)
Lemma negative_stops_padded_not_solid :
  exists resolved_positions last_ plan,
    process_color_stops 50
      [Some (Px (-5)); Some (Px (-0.5)); Some (Px (-0.5))]
    = Ok resolved_positions
    /\ last resolved_positions = Some last_
    /\ last_ <= 0
    /\ RadialGradient.layout (H:=rational_math)
         (RadialGradient.mk [red; green; blue]
            [Some (Px (-5)); Some (Px (-0.5)); Some (Px (-0.5))] false
            ("left", Percent 50, "top", Percent 50) "ellipse"
            (RadialGradient.explicit (Px 50) (Px 20))) 100 100 = Ok plan
    /\ type_ plan = "radial".
Proof.
  eexists _, _, _. split; [by vm_compute|]. split; [reflexivity|].
  split; [by vm_compute|]. split; [by vm_compute|]. reflexivity.
Qed.

(** * Further properties *)

(** ** [process_color_stops] *)

(** X1: process_color_stops raises IndexError on an empty list of positions,
    and on every non-empty list it returns one resolved position for each
    stop, whatever the positions and the vector length are. *)
Theorem process_color_stops_errors (vector_length : Q) :
  process_color_stops vector_length [] = Raise IndexError
  /\ forall position positions,
       exists out,
         process_color_stops vector_length (position :: positions) = Ok out
         /\ length out = S (length positions).
Proof.
  split; [reflexivity|]. intros position positions.
  eexists. split; [by apply process_color_stops_resolved|].
  by rewrite resolved_length.
Qed.

Lemma increasing_keeps (qs : list Q) (p : Q) :
  Forall (fun q => p <= q) qs ->
  exists qs', increasing p (map Some qs) = map Some qs'.
Proof. intros _. destruct (increasing_set qs p) as (qs' & -> & _). eauto. Qed.

(** The positions kept by [increasing] are running maxima. *)
Lemma increasing_running_max (qs : list Q) (p : Q) (seen : list Q) :
  p ∈ seen ->
  Forall (fun q => q <= p) seen ->
  exists qs',
    increasing p (map Some qs) = map Some qs'
    /\ length qs' = length qs
    /\ forall (i : nat) m,
         qs' !! i = Some m ->
         m ∈ seen ++ take (S i) qs
         /\ Forall (fun q => q <= m) (seen ++ take (S i) qs).
Proof.
  revert p seen. induction qs as [|q qs IH]; intros p seen Hin Hmax.
  { exists []. split; [done|]. split; [done|]. by intros i m. }
  cbn [map increasing].
  destruct (Qlt_bool_reflect q p) as [Hlt|Hge].
  - destruct (IH p (seen ++ [q])) as (qs' & -> & Hlen & Hi).
    { apply elem_of_app. by left. }
    { apply Forall_app. split; [done|]. repeat constructor. lra. }
    exists (p :: qs'). split; [done|]. split; [simpl; lia|].
    intros [|i] m Hm; simpl in Hm; simplify_eq.
    + cbn [take]. split.
      * apply elem_of_app. by left.
      * apply Forall_app. split; [done|]. repeat constructor. lra.
    + specialize (Hi i m Hm). cbn [take]. by rewrite <- app_assoc in Hi.
  - destruct (IH q (seen ++ [q])) as (qs' & -> & Hlen & Hi).
    { apply elem_of_app. right. by left. }
    { apply Forall_app. split; [|repeat constructor; lra].
      eapply Forall_impl; [exact Hmax|]. simpl; intros; lra. }
    exists (q :: qs'). split; [done|]. split; [simpl; lia|].
    intros [|i] m Hm; simpl in Hm; simplify_eq.
    + cbn [take]. split.
      * apply elem_of_app. right. by left.
      * apply Forall_app. split; [|repeat constructor; lra].
        eapply Forall_impl; [exact Hmax|]. simpl; intros; lra.
    + specialize (Hi i m Hm). cbn [take]. by rewrite <- app_assoc in Hi.
Qed.

Lemma default_last_set (vector_length : Q) (qs : list Q) :
  default_last vector_length (map Some qs) = map Some qs.
Proof.
  unfold default_last.
  destruct (last (map Some qs)) as [[q|]|] eqn:Hlast; try done.
  rewrite last_map in Hlast. by destruct (last qs).
Qed.

Lemma percentage_set (vector_length : Q) (ds : list Dimension) :
  map (fun position => percentage position vector_length) (map Some ds)
  = map Some (map (fun d => percentage_of d vector_length) ds).
Proof. by rewrite !map_map. Qed.

Lemma resolved_set (vector_length : Q) (d0 : Dimension) (ds : list Dimension) :
  exists qs',
    increasing (percentage_of d0 vector_length)
      (map Some (map (fun d => percentage_of d vector_length) ds))
    = map Some qs'
    /\ resolved vector_length (map Some (d0 :: ds))
       = percentage_of d0 vector_length :: qs'.
Proof.
  destruct (increasing_set (map (fun d => percentage_of d vector_length) ds)
              (percentage_of d0 vector_length)) as (qs' & Hinc & _).
  exists qs'. split; [done|].
  unfold resolved. rewrite percentage_set. cbn [map default_first].
  change (Some (percentage_of d0 vector_length)
          :: map Some (map (fun d => percentage_of d vector_length) ds))
    with (map Some (percentage_of d0 vector_length
                    :: map (fun d => percentage_of d vector_length) ds)).
  rewrite default_last_set. cbn [map].
  by rewrite Hinc, assigned_set, values_Some.
Qed.

(** X2: When every stop has a position, process_color_stops returns for each
    stop the largest of the positions (pixels, or the percentage of
    vector_length) of the stops up to and including it: a stop is never placed
    before an earlier one. *)
Theorem process_color_stops_running_maximum (vector_length : Q)
    (d0 : Dimension) (ds : list Dimension) :
  let qs := map (fun d => percentage_of d vector_length) (d0 :: ds) in
  exists out,
    process_color_stops vector_length (map Some (d0 :: ds)) = Ok out
    /\ length out = length qs
    /\ forall (i : nat) m,
         out !! i = Some m ->
         m ∈ take (S i) qs /\ Forall (fun q => q <= m) (take (S i) qs).
Proof.
  intros qs. eexists. split; [by apply process_color_stops_resolved|].
  split; [subst qs; by rewrite resolved_length, !length_map|].
  destruct (resolved_set vector_length d0 ds) as (qs' & Hinc & ->).
  destruct (increasing_running_max
              (map (fun d => percentage_of d vector_length) ds)
              (percentage_of d0 vector_length)
              [percentage_of d0 vector_length])
    as (qs'' & Hinc' & _ & Hmax).
  { by left. }
  { repeat constructor. lra. }
  rewrite Hinc in Hinc'.
  assert (qs'' = qs') as ->.
  { rewrite <- (values_Some qs''), <- Hinc'. by rewrite values_Some. }
  intros [|i] m Hm; simpl in Hm; simplify_eq.
  - subst qs. cbn [map take]. split; [by left|]. repeat constructor. lra.
  - apply (Hmax i m Hm).
Qed.

Lemma lookup_map {A B} (f : A -> B) (l : list A) (i : nat) :
  map f l !! i = f <$> l !! i.
Proof. revert i. induction l as [|x l IH]; intros [|i]; simpl; auto. Qed.

Lemma map_replicate {A B} (f : A -> B) (k : nat) (x : A) :
  map f (replicate k x) = replicate k (f x).
Proof. induction k as [|k IH]; simpl; by rewrite ?IH. Qed.

Lemma py_range_lookup (a b : Z) (i : nat) :
  (Z.of_nat i < b - a)%Z -> py_range a b !! i = Some (a + Z.of_nat i)%Z.
Proof.
  intros Hi. unfold py_range. rewrite lookup_map, lookup_seq_lt by lia. done.
Qed.

Lemma resolved_anchored (vector_length : Q) (first last_ : option Dimension)
    (k : nat) :
  let a := default 0 (percentage first vector_length) in
  let b := default vector_length (percentage last_ vector_length) in
  let b' := if b <? a then a else b in
  resolved vector_length (first :: replicate k None ++ [last_])
  = a :: map (fun j => a + inject_Z j
                           * ((b' - a) / inject_Z (0 + 1 + Z.of_nat k - 0)))
             (py_range (0 + 1) (0 + 1 + Z.of_nat k))
      ++ [b'].
Proof.
  intros a b b'. unfold resolved. cbn [map].
  rewrite map_app, map_replicate. cbn [map percentage].
  assert (default_first (percentage first vector_length
                         :: replicate k None ++ [percentage last_ vector_length])
          = Some a :: replicate k None ++ [percentage last_ vector_length])
    as ->.
  { subst a. by destruct (percentage first vector_length). }
  rewrite app_comm_cons, default_last_snoc. cbn [app]. fold b.
  rewrite increasing_unset. cbn [increasing]. fold b'.
  assert ((if b <? a then [Some a] else [Some b]) = [Some b']) as ->
    by (subst b'; by destruct (b <? a)).
  rewrite (assigned_gap k [Some b'] 0 a 0). cbn [assigned Nat.add].
  rewrite values_app.
  change (values [Some b']) with [b'].
  f_equal. f_equal.
  induction (py_range (0 + 1) (0 + 1 + Z.of_nat k)) as [|j l IH]; [done|].
  cbn [map]. change (values (Some ?v :: ?l)) with (v :: values l).
  by rewrite IH.
Qed.

Lemma resolved_evenly_spaced (vector_length : Q)
    (first last_ : option Dimension) (k : nat) :
  let a := default 0 (percentage first vector_length) in
  let b := default vector_length (percentage last_ vector_length) in
  let b' := if b <? a then a else b in
  forall j : nat,
    (j <= k + 1)%nat ->
    exists q,
      resolved vector_length (first :: replicate k None ++ [last_]) !! j
      = Some q
      /\ q == a + inject_Z (Z.of_nat j) * (b' - a)
                  / inject_Z (Z.of_nat k + 1).
Proof.
  intros a b b'. rewrite resolved_anchored. fold a b b'.
  assert (Hk : ~ inject_Z (Z.of_nat k + 1) == 0).
  { intros E. change 0 with (inject_Z 0) in E. rewrite inject_Z_injective in E.
    lia. }
  replace (0 + 1 + Z.of_nat k - 0)%Z with (Z.of_nat k + 1)%Z by lia.
  intros [|j] Hj.
  - exists a. split; [done|]. change (inject_Z (Z.of_nat 0)) with 0. field. done.
  - rewrite lookup_cons.
    destruct (decide (j < k)%nat) as [Hlt|Hge].
    + eexists. split.
      * rewrite lookup_app_l by (rewrite length_map, py_range_length; lia).
        rewrite lookup_map, py_range_lookup by lia. reflexivity.
      * replace (0 + 1 + Z.of_nat j)%Z with (Z.of_nat (S j)) by lia.
        field. done.
    + assert (j = k) as -> by lia. exists b'. split.
      * rewrite lookup_app_r by (rewrite length_map, py_range_length; lia).
        rewrite length_map, py_range_length.
        replace (k - Z.to_nat (0 + 1 + Z.of_nat k - (0 + 1)))%nat with 0%nat
          by lia. done.
      * replace (Z.of_nat (S k)) with (Z.of_nat k + 1)%Z by lia. field. done.
Qed.

(** X3: When only the first and the last stops may have a position and the k
    stops between them have none, process_color_stops spaces the stops evenly:
    output j is a + j * (b' - a) / (k + 1), where a is the first position (0
    by default), b the last one (vector_length by default) and b' the larger
    of a and b. *)
Theorem process_color_stops_evenly_spaced (vector_length : Q)
    (first last_ : option Dimension) (k : nat) :
  let a := default 0 (percentage first vector_length) in
  let b := default vector_length (percentage last_ vector_length) in
  let b' := if b <? a then a else b in
  exists out,
    process_color_stops vector_length (first :: replicate k None ++ [last_])
    = Ok out
    /\ length out = (k + 2)%nat
    /\ forall j : nat,
         (j <= k + 1)%nat ->
         exists q,
           out !! j = Some q
           /\ q == a + inject_Z (Z.of_nat j) * (b' - a)
                       / inject_Z (Z.of_nat k + 1).
Proof.
  intros a b b'. eexists. split; [by apply process_color_stops_resolved|].
  split.
  { rewrite resolved_length. cbn [length]. rewrite length_app, length_replicate.
    simpl. lia. }
  apply resolved_evenly_spaced.
Qed.

(** ** [normalize_stop_positions] *)

(** X4: When the first and last positions differ, normalize_stop_positions can
    be undone: every input position q is first + n * (last - first) for the
    normalized position n returned at the same index, and as many positions
    are returned as were given. *)
Theorem normalize_stop_positions_round_trip (positions normalized : list Q)
    (first last_ : Q) :
  normalize_stop_positions positions = Ok (first, last_, normalized) ->
  ~ last_ - first == 0 ->
  length normalized = length positions
  /\ forall (i : nat) q,
       positions !! i = Some q ->
       exists n, normalized !! i = Some n /\ first + n * (last_ - first) == q.
Proof.
  intros Hn Hspan.
  apply normalize_stop_positions_Ok in Hn as (_ & _ & Hlen & ->).
  split; [done|]. intros i q Hq.
  destruct (Qeq_bool_reflect (last_ - first) 0) as [|_]; [done|].
  eexists. split; [by rewrite lookup_map, Hq|]. field. done.
Qed.

Lemma normalize_stop_positions_round_trip_witness :
  normalize_stop_positions [2; 4; 10] = Ok (2, 10, [0 / 8; 2 / 8; 8 / 8])
  /\ length [0 / 8; 2 / 8; 8 / 8] = length [2; 4; 10]
  /\ forall (i : nat) q,
       [2; 4; 10] !! i = Some q ->
       exists n,
         [0 / 8; 2 / 8; 8 / 8] !! i = Some n /\ 2 + n * (10 - 2) == q.
Proof.
  assert (Hn : normalize_stop_positions [2; 4; 10]
               = Ok (2, 10, [0 / 8; 2 / 8; 8 / 8])) by reflexivity.
  split; [exact Hn|].
  apply (normalize_stop_positions_round_trip _ _ _ _ Hn). by vm_compute.
Defined.

(** X5: normalize_stop_positions raises IndexError on an empty list and
    otherwise returns the first and last positions with as many normalized
    positions as inputs; these are all 0 when first and last are equal, and
    otherwise begin with 0 and end with 1. It never divides by zero. *)
Theorem normalize_stop_positions_bounds :
  normalize_stop_positions [] = Raise IndexError
  /\ forall first positions,
       exists last_ normalized,
         normalize_stop_positions (first :: positions)
         = Ok (first, last_, normalized)
         /\ last (first :: positions) = Some last_
         /\ length normalized = S (length positions)
         /\ if last_ - first ==? 0
            then Forall (fun n => n = 0) normalized
            else exists n0 n1,
                head normalized = Some n0 /\ n0 == 0
                /\ last normalized = Some n1 /\ n1 == 1.
Proof.
  split; [reflexivity|]. intros first positions.
  destruct (exists_last (l:=first :: positions)) as (pre & last_ & Hl); [done|].
  assert (Hlast : last (first :: positions) = Some last_)
    by (rewrite Hl; apply last_snoc).
  exists last_. eexists. split.
  { by apply normalize_stop_positions_spec. }
  split; [done|].
  destruct (Qeq_bool_reflect (last_ - first) 0) as [Hz|Hnz].
  - split; [by rewrite length_replicate|].
    apply Forall_forall. intros n Hn. by apply elem_of_replicate in Hn as [-> _].
  - split; [by rewrite length_map|].
    exists ((first - first) / (last_ - first)),
           ((last_ - first) / (last_ - first)).
    split; [done|]. split; [field; done|].
    split; [by rewrite last_map, Hlast|]. field. done.
Qed.

(** ** [gradient_average_color] *)

Lemma average_step_middle (fr fg fb fa : color -> Q) (cpre cpost : list color)
    (c : color) (weight : Q) (R G B A : Q) (j : Z) :
  j = Z.of_nat (length cpre) ->
  average_step (map fr (cpre ++ c :: cpost)) (map fg (cpre ++ c :: cpost))
    (map fb (cpre ++ c :: cpost)) (map fa (cpre ++ c :: cpost)) weight
    (R, G, B, A) j
  = Ok (R + fr c * weight, G + fg c * weight, B + fb c * weight,
        A + fa c * weight).
Proof.
  intros Hj. unfold average_step.
  rewrite !(py_index_map _ _ _ c) by (by apply py_index_middle).
  by rewrite !bind_ret.
Qed.

Lemma average_loop (fr fg fb fa : color -> Q) (total_weight : Q)
    (post : list Q) :
  ~ total_weight == 0 ->
  forall (pre : list Q) (p : Q) (cpre cpost : list color) (c : color)
         (acc : color),
    length cpre = length pre ->
    length cpost = length post ->
    exists R G B A,
      for_in (py_enumerate (Z.of_nat (length pre) + 1) post)
        (fun acc ip =>
           let '(i, position) := ip in
           previous ← py_index (pre ++ p :: post) (i - 1);
           weight ← py_div (position - previous) total_weight;
           for_in [(i - 1)%Z; i]
             (average_step (map fr (cpre ++ c :: cpost))
                (map fg (cpre ++ c :: cpost)) (map fb (cpre ++ c :: cpost))
                (map fa (cpre ++ c :: cpost)) weight) acc)
        acc
      = Ok (R, G, B, A)
      /\ R == acc.1.1.1 + weighted_sum fr total_weight (c :: cpost) (p :: post)
      /\ G == acc.1.1.2 + weighted_sum fg total_weight (c :: cpost) (p :: post)
      /\ B == acc.1.2 + weighted_sum fb total_weight (c :: cpost) (p :: post)
      /\ A == acc.2 + weighted_sum fa total_weight (c :: cpost) (p :: post).
Proof.
  intros Htw. induction post as [|q post IH];
    intros pre p cpre cpost c [[[R G] B] A] Hpre Hpost.
  { destruct cpost; [|done]. exists R, G, B, A. cbn. repeat split; lra. }
  destruct cpost as [|c' cpost]; [done|].
  rewrite py_enumerate_cons. cbn [for_in].
  replace (Z.of_nat (length pre) + 1 - 1)%Z with (Z.of_nat (length pre))
    by lia.
  rewrite (py_index_middle pre (q :: post) p) by done.
  rewrite bind_ret, (py_div_nonzero _ _ Htw), bind_ret.
  rewrite (average_step_middle fr fg fb fa cpre (c' :: cpost) c) by lia.
  rewrite bind_ret.
  rewrite (cons_middle c cpre (c' :: cpost)), app_assoc.
  rewrite (average_step_middle fr fg fb fa (cpre ++ [c]) cpost c')
    by (rewrite length_app; simpl; lia).
  rewrite !bind_ret.
  specialize (IH (pre ++ [p]) q (cpre ++ [c]) cpost c'
                (R + fr c * ((q - p) / total_weight)
                   + fr c' * ((q - p) / total_weight),
                 G + fg c * ((q - p) / total_weight)
                   + fg c' * ((q - p) / total_weight),
                 B + fb c * ((q - p) / total_weight)
                   + fb c' * ((q - p) / total_weight),
                 A + fa c * ((q - p) / total_weight)
                   + fa c' * ((q - p) / total_weight))).
  destruct IH as (R' & G' & B' & A' & Hloop & HR & HG & HB & HA).
  { rewrite !length_app. simpl. lia. }
  { simpl in Hpost. lia. }
  rewrite <- (app_assoc pre [p]) in Hloop. cbn [app] in Hloop.
  rewrite length_app in Hloop. cbn [length] in Hloop.
  replace (Z.of_nat (length pre + 1) + 1)%Z
    with (Z.of_nat (length pre) + 1 + 1)%Z in Hloop by lia.
  exists R', G', B', A'. split; [exact Hloop|].
  cbn [fst snd] in *.
  change (weighted_sum ?f total_weight (c :: c' :: cpost) (p :: q :: post))
    with ((f c + f c') * ((q - p) / total_weight)
          + weighted_sum f total_weight (c' :: cpost) (q :: post)).
  repeat split; lra.
Qed.

Lemma weighting_spec (positions : list Q) (first last_ : Q) :
  (2 <= length positions)%nat ->
  exists positions' total_length,
    weighting positions first last_ = (positions', total_length)
    /\ length positions' = length positions
    /\ ~ total_length == 0.
Proof.
  intros Hn. unfold weighting.
  destruct (Qeq_bool_reflect (last_ - first) 0) as [E|E].
  - eexists _, _. split; [done|]. split.
    + rewrite length_map, py_range_length. lia.
    + assert (inject_Z 2 <= inject_Z (Z.of_nat (length positions)))
        by (rewrite <- Zle_Qle; lia).
      change (inject_Z 2) with 2 in *. lra.
  - eexists _, _. split; [done|]. by split.
Qed.

(** What [gradient_average_color] returns, in terms of the four sums. *)
Lemma gradient_average_color_sums (colors : list color) (positions : list Q)
    (first last_ : Q) :
  length colors = length positions ->
  (2 <= length positions)%nat ->
  head positions = Some first ->
  last positions = Some last_ ->
  exists R G B A,
    gradient_average_color colors positions
    = Ok (if negb (A ==? 0) then (R / A, G / A, B / A, A) else (0, 0, 0, 0))
    /\ let '(positions', total_length) := weighting positions first last_ in
       R == weighted_sum premul_r (2 * total_length) colors positions'
       /\ G == weighted_sum premul_g (2 * total_length) colors positions'
       /\ B == weighted_sum premul_b (2 * total_length) colors positions'
       /\ A == weighted_sum alpha (2 * total_length) colors positions'.
Proof.
  intros Hlen Hn Hhead Hlast. unfold gradient_average_color.
  destruct (Nat.ltb_spec 1 (length positions)) as [_|]; [|lia].
  cbn [py_assert]. rewrite bind_ret.
  destruct (Nat.eqb_spec (length positions) (length colors)) as [_|];
    [|lia].
  cbn [py_assert]. rewrite bind_ret.
  apply py_index_head in Hhead. apply py_index_last_iff in Hlast.
  rewrite Hlast, Hhead, !bind_ret.
  destruct (weighting_spec positions first last_ Hn)
    as (positions' & total_length & Hw & Hlen' & Htotal).
  rewrite Hw. unfold weighting in Hw. rewrite Hw. clear Hw.
  assert (Htw : ~ 2 * total_length == 0) by lra.
  destruct positions' as [|p post]; [simpl in Hlen'; lia|].
  destruct colors as [|c cpost]; [simpl in Hlen; lia|].
  change (py_slice_from (p :: post) 1) with post.
  destruct (average_loop premul_r premul_g premul_b alpha (2 * total_length)
              post Htw [] p [] cpost c (0, 0, 0, 0))
    as (R & G & B & A & Hloop & HR & HG & HB & HA); [done|simpl in *; lia|].
  cbn [app fst snd] in Hloop, HR, HG, HB, HA.
  change (Z.of_nat (length []) + 1)%Z with 1%Z in Hloop.
  exists R, G, B, A. split.
  - unfold premul_r, premul_g, premul_b, alpha in Hloop.
    cbv beta iota zeta. rewrite Hloop, bind_ret.
    destruct (Qeq_bool_reflect A 0) as [|HA0]; cbn [negb]; [done|].
    by rewrite !(py_div_nonzero _ _ HA0), !bind_ret.
  - repeat split; lra.
Qed.

Lemma weighted_sum_zero (channel : color -> Q) (total_weight : Q)
    (colors : list color) :
  Forall (fun c => channel c == 0) colors ->
  forall positions, weighted_sum channel total_weight colors positions == 0.
Proof.
  induction 1 as [|c colors Hc Hall IH]; intros [|p0 positions]; try done.
  cbn [weighted_sum]. destruct colors as [|c1 colors]; [done|].
  destruct positions as [|p1 positions]; [done|].
  rewrite (IH (p1 :: positions)). apply Forall_inv in Hall.
  rewrite Hc, Hall. lra.
Qed.

(** X6: The average color of a gradient whose stops are all fully transparent
    (alpha 0) is (0, 0, 0, 0), whatever the positions are. *)
Theorem gradient_average_color_transparent (colors : list color)
    (positions : list Q) :
  length colors = length positions ->
  (2 <= length positions)%nat ->
  Forall (fun c => alpha c == 0) colors ->
  gradient_average_color colors positions = Ok (0, 0, 0, 0).
Proof.
  intros Hlen Hn Hzero.
  destruct positions as [|first positions]; [simpl in Hn; lia|].
  destruct (exists_last (l:=first :: positions)) as (pre & last_ & Hl); [done|].
  assert (Hlast : last (first :: positions) = Some last_)
    by (rewrite Hl; apply last_snoc).
  destruct (gradient_average_color_sums colors (first :: positions) first last_)
    as (R & G & B & A & -> & Hsums); try done.
  destruct (weighting _ _ _) as [positions' total_length].
  destruct Hsums as (_ & _ & _ & HA).
  rewrite weighted_sum_zero in HA by done.
  by destruct (Qeq_bool_reflect A 0).
Qed.

Lemma gradient_average_color_transparent_witness :
  gradient_average_color [(1, 0, 0, 0); (0, 1, 0, 0); (0, 0, 1, 0)] [0; 3; 10]
  = Ok (0, 0, 0, 0).
Proof.
  apply gradient_average_color_transparent; [reflexivity|simpl; lia|].
  repeat constructor.
Defined.

(** X7: gradient_average_color fails its assertions exactly when there are
    fewer than two positions or the colors and positions differ in number; on
    every other input it returns a color, also when all positions are equal or
    the total alpha is 0. *)
Theorem gradient_average_color_errors (colors : list color)
    (positions : list Q) :
  if (length positions <=? 1)%nat || negb (length positions =? length colors)%nat
  then gradient_average_color colors positions = Raise AssertionError
  else exists c, gradient_average_color colors positions = Ok c.
Proof.
  destruct (Nat.leb_spec (length positions) 1) as [Hle|Hlt]; cbn [orb].
  - unfold gradient_average_color.
    by destruct (Nat.ltb_spec 1 (length positions)) as [|_]; [lia|].
  - destruct (Nat.eqb_spec (length positions) (length colors)) as [Heq|Hne];
      cbn [negb].
    + apply gradient_average_color_total; [done|lia].
    + unfold gradient_average_color.
      destruct (Nat.ltb_spec 1 (length positions)) as [_|]; [|lia].
      cbn [py_assert]. rewrite bind_ret.
      by destruct (Nat.eqb_spec (length positions) (length colors)).
Qed.

Lemma weighted_sum_const (channel : color -> Q) (total_weight x : Q)
    (colors : list color) :
  Forall (fun c => channel c == x) colors ->
  forall positions first last_,
    length colors = length positions ->
    head positions = Some first ->
    last positions = Some last_ ->
    weighted_sum channel total_weight colors positions
    == 2 * x * ((last_ - first) / total_weight).
Proof.
  induction 1 as [|c colors Hc Hall IH];
    intros [|p0 positions] first last_ Hlen Hhead Hlast; try done.
  cbn [head] in Hhead. simplify_eq. cbn [weighted_sum].
  destruct colors as [|c1 colors]; destruct positions as [|p1 positions];
    try done.
  { cbn in Hlast. simplify_eq. unfold Qdiv. lra. }
  rewrite (IH (p1 :: positions) p1 last_); [|simpl in *; lia|done|done].
  apply Forall_inv in Hall. rewrite Hc, Hall. unfold Qdiv. lra.
Qed.

Lemma weighting_ends (positions : list Q) (first last_ : Q)
    (positions' : list Q) (total_length : Q) :
  (2 <= length positions)%nat ->
  head positions = Some first ->
  last positions = Some last_ ->
  weighting positions first last_ = (positions', total_length) ->
  length positions' = length positions
  /\ ~ total_length == 0
  /\ exists first' last',
      head positions' = Some first' /\ last positions' = Some last'
      /\ last' - first' == total_length.
Proof.
  intros Hn Hhead Hlast Hw.
  destruct (weighting_spec positions first last_ Hn)
    as (ps & t & Hw' & Hlen & Ht).
  rewrite Hw in Hw'. simplify_eq. split; [done|]. split; [done|].
  unfold weighting in Hw. destruct (Qeq_bool_reflect (last_ - first) 0).
  - simplify_eq. exists (inject_Z 0),
      (inject_Z (0 + Z.of_nat (pred (length positions)))).
    split.
    { rewrite head_map. unfold py_range.
      destruct (Z.to_nat (Z.of_nat (length positions) - 0)) eqn:E; [lia|].
      done. }
    split.
    { rewrite last_map. unfold py_range. rewrite last_map.
      replace (Z.to_nat (Z.of_nat (length positions) - 0))
        with (S (pred (length positions))) by lia.
      rewrite seq_S, last_snoc. done. }
    rewrite Z.add_0_l. change (inject_Z 0) with 0.
    replace (Z.of_nat (pred (length positions)))
      with (Z.of_nat (length positions) + - 1)%Z by lia.
    rewrite inject_Z_plus. change (inject_Z (- 1)) with (- 1). lra.
  - simplify_eq. exists first, last_. split; [done|]. split; [done|]. lra.
Qed.

(** X8: The average color of a gradient whose stops all have the same color,
    not fully transparent, is that color, whatever the positions are. *)
Theorem gradient_average_color_constant (colors : list color)
    (positions : list Q) (r g b a : Q) :
  length colors = length positions ->
  (2 <= length positions)%nat ->
  Forall (fun c => color_eq c (r, g, b, a)) colors ->
  ~ a == 0 ->
  exists c,
    gradient_average_color colors positions = Ok c
    /\ color_eq c (r, g, b, a).
Proof.
  intros Hlen Hn Hall Ha.
  destruct positions as [|first positions]; [simpl in Hn; lia|].
  destruct (exists_last (l:=first :: positions)) as (pre & last_ & Hl); [done|].
  assert (Hlast : last (first :: positions) = Some last_)
    by (rewrite Hl; apply last_snoc).
  destruct (gradient_average_color_sums colors (first :: positions) first last_)
    as (R & G & B & A & -> & Hsums); try done.
  destruct (weighting _ _ _) as [positions' total_length] eqn:Hw.
  apply weighting_ends in Hw
    as (Hlen' & Ht & first' & last' & Hhead' & Hlast' & Hspan); try done.
  destruct Hsums as (HR & HG & HB & HA).
  rewrite (weighted_sum_const premul_r _ (r * a) colors) in HR;
    [|eapply Forall_impl; [exact Hall|]; intros [[[r' g'] b'] a'];
      unfold color_eq, premul_r; intros (-> & _ & _ & ->); reflexivity
     |lia|exact Hhead'|exact Hlast'].
  rewrite (weighted_sum_const premul_g _ (g * a) colors) in HG;
    [|eapply Forall_impl; [exact Hall|]; intros [[[r' g'] b'] a'];
      unfold color_eq, premul_g; intros (_ & -> & _ & ->); reflexivity
     |lia|exact Hhead'|exact Hlast'].
  rewrite (weighted_sum_const premul_b _ (b * a) colors) in HB;
    [|eapply Forall_impl; [exact Hall|]; intros [[[r' g'] b'] a'];
      unfold color_eq, premul_b; intros (_ & _ & -> & ->); reflexivity
     |lia|exact Hhead'|exact Hlast'].
  rewrite (weighted_sum_const alpha _ a colors) in HA;
    [|eapply Forall_impl; [exact Hall|]; intros [[[r' g'] b'] a'];
      unfold color_eq, alpha; intros (_ & _ & _ & ->); reflexivity
     |lia|exact Hhead'|exact Hlast'].
  rewrite Hspan in HR, HG, HB, HA.
  assert (HA' : A == a) by (rewrite HA; field; done).
  assert (HR' : R == r * a) by (rewrite HR; field; done).
  assert (HG' : G == g * a) by (rewrite HG; field; done).
  assert (HB' : B == b * a) by (rewrite HB; field; done).
  destruct (Qeq_bool_reflect A 0) as [E|E]; [rewrite HA' in E; done|].
  cbn [negb]. eexists. split; [reflexivity|].
  unfold color_eq. rewrite HR', HG', HB', HA'.
  repeat split; try reflexivity; field; done.
Qed.

Lemma gradient_average_color_constant_witness :
  exists c,
    gradient_average_color
      [(1, 1 # 2, 0, 1 # 4); (1, 1 # 2, 0, 1 # 4); (1, 1 # 2, 0, 1 # 4)]
      [0; 3; 10] = Ok c
    /\ color_eq c (1, 1 # 2, 0, 1 # 4).
Proof.
  apply gradient_average_color_constant; [reflexivity|simpl; lia| |done].
  repeat constructor.
Defined.

Lemma weighted_sum_le (ch1 ch2 : color -> Q) (total_weight : Q)
    (colors : list color) :
  0 < total_weight ->
  Forall (fun c => ch1 c <= ch2 c) colors ->
  forall positions,
    StronglySorted Qle positions ->
    weighted_sum ch1 total_weight colors positions
    <= weighted_sum ch2 total_weight colors positions.
Proof.
  intros Htw. induction 1 as [|c colors Hc Hall IH];
    intros [|p0 positions] Hsorted; try (cbn; lra).
  cbn [weighted_sum].
  destruct colors as [|c1 colors]; destruct positions as [|p1 positions];
    try lra.
  apply StronglySorted_inv in Hsorted as [Hsorted Hp0].
  specialize (IH (p1 :: positions) Hsorted).
  apply Forall_inv in Hp0. apply Forall_inv in Hall.
  assert (0 <= (p1 - p0) / total_weight)
    by (apply Qle_shift_div_l; lra).
  nra.
Qed.

Lemma py_range_sorted (n : nat) (a : Z) :
  StronglySorted Qle (map inject_Z (map (fun k => (a + Z.of_nat k)%Z) (seq 0 n))).
Proof.
  revert a. induction n as [|n IH]; intros a; [constructor|].
  cbn [seq map]. constructor.
  - specialize (IH (a + 1)%Z). rewrite <- seq_shift, (map_map S).
    erewrite (map_ext (fun k => (a + Z.of_nat (S k))%Z)); [exact IH|].
    intros k. lia.
  - apply Forall_forall. intros q Hq.
    apply list_elem_of_In, in_map_iff in Hq as (j & <- & Hj).
    apply in_map_iff in Hj as (k & <- & _).
    rewrite <- Zle_Qle. lia.
Qed.

Lemma weighting_sorted (positions : list Q) (first last_ : Q)
    (positions' : list Q) (total_length : Q) :
  (2 <= length positions)%nat ->
  head positions = Some first ->
  last positions = Some last_ ->
  StronglySorted Qle positions ->
  weighting positions first last_ = (positions', total_length) ->
  StronglySorted Qle positions' /\ 0 < total_length.
Proof.
  intros Hn Hhead Hlast Hsorted Hw. unfold weighting in Hw.
  destruct (Qeq_bool_reflect (last_ - first) 0) as [E|E]; simplify_eq.
  - split; [apply py_range_sorted|].
    assert (inject_Z 2 <= inject_Z (Z.of_nat (length positions)))
      by (rewrite <- Zle_Qle; lia).
    change (inject_Z 2) with 2 in *. lra.
  - split; [done|].
    pose proof (sorted_bounds _ _ _ Hsorted Hhead Hlast) as Hb.
    destruct positions' as [|p ps]; [done|]. cbn [head] in Hhead.
    simplify_eq. apply Forall_inv in Hb. lra.
Qed.

(** X9: When the positions are non-decreasing and every component of every
    stop color lies between 0 and 1, every component of the average color lies
    between 0 and 1. *)
Theorem gradient_average_color_valid (colors : list color)
    (positions : list Q) :
  length colors = length positions ->
  (2 <= length positions)%nat ->
  StronglySorted Qle positions ->
  Forall valid_color colors ->
  exists c,
    gradient_average_color colors positions = Ok c /\ valid_color c.
Proof.
  intros Hlen Hn Hsorted Hvalid.
  destruct positions as [|first positions]; [simpl in Hn; lia|].
  destruct (exists_last (l:=first :: positions)) as (pre & last_ & Hl); [done|].
  assert (Hlast : last (first :: positions) = Some last_)
    by (rewrite Hl; apply last_snoc).
  destruct (gradient_average_color_sums colors (first :: positions) first last_)
    as (R & G & B & A & -> & Hsums); try done.
  destruct (weighting _ _ _) as [positions' total_length] eqn:Hw.
  apply weighting_sorted in Hw as Hs; try done. destruct Hs as [Hsorted' Hpos].
  apply weighting_ends in Hw
    as (Hlen' & Ht & first' & last' & Hhead' & Hlast' & Hspan); try done.
  destruct Hsums as (HR & HG & HB & HA).
  assert (Htw : 0 < 2 * total_length) by lra.
  set (zero := fun _ : color => 0). set (one := fun _ : color => 1).
  assert (Hzero : weighted_sum zero (2 * total_length) colors positions' == 0)
    by (apply weighted_sum_zero, Forall_forall; done).
  assert (Hone : weighted_sum one (2 * total_length) colors positions' == 1).
  { rewrite (weighted_sum_const one _ 1 colors);
      [|by apply Forall_forall|lia|exact Hhead'|exact Hlast'].
    rewrite Hspan. field. lra. }
  assert (Hle : forall ch1 ch2,
             Forall (fun c => ch1 c <= ch2 c) colors ->
             weighted_sum ch1 (2 * total_length) colors positions'
             <= weighted_sum ch2 (2 * total_length) colors positions')
    by (intros; by apply weighted_sum_le).
  assert (Hchannels : forall ch,
             (forall c, valid_color c -> 0 <= ch c <= alpha c) ->
             0 <= weighted_sum ch (2 * total_length) colors positions'
             <= weighted_sum alpha (2 * total_length) colors positions').
  { intros ch Hch. split.
    - rewrite <- Hzero. apply Hle. eapply Forall_impl; [exact Hvalid|].
      intros c Hc. by apply Hch.
    - apply Hle. eapply Forall_impl; [exact Hvalid|].
      intros c Hc. by apply Hch. }
  assert (HA1 : 0 <= A <= 1).
  { rewrite HA. split.
    - apply (Hchannels alpha). intros [[[r g] b] a] (_ & _ & _ & ?).
      unfold alpha. lra.
    - rewrite <- Hone. apply Hle. eapply Forall_impl; [exact Hvalid|].
      intros [[[r g] b] a] (_ & _ & _ & ?). unfold alpha, one. lra. }
  assert (HR1 : 0 <= R <= A).
  { rewrite HR, HA. apply Hchannels.
    intros [[[r g] b] a] (? & _ & _ & ?). unfold premul_r, alpha. nra. }
  assert (HG1 : 0 <= G <= A).
  { rewrite HG, HA. apply Hchannels.
    intros [[[r g] b] a] (_ & ? & _ & ?). unfold premul_g, alpha. nra. }
  assert (HB1 : 0 <= B <= A).
  { rewrite HB, HA. apply Hchannels.
    intros [[[r g] b] a] (_ & _ & ? & ?). unfold premul_b, alpha. nra. }
  eexists. split; [reflexivity|].
  destruct (Qeq_bool_reflect A 0) as [E|E]; cbn [negb].
  - unfold valid_color. lra.
  - assert (0 < A) by lra. unfold valid_color.
    repeat split; try lra;
      first [apply Qle_shift_div_l | apply Qle_shift_div_r]; lra.
Qed.

Lemma gradient_average_color_valid_witness :
  exists c,
    gradient_average_color [(1, 0, 0, 1); (0, 1, 0, 1 # 2); (0, 0, 1, 0)]
      [0; 3; 10] = Ok c
    /\ valid_color c.
Proof.
  apply gradient_average_color_valid; [reflexivity|simpl; lia| |].
  - repeat constructor; by vm_compute.
  - repeat constructor; by vm_compute.
Defined.

(** *** The average color depends on relative positions only *)

Lemma weighted_sum_affine (channel : color -> Q) (tw tw' k t : Q)
    (colors : list color) :
  ~ tw == 0 -> ~ k == 0 -> tw' == k * tw ->
  forall positions,
    weighted_sum channel tw' colors (map (fun p => k * p + t) positions)
    == weighted_sum channel tw colors positions.
Proof.
  intros Htw Hk Htw'. induction colors as [|c0 colors IH];
    intros [|p0 positions]; try reflexivity.
  cbn [map weighted_sum].
  destruct colors as [|c1 colors]; destruct positions as [|p1 positions];
    try reflexivity.
  cbn [map]. specialize (IH (p1 :: positions)). cbn [map] in IH.
  rewrite IH, Htw'. field. done.
Qed.

Lemma average_result_proper (R G B A R' G' B' A' : Q) :
  R == R' -> G == G' -> B == B' -> A == A' ->
  color_eq (if negb (A ==? 0) then (R / A, G / A, B / A, A) else (0, 0, 0, 0))
           (if negb (A' ==? 0) then (R' / A', G' / A', B' / A', A')
            else (0, 0, 0, 0)).
Proof.
  intros HR HG HB HA.
  destruct (Qeq_bool_reflect A 0) as [E|E];
    destruct (Qeq_bool_reflect A' 0) as [E'|E']; cbn [negb].
  - by repeat split.
  - rewrite HA in E. done.
  - rewrite HA in E. done.
  - unfold color_eq. by rewrite HR, HG, HB, HA.
Qed.

(** X10: The average color depends on the relative positions of the stops
    only: scaling all positions by a non-zero factor k and shifting them by t
    gives the same color. *)
Theorem gradient_average_color_affine (colors : list color)
    (positions : list Q) (k t : Q) :
  length colors = length positions ->
  (2 <= length positions)%nat ->
  ~ k == 0 ->
  exists c c',
    gradient_average_color colors positions = Ok c
    /\ gradient_average_color colors (map (fun p => k * p + t) positions)
       = Ok c'
    /\ color_eq c c'.
Proof.
  intros Hlen Hn Hk.
  destruct positions as [|first positions]; [simpl in Hn; lia|].
  destruct (exists_last (l:=first :: positions)) as (pre & last_ & Hl); [done|].
  assert (Hlast : last (first :: positions) = Some last_)
    by (rewrite Hl; apply last_snoc).
  destruct (gradient_average_color_sums colors (first :: positions) first last_)
    as (R & G & B & A & -> & Hsums); try done.
  destruct (gradient_average_color_sums colors
              (map (fun p => k * p + t) (first :: positions))
              (k * first + t) (k * last_ + t))
    as (R' & G' & B' & A' & -> & Hsums');
    [by rewrite length_map|by rewrite length_map|done
    |by rewrite last_map, Hlast|].
  eexists _, _. split; [reflexivity|]. split; [reflexivity|].
  unfold weighting in *. rewrite length_map in Hsums'.
  destruct (Qeq_bool_reflect (last_ - first) 0) as [E|E];
    destruct (Qeq_bool_reflect (k * last_ + t - (k * first + t)) 0)
      as [E'|E'].
  - destruct Hsums as (HR & HG & HB & HA).
    destruct Hsums' as (HR' & HG' & HB' & HA').
    apply average_result_proper; by etransitivity.
  - destruct E'. nra.
  - destruct E. assert (k * (last_ - first) == 0) by lra.
    apply Qmult_integral in H as [|]; done.
  - destruct Hsums as (HR & HG & HB & HA).
    destruct Hsums' as (HR' & HG' & HB' & HA').
    assert (Hw : forall ch,
               weighted_sum ch (2 * (k * last_ + t - (k * first + t))) colors
                 (map (fun p => k * p + t) (first :: positions))
               == weighted_sum ch (2 * (last_ - first)) colors
                    (first :: positions)).
    { intros ch. apply (weighted_sum_affine ch (2 * (last_ - first))); [lra|done|lra]. }
    rewrite Hw in HR', HG', HB', HA'.
    apply average_result_proper; by etransitivity.
Qed.

Lemma gradient_average_color_affine_witness :
  exists c c',
    gradient_average_color [red; green; blue] [0; 3; 10] = Ok c
    /\ gradient_average_color [red; green; blue]
         (map (fun p => (1 # 10) * p + 5) [0; 3; 10]) = Ok c'
    /\ color_eq c c'.
Proof.
  apply gradient_average_color_affine; [reflexivity|simpl; lia|done].
Defined.

(** *** Symmetry *)

Lemma weighted_sum_snoc (channel : color -> Q) (tw : Q) (colors : list color) :
  forall (positions : list Q) (c : color) (p : Q),
    length colors = length positions ->
    weighted_sum channel tw (colors ++ [c]) (positions ++ [p])
    == weighted_sum channel tw colors positions
       + match last colors, last positions with
         | Some c', Some p' => (channel c' + channel c) * ((p - p') / tw)
         | _, _ => 0
         end.
Proof.
  induction colors as [|c0 colors IH]; intros [|p0 positions] c p Hlen;
    try done.
  destruct colors as [|c1 colors]; destruct positions as [|p1 positions];
    try (simpl in Hlen; lia).
  { cbn. lra. }
  specialize (IH (p1 :: positions) c p ltac:(simpl in *; lia)).
  change (weighted_sum channel tw ((c0 :: c1 :: colors) ++ [c])
            ((p0 :: p1 :: positions) ++ [p]))
    with ((channel c0 + channel c1) * ((p1 - p0) / tw)
          + weighted_sum channel tw ((c1 :: colors) ++ [c])
              ((p1 :: positions) ++ [p])).
  rewrite IH.
  change (weighted_sum channel tw (c0 :: c1 :: colors) (p0 :: p1 :: positions))
    with ((channel c0 + channel c1) * ((p1 - p0) / tw)
          + weighted_sum channel tw (c1 :: colors) (p1 :: positions)).
  rewrite !(last_cons_cons c0), !(last_cons_cons p0). lra.
Qed.

Lemma weighted_sum_rev (channel : color -> Q) (tw : Q) (colors : list color) :
  forall positions,
    length colors = length positions ->
    weighted_sum channel tw (rev colors) (map Qopp (rev positions))
    == weighted_sum channel tw colors positions.
Proof.
  induction colors as [|c0 colors IH]; intros [|p0 positions] Hlen; try done.
  cbn [rev]. rewrite map_app. cbn [map].
  rewrite weighted_sum_snoc
    by (rewrite length_map, !length_rev; simpl in Hlen; lia).
  rewrite IH by (simpl in Hlen; lia).
  destruct colors as [|c1 colors]; destruct positions as [|p1 positions];
    try (simpl in Hlen; lia).
  { cbn. lra. }
  cbn [rev]. rewrite map_app. cbn [map]. rewrite !last_snoc.
  change (weighted_sum channel tw (c0 :: c1 :: colors) (p0 :: p1 :: positions))
    with ((channel c0 + channel c1) * ((p1 - p0) / tw)
          + weighted_sum channel tw (c1 :: colors) (p1 :: positions)).
  unfold Qdiv. lra.
Qed.

Lemma weighted_sum_steps (channel : color -> Q) (tw d : Q)
    (colors : list color) :
  forall positions positions',
    length colors = length positions ->
    length colors = length positions' ->
    steps d positions -> steps d positions' ->
    weighted_sum channel tw colors positions
    == weighted_sum channel tw colors positions'.
Proof.
  induction colors as [|c0 colors IH];
    intros [|p0 ps] [|q0 qs] Hlen Hlen' Hs Hs'; try done.
  destruct colors as [|c1 colors]; destruct ps as [|p1 ps];
    destruct qs as [|q1 qs]; try (simpl in *; lia); try reflexivity.
  destruct Hs as [Hp Hs]. destruct Hs' as [Hq Hs'].
  change (weighted_sum channel tw (c0 :: c1 :: colors) (p0 :: p1 :: ps))
    with ((channel c0 + channel c1) * ((p1 - p0) / tw)
          + weighted_sum channel tw (c1 :: colors) (p1 :: ps)).
  change (weighted_sum channel tw (c0 :: c1 :: colors) (q0 :: q1 :: qs))
    with ((channel c0 + channel c1) * ((q1 - q0) / tw)
          + weighted_sum channel tw (c1 :: colors) (q1 :: qs)).
  rewrite (IH (p1 :: ps) (q1 :: qs)), Hp, Hq;
    [reflexivity|simpl in *; lia|simpl in *; lia|done|done].
Qed.

Lemma steps_snoc (d : Q) (positions : list Q) (p : Q) :
  steps d positions ->
  match last positions with Some p' => p - p' == d | None => True end ->
  steps d (positions ++ [p]).
Proof.
  induction positions as [|p0 positions IH]; intros Hs Hp; [done|].
  destruct positions as [|p1 positions].
  { cbn in *. done. }
  destruct Hs as [Hd Hs]. rewrite last_cons_cons in Hp.
  split; [done|]. by apply IH.
Qed.

Lemma steps_rev (d : Q) (positions : list Q) :
  steps d positions -> steps d (map Qopp (rev positions)).
Proof.
  induction positions as [|p0 positions IH]; intros Hs; [done|].
  cbn [rev]. rewrite map_app. cbn [map].
  destruct positions as [|p1 positions]; [done|].
  destruct Hs as [Hd Hs]. apply steps_snoc; [by apply IH|].
  cbn [rev]. rewrite map_app. cbn [map]. rewrite last_snoc.
  rewrite <- Hd. ring.
Qed.

Lemma steps_range (n : nat) (a : Z) :
  steps 1 (map inject_Z (map (fun k => (a + Z.of_nat k)%Z) (seq 0 n))).
Proof.
  revert a. induction n as [|n IH]; intros a; [done|].
  specialize (IH (a + 1)%Z). cbn [seq map].
  rewrite <- seq_shift, (map_map S).
  rewrite (map_ext (fun k => (a + Z.of_nat (S k))%Z)
             (fun k => (a + 1 + Z.of_nat k)%Z)) by (intros k; lia).
  destruct n as [|n]; [done|]. cbn [seq map] in IH |- *. split; [|exact IH].
  unfold Qminus. rewrite <- inject_Z_opp, <- inject_Z_plus.
  replace (a + 1 + Z.of_nat 0 + - (a + Z.of_nat 0))%Z with 1%Z by lia. done.
Qed.

Lemma weighted_sum_weight (channel : color -> Q) (tw tw' : Q)
    (colors : list color) :
  tw' == tw ->
  forall positions,
    weighted_sum channel tw' colors positions
    == weighted_sum channel tw colors positions.
Proof.
  intros Htw. induction colors as [|c0 colors IH];
    intros [|p0 positions]; try reflexivity.
  cbn [weighted_sum].
  destruct colors as [|c1 colors]; destruct positions as [|p1 positions];
    try reflexivity.
  by rewrite (IH (p1 :: positions)), Htw.
Qed.

(** X11: A gradient and its mirror image have the same average color:
    reversing the colors and replacing the positions by their opposites in
    reverse order does not change the result. *)
Theorem gradient_average_color_symmetric (colors : list color)
    (positions : list Q) :
  length colors = length positions ->
  (2 <= length positions)%nat ->
  exists c c',
    gradient_average_color colors positions = Ok c
    /\ gradient_average_color (rev colors) (map Qopp (rev positions)) = Ok c'
    /\ color_eq c c'.
Proof.
  intros Hlen Hn.
  destruct positions as [|first positions]; [simpl in Hn; lia|].
  destruct (exists_last (l:=first :: positions)) as (pre & last_ & Hl); [done|].
  assert (Hlast : last (first :: positions) = Some last_)
    by (rewrite Hl; apply last_snoc).
  destruct (gradient_average_color_sums colors (first :: positions) first last_)
    as (R & G & B & A & -> & Hsums); try done.
  destruct (gradient_average_color_sums (rev colors)
              (map Qopp (rev (first :: positions))) (- last_) (- first))
    as (R' & G' & B' & A' & -> & Hsums').
  { by rewrite length_map, !length_rev. }
  { by rewrite length_map, length_rev. }
  { rewrite Hl, rev_app_distr. done. }
  { cbn [rev]. rewrite map_app. cbn [map]. by rewrite last_snoc. }
  eexists _, _. split; [reflexivity|]. split; [reflexivity|].
  unfold weighting in *. rewrite length_map, length_rev in Hsums'.
  destruct (Qeq_bool_reflect (last_ - first) 0) as [E|E];
    destruct (Qeq_bool_reflect (- first - - last_) 0) as [E'|E'];
    try (exfalso; lra);
    destruct Hsums as (HR & HG & HB & HA);
    destruct Hsums' as (HR' & HG' & HB' & HA').
  - set (idx := map inject_Z (py_range 0 (Z.of_nat (length (first :: positions)))))
      in *.
    assert (Hidx : steps 1 idx) by apply steps_range.
    assert (Hlidx : length idx = length colors).
    { unfold idx. rewrite length_map, py_range_length. lia. }
    assert (Hw : forall ch tw,
               weighted_sum ch tw (rev colors) idx
               == weighted_sum ch tw colors idx).
    { intros ch tw. rewrite <- (weighted_sum_rev ch tw colors idx) by done.
      apply (weighted_sum_steps ch tw 1);
        rewrite ?length_map, ?length_rev; try done.
      by apply steps_rev. }
    rewrite Hw in HR', HG', HB', HA'.
    apply average_result_proper; by etransitivity.
  - assert (Hw : forall ch,
               weighted_sum ch (2 * (- first - - last_)) (rev colors)
                 (map Qopp (rev (first :: positions)))
               == weighted_sum ch (2 * (last_ - first)) colors
                    (first :: positions)).
    { intros ch. rewrite weighted_sum_rev by done.
      apply weighted_sum_weight. lra. }
    rewrite Hw in HR', HG', HB', HA'.
    apply average_result_proper; by etransitivity.
Qed.

Lemma gradient_average_color_symmetric_witness :
  exists c c',
    gradient_average_color [red; blue; (0, 1, 0, 1 # 2)] [0; 3; 10] = Ok c
    /\ gradient_average_color (rev [red; blue; (0, 1, 0, 1 # 2)])
         (map Qopp (rev [0; 3; 10])) = Ok c'
    /\ color_eq c c'.
Proof.
  apply gradient_average_color_symmetric; [reflexivity|simpl; lia].
Defined.

(** ** [LinearGradient.layout] *)

Lemma append_boundary_total (ps : list Q) (cs : list color) :
  length cs = length ps ->
  (2 <= length ps)%nat ->
  exists p_2 p_1 ps' cs',
    py_index ps (-2) = Ok p_2
    /\ py_index ps (-1) = Ok p_1
    /\ (if p_2 ==? p_1
        then c_1 ← py_index cs (-1); Ok (ps ++ [p_1 + 1], cs ++ [c_1])
        else Ok (ps, cs)) = Ok (ps', cs').
Proof.
  intros Hlen Hn.
  destruct (py_index_in_range ps (-2)) as [p_2 Hp_2]; [lia|].
  destruct (py_index_in_range ps (-1)) as [p_1 Hp_1]; [lia|].
  destruct (py_index_in_range cs (-1)) as [c_1 Hc_1]; [lia|].
  exists p_2, p_1. rewrite Hc_1, bind_ret.
  destruct (p_2 ==? p_1); eauto.
Qed.

Lemma linear_boundaries_total (ps : list Q) (cs : list color) :
  length cs = length ps ->
  (2 <= length ps)%nat ->
  exists ps' cs', LinearGradient.boundaries ps cs = Ok (ps', cs').
Proof.
  intros Hlen Hn. unfold LinearGradient.boundaries.
  destruct (py_index_in_range ps 0) as [p0 ->]; [lia|].
  destruct (py_index_in_range ps 1) as [p1 ->]; [lia|].
  destruct (py_index_in_range cs 0) as [c0 ->]; [lia|].
  rewrite !bind_ret.
  destruct (p0 ==? p1); rewrite ?bind_ret.
  - destruct (append_boundary_total (p0 - 1 :: ps) (c0 :: cs))
      as (p_2 & p_1 & ps' & cs' & -> & -> & Ha); [simpl; lia|simpl; lia|].
    rewrite !bind_ret. eauto.
  - destruct (append_boundary_total ps cs Hlen Hn)
      as (p_2 & p_1 & ps' & cs' & -> & -> & Ha).
    rewrite !bind_ret. eauto.
Qed.

Lemma linear_layout_Ok `{Math}
    (color_stops : list (color * option Dimension))
    (direction : LinearGradient.direction_t) (repeating : bool)
    (self : LinearGradient.t) (width height : Q) (d : Q * Q) :
  LinearGradient.__init__ color_stops direction repeating = Ok self ->
  LinearGradient.unit_vector self width height = Ok d ->
  exists plan, LinearGradient.layout self width height = Ok plan.
Proof.
  intros Hinit Hvec. apply LinearGradient_init_Ok in Hinit as [Hne ->].
  unfold LinearGradient.layout.
  cbn [LinearGradient.colors LinearGradient.stop_positions
       LinearGradient.repeating] in *.
  rewrite length_map.
  destruct (Nat.eqb_spec (length color_stops) 1) as [Hone|Hlen].
  { destruct color_stops as [|[c p] [|? ?]]; try done.
    cbn. eauto. }
  assert (Hn : (2 <= length color_stops)%nat)
    by (destruct color_stops as [|? [|? ?]]; simpl in *; try done; lia).
  rewrite Hvec, bind_ret. destruct d as [dx dy].
  rewrite process_color_stops_resolved by (by destruct color_stops).
  rewrite bind_ret.
  set (ps := resolved _ _).
  assert (Hlps : length ps = length color_stops)
    by (unfold ps; by rewrite resolved_length, length_map).
  assert (exists ps1 cs1,
             (if negb repeating
              then LinearGradient.boundaries ps (map fst color_stops)
              else Ok (ps, map fst color_stops)) = Ok (ps1, cs1)
             /\ length cs1 = length ps1 /\ (2 <= length ps1)%nat)
    as (ps1 & cs1 & -> & Hlen1 & Hn1).
  { destruct repeating; cbn [negb].
    - eexists _, _. split; [reflexivity|]. rewrite length_map. lia.
    - destruct (linear_boundaries_total ps (map fst color_stops))
        as (ps1 & cs1 & Hb); [by rewrite length_map|lia|].
      exists ps1, cs1. split; [done|].
      apply linear_boundaries_spec in Hb as (? & ? & _);
        [done|by rewrite length_map]. }
  rewrite bind_ret.
  destruct ps1 as [|first ps1]; [simpl in Hn1; lia|].
  destruct (exists_last (l:=first :: ps1)) as (pre & last_ & Hl); [done|].
  assert (Hlast : last (first :: ps1) = Some last_)
    by (rewrite Hl; apply last_snoc).
  rewrite (normalize_stop_positions_spec _ first last_) by done.
  rewrite bind_ret.
  destruct ((first ==? last_) && repeating); [|eauto].
  match goal with
  | |- context [gradient_average_color ?cs ?ps] =>
      destruct (gradient_average_color_total cs ps) as [c ->]
  end.
  - destruct (last_ - first ==? 0);
      rewrite ?length_replicate, ?length_map; done.
  - destruct (last_ - first ==? 0);
      rewrite ?length_replicate, ?length_map; done.
  - rewrite bind_ret. eauto.
Qed.

(** X12: The layout of a linear gradient made by the constructor returns a
    plan for every box when the direction is an angle, and when it is a corner
    keyword of the form y_x for every box whose diagonal is not 0, whatever
    the stops are. *)
Theorem linear_layout_total `{Math}
    (color_stops : list (color * option Dimension))
    (direction : LinearGradient.direction_t) (repeating : bool)
    (self : LinearGradient.t) (width height : Q) :
  LinearGradient.__init__ color_stops direction repeating = Ok self ->
  (forall keyword,
      direction = LinearGradient.corner keyword ->
      (exists y x, split_on "_"%char keyword = [y; x])
      /\ ~ hypot width height == 0) ->
  exists plan, LinearGradient.layout self width height = Ok plan.
Proof.
  intros Hinit Hdir.
  assert (exists d, LinearGradient.unit_vector self width height = Ok d)
    as [d Hd].
  { apply LinearGradient_init_Ok in Hinit as [_ ->].
    unfold LinearGradient.unit_vector. cbn [LinearGradient.direction].
    destruct direction as [keyword|a]; [|eauto].
    destruct (Hdir keyword eq_refl) as [(y & x & ->) Hdiag].
    cbn [unpack2]. rewrite bind_ret.
    rewrite !(py_div_nonzero _ _ Hdiag), !bind_ret. eauto. }
  by eapply linear_layout_Ok.
Qed.

Lemma linear_layout_total_witness :
  (exists plan,
      LinearGradient.layout (H:=rational_math)
        (LinearGradient.mk [red; blue] [None; None] false
           (LinearGradient.corner "top_left")) 3 4 = Ok plan)
  /\ (exists plan,
         LinearGradient.layout (H:=rational_math)
           (LinearGradient.mk [red; blue] [None; None] true
              (LinearGradient.angle (1 # 2))) 0 0 = Ok plan).
Proof.
  split.
  - apply (linear_layout_total (H:=rational_math) [(red, None); (blue, None)]
             (LinearGradient.corner "top_left") false); [reflexivity|].
    intros keyword [= <-]. split; [by eexists _, _|by vm_compute].
  - apply (linear_layout_total (H:=rational_math) [(red, None); (blue, None)]
             (LinearGradient.angle (1 # 2)) true); [reflexivity|].
    intros keyword [=].
Defined.

(** X13: For a linear gradient with a corner direction and other than exactly
    one color stop, layout raises ZeroDivisionError when the diagonal of the
    box is 0 (a box of width 0 and height 0). *)
Theorem linear_layout_zero_diagonal `{Math}
    (color_stops : list (color * option Dimension)) (keyword y x : string)
    (repeating : bool) (self : LinearGradient.t) (width height : Q) :
  LinearGradient.__init__ color_stops (LinearGradient.corner keyword) repeating
  = Ok self ->
  length color_stops <> 1%nat ->
  split_on "_"%char keyword = [y; x] ->
  hypot width height == 0 ->
  LinearGradient.layout self width height = Raise ZeroDivisionError.
Proof.
  intros Hinit Hlen Hsplit Hdiag.
  apply LinearGradient_init_Ok in Hinit as [_ ->].
  unfold LinearGradient.layout, LinearGradient.unit_vector.
  cbn [LinearGradient.colors LinearGradient.direction]. rewrite length_map.
  destruct (Nat.eqb_spec (length color_stops) 1) as [|_]; [done|].
  rewrite Hsplit. cbn [unpack2]. rewrite bind_ret. unfold py_div.
  by destruct (Qeq_bool_reflect (hypot width height) 0).
Qed.

Lemma linear_layout_zero_diagonal_witness :
  LinearGradient.layout (H:=rational_math)
    (LinearGradient.mk [red; blue] [None; None] false
       (LinearGradient.corner "bottom_right")) 0 0
  = Raise ZeroDivisionError.
Proof.
  apply (linear_layout_zero_diagonal (H:=rational_math)
           [(red, None); (blue, None)] "bottom_right" "bottom" "right" false);
    [reflexivity|done|reflexivity|by vm_compute].
Defined.

(** X14: The direction (dx, dy) that layout computes for a corner keyword is
    perpendicular to the diagonal of the box that joins the two neighbouring
    corners, dx * (factor_x * width) = dy * (factor_y * height), and it is a
    unit vector when hypot is exact. *)
Theorem corner_direction_perpendicular `{Math}
    (self : LinearGradient.t) (keyword y x : string) (width height dx dy : Q) :
  LinearGradient.direction self = LinearGradient.corner keyword ->
  split_on "_"%char keyword = [y; x] ->
  LinearGradient.unit_vector self width height = Ok (dx, dy) ->
  let factor_x := if String.eqb x "left" then -1 else 1 in
  let factor_y := if String.eqb y "top" then -1 else 1 in
  dx * (factor_x * width) - dy * (factor_y * height) == 0
  /\ (hypot width height * hypot width height
      == width * width + height * height ->
      dx * dx + dy * dy == 1).
Proof.
  intros Hdir Hsplit Hvec factor_x factor_y.
  unfold LinearGradient.unit_vector in Hvec. rewrite Hdir, Hsplit in Hvec.
  cbn [unpack2] in Hvec. rewrite bind_ret in Hvec.
  fold factor_x factor_y in Hvec.
  inv_bind Hvec. apply py_div_Ok in Ha as [Hdiag ->].
  inv_bind Hvec. apply py_div_Ok in Ha as [_ ->]. simplify_eq.
  set (diag := hypot width height) in *.
  assert (Hx : factor_x * factor_x == 1)
    by (subst factor_x; destruct (String.eqb x "left"); reflexivity).
  assert (Hy : factor_y * factor_y == 1)
    by (subst factor_y; destruct (String.eqb y "top"); reflexivity).
  clearbody factor_x factor_y diag.
  split.
  { transitivity ((factor_x * factor_x - factor_y * factor_y)
                  * (width * height / diag)); [field; done|].
    rewrite Hx, Hy. ring. }
  intros Hhypot.
  transitivity ((factor_x * factor_x * (height * height)
                 + factor_y * factor_y * (width * width)) / (diag * diag));
    [field; done|].
  rewrite Hx, Hy, Hhypot. field. rewrite <- Hhypot. nra.
Qed.

Lemma corner_direction_perpendicular_witness :
  (- (4 # 5)) * (-1 * 3) - (- (3 # 5)) * (-1 * 4) == 0
  /\ (hypot (Math:=rational_math) 3 4 * hypot (Math:=rational_math) 3 4
      == 3 * 3 + 4 * 4 ->
      (- (4 # 5)) * (- (4 # 5)) + (- (3 # 5)) * (- (3 # 5)) == 1).
Proof.
  apply (corner_direction_perpendicular (H:=rational_math)
           (LinearGradient.mk [red; blue] [None; None] false
              (LinearGradient.corner "top_left"))
           "top_left" "top" "left" 3 4 (- (4 # 5)) (- (3 # 5)));
    reflexivity.
Defined.

(** X15: In every linear plan the gradient line, from the starting point (x0,
    y0) to the ending point (x1, y1), is parallel to the direction (dx, dy)
    and passes through the center of the box, and the vertical scale is 1. *)
Theorem linear_points_through_center `{Math}
    (color_stops : list (color * option Dimension))
    (direction : LinearGradient.direction_t) (repeating : bool)
    (self : LinearGradient.t) (width height : Q) (plan : Layout) :
  LinearGradient.__init__ color_stops direction repeating = Ok self ->
  LinearGradient.layout self width height = Ok plan ->
  type_ plan = "linear" ->
  exists dx dy x0 y0 x1 y1,
    LinearGradient.unit_vector self width height = Ok (dx, dy)
    /\ points plan = Some [x0; y0; x1; y1]
    /\ scale_y plan = 1
    /\ (x1 - x0) * dy == (y1 - y0) * dx
    /\ (x1 - x0) * (height / 2 - y0) == (y1 - y0) * (width / 2 - x0).
Proof.
  intros Hinit Hlayout Htype.
  apply LinearGradient_init_Ok in Hinit as [Hne ->].
  unfold LinearGradient.layout in Hlayout.
  cbn [LinearGradient.colors LinearGradient.stop_positions
       LinearGradient.repeating] in *.
  destruct (length (map fst color_stops) =? 1)%nat.
  { inv_bind Hlayout. by simplify_eq. }
  inv_bind Hlayout. destruct a as [dx dy].
  inv_bind Hlayout. inv_bind Hlayout. destruct a0 as [ps1 cs1].
  inv_bind Hlayout. destruct a0 as [[first last_] normalized].
  destruct ((first ==? last_) && repeating).
  { inv_bind Hlayout. by simplify_eq. }
  simplify_eq. cbn [points scale_y].
  eexists dx, dy, _, _, _, _. split; [done|]. split; [reflexivity|].
  split; [done|]. split; field.
Qed.

Lemma linear_points_through_center_witness :
  exists plan,
    LinearGradient.layout (H:=rational_math)
      (LinearGradient.mk [red; blue] [None; None] false
         (LinearGradient.angle 0)) 100 100 = Ok plan
    /\ exists dx dy x0 y0 x1 y1,
         LinearGradient.unit_vector (H:=rational_math)
           (LinearGradient.mk [red; blue] [None; None] false
              (LinearGradient.angle 0)) 100 100 = Ok (dx, dy)
         /\ points plan = Some [x0; y0; x1; y1]
         /\ scale_y plan = 1
         /\ (x1 - x0) * dy == (y1 - y0) * dx
         /\ (x1 - x0) * (100 / 2 - y0) == (y1 - y0) * (100 / 2 - x0).
Proof.
  eexists. split; [by vm_compute|].
  apply (linear_points_through_center (H:=rational_math)
           [(red, None); (blue, None)] (LinearGradient.angle 0) false);
    [reflexivity|by vm_compute|reflexivity].
Defined.

(** ** A linear gradient whose stops have no position *)

Lemma unpositioned_stops (color_stops : list (color * option Dimension)) :
  Forall (fun stop => stop.2 = None) color_stops ->
  map snd color_stops = replicate (length color_stops) None.
Proof.
  induction 1 as [|[c p] l Hp _ IH]; [done|].
  simpl in *. by rewrite Hp, IH.
Qed.

Lemma linear_boundaries_distinct (ps : list Q) (cs : list color)
    (p0 p1 p_2 p_1 : Q) (n : nat) :
  length ps = S (S n) ->
  ps !! 0%nat = Some p0 ->
  ps !! 1%nat = Some p1 ->
  ps !! n = Some p_2 ->
  ps !! S n = Some p_1 ->
  ~ p0 == p1 ->
  ~ p_2 == p_1 ->
  LinearGradient.boundaries ps cs = Ok (ps, cs).
Proof.
  intros Hlen H0 H1 H2 H3 Hne1 Hne2.
  assert (I0 : py_index ps 0 = Ok p0) by exact (py_index_lookup ps 0 p0 H0).
  assert (I1 : py_index ps 1 = Ok p1) by exact (py_index_lookup ps 1 p1 H1).
  assert (I2 : py_index ps (-2) = Ok p_2).
  { rewrite py_index_neg by lia. rewrite Hlen.
    replace (Z.of_nat (S (S n)) + -2)%Z with (Z.of_nat n) by lia.
    by apply py_index_lookup. }
  assert (I3 : py_index ps (-1) = Ok p_1).
  { rewrite py_index_neg by lia. rewrite Hlen.
    replace (Z.of_nat (S (S n)) + -1)%Z with (Z.of_nat (S n)) by lia.
    by apply py_index_lookup. }
  unfold LinearGradient.boundaries.
  rewrite I0, bind_ret, I1, bind_ret.
  destruct (Qeq_bool_reflect p0 p1) as [|_]; [done|].
  rewrite bind_ret, I2, bind_ret, I3, bind_ret.
  by destruct (Qeq_bool_reflect p_2 p_1).
Qed.

(** X16: A linear gradient with n >= 2 stops, none of them positioned, in a
    box where the gradient vector is not of length 0, gets a linear plan with
    the colors as given, stop j at position j / (n - 1), and starting and
    ending points symmetric about the center of the box and apart by the
    gradient vector (dx, dy) * vector_length; this holds repeating or not. *)
Theorem linear_layout_unpositioned `{Math}
    (color_stops : list (color * option Dimension))
    (direction : LinearGradient.direction_t) (repeating : bool)
    (self : LinearGradient.t) (width height dx dy : Q) :
  LinearGradient.__init__ color_stops direction repeating = Ok self ->
  (2 <= length color_stops)%nat ->
  Forall (fun stop => stop.2 = None) color_stops ->
  LinearGradient.unit_vector self width height = Ok (dx, dy) ->
  let vector_length := Qabs (width * dx) + Qabs (height * dy) in
  ~ vector_length == 0 ->
  exists plan,
    LinearGradient.layout self width height = Ok plan
    /\ type_ plan = "linear"
    /\ colors plan = map fst color_stops
    /\ length (positions plan) = length color_stops
    /\ (forall j : nat,
          (j < length color_stops)%nat ->
          exists q,
            positions plan !! j = Some q
            /\ q == inject_Z (Z.of_nat j)
                    / inject_Z (Z.of_nat (length color_stops) - 1))
    /\ exists x0 y0 x1 y1,
         points plan = Some [x0; y0; x1; y1]
         /\ x0 + x1 == width
         /\ y0 + y1 == height
         /\ x1 - x0 == dx * vector_length
         /\ y1 - y0 == dy * vector_length.
Proof.
  intros Hinit Hn Hnone Hvec vl Hvl.
  apply LinearGradient_init_Ok in Hinit as [Hne ->].
  assert (Hpos : 0 <= vl).
  { unfold vl. pose proof (Qabs_nonneg (width * dx)).
    pose proof (Qabs_nonneg (height * dy)). lra. }
  destruct (length color_stops) as [|[|k]] eqn:Hlen; [lia|lia|]. clear Hn.
  assert (Hk : ~ inject_Z (Z.of_nat k + 1) == 0).
  { intros E. change 0 with (inject_Z 0) in E. rewrite inject_Z_injective in E.
    lia. }
  assert (Hstops : map snd color_stops = None :: replicate k None ++ [None]).
  { rewrite unpositioned_stops, Hlen by done.
    rewrite replicate_S. f_equal. by rewrite replicate_S_end. }
  unfold LinearGradient.layout.
  cbn [LinearGradient.colors LinearGradient.stop_positions
       LinearGradient.repeating] in *.
  rewrite length_map, Hlen. cbn [Nat.eqb].
  rewrite Hvec, bind_ret. fold vl.
  rewrite process_color_stops_resolved by (rewrite Hstops; done).
  rewrite bind_ret, Hstops.
  pose proof (resolved_evenly_spaced vl None None k) as Hps.
  pose proof (resolved_length vl (None :: replicate k None ++ [None])) as Hlps.
  cbn [length] in Hlps. rewrite length_app, length_replicate in Hlps.
  cbn [length] in Hlps.
  pose proof (resolved_anchored vl None None k) as Hform.
  cbv zeta in Hps, Hform. cbn [percentage default from_option id] in Hps, Hform.
  assert (Hb : (if vl <? 0 then 0 else vl) = vl).
  { destruct (Qlt_bool_reflect vl 0); [lra|done]. }
  rewrite Hb in Hps, Hform.
  set (ps := resolved vl (None :: replicate k None ++ [None])) in *.
  assert (Hbounds : (if negb repeating
                     then LinearGradient.boundaries ps (map fst color_stops)
                     else Ok (ps, map fst color_stops))
                    = Ok (ps, map fst color_stops)).
  { destruct repeating; [done|]. cbn [negb].
    destruct (Hps 0%nat) as (p0 & H0 & E0); [lia|].
    destruct (Hps 1%nat) as (p1 & H1 & E1); [lia|].
    destruct (Hps k) as (p_2 & H2 & E2); [lia|].
    destruct (Hps (S k)) as (p_1 & H3 & E3); [lia|].
    apply (linear_boundaries_distinct ps _ p0 p1 p_2 p_1 k); try done; [lia| |].
    - rewrite E0, E1. change (inject_Z (Z.of_nat 0)) with 0.
      change (inject_Z (Z.of_nat 1)) with 1.
      intros E. apply Hvl.
      transitivity
        (inject_Z (Z.of_nat k + 1)
         * ((0 + 1 * (vl - 0) / inject_Z (Z.of_nat k + 1))
            - (0 + 0 * (vl - 0) / inject_Z (Z.of_nat k + 1))));
        [field; done|].
      rewrite E. ring.
    - rewrite E2, E3.
      replace (Z.of_nat (S k)) with (Z.of_nat k + 1)%Z by lia.
      rewrite inject_Z_plus in *. change (inject_Z 1) with 1 in *.
      intros E. apply Hvl.
      transitivity
        ((inject_Z (Z.of_nat k) + 1)
         * ((0 + (inject_Z (Z.of_nat k) + 1) * (vl - 0)
                 / (inject_Z (Z.of_nat k) + 1))
            - (0 + inject_Z (Z.of_nat k) * (vl - 0)
                   / (inject_Z (Z.of_nat k) + 1))));
        [field; done|].
      rewrite E. ring. }
  rewrite Hbounds, bind_ret.
  rewrite (normalize_stop_positions_spec ps 0 vl), bind_ret;
    [|by rewrite Hform|rewrite Hform, app_comm_cons; apply last_snoc].
  assert (Hspan : ~ vl - 0 == 0) by (intros E; apply Hvl; rewrite <- E; ring).
  destruct (Qeq_bool_reflect (vl - 0) 0) as [|_]; [done|].
  destruct (Qeq_bool_reflect 0 vl) as [E|_]; [by symmetry in E|].
  cbn [andb]. eexists. split; [reflexivity|].
  cbn [type_ colors positions points].
  split; [done|]. split; [done|]. split; [rewrite length_map, Hlps; lia|].
  split.
  - intros j Hj. destruct (Hps j) as (q & Hq & Eq); [lia|].
    eexists. split; [by rewrite lookup_map, Hq|].
    rewrite Eq. replace (Z.of_nat (S (S k)) - 1)%Z with (Z.of_nat k + 1)%Z by lia.
    field. split; [done|]. done.
  - eexists _, _, _, _. split; [reflexivity|]. repeat split; field.
Qed.

Lemma linear_layout_unpositioned_witness :
  exists dx dy,
    LinearGradient.unit_vector (H:=rational_math)
      (LinearGradient.mk [red; blue; red] [None; None; None] true
         (LinearGradient.angle 0)) 100 60 = Ok (dx, dy)
    /\ exists plan,
         LinearGradient.layout (H:=rational_math)
           (LinearGradient.mk [red; blue; red] [None; None; None] true
              (LinearGradient.angle 0)) 100 60 = Ok plan
         /\ type_ plan = "linear"
         /\ colors plan = [red; blue; red]
         /\ length (positions plan) = 3%nat
         /\ (forall j : nat,
               (j < 3)%nat ->
               exists q,
                 positions plan !! j = Some q
                 /\ q == inject_Z (Z.of_nat j) / 2)
         /\ exists x0 y0 x1 y1,
              points plan = Some [x0; y0; x1; y1]
              /\ x0 + x1 == 100
              /\ y0 + y1 == 60
              /\ x1 - x0 == dx * (Qabs (100 * dx) + Qabs (60 * dy))
              /\ y1 - y0 == dy * (Qabs (100 * dx) + Qabs (60 * dy)).
Proof.
  eexists _, _. split; [reflexivity|].
  apply (linear_layout_unpositioned (H:=rational_math)
           [(red, None); (blue, None); (red, None)] (LinearGradient.angle 0)
           true);
    [reflexivity|simpl; lia|repeat constructor|reflexivity|by vm_compute].
Defined.

(** ** The size of a circle given by a keyword *)

Lemma py_min_le {A} (key : A -> Q) (l : list A) (x : A) :
  Forall (fun y => key (py_min key x l) <= key y) (x :: l).
Proof.
  unfold py_min.
  assert (Hgen : forall best,
             key (fold_left (fun best y => if key y <? key best then y else best)
                    l best) <= key best
             /\ Forall (fun y =>
                  key (fold_left
                         (fun best y => if key y <? key best then y else best)
                         l best) <= key y) l).
  { induction l as [|y l IH]; intros best; cbn [fold_left].
    - split; [lra|constructor].
    - destruct (Qlt_bool_reflect (key y) (key best)) as [Hlt|Hge].
      + destruct (IH y) as [Hy Hall]. split; [lra|].
        constructor; [done|done].
      + destruct (IH best) as [Hb Hall]. split; [done|].
        constructor; [lra|done]. }
  destruct (Hgen x) as [Hx Hall]. by constructor.
Qed.

Lemma py_max_ge {A} (key : A -> Q) (l : list A) (x : A) :
  Forall (fun y => key y <= key (py_max key x l)) (x :: l).
Proof.
  unfold py_max.
  assert (Hgen : forall best,
             key best
             <= key (fold_left (fun best y => if key best <? key y then y else best)
                       l best)
             /\ Forall (fun y =>
                  key y <= key (fold_left
                         (fun best y => if key best <? key y then y else best)
                         l best)) l).
  { induction l as [|y l IH]; intros best; cbn [fold_left].
    - split; [lra|constructor].
    - destruct (Qlt_bool_reflect (key best) (key y)) as [Hlt|Hge].
      + destruct (IH y) as [Hy Hall]. split; [lra|].
        constructor; [done|done].
      + destruct (IH best) as [Hb Hall]. split; [done|].
        constructor; [lra|done]. }
  destruct (Hgen x) as [Hx Hall]. by constructor.
Qed.

(** X17: For a circle sized by a keyword, _resolve_size returns the same
    radius twice; it is one of the four distances from the center to the sides
    of the box (keywords ending in side) or to its corners (other keywords),
    the smallest of the four when the keyword starts with closest and the
    largest otherwise. *)
Theorem circle_keyword_size `{Math} (self : RadialGradient.t) (name : string)
    (width height center_x center_y : Q) :
  RadialGradient.shape self = "circle" ->
  RadialGradient.size self = RadialGradient.keyword name ->
  let left := Qabs center_x in
  let right := Qabs (width - center_x) in
  let top := Qabs center_y in
  let bottom := Qabs (height - center_y) in
  let candidates :=
    if endswith name "side" then [left; right; top; bottom]
    else [hypot left top; hypot left bottom; hypot right top;
          hypot right bottom] in
  exists radius,
    RadialGradient._resolve_size self width height center_x center_y
    = (radius, radius)
    /\ radius ∈ candidates
    /\ if startswith name "closest"
       then Forall (fun distance => radius <= distance) candidates
       else Forall (fun distance => distance <= radius) candidates.
Proof.
  intros Hshape Hsize left right top bottom candidates.
  unfold RadialGradient._resolve_size. rewrite Hsize, Hshape.
  change (String.eqb "circle" "circle") with true. cbv beta iota.
  fold left right top bottom. subst candidates.
  destruct (endswith name "side"); eexists; (split; [reflexivity|]);
    (split; [apply pick_elem_of|]);
    unfold RadialGradient.pick; destruct (startswith name "closest").
  - apply (py_min_le id [right; top; bottom] left).
  - apply (py_max_ge id [right; top; bottom] left).
  - apply (py_min_le id [hypot left bottom; hypot right top;
                         hypot right bottom] (hypot left top)).
  - apply (py_max_ge id [hypot left bottom; hypot right top;
                         hypot right bottom] (hypot left top)).
Qed.

Lemma circle_keyword_size_witness :
  exists radius,
    RadialGradient._resolve_size (H:=rational_math)
      (RadialGradient.mk [red; blue] [None; None] false
         ("left", Px 30, "top", Px 40) "circle"
         (RadialGradient.keyword "farthest-corner")) 60 80 30 40
    = (radius, radius)
    /\ radius ∈ [hypot (Math:=rational_math) (Qabs 30) (Qabs 40);
                 hypot (Math:=rational_math) (Qabs 30) (Qabs (80 - 40));
                 hypot (Math:=rational_math) (Qabs (60 - 30)) (Qabs 40);
                 hypot (Math:=rational_math) (Qabs (60 - 30)) (Qabs (80 - 40))]
    /\ Forall (fun distance => distance <= radius)
         [hypot (Math:=rational_math) (Qabs 30) (Qabs 40);
          hypot (Math:=rational_math) (Qabs 30) (Qabs (80 - 40));
          hypot (Math:=rational_math) (Qabs (60 - 30)) (Qabs 40);
          hypot (Math:=rational_math) (Qabs (60 - 30)) (Qabs (80 - 40))].
Proof.
  apply (circle_keyword_size (H:=rational_math)
           (RadialGradient.mk [red; blue] [None; None] false
              ("left", Px 30, "top", Px 40) "circle"
              (RadialGradient.keyword "farthest-corner"))
           "farthest-corner" 60 80 30 40); reflexivity.
Defined.

(** X18: For a shape other than a circle sized by a keyword, _resolve_size
    returns for a keyword ending in side the smallest (keywords starting with
    closest) or largest (otherwise) of the two horizontal and of the two
    vertical distances from the center to the sides, and for another keyword
    the horizontal and vertical distances to the closest (or farthest) corner
    each times sqrt(2), so that the ellipse passes through that corner when
    sqrt is exact. *)
Theorem ellipse_keyword_size `{Math} (self : RadialGradient.t) (name : string)
    (width height center_x center_y : Q) :
  String.eqb (RadialGradient.shape self) "circle" = false ->
  RadialGradient.size self = RadialGradient.keyword name ->
  let left := Qabs center_x in
  let right := Qabs (width - center_x) in
  let top := Qabs center_y in
  let bottom := Qabs (height - center_y) in
  let corners := [(left, top); (left, bottom); (right, top); (right, bottom)] in
  exists size_x size_y,
    RadialGradient._resolve_size self width height center_x center_y
    = (size_x, size_y)
    /\ if endswith name "side"
       then
         size_x ∈ [left; right] /\ size_y ∈ [top; bottom]
         /\ if startswith name "closest"
            then size_x <= left /\ size_x <= right
                 /\ size_y <= top /\ size_y <= bottom
            else left <= size_x /\ right <= size_x
                 /\ top <= size_y /\ bottom <= size_y
       else
         exists corner_x corner_y,
           (corner_x, corner_y) ∈ corners
           /\ size_x = corner_x * sqrt 2
           /\ size_y = corner_y * sqrt 2
           /\ (if startswith name "closest"
               then Forall (fun corner : Q * Q =>
                              hypot corner_x corner_y
                              <= hypot corner.1 corner.2) corners
               else Forall (fun corner : Q * Q =>
                              hypot corner.1 corner.2
                              <= hypot corner_x corner_y) corners)
           /\ (sqrt 2 * sqrt 2 == 2 -> ~ corner_x == 0 -> ~ corner_y == 0 ->
               (corner_x / size_x) * (corner_x / size_x)
               + (corner_y / size_y) * (corner_y / size_y) == 1).
Proof.
  intros Hshape Hsize left right top bottom corners.
  unfold RadialGradient._resolve_size. rewrite Hsize, Hshape.
  fold left right top bottom.
  destruct (endswith name "side").
  - eexists _, _. split; [reflexivity|].
    split; [apply pick_elem_of|]. split; [apply pick_elem_of|].
    unfold RadialGradient.pick. destruct (startswith name "closest").
    + pose proof (py_min_le id [right] left) as Hx.
      pose proof (py_min_le id [bottom] top) as Hy.
      apply Forall_cons in Hx as [Hx1 Hx]. apply Forall_inv in Hx.
      apply Forall_cons in Hy as [Hy1 Hy]. apply Forall_inv in Hy.
      done.
    + pose proof (py_max_ge id [right] left) as Hx.
      pose proof (py_max_ge id [bottom] top) as Hy.
      apply Forall_cons in Hx as [Hx1 Hx]. apply Forall_inv in Hx.
      apply Forall_cons in Hy as [Hy1 Hy]. apply Forall_inv in Hy.
      done.
  - pose proof (pick_elem_of name (fun a : Q * Q => hypot a.1 a.2)
                  (left, top) [(left, bottom); (right, top); (right, bottom)])
      as Hin.
    assert (Hbest :
      if startswith name "closest"
      then Forall (fun corner : Q * Q =>
                     hypot
                       (RadialGradient.pick name
                          (fun a : Q * Q => hypot a.1 a.2) (left, top)
                          [(left, bottom); (right, top); (right, bottom)]).1
                       (RadialGradient.pick name
                          (fun a : Q * Q => hypot a.1 a.2) (left, top)
                          [(left, bottom); (right, top); (right, bottom)]).2
                     <= hypot corner.1 corner.2) corners
      else Forall (fun corner : Q * Q =>
                     hypot corner.1 corner.2
                     <= hypot
                          (RadialGradient.pick name
                             (fun a : Q * Q => hypot a.1 a.2) (left, top)
                             [(left, bottom); (right, top); (right, bottom)]).1
                          (RadialGradient.pick name
                             (fun a : Q * Q => hypot a.1 a.2) (left, top)
                             [(left, bottom); (right, top); (right, bottom)]).2)
             corners).
    { unfold RadialGradient.pick. destruct (startswith name "closest").
      - apply (py_min_le (fun a : Q * Q => hypot a.1 a.2)
                 [(left, bottom); (right, top); (right, bottom)] (left, top)).
      - apply (py_max_ge (fun a : Q * Q => hypot a.1 a.2)
                 [(left, bottom); (right, top); (right, bottom)] (left, top)). }
    destruct (RadialGradient.pick _ _ _ _) as [corner_x corner_y].
    cbn [fst snd] in Hbest.
    eexists _, _. split; [reflexivity|].
    exists corner_x, corner_y. split; [exact Hin|].
    split; [done|]. split; [done|]. split; [exact Hbest|].
    intros Hsqrt Hx Hy.
    assert (Hs : ~ sqrt 2 == 0) by (intros E; rewrite E in Hsqrt; lra).
    set (s := sqrt 2) in *. clearbody s.
    transitivity (2 / (s * s)); [field; done|].
    rewrite Hsqrt. reflexivity.
Qed.

Lemma ellipse_keyword_size_witness :
  exists size_x size_y,
    RadialGradient._resolve_size (H:=rational_math)
      (RadialGradient.mk [red; blue] [None; None] false
         ("left", Px 10, "top", Px 40) "ellipse"
         (RadialGradient.keyword "closest-side")) 60 80 10 40
    = (size_x, size_y)
    /\ (size_x ∈ [Qabs 10; Qabs (60 - 10)]
        /\ size_y ∈ [Qabs 40; Qabs (80 - 40)]
        /\ (size_x <= Qabs 10 /\ size_x <= Qabs (60 - 10)
            /\ size_y <= Qabs 40 /\ size_y <= Qabs (80 - 40))).
Proof.
  apply (ellipse_keyword_size (H:=rational_math)
           (RadialGradient.mk [red; blue] [None; None] false
              ("left", Px 10, "top", Px 40) "ellipse"
              (RadialGradient.keyword "closest-side"))
           "closest-side" 60 80 10 40); reflexivity.
Defined.

(** ** [RadialGradient.layout] *)

Lemma radial_boundaries_ends (ps ps' : list Q) (cs cs' : list color)
    (f l : Q) :
  RadialGradient.boundaries ps cs = Ok (ps', cs') ->
  head ps = Some f ->
  last ps = Some l ->
  f <= l ->
  exists f' l',
    head ps' = Some f' /\ last ps' = Some l'
    /\ f' <= l' /\ (f < 0 -> f' = f) /\ (0 <= f -> 0 <= f').
Proof.
  intros Hb Hhead Hlast Hfl. unfold RadialGradient.boundaries in Hb.
  apply py_index_head in Hhead as Hp0. rewrite Hp0, bind_ret in Hb.
  inv_bind Hb. destruct a as [ps1 cs1].
  assert (H1 : exists f1, head ps1 = Some f1 /\ last ps1 = Some l
                          /\ f1 <= l /\ (f < 0 -> f1 = f)
                          /\ (0 <= f -> 0 <= f1)).
  { destruct (Qlt_bool_reflect 0 f) as [Hpos|Hneg].
    - inv_bind Ha. rename a into p1. destruct (f ==? p1).
      + inv_bind Ha. simplify_eq. exists 0. split; [done|].
        split; [by destruct ps|]. repeat split; intros; lra.
      + simplify_eq. exists f. repeat split; try done; intros; lra.
    - simplify_eq. exists f. repeat split; try done; intros; lra. }
  destruct H1 as (f1 & Hf1 & Hl1 & Hfl1 & Hneg1 & Hpos1).
  inv_bind Hb. rename a into p_2. inv_bind Hb. rename a into p_1.
  apply py_index_last_iff in Ha1. rewrite Hl1 in Ha1. simplify_eq.
  destruct (p_2 ==? p_1).
  - inv_bind Hb. simplify_eq. exists f1, (p_1 + 1).
    split; [by destruct ps1|]. split; [by rewrite last_snoc|].
    repeat split; try done. lra.
  - simplify_eq. exists f1, p_1. by repeat split.
Qed.

Lemma positive_realm_clip_ends (self : RadialGradient.t)
    (ps ps' : list Q) (cs cs' : list color) (f l : Q) :
  RadialGradient.repeating self = false ->
  RadialGradient.positive_realm self ps cs = Ok (inr (ps', cs')) ->
  length cs = length ps ->
  (2 <= length ps)%nat ->
  head ps = Some f ->
  last ps = Some l ->
  f <= l ->
  exists f' l',
    head ps' = Some f' /\ last ps' = Some l' /\ 0 <= f' /\ f' <= l'.
Proof.
  intros Hrep Hrealm Hlen Hn Hhead Hlast Hfl.
  unfold RadialGradient.positive_realm in Hrealm.
  apply py_index_head in Hhead as Hp0.
  apply py_index_last_iff in Hlast as Hp_1.
  rewrite Hp0, bind_ret, Hrep in Hrealm.
  destruct (Qlt_bool_reflect f 0) as [Hneg|Hnonneg].
  2:{ simplify_eq. exists f, l. repeat split; try done; lra. }
  rewrite Hp_1, bind_ret in Hrealm.
  destruct (Qle_bool_reflect l 0) as [|Hpos]; [by inv_bind Hrealm|].
  destruct ps as [|p ps]; [done|]. cbn [head] in Hhead. simplify_eq.
  rewrite py_enumerate_cons in Hrealm.
  cbn [RadialGradient.keep_from_zero] in Hrealm.
  destruct (Qeq_bool_reflect f 0) as [|_]; [lra|].
  destruct (Qlt_bool_reflect 0 f) as [|_]; [lra|].
  destruct (keep_from_zero_spec cs (f :: ps) [f] ps)
    as (i & position & colors' & positions' & Hk & Hi & Hbefore & Hnonneg
        & Hrange & Hcases); try done.
  { repeat constructor. done. }
  { destruct (decide (ps = [])) as [->|Hps]; [simplify_eq/=; lra|].
    destruct (exists_last Hps) as (pre & y & ->).
    rewrite app_comm_cons, last_snoc in Hlast. simplify_eq.
    apply Exists_app. right. constructor. lra. }
  change (Z.of_nat (length [f])) with (0 + 1)%Z in Hk.
  rewrite Hk, bind_ret in Hrealm. simplify_eq.
  assert (Hlast' : last (drop i (f :: ps)) = Some l)
    by (by rewrite last_drop by lia).
  destruct Hcases as [(Hz & -> & ->)|(Hz & pc & c_ & pp & c & _ & _ & _
                                      & _ & -> & ->)].
  - exists position, l. rewrite (drop_S _ _ _ Hi) in Hlast' |- *.
    repeat split; try done; lra.
  - exists 0, l. split; [done|]. split.
    { rewrite (drop_S _ _ _ Hi) in Hlast' |- *. by rewrite last_cons_cons. }
    split; lra.
Qed.

(** The circles of a gradient that does not repeat. *)
Lemma circles_not_repeating `{Math}
    (color_stops : list (color * option Dimension)) (shape : string)
    (size : RadialGradient.size_t)
    (center : string * Dimension * string * Dimension)
    (self : RadialGradient.t) (width height s : Q)
    (points normalized : list Q) (cs : list color) :
  RadialGradient.__init__ color_stops shape size center false = Ok self ->
  RadialGradient.circles self width height
  = Ok (inr (s, points, normalized, cs)) ->
  exists cx cy first last_,
    points = [cx; cy; first; cx; cy; last_]
    /\ 0 <= first /\ first <= last_.
Proof.
  intros Hinit Hc. apply RadialGradient_init_Ok in Hinit as [Hne ->].
  unfold RadialGradient.circles in Hc.
  cbn [RadialGradient.colors RadialGradient.stop_positions
       RadialGradient.repeating] in Hc.
  rewrite length_map in Hc.
  destruct (Nat.eqb_spec (length color_stops) 1) as [|Hlen];
    [by inv_bind Hc|].
  assert (Hn : (2 <= length color_stops)%nat)
    by (destruct color_stops as [|? [|? ?]]; simpl in *; try done; lia).
  destruct (RadialGradient.resolved_center _ _ _) as [center_x center_y].
  destruct (RadialGradient.resolved_size _ _ _) as [size_x size_y].
  inv_bind Hc. inv_bind Hc. rename a0 into ps.
  apply process_color_stops_Ok in Ha0 as (Hne' & -> & Hlp).
  rewrite length_map in Hlp.
  destruct (resolved_first_last size_x (map snd color_stops) Hne')
    as (f0 & l0 & Hf0 & Hl0 & Hfl).
  cbn [negb] in Hc. inv_bind Hc. destruct a0 as [ps1 cs1].
  apply radial_boundaries_length in Ha0 as Hl1; [|by rewrite length_map].
  destruct Hl1 as [Hlen1 Hn1].
  destruct (radial_boundaries_ends _ _ _ _ f0 l0 Ha0 Hf0 Hl0 Hfl)
    as (f1 & l1 & Hf1 & Hl1 & Hfl1 & _).
  inv_bind Hc. destruct a0 as [solid|[ps2 cs2]]; [done|].
  eapply (positive_realm_clip_ends _ _ _ _ _ f1 l1) in Ha1
    as (f2 & l2 & Hf2 & Hl2 & Hpos & Hfl2); try done; [|lia].
  rewrite (normalize_stop_positions_spec _ f2 l2 Hf2 Hl2), bind_ret in Hc.
  rewrite andb_false_r in Hc. inv_bind Hc. simplify_eq.
  eexists _, _, _, _. split; [reflexivity|]. done.
Qed.

(** The center of the circles. *)
Lemma circles_center `{Math} (self : RadialGradient.t)
    (width height s : Q) (points normalized : list Q) (cs : list color) :
  RadialGradient.circles self width height
  = Ok (inr (s, points, normalized, cs)) ->
  exists first last_,
    points = [(RadialGradient.resolved_center self width height).1;
              (RadialGradient.resolved_center self width height).2 / s;
              first;
              (RadialGradient.resolved_center self width height).1;
              (RadialGradient.resolved_center self width height).2 / s;
              last_]
    /\ ~ s == 0.
Proof.
  unfold RadialGradient.circles. intros Hc.
  destruct (length (RadialGradient.colors self) =? 1)%nat;
    [by inv_bind Hc|].
  destruct (RadialGradient.resolved_center _ _ _) as [center_x center_y].
  destruct (RadialGradient.resolved_size _ _ _) as [size_x size_y].
  inv_bind Hc. inv_bind Hc. inv_bind Hc. destruct a1 as [ps1 cs1].
  inv_bind Hc. destruct a1 as [solid|[ps2 cs2]]; [done|].
  inv_bind Hc. destruct a1 as [[first last_] normalized'].
  destruct ((first ==? last_) && RadialGradient.repeating self);
    [by inv_bind Hc|].
  inv_bind Hc.
  match goal with
  | Hd : py_div center_y _ = Ok _ |- _ => apply py_div_Ok in Hd as [Hs ->]
  end.
  simplify_eq. eexists _, _. split; [reflexivity|done].
Qed.

(** X19: In every radial plan the two circles are concentric, their center is
    the resolved center of the gradient (its y coordinate divided by the
    vertical scale), and the radii satisfy 0 <= r0 <= r1; for a repeating
    gradient the inner radius is 0 and the outer one is positive. *)
Theorem radial_circles `{Math}
    (color_stops : list (color * option Dimension)) (shape : string)
    (size : RadialGradient.size_t)
    (center : string * Dimension * string * Dimension) (repeating : bool)
    (self : RadialGradient.t) (width height : Q) (plan : Layout) :
  RadialGradient.__init__ color_stops shape size center repeating = Ok self ->
  RadialGradient.layout self width height = Ok plan ->
  type_ plan = "radial" ->
  exists cx cy r0 r1,
    points plan = Some [cx; cy; r0; cx; cy; r1]
    /\ cx = (RadialGradient.resolved_center self width height).1
    /\ cy * scale_y plan
       == (RadialGradient.resolved_center self width height).2
    /\ 0 <= r0 <= r1
    /\ (repeating = true -> r0 == 0 /\ 0 < r1).
Proof.
  intros Hinit Hlayout Htype.
  unfold RadialGradient.layout in Hlayout. inv_bind Hlayout.
  destruct a as [solid|[[[s points] normalized] cs]].
  { simplify_eq. apply circles_inl in Ha. by rewrite Ha in Htype. }
  destruct (circles_center _ _ _ _ _ _ _ Ha) as (first & last_ & Hpoints & Hs).
  assert (Hrep : RadialGradient.repeating self = repeating)
    by (apply RadialGradient_init_Ok in Hinit as [_ ->]; done).
  rewrite Hrep in Hlayout. destruct repeating.
  - destruct (circles_repeating _ _ _ _ _ _ _ _ _ _ _ Hinit Ha)
      as (cx & cy & first' & last' & p0 & p_1 & Hpoints' & Hfirst & Hlt & _
          & Hhead & Hp0 & Hlast & Hp_1 & Hlen & Hn).
    rewrite Hpoints in Hpoints'. simplify_eq.
    destruct (repeat_spec width height s
                (RadialGradient.resolved_center self width height).1
                ((RadialGradient.resolved_center self width height).2 / s)
                first' last' normalized cs p0 p_1)
      as (md & r2 & r5 & positions' & colors' & _ & Hr & Hr2 & Hr5 & _);
      try done.
    rewrite Hr, bind_ret in Hlayout. simplify_eq. cbn [points scale_y].
    eexists _, _, _, _. split; [reflexivity|]. split; [done|].
    split; [field; done|].
    assert (last' <= if (0 <? py_ceil ((md - last') / (last' - first')))%Z
                     then last' + (last' - first')
                          * inject_Z (py_ceil ((md - last') / (last' - first')))
                     else last').
    { destruct (Z.ltb_spec 0 (py_ceil ((md - last') / (last' - first'))))
        as [Hra|Hra]; [|lra].
      assert (0 < inject_Z (py_ceil ((md - last') / (last' - first'))))
        by (by rewrite <- (Zlt_Qlt 0)).
      nra. }
    split; [lra|]. intros _. split; [done|lra].
  - rewrite bind_ret in Hlayout. simplify_eq. cbn [points scale_y].
    destruct (circles_not_repeating _ _ _ _ _ _ _ _ _ _ _ Hinit Ha)
      as (cx & cy & first' & last' & Hpoints' & Hfirst & Hle).
    simplify_eq.
    eexists _, _, _, _. split; [reflexivity|]. split; [done|].
    split; [field; done|]. split; [done|]. done.
Qed.

Lemma radial_circles_witness :
  exists plan,
    RadialGradient.layout (H:=rational_math)
      (RadialGradient.mk [red; green; blue]
         [Some (Px (-10)); Some (Px 50); Some (Px 150)] false
         ("right", Percent 25, "top", Percent 50) "ellipse"
         (RadialGradient.explicit (Px 50) (Px 20))) 100 100 = Ok plan
    /\ exists cx cy r0 r1,
         points plan = Some [cx; cy; r0; cx; cy; r1]
         /\ cx = (RadialGradient.resolved_center
                    (RadialGradient.mk [red; green; blue]
                       [Some (Px (-10)); Some (Px 50); Some (Px 150)] false
                       ("right", Percent 25, "top", Percent 50) "ellipse"
                       (RadialGradient.explicit (Px 50) (Px 20))) 100 100).1
         /\ cy * scale_y plan
            == (RadialGradient.resolved_center
                  (RadialGradient.mk [red; green; blue]
                     [Some (Px (-10)); Some (Px 50); Some (Px 150)] false
                     ("right", Percent 25, "top", Percent 50) "ellipse"
                     (RadialGradient.explicit (Px 50) (Px 20))) 100 100).2
         /\ 0 <= r0 <= r1
         /\ (false = true -> r0 == 0 /\ 0 < r1).
Proof.
  eexists. split; [by vm_compute|].
  apply (radial_circles (H:=rational_math)
           [(red, Some (Px (-10))); (green, Some (Px 50));
            (blue, Some (Px 150))] "ellipse"
           (RadialGradient.explicit (Px 50) (Px 20))
           ("right", Percent 25, "top", Percent 50) false);
    [reflexivity|by vm_compute|reflexivity].
Defined.

Lemma circles_inl_scale `{Math} (self : RadialGradient.t) (width height : Q)
    (solid : Layout) :
  RadialGradient.circles self width height = Ok (inl solid) ->
  scale_y solid = 1.
Proof.
  unfold RadialGradient.circles. intros Hc.
  destruct (length (RadialGradient.colors self) =? 1)%nat.
  { inv_bind Hc. by simplify_eq. }
  destruct (RadialGradient.resolved_center _ _ _) as [center_x center_y].
  destruct (RadialGradient.resolved_size _ _ _) as [size_x size_y].
  inv_bind Hc. inv_bind Hc. inv_bind Hc. destruct a1 as [ps cs].
  inv_bind Hc. destruct a1 as [l|[ps' cs']].
  { simplify_eq. unfold RadialGradient.positive_realm in Ha2.
    inv_bind Ha2. destruct (a1 <? 0); [|done].
    destruct (RadialGradient.repeating self); [by inv_bind Ha2|].
    inv_bind Ha2. destruct (a2 <=? 0).
    - inv_bind Ha2. by simplify_eq.
    - inv_bind Ha2. by destruct a3. }
  inv_bind Hc. destruct a1 as [[first last_] normalized].
  destruct ((first ==? last_) && RadialGradient.repeating self).
  - inv_bind Hc. by simplify_eq.
  - by inv_bind Hc.
Qed.

(** X20: Every plan returned for a circle sized by a keyword has vertical
    scale 1, also when the circle is degenerate. *)
Theorem circle_keyword_scale `{Math}
    (color_stops : list (color * option Dimension)) (name : string)
    (center : string * Dimension * string * Dimension) (repeating : bool)
    (self : RadialGradient.t) (width height : Q) (plan : Layout) :
  RadialGradient.__init__ color_stops "circle" (RadialGradient.keyword name)
    center repeating = Ok self ->
  RadialGradient.layout self width height = Ok plan ->
  scale_y plan == 1.
Proof.
  intros Hinit Hlayout.
  unfold RadialGradient.layout in Hlayout. inv_bind Hlayout.
  assert (Hsize : exists sx,
             RadialGradient.resolved_size self width height = (sx, sx)
             /\ ~ sx == 0).
  { apply RadialGradient_init_Ok in Hinit as [_ ->].
    unfold RadialGradient.resolved_size, RadialGradient._resolve_size.
    cbn [RadialGradient.size RadialGradient.shape].
    destruct (RadialGradient.resolved_center _ _ _) as [cx cy].
    change (String.eqb "circle" "circle") with true. cbv beta iota.
    assert (Hd : forall s, exists sx,
                   RadialGradient._handle_degenerate s s = (sx, sx)
                   /\ ~ sx == 0).
    { intros s. unfold RadialGradient._handle_degenerate.
      rewrite Qeq_bool_refl. cbn [andb].
      destruct (Qeq_bool_reflect s 0); [by exists 1e-7|by exists s]. }
    destruct (endswith name "side"); apply Hd. }
  destruct Hsize as (sx & Hsize & Hsx).
  destruct a as [solid|[[[s points] normalized] cs]].
  - simplify_eq. apply circles_inl_scale in Ha. by rewrite Ha.
  - assert (s == 1) as Hs.
    { destruct (circles_inr _ _ _ _ _ _ _ _ _ _ _ _ Hinit Ha)
        as (sx' & sy' & ps & Hsize' & -> & _).
      rewrite Hsize in Hsize'. simplify_eq. field. done. }
    inv_bind Hlayout. destruct a as [[points' positions'] colors'].
    by simplify_eq.
Qed.

Lemma circle_keyword_scale_witness :
  exists plan,
    RadialGradient.layout (H:=rational_math)
      (RadialGradient.mk [red; blue] [None; None] false
         ("left", Percent 50, "top", Percent 50) "circle"
         (RadialGradient.keyword "farthest-corner")) 200 100 = Ok plan
    /\ scale_y plan == 1.
Proof.
  eexists. split; [by vm_compute|].
  eapply (circle_keyword_scale (H:=rational_math)
            [(red, None); (blue, None)] "farthest-corner"
            ("left", Percent 50, "top", Percent 50) false _ 200 100);
    [reflexivity|by vm_compute].
Defined.

Lemma radial_boundaries_total (ps : list Q) (cs : list color) :
  length cs = length ps ->
  (2 <= length ps)%nat ->
  exists ps' cs', RadialGradient.boundaries ps cs = Ok (ps', cs').
Proof.
  intros Hlen Hn. unfold RadialGradient.boundaries.
  destruct (py_index_in_range ps 0) as [p0 ->]; [lia|].
  destruct (py_index_in_range ps 1) as [p1 ->]; [lia|].
  destruct (py_index_in_range cs 0) as [c0 ->]; [lia|].
  rewrite !bind_ret.
  destruct (0 <? p0); [destruct (p0 ==? p1)|]; rewrite ?bind_ret.
  - destruct (append_boundary_total (0 :: ps) (c0 :: cs))
      as (p_2 & p_1 & ps' & cs' & -> & -> & Ha); [simpl; lia|simpl; lia|].
    rewrite !bind_ret. eauto.
  - destruct (append_boundary_total ps cs Hlen Hn)
      as (p_2 & p_1 & ps' & cs' & -> & -> & Ha).
    rewrite !bind_ret. eauto.
  - destruct (append_boundary_total ps cs Hlen Hn)
      as (p_2 & p_1 & ps' & cs' & -> & -> & Ha).
    rewrite !bind_ret. eauto.
Qed.

Lemma positive_realm_clip_total (self : RadialGradient.t)
    (ps : list Q) (cs : list color) :
  RadialGradient.repeating self = false ->
  RadialGradient.colors self <> [] ->
  length cs = length ps ->
  (2 <= length ps)%nat ->
  exists r,
    RadialGradient.positive_realm self ps cs = Ok r
    /\ match r with
       | inl _ => True
       | inr (ps', _) => ps' <> []
       end.
Proof.
  intros Hrep Hcolors Hlen Hn. unfold RadialGradient.positive_realm.
  destruct ps as [|f ps]; [simpl in Hn; lia|].
  destruct (exists_last (l:=f :: ps)) as (pre & l & Hl); [done|].
  assert (Hlast : last (f :: ps) = Some l) by (rewrite Hl; apply last_snoc).
  apply py_index_last_iff in Hlast as Hp_1.
  rewrite py_index_0, bind_ret, Hrep.
  destruct (Qlt_bool_reflect f 0) as [Hneg|Hnonneg]; [|by eexists].
  rewrite Hp_1, bind_ret.
  destruct (Qle_bool_reflect l 0) as [|Hpos].
  { destruct (py_index_in_range (RadialGradient.colors self) (-1))
      as [c ->].
    - destruct (RadialGradient.colors self); [done|]. simpl. lia.
    - rewrite bind_ret. by eexists. }
  rewrite py_enumerate_cons. cbn [RadialGradient.keep_from_zero].
  destruct (Qeq_bool_reflect f 0) as [|_]; [lra|].
  destruct (Qlt_bool_reflect 0 f) as [|_]; [lra|].
  destruct (keep_from_zero_spec cs (f :: ps) [f] ps)
    as (i & position & colors' & positions' & Hk & Hi & Hbefore & Hnonneg
        & Hrange & Hcases); try done.
  { repeat constructor. done. }
  { destruct (decide (ps = [])) as [->|Hps]; [simplify_eq/=; lra|].
    destruct (exists_last Hps) as (pre' & y & ->).
    rewrite app_comm_cons, last_snoc in Hlast. simplify_eq.
    apply Exists_app. right. constructor. lra. }
  change (Z.of_nat (length [f])) with (0 + 1)%Z in Hk.
  rewrite Hk, bind_ret. eexists. split; [reflexivity|].
  destruct Hcases as [(Hz & -> & ->)|(Hz & pc & c_ & pp & c & _ & _ & _
                                      & _ & -> & ->)]; [|done].
  by rewrite (drop_S _ _ _ Hi).
Qed.

Lemma circles_repeating_total `{Math}
    (color_stops : list (color * option Dimension)) (shape : string)
    (size : RadialGradient.size_t)
    (center : string * Dimension * string * Dimension)
    (self : RadialGradient.t) (width height : Q) (ps : list Q) (f l : Q) :
  RadialGradient.__init__ color_stops shape size center true = Ok self ->
  process_color_stops (RadialGradient.resolved_size self width height).1
    (RadialGradient.stop_positions self) = Ok ps ->
  head ps = Some f ->
  last ps = Some l ->
  (f < 0 -> ~ l - f == 0) ->
  exists r, RadialGradient.circles self width height = Ok r.
Proof.
  intros Hinit Hps Hhead Hlast Hspan.
  apply RadialGradient_init_Ok in Hinit as [Hne ->].
  unfold RadialGradient.circles.
  cbn [RadialGradient.colors RadialGradient.stop_positions
       RadialGradient.repeating] in *.
  rewrite length_map.
  destruct (Nat.eqb_spec (length color_stops) 1) as [Hone|Hlen].
  { destruct color_stops as [|[c p] [|? ?]]; try done. cbn. eauto. }
  assert (Hn : (2 <= length color_stops)%nat)
    by (destruct color_stops as [|? [|? ?]]; simpl in *; try done; lia).
  destruct (RadialGradient.resolved_center _ _ _) as [center_x center_y].
  destruct (RadialGradient.resolved_size _ _ _) as [size_x size_y] eqn:Hsize.
  apply resolved_size_nonzero in Hsize as [Hsx Hsy].
  rewrite (py_div_nonzero size_y size_x Hsx), bind_ret.
  cbn [fst] in Hps. rewrite Hps, bind_ret. cbn [negb]. rewrite bind_ret.
  apply process_color_stops_Ok in Hps as (_ & _ & Hlp).
  rewrite length_map in Hlp.
  assert (exists ps2,
             RadialGradient.positive_realm
               (RadialGradient.mk (map fst color_stops) (map snd color_stops)
                  true center shape size) ps (map fst color_stops)
             = Ok (inr (ps2, map fst color_stops))
             /\ length ps2 = length ps)
    as (ps2 & -> & Hlen2).
  { unfold RadialGradient.positive_realm. cbn [RadialGradient.repeating].
    apply py_index_head in Hhead as Hp0.
    apply py_index_last_iff in Hlast as Hp_1.
    rewrite Hp0, bind_ret.
    destruct (Qlt_bool_reflect f 0) as [Hneg|_]; [|by eexists].
    unfold RadialGradient.shift. rewrite Hp_1, bind_ret, Hp0, bind_ret.
    unfold py_floordiv.
    destruct (Qeq_bool_reflect (l - f) 0) as [E|_]; [by apply Hspan in E|].
    rewrite !bind_ret. eexists. split; [reflexivity|]. by rewrite length_map. }
  rewrite bind_ret.
  destruct ps2 as [|first ps2]; [simpl in *; lia|].
  destruct (exists_last (l:=first :: ps2)) as (pre & last_ & Hl); [done|].
  assert (Hlast2 : last (first :: ps2) = Some last_)
    by (rewrite Hl; apply last_snoc).
  rewrite (normalize_stop_positions_spec _ first last_) by done.
  rewrite bind_ret.
  destruct ((first ==? last_) && true).
  - match goal with
    | |- context [gradient_average_color ?cs ?ps] =>
        destruct (gradient_average_color_total cs ps) as [c ->]
    end.
    + destruct (last_ - first ==? 0);
        rewrite ?length_replicate, ?length_map; lia.
    + destruct (last_ - first ==? 0);
        rewrite ?length_replicate, ?length_map; lia.
    + rewrite bind_ret. eauto.
  - rewrite (py_div_nonzero center_y (size_y / size_x)).
    2:{ intros Hz. apply Hsy.
        assert (size_x * (size_y / size_x) == size_y) as <- by (field; lra).
        rewrite Hz. ring. }
    rewrite !bind_ret. eauto.
Qed.

Lemma radial_layout_not_repeating_total `{Math}
    (color_stops : list (color * option Dimension)) (shape : string)
    (size : RadialGradient.size_t)
    (center : string * Dimension * string * Dimension)
    (self : RadialGradient.t) (width height : Q) :
  RadialGradient.__init__ color_stops shape size center false = Ok self ->
  exists plan, RadialGradient.layout self width height = Ok plan.
Proof.
  intros Hinit. apply RadialGradient_init_Ok in Hinit as [Hne ->].
  unfold RadialGradient.layout, RadialGradient.circles.
  cbn [RadialGradient.colors RadialGradient.stop_positions
       RadialGradient.repeating].
  rewrite length_map.
  destruct (Nat.eqb_spec (length color_stops) 1) as [Hone|Hlen].
  { destruct color_stops as [|[c p] [|? ?]]; try done. cbn. eauto. }
  assert (Hn : (2 <= length color_stops)%nat)
    by (destruct color_stops as [|? [|? ?]]; simpl in *; try done; lia).
  destruct (RadialGradient.resolved_center _ _ _) as [center_x center_y].
  destruct (RadialGradient.resolved_size _ _ _) as [size_x size_y] eqn:Hsize.
  apply resolved_size_nonzero in Hsize as [Hsx Hsy].
  rewrite (py_div_nonzero size_y size_x Hsx), bind_ret.
  rewrite process_color_stops_resolved by (by destruct color_stops).
  rewrite bind_ret. cbn [negb].
  set (ps := resolved _ _).
  assert (Hlps : length ps = length color_stops)
    by (unfold ps; by rewrite resolved_length, length_map).
  destruct (radial_boundaries_total ps (map fst color_stops))
    as (ps1 & cs1 & Hb); [by rewrite length_map|lia|].
  rewrite Hb, bind_ret.
  apply radial_boundaries_length in Hb as [Hlen1 Hn1];
    [|by rewrite length_map].
  match goal with
  | |- context [RadialGradient.positive_realm ?self ps1 cs1] =>
      destruct (positive_realm_clip_total self ps1 cs1)
        as (r & -> & Hr); [done|by destruct color_stops|done|lia|]
  end.
  rewrite bind_ret. destruct r as [solid|[ps2 cs2]].
  { rewrite bind_ret. eauto. }
  destruct ps2 as [|first ps2]; [done|].
  destruct (exists_last (l:=first :: ps2)) as (pre & last_ & Hl); [done|].
  assert (Hlast : last (first :: ps2) = Some last_)
    by (rewrite Hl; apply last_snoc).
  rewrite (normalize_stop_positions_spec _ first last_) by done.
  rewrite bind_ret, andb_false_r.
  rewrite (py_div_nonzero center_y (size_y / size_x)).
  2:{ intros Hz. apply Hsy.
      assert (size_x * (size_y / size_x) == size_y) as <- by (field; lra).
      rewrite Hz. ring. }
  rewrite !bind_ret. eauto.
Qed.

(** X21: The layout of a radial gradient made by the constructor returns a
    plan for every box, unless the gradient is repeating, its first resolved
    stop position is negative and the first and last resolved positions are
    equal. *)
Theorem radial_layout_total `{Math}
    (color_stops : list (color * option Dimension)) (shape : string)
    (size : RadialGradient.size_t)
    (center : string * Dimension * string * Dimension) (repeating : bool)
    (self : RadialGradient.t) (width height : Q) (ps : list Q) (f l : Q) :
  RadialGradient.__init__ color_stops shape size center repeating = Ok self ->
  process_color_stops (RadialGradient.resolved_size self width height).1
    (RadialGradient.stop_positions self) = Ok ps ->
  head ps = Some f ->
  last ps = Some l ->
  (repeating = true -> f < 0 -> ~ l - f == 0) ->
  exists plan, RadialGradient.layout self width height = Ok plan.
Proof.
  intros Hinit Hps Hhead Hlast Hspan. destruct repeating.
  2:{ by eapply radial_layout_not_repeating_total. }
  destruct (circles_repeating_total _ _ _ _ _ _ _ _ _ _ Hinit Hps Hhead Hlast
              (Hspan eq_refl)) as [r Hr].
  unfold RadialGradient.layout. rewrite Hr, bind_ret.
  destruct r as [solid|[[[s points] normalized] cs]]; [eauto|].
  destruct (circles_repeating _ _ _ _ _ _ _ _ _ _ _ Hinit Hr)
    as (cx & cy & first & last_ & p0 & p_1 & -> & Hfirst & Hlt & Hs
        & Hh & Hp0 & Hl & Hp_1 & Hlen & Hn).
  destruct (repeat_spec width height s cx cy first last_ normalized cs p0 p_1)
    as (md & r2 & r5 & positions' & colors' & _ & Hrepeat & _); try done.
  assert (RadialGradient.repeating self = true) as ->
    by (apply RadialGradient_init_Ok in Hinit as [_ ->]; done).
  rewrite Hrepeat, bind_ret. eauto.
Qed.

Lemma radial_layout_total_witness :
  (exists plan,
      RadialGradient.layout (H:=rational_math)
        (RadialGradient.mk [red; green] [Some (Px (-10)); Some (Px 50)] true
           ("left", Px 0, "top", Px 0) "circle"
           (RadialGradient.explicit (Px 50) (Px 50))) 3 4 = Ok plan)
  /\ (exists plan,
         RadialGradient.layout (H:=rational_math)
           (RadialGradient.mk [red; green] [Some (Px (-10)); Some (Px (-10))]
              false ("left", Px 0, "top", Px 0) "circle"
              (RadialGradient.explicit (Px 50) (Px 50))) 3 4 = Ok plan).
Proof.
  split.
  - eapply (radial_layout_total (H:=rational_math)
              [(red, Some (Px (-10))); (green, Some (Px 50))] "circle"
              (RadialGradient.explicit (Px 50) (Px 50))
              ("left", Px 0, "top", Px 0) true _ 3 4 [-10; 50] (-10) 50);
      try reflexivity.
    intros _ _. by vm_compute.
  - eapply (radial_layout_total (H:=rational_math)
              [(red, Some (Px (-10))); (green, Some (Px (-10)))] "circle"
              (RadialGradient.explicit (Px 50) (Px 50))
              ("left", Px 0, "top", Px 0) false _ 3 4 [-10; -10] (-10) (-10));
      try reflexivity.
    intros [=].
Defined.

(** ** The tiled plan keeps the circles of the gradient in place *)

Lemma lookup_rev {A} (l : list A) (k : nat) (x : A) :
  rev l !! k = Some x -> l !! (length l - S k)%nat = Some x.
Proof.
  revert k. induction l as [|a l IH]; intros k Hk; [done|].
  cbn [rev] in Hk. apply lookup_app_Some in Hk as [Hk|[Hlen Hk]].
  - apply lookup_lt_Some in Hk as Hlt. rewrite length_rev in Hlt.
    apply IH in Hk. cbn [length].
    replace (S (length l) - S k)%nat with (S (length l - S k)) by lia.
    done.
  - rewrite length_rev in Hlen, Hk.
    apply list_lookup_singleton_Some in Hk as [Hk ->].
    cbn [length]. replace (S (length l) - S k)%nat with 0%nat by lia. done.
Qed.

Lemma py_enumerate_rev (l : list Q) :
  Forall (fun ix : Z * Q =>
            (1 <= ix.1 <= Z.of_nat (length l))%Z
            /\ l !! (length l - Z.to_nat ix.1)%nat = Some ix.2)
         (py_enumerate 1 (rev l)).
Proof.
  apply Forall_lookup. intros k [i x] Hk. unfold py_enumerate in Hk.
  rewrite list_lookup_imap in Hk.
  destruct (rev l !! k) as [y|] eqn:Hy; simplify_eq/=.
  apply lookup_lt_Some in Hy as Hlt. rewrite length_rev in Hlt.
  apply lookup_rev in Hy. split; [lia|].
  by replace (Z.to_nat (1 + Z.of_nat k)) with (S k) by lia.
Qed.

Lemma center_scan_ends (original_colors : list color)
    (original_positions : list Q) (full_repeat : Z) (ratio : Q)
    (points positions : list Q) (colors : list color) (l : list (Z * Q))
    (points' positions' : list Q) (colors' : list color) :
  RadialGradient.center_scan original_colors original_positions full_repeat
    ratio points positions colors l
  = Ok (points', positions', colors') ->
  Forall (fun ix : Z * Q =>
            (1 <= ix.1 <= Z.of_nat (length original_positions))%Z
            /\ original_positions
                 !! (length original_positions - Z.to_nat ix.1)%nat
               = Some ix.2) l ->
  positions <> [] ->
  points' = points
  /\ exists h,
      head positions' = Some h
      /\ h == ratio - 1 - inject_Z full_repeat
      /\ last positions' = last positions.
Proof.
  intros Hscan Hall Hne.
  induction l as [|[i position] l IH]; [done|].
  apply Forall_cons in Hall as [[Hi Hlookup] Hall]. cbn [fst snd] in *.
  cbn [RadialGradient.center_scan] in Hscan.
  destruct (Qeq_bool_reflect position ratio) as [Heq|Hneq].
  { simplify_eq. unfold py_slice_from.
    rewrite py_bound_neg by lia.
    rewrite (drop_S _ _ _ Hlookup). cbn [map app head].
    split; [done|].
    eexists. split; [reflexivity|]. split; [rewrite Heq; ring|].
    destruct (exists_last Hne) as (pre & y & ->).
    by rewrite app_comm_cons, app_assoc, !last_snoc. }
  destruct (Qlt_bool_reflect position ratio) as [Hlt|Hge]; [|by apply IH].
  inv_bind Hscan. inv_bind Hscan. inv_bind Hscan. inv_bind Hscan.
  simplify_eq. cbn [app head]. split; [done|].
  eexists. split; [reflexivity|]. split; [reflexivity|].
  destruct (exists_last Hne) as (pre & y & ->).
  by rewrite app_comm_cons, !app_assoc, !last_snoc.
Qed.

Lemma py_range_snoc (a b : Z) :
  (a <= b)%Z -> py_range a (b + 1) = py_range a b ++ [b].
Proof.
  intros Hab. unfold py_range.
  replace (Z.to_nat (b + 1 - a)) with (S (Z.to_nat (b - a))) by lia.
  rewrite seq_S, map_app. cbn [map]. do 2 f_equal. lia.
Qed.

Lemma flat_map_head {A B} (f : A -> list B) (x : A) (l : list A) :
  f x <> [] -> head (flat_map f (x :: l)) = head (f x).
Proof. cbn [flat_map]. by destruct (f x). Qed.

Lemma flat_map_last {A B} (f : A -> list B) (x : A) (l : list A) :
  f x <> [] -> last (flat_map f (l ++ [x])) = last (f x).
Proof.
  intros Hne. rewrite flat_map_app. cbn [flat_map]. rewrite app_nil_r.
  destruct (exists_last Hne) as (pre & y & ->).
  by rewrite app_assoc, !last_snoc.
Qed.

(** The ends of the positions returned by [_repeat], and the radii of its
    circles: a position [p] of the tiled plan is at the radius
    [first + (last_ - first) * p], as in the gradient before tiling. *)
Lemma repeat_ends `{Math} (width height s cx cy first last_ : Q)
    (positions : list Q) (colors : list color) (p0 p_1 : Q)
    (points' positions' : list Q) (colors' : list color) :
  0 <= first -> first < last_ -> ~ s == 0 ->
  head positions = Some p0 -> p0 == 0 ->
  last positions = Some p_1 -> p_1 == 1 ->
  RadialGradient._repeat width height s [cx; cy; first; cx; cy; last_]
    positions colors
  = Ok (points', positions', colors') ->
  exists r2 r5 h l,
    points' = [cx; cy; r2; cx; cy; r5]
    /\ head positions' = Some h
    /\ last positions' = Some l
    /\ r2 == first + (last_ - first) * h
    /\ r5 == first + (last_ - first) * l.
Proof.
  intros Hfirst Hlt Hs Hhead Hp0 Hlast Hp_1 Hrepeat.
  destruct (max_distance_Ok width height s _ cx cy first last_ cx cy Hs eq_refl)
    as [md Hmd].
  unfold RadialGradient._repeat in Hrepeat. rewrite Hmd in Hrepeat.
  change (py_index [cx; cy; first; cx; cy; last_] 5) with (Ok last_)
    in Hrepeat.
  change (py_index [cx; cy; first; cx; cy; last_] 2) with (Ok first)
    in Hrepeat.
  rewrite !bind_ret in Hrepeat.
  assert (Hgl : ~ last_ - first == 0) by lra.
  rewrite (py_div_nonzero _ _ Hgl), bind_ret in Hrepeat.
  set (gl := last_ - first) in *.
  assert (Hglpos : 0 < gl) by (unfold gl; lra).
  set (ra := py_ceil ((md - last_) / gl)) in *.
  assert (Hpne : positions <> []) by (by destruct positions).
  (* the outward repeats *)
  assert (Hout : exists r5 positions1 colors1 h1 l1,
    (if (0 <? ra)%Z
     then (py_slice_to [cx; cy; first; cx; cy; last_] 5
             ++ [last_ + gl * inject_Z ra],
           flat_map (fun i => map (fun position => inject_Z i + position)
                                  positions) (py_range 0 (1 + ra)),
           py_repeat_list colors (1 + ra))
     else ([cx; cy; first; cx; cy; last_], positions, colors))
    = ([cx; cy; first; cx; cy; r5], positions1, colors1)
    /\ head positions1 = Some h1 /\ h1 == 0
    /\ last positions1 = Some l1
    /\ r5 == first + gl * l1).
  { destruct (Z.ltb_spec 0 ra) as [Hra|Hra].
    - eexists _, _, _, (inject_Z 0 + p0), (inject_Z ra + p_1).
      split; [reflexivity|]. split.
      { rewrite py_range_cons by lia. rewrite flat_map_head.
        - by rewrite head_map, Hhead.
        - by destruct positions. }
      split; [rewrite Hp0; reflexivity|]. split.
      { replace (1 + ra)%Z with (ra + 1)%Z by lia.
        rewrite py_range_snoc by lia. rewrite flat_map_last.
        - by rewrite last_map, Hlast.
        - by destruct positions. }
      rewrite Hp_1. unfold gl. ring.
    - eexists _, _, _, p0, p_1. split; [reflexivity|].
      split; [done|]. split; [done|]. split; [done|].
      rewrite Hp_1. unfold gl. ring. }
  destruct Hout as (r5 & positions1 & colors1 & h1 & l1 & Hout & Hh1 & Hh1z
                    & Hl1 & Hr5).
  rewrite Hout in Hrepeat. clear Hout.
  assert (Hne1 : positions1 <> []) by (by destruct positions1).
  change (py_index [cx; cy; first; cx; cy; r5] 2) with (Ok first) in Hrepeat.
  rewrite bind_ret in Hrepeat.
  destruct (Qeq_bool_reflect first 0) as [Hzero|Hnz].
  { simplify_eq. exists first, r5, h1, l1.
    repeat split; try done. rewrite Hh1z. ring. }
  rewrite (py_div_nonzero _ _ Hgl), bind_ret in Hrepeat.
  change (py_slice_to [cx; cy; first; cx; cy; r5] 2
            ++ [0] ++ py_slice_from [cx; cy; first; cx; cy; r5] 3)
    with [cx; cy; 0; cx; cy; r5] in Hrepeat.
  set (rb := first / gl) in *.
  assert (Hrb : 0 <= rb).
  { unfold rb. apply Qle_shift_div_l; lra. }
  assert (Hrbgl : gl * rb == first) by (unfold rb; field; done).
  pose proof (py_int_nonneg rb Hrb) as Hint.
  set (fr := py_int rb) in *.
  assert (Hfr : (0 <= fr)%Z).
  { assert (Hlt1 : inject_Z (-1) < inject_Z fr)
      by (change (inject_Z (-1)) with (-1); lra).
    rewrite <- Zlt_Qlt in Hlt1. lia. }
  (* the whole inward repeats *)
  assert (Hin : exists positions2 colors2 h2,
    (if negb (fr =? 0)%Z
     then (flat_map (fun i => map (fun position =>
                                     inject_Z (i - fr) + position)
                                  positions) (py_range 0 fr) ++ positions1,
           colors1 ++ py_repeat_list colors fr)
     else (positions1, colors1))
    = (positions2, colors2)
    /\ head positions2 = Some h2 /\ h2 == - inject_Z fr
    /\ last positions2 = Some l1).
  { destruct (Z.eqb_spec fr 0) as [Hz|Hnz']; cbn [negb].
    - eexists _, _, h1. split; [reflexivity|]. split; [done|].
      split; [|done]. rewrite Hz, Hh1z. reflexivity.
    - eexists _, _, (inject_Z (0 - fr) + p0). split; [reflexivity|].
      split.
      { rewrite py_range_cons by lia. cbn [flat_map].
        destruct positions as [|p positions]; [done|].
        cbn [head] in Hhead. by simplify_eq. }
      split.
      { rewrite Hp0. change (0 - fr)%Z with (- fr)%Z.
        rewrite inject_Z_opp. ring. }
      destruct (exists_last Hne1) as (pre & y & ->).
      rewrite last_snoc in Hl1. simplify_eq.
      by rewrite app_assoc, last_snoc. }
  destruct Hin as (positions2 & colors2 & h2 & Hin & Hh2 & Hh2z & Hl2).
  rewrite Hin in Hrepeat. clear Hin.
  assert (Hne2 : positions2 <> []) by (by destruct positions2).
  destruct (Qeq_bool_reflect (rb - inject_Z fr) 0) as [Hpartial|Hpartial].
  { simplify_eq. exists 0, r5, h2, l1.
    repeat split; try done. rewrite Hh2z.
    assert (inject_Z fr == rb) as -> by lra. rewrite <- Hrbgl. ring. }
  inv_bind Hrepeat. inv_bind Hrepeat. inv_bind Hrepeat. inv_bind Hrepeat.
  apply center_scan_ends in Hrepeat as (-> & h & Hh & Hhz & Hl);
    [|apply py_enumerate_rev|done].
  exists 0, r5, h, l1. split; [done|]. split; [done|].
  split; [by rewrite Hl|]. split; [|done].
  rewrite Hhz.
  transitivity (first - gl * rb); [rewrite Hrbgl; ring|ring].
Qed.

(** X22: Tiling a repeating radial gradient keeps the gradient in place: if
    one period has radii r0 and r1, the plan that layout returns has inner
    radius r0 + (r1 - r0) * first and outer radius r0 + (r1 - r0) * last, for
    the first and last positions of the plan, with both circles on the same
    center. *)
Theorem repeat_keeps_radii `{Math}
    (color_stops : list (color * option Dimension)) (shape : string)
    (size : RadialGradient.size_t)
    (center : string * Dimension * string * Dimension)
    (self : RadialGradient.t) (width height s : Q)
    (period_points period_positions : list Q) (period_colors : list color) :
  RadialGradient.__init__ color_stops shape size center true = Ok self ->
  RadialGradient.circles self width height
  = Ok (inr (s, period_points, period_positions, period_colors)) ->
  exists r0 r1 plan cx cy inner outer first last_,
    py_index period_points 2 = Ok r0 /\ py_index period_points 5 = Ok r1
    /\ RadialGradient.layout self width height = Ok plan
    /\ points plan = Some [cx; cy; inner; cx; cy; outer]
    /\ head (positions plan) = Some first
    /\ last (positions plan) = Some last_
    /\ inner == r0 + (r1 - r0) * first
    /\ outer == r0 + (r1 - r0) * last_.
Proof.
  intros Hinit Hc.
  destruct (circles_repeating _ _ _ _ _ _ _ _ _ _ _ Hinit Hc)
    as (cx & cy & r0 & r1 & p0 & p_1 & -> & Hfirst & Hlt & Hs
        & Hhead & Hp0 & Hlast & Hp_1 & Hlen & Hn).
  destruct (repeat_spec width height s cx cy r0 r1 period_positions
              period_colors p0 p_1)
    as (md & r2 & r5 & positions' & colors' & _ & Hr & _); try done.
  destruct (repeat_ends width height s cx cy r0 r1 period_positions
              period_colors p0 p_1 _ _ _ Hfirst Hlt Hs Hhead Hp0 Hlast Hp_1
              Hr)
    as (r2' & r5' & h & l & Hpoints & Hh & Hl & Hr2 & Hr5).
  simplify_eq.
  eexists r0, r1, _, cx, cy, r2', r5', h, l.
  split; [done|]. split; [done|]. split.
  { unfold RadialGradient.layout. rewrite Hc, bind_ret.
    apply RadialGradient_init_Ok in Hinit as [_ ->].
    cbn [RadialGradient.repeating]. by rewrite Hr, bind_ret. }
  by cbn.
Qed.

Lemma repeat_keeps_radii_witness :
  exists r0 r1 plan cx cy inner outer first last_,
    py_index [2; 2; 5 # 2; 2; 2; 7 # 2] 2 = Ok r0
    /\ py_index [2; 2; 5 # 2; 2; 2; 7 # 2] 5 = Ok r1
    /\ RadialGradient.layout (H:=rational_math)
         (RadialGradient.mk [red; green; blue]
            [Some (Px (5 # 2)); Some (Px 3); Some (Px (7 # 2))] true
            ("left", Px 2, "top", Px 2) "circle"
            (RadialGradient.explicit (Px 1) (Px 1))) 4 4 = Ok plan
    /\ points plan = Some [cx; cy; inner; cx; cy; outer]
    /\ head (positions plan) = Some first
    /\ last (positions plan) = Some last_
    /\ inner == r0 + (r1 - r0) * first
    /\ outer == r0 + (r1 - r0) * last_.
Proof.
  eapply (repeat_keeps_radii (H:=rational_math)
            [(red, Some (Px (5 # 2))); (green, Some (Px 3));
             (blue, Some (Px (7 # 2)))] "circle"
            (RadialGradient.explicit (Px 1) (Px 1))
            ("left", Px 2, "top", Px 2) _ 4 4); [reflexivity|].
  by vm_compute.
Defined.

(** ** [Gradient.draw] *)

Lemma linear_layout_shape `{Math}
    (color_stops : list (color * option Dimension))
    (direction : LinearGradient.direction_t) (repeating : bool)
    (self : LinearGradient.t) (width height : Q) (plan : Layout) :
  LinearGradient.__init__ color_stops direction repeating = Ok self ->
  LinearGradient.layout self width height = Ok plan ->
  (exists c, plan = mkLayout 1 "solid" None [] [c])
  \/ (exists pts,
        type_ plan = "linear"
        /\ points plan = Some pts /\ length pts = 4%nat
        /\ length (positions plan) = length (colors plan)
        /\ (2 <= length (positions plan))%nat).
Proof.
  intros Hinit Hlayout.
  apply LinearGradient_init_Ok in Hinit as [Hne ->].
  unfold LinearGradient.layout in Hlayout.
  cbn [LinearGradient.colors LinearGradient.stop_positions
       LinearGradient.repeating] in *.
  rewrite length_map in Hlayout.
  destruct (Nat.eqb_spec (length color_stops) 1) as [|Hlen].
  { inv_bind Hlayout. simplify_eq. left. eauto. }
  assert (Hn : (2 <= length color_stops)%nat)
    by (destruct color_stops as [|? [|? ?]]; simpl in *; try done; lia).
  inv_bind Hlayout. destruct a as [dx dy].
  inv_bind Hlayout. rename a into ps.
  apply process_color_stops_Ok in Ha0 as Hp.
  destruct Hp as (_ & _ & Hlp). rewrite length_map in Hlp.
  inv_bind Hlayout. destruct a as [ps1 cs1].
  inv_bind Hlayout. destruct a as [[first last_] normalized].
  apply normalize_stop_positions_Ok in Ha2 as (_ & _ & Hln & _).
  assert (H1 : length cs1 = length ps1 /\ (2 <= length ps1)%nat).
  { destruct repeating; cbn [negb] in Ha1.
    - simplify_eq. rewrite length_map. lia.
    - apply linear_boundaries_spec in Ha1 as (Hl1 & Hn1 & _);
        [done|by rewrite length_map]. }
  destruct H1 as [Hl1 Hn1].
  destruct ((first ==? last_) && repeating).
  - inv_bind Hlayout. simplify_eq. left. eauto.
  - simplify_eq. right. eexists. cbn [type_ points positions colors].
    split; [done|]. split; [done|]. split; [done|]. lia.
Qed.

Lemma circles_inl_solid `{Math} (self : RadialGradient.t) (width height : Q)
    (solid : Layout) :
  RadialGradient.circles self width height = Ok (inl solid) ->
  exists c, solid = mkLayout 1 "solid" None [] [c].
Proof.
  unfold RadialGradient.circles. intros Hc.
  destruct (length (RadialGradient.colors self) =? 1)%nat.
  { inv_bind Hc. simplify_eq. eauto. }
  destruct (RadialGradient.resolved_center _ _ _) as [center_x center_y].
  destruct (RadialGradient.resolved_size _ _ _) as [size_x size_y].
  inv_bind Hc. inv_bind Hc. inv_bind Hc. destruct a1 as [ps cs].
  inv_bind Hc. destruct a1 as [l|[ps' cs']].
  { simplify_eq. unfold RadialGradient.positive_realm in Ha2.
    inv_bind Ha2. destruct (a1 <? 0); [|done].
    destruct (RadialGradient.repeating self); [by inv_bind Ha2|].
    inv_bind Ha2. destruct (a2 <=? 0).
    - inv_bind Ha2. simplify_eq. eauto.
    - inv_bind Ha2. by destruct a3. }
  inv_bind Hc. destruct a1 as [[first last_] normalized].
  destruct ((first ==? last_) && RadialGradient.repeating self).
  - inv_bind Hc. simplify_eq. eauto.
  - by inv_bind Hc.
Qed.

Lemma radial_layout_shape `{Math}
    (color_stops : list (color * option Dimension)) (shape : string)
    (size : RadialGradient.size_t)
    (center : string * Dimension * string * Dimension) (repeating : bool)
    (self : RadialGradient.t) (width height : Q) (plan : Layout) :
  RadialGradient.__init__ color_stops shape size center repeating = Ok self ->
  RadialGradient.layout self width height = Ok plan ->
  (exists c, plan = mkLayout 1 "solid" None [] [c])
  \/ (exists pts,
        type_ plan = "radial"
        /\ points plan = Some pts /\ length pts = 6%nat
        /\ length (positions plan) = length (colors plan)
        /\ (2 <= length (positions plan))%nat).
Proof.
  intros Hinit Hlayout.
  unfold RadialGradient.layout in Hlayout. inv_bind Hlayout.
  destruct a as [solid|[[[s pts] normalized] cs]].
  { simplify_eq. left. by eapply circles_inl_solid. }
  right.
  destruct (circles_inr _ _ _ _ _ _ _ _ _ _ _ _ Hinit Ha)
    as (sx & sy & ps & _ & _ & _ & Hlen & Hn & _).
  destruct (circles_center _ _ _ _ _ _ _ Ha) as (first & last_ & -> & Hs).
  assert (Hrep : RadialGradient.repeating self = repeating)
    by (apply RadialGradient_init_Ok in Hinit as [_ ->]; done).
  rewrite Hrep in Hlayout. destruct repeating.
  - destruct (circles_repeating _ _ _ _ _ _ _ _ _ _ _ Hinit Ha)
      as (cx & cy & first' & last' & p0 & p_1 & Hpoints' & Hfirst & Hlt & _
          & Hhead & Hp0 & Hlast & Hp_1 & _ & _).
    simplify_eq.
    edestruct (repeat_spec width height s) as (md & r2 & r5 & positions'
                                               & colors' & _ & Hr & _ & _ & _
                                               & Hlen' & Hn');
      [exact Hfirst|exact Hlt|exact Hs|exact Hhead|exact Hp0|exact Hlast
      |exact Hp_1|exact Hlen|exact Hn|].
    rewrite Hr, bind_ret in Hlayout. simplify_eq.
    eexists. cbn [type_ points positions colors].
    split; [done|]. split; [done|]. split; [done|]. split; [done|]. done.
  - rewrite bind_ret in Hlayout. simplify_eq.
    eexists. cbn [type_ points positions colors].
    split; [done|]. split; [done|]. split; [done|]. split; [done|]. done.
Qed.

(** The layout of a gradient made by its constructor is a solid color or a
    shading with as many positions as colors, at least two. *)
Lemma gradient_layout_shape `{Math} (self : gradient) (width height : Q)
    (plan : Layout) :
  constructed self ->
  Gradient_layout self width height = Ok plan ->
  (exists c, plan = mkLayout 1 "solid" None [] [c])
  \/ (exists pts,
        type_ plan = (match self with linear _ => "linear" | _ => "radial" end)
        /\ points plan = Some pts
        /\ length pts = (match self with linear _ => 4 | _ => 6 end)%nat
        /\ length (positions plan) = length (colors plan)
        /\ (2 <= length (positions plan))%nat).
Proof.
  destruct self as [self|self]; cbn [constructed Gradient_layout].
  - intros (color_stops & direction & repeating & Hinit) Hlayout.
    by eapply linear_layout_shape.
  - intros (color_stops & shape & size & center & repeating & Hinit) Hlayout.
    by eapply radial_layout_shape.
Qed.

Lemma color_functions_loop (rest pre : list color) (c : color)
    (functions : list pydyf.object) :
  for_in (py_range (Z.of_nat (length pre))
            (Z.of_nat (length (pre ++ c :: rest)) - 1))
    (fun functions i =>
       function ← (c0 ← py_index (pre ++ c :: rest) i;
                   c1 ← py_index (pre ++ c :: rest) (i + 1);
                   Ok (function_between c0 c1));
       Ok (functions ++ [function]))
    functions
  = Ok (functions ++ zip_with function_between (c :: rest) rest).
Proof.
  revert pre c functions. induction rest as [|c' rest IH];
    intros pre c functions.
  { rewrite py_range_nil by (rewrite length_app; simpl; lia).
    cbn. by rewrite app_nil_r. }
  rewrite py_range_cons by (rewrite length_app; simpl; lia).
  cbn [for_in].
  rewrite (py_index_middle pre (c' :: rest) c (Z.of_nat (length pre)))
    by done.
  rewrite bind_ret.
  rewrite (cons_middle c pre (c' :: rest)), app_assoc.
  rewrite (py_index_middle (pre ++ [c]) rest c' (Z.of_nat (length pre) + 1))
    by (rewrite length_app; simpl; lia).
  rewrite !bind_ret.
  specialize (IH (pre ++ [c]) c' (functions ++ [function_between c c'])).
  rewrite length_app in IH. cbn [length] in IH.
  replace (Z.of_nat (length pre + 1)) with (Z.of_nat (length pre) + 1)%Z
    in IH by lia.
  rewrite IH. cbn [zip_with]. by rewrite <- app_assoc.
Qed.

Lemma color_functions_spec (colors : list color) :
  color_functions colors
  = Ok (zip_with function_between colors (tail colors)).
Proof.
  unfold color_functions. destruct colors as [|c rest]; [done|].
  apply (color_functions_loop rest [] c []).
Qed.

(** X23: When the layout of a constructed gradient is a solid color, draw
    makes exactly three calls on the context: rectangle(0, 0, concrete_width,
    concrete_height), set_color_rgb with the red, green and blue of the single
    color of the plan, and fill. *)
Theorem Gradient_draw_solid `{Math} (self : gradient) (id : string)
    (concrete_width concrete_height : Q) (plan : Layout) :
  constructed self ->
  Gradient_layout self concrete_width concrete_height = Ok plan ->
  type_ plan = "solid" ->
  exists r g b a,
    colors plan = [(r, g, b, a)]
    /\ Gradient_draw self id concrete_width concrete_height
       = Ok [Stream.rectangle 0 0 concrete_width concrete_height;
             Stream.set_color_rgb r g b;
             Stream.fill].
Proof.
  intros Hself Hlayout Htype.
  destruct (gradient_layout_shape self _ _ _ Hself Hlayout)
    as [[[[[r g] b] a] ->]|(pts & Htype' & _)].
  2:{ rewrite Htype in Htype'. by destruct self. }
  exists r, g, b, a. split; [done|].
  unfold Gradient_draw. by rewrite Hlayout.
Qed.

Lemma py_slice_interior {A} (first last_ : A) (interior : list A) :
  py_slice (first :: interior ++ [last_]) 1 (-1) = interior.
Proof.
  unfold py_slice, py_bound.
  change (1 <? 0)%Z with false. change (-1 <? 0)%Z with true.
  cbn [length]. rewrite length_app. cbn [length].
  replace (Z.to_nat (Z.max 0 (Z.of_nat (S (length interior + 1)) + -1)))
    with (S (length interior)) by lia.
  change (Z.to_nat 1) with 1%nat. cbn [drop].
  replace (S (length interior) - 1)%nat with (length interior) by lia.
  by rewrite drop_0, take_app_length.
Qed.

Lemma Gradient_draw_solid_witness :
  exists r g b a,
    colors (mkLayout 1 "solid" None [] [green]) = [(r, g, b, a)]
    /\ Gradient_draw (H:=rational_math)
         (linear (LinearGradient.mk [green] [None] false
                    (LinearGradient.angle 0))) "s0" 50 30
       = Ok [Stream.rectangle 0 0 50 30;
             Stream.set_color_rgb r g b;
             Stream.fill].
Proof.
  apply (Gradient_draw_solid (H:=rational_math)); [|reflexivity|reflexivity].
  by exists [(green, None)], (LinearGradient.angle 0), false.
Defined.

(** X24: When the layout of a constructed gradient is not a solid color, draw
    raises nothing and writes a well-formed shading: type 2 with 4 coordinates
    for a linear gradient and type 3 with 6 for a radial one, the domain from
    the first to the last position, one interpolation function per pair of
    adjacent colors (at least one), one bound fewer than functions, two Encode
    entries per function, Extend only when the gradient does not repeat, then
    the transformation by the vertical scale and the shading. *)
Theorem Gradient_draw_shading `{Math} (self : gradient) (id : string)
    (concrete_width concrete_height : Q) (plan : Layout) :
  constructed self ->
  Gradient_layout self concrete_width concrete_height = Ok plan ->
  type_ plan <> "solid" ->
  exists first last_ bounds coords encode functions,
    positions plan = first :: bounds ++ [last_]
    /\ points plan = Some coords
    /\ length coords = (match self with linear _ => 4 | radial _ => 6 end)%nat
    /\ functions = zip_with function_between (colors plan) (tail (colors plan))
    /\ (1 <= length functions)%nat
    /\ length functions = (length (colors plan) - 1)%nat
    /\ length bounds = (length functions - 1)%nat
    /\ length encode = (2 * length functions)%nat
    /\ Gradient_draw self id concrete_width concrete_height
       = Ok ([Stream.add_shading;
              Stream.setitem "ShadingType"
                (pydyf.number
                   (match self with linear _ => 2 | radial _ => 3 end));
              Stream.setitem "ColorSpace" (pydyf.str "/DeviceRGB");
              Stream.setitem "Domain"
                (pydyf.Array [pydyf.number first; pydyf.number last_]);
              Stream.setitem "Coords" (pydyf.Array (map pydyf.number coords));
              Stream.setitem "Function"
                (pydyf.Dictionary
                   [("FunctionType", pydyf.number 3);
                    ("Domain",
                     pydyf.Array [pydyf.number first; pydyf.number last_]);
                    ("Encode", pydyf.Array encode);
                    ("Bounds", pydyf.Array (map pydyf.number bounds));
                    ("Functions", pydyf.Array functions)])]
             ++ (if negb (Gradient_repeating self)
                 then [Stream.setitem "Extend"
                         (pydyf.Array
                            [pydyf.bytes "true"; pydyf.bytes "true"])]
                 else [])
             ++ [Stream.transform 1 0 0 (scale_y plan) 0 0;
                 Stream.shading id]).
Proof.
  intros Hself Hlayout Htype.
  destruct (gradient_layout_shape self _ _ _ Hself Hlayout)
    as [[c ->]|(pts & Htype' & Hpts & Hlpts & Hlen & Hn)]; [done|].
  destruct plan as [s type plan_points ps cs].
  cbn [type_ points positions colors scale_y] in *.
  destruct ps as [|first ps]; [simpl in Hn; lia|].
  destruct (exists_last (l:=ps)) as (bounds & last_ & ->).
  { destruct ps; [simpl in Hn; lia|done]. }
  exists first, last_, bounds, pts,
    (py_repeat_list [pydyf.number 0; pydyf.number 1]
       (Z.of_nat (length cs) - 1)),
    (zip_with function_between cs (tail cs)).
  split; [done|]. split; [done|]. split; [done|]. split; [done|].
  assert (Hlf : length (zip_with function_between cs (tail cs))
                = (length cs - 1)%nat).
  { destruct cs as [|c cs']; [done|].
    cbn [tail]. rewrite length_zip_with. cbn [length]. lia. }
  cbn [length] in Hlen, Hn. rewrite length_app in Hlen, Hn.
  cbn [length] in Hlen, Hn.
  split; [lia|]. split; [done|]. split; [lia|].
  split; [rewrite py_repeat_list_length; simpl; lia|].
  unfold Gradient_draw. rewrite Hlayout, bind_ret.
  assert (String.eqb type "solid" = false) as ->
    by (by apply String.eqb_neq).
  rewrite py_index_0.
  rewrite (app_comm_cons bounds [last_] first), py_index_last.
  rewrite Hpts. cbn [coordinates]. rewrite !bind_ret.
  rewrite color_functions_spec, bind_ret.
  rewrite <- (app_comm_cons bounds [last_] first), py_slice_interior.
  rewrite Htype'. by destruct self.
Qed.

Lemma Gradient_draw_shading_witness :
  exists plan,
    Gradient_layout (H:=rational_math)
      (radial (RadialGradient.mk [red; green; blue]
                 [Some (Px 0); Some (Px 25); Some (Px 50)] true
                 ("left", Px 0, "top", Px 0) "circle"
                 (RadialGradient.explicit (Px 50) (Px 50)))) 30 40 = Ok plan
    /\ exists trace,
         Gradient_draw (H:=rational_math)
           (radial (RadialGradient.mk [red; green; blue]
                      [Some (Px 0); Some (Px 25); Some (Px 50)] true
                      ("left", Px 0, "top", Px 0) "circle"
                      (RadialGradient.explicit (Px 50) (Px 50)))) "s0" 30 40
         = Ok trace
         /\ length trace = 8%nat.
Proof.
  eexists. split; [by vm_compute|].
  edestruct (Gradient_draw_shading (H:=rational_math)
               (radial (RadialGradient.mk [red; green; blue]
                          [Some (Px 0); Some (Px 25); Some (Px 50)] true
                          ("left", Px 0, "top", Px 0) "circle"
                          (RadialGradient.explicit (Px 50) (Px 50))))
               "s0" 30 40)
    as (first & last_ & bounds & coords & encode & functions & _ & _ & _ & _
        & _ & _ & _ & _ & Hdraw).
  - by exists [(red, Some (Px 0)); (green, Some (Px 25)); (blue, Some (Px 50))],
      "circle", (RadialGradient.explicit (Px 50) (Px 50)),
      ("left", Px 0, "top", Px 0), true.
  - by vm_compute.
  - done.
  - eexists. split; [exact Hdraw|reflexivity].
Defined.

(** ** Intrinsic sizes of images *)

(** X25: The intrinsic size of a raster image is its size in pixels divided by
    image_resolution, and ZeroDivisionError when image_resolution is 0; the
    width is intrinsic_ratio times the height, and intrinsic_ratio is infinite
    exactly when the picture has height 0. *)
Theorem raster_intrinsic_size (pillow_image : RasterImage.pillow)
    (optimize_image : bool) (image_resolution font_size : Q) :
  let self := RasterImage.__init__ pillow_image optimize_image in
  if image_resolution ==? 0
  then RasterImage.get_intrinsic_size self image_resolution font_size
       = Raise ZeroDivisionError
  else
    exists w h,
      RasterImage.get_intrinsic_size self image_resolution font_size
      = Ok (w, h)
      /\ w * image_resolution == inject_Z (RasterImage.width pillow_image)
      /\ h * image_resolution == inject_Z (RasterImage.height pillow_image)
      /\ match RasterImage.intrinsic_ratio self with
         | finite ratio =>
             RasterImage.height pillow_image <> 0%Z /\ w == ratio * h
         | inf => RasterImage.height pillow_image = 0%Z /\ h == 0
         end.
Proof.
  intros self. unfold RasterImage.get_intrinsic_size, py_div.
  destruct (Qeq_bool_reflect image_resolution 0) as [|Hres]; [done|].
  rewrite !bind_ret. eexists _, _. split; [reflexivity|].
  cbn [RasterImage._intrinsic_width RasterImage._intrinsic_height self
       RasterImage.__init__ RasterImage.intrinsic_ratio].
  split; [field; done|]. split; [field; done|].
  destruct (Z.eqb_spec (RasterImage.height pillow_image) 0) as [Hz|Hnz];
    cbn [negb].
  - split; [done|]. rewrite Hz. field. done.
  - split; [done|]. field. split; [done|].
    intros E. change 0 with (inject_Z 0) in E.
    by rewrite inject_Z_injective in E.
Qed.

(** X26: The intrinsic width, height and ratio that
    SVGImage.get_intrinsic_size computes from the width, height and view box
    are each None or not 0; a non-zero width or height attribute is returned
    as it is; when width and height are both known the ratio is known and
    width = ratio * height; and the only exception is IndexError, for a view
    box of one to three numbers when width or height is missing. *)
Theorem svg_intrinsic_size (width height : Q) (viewbox : option (list Q)) :
  match SVGImage.intrinsic width height viewbox with
  | Ok (intrinsic_width, intrinsic_height, intrinsic_ratio) =>
      (truthy width = true -> intrinsic_width = Some width)
      /\ (truthy height = true -> intrinsic_height = Some height)
      /\ (forall w, intrinsic_width = Some w -> ~ w == 0)
      /\ (forall h, intrinsic_height = Some h -> ~ h == 0)
      /\ (forall ratio, intrinsic_ratio = Some ratio -> ~ ratio == 0)
      /\ (forall w h,
            intrinsic_width = Some w -> intrinsic_height = Some h ->
            exists ratio, intrinsic_ratio = Some ratio /\ w == ratio * h)
  | Raise e =>
      e = IndexError
      /\ truthy width && truthy height = false
      /\ exists l, viewbox = Some l /\ (0 < length l < 4)%nat
  end.
Proof.
  assert (Hdiv : forall a b, ~ a == 0 -> ~ b == 0 -> ~ a / b == 0).
  { intros a b Ha Hb E. apply Ha.
    assert (b * (a / b) == a) as <- by (field; done). rewrite E. ring. }
  assert (Hmul : forall a b, ~ a == 0 -> ~ b == 0 -> ~ a * b == 0).
  { intros a b Ha Hb E. apply Qmult_integral in E as [|]; done. }
  unfold SVGImage.intrinsic, truthy.
  destruct (Qeq_bool_reflect width 0) as [Hw|Hw];
    destruct (Qeq_bool_reflect height 0) as [Hh|Hh]; cbn [negb andb].
  4:{ destruct viewbox as [[|v0 l]|];
        rewrite (py_div_nonzero _ _ Hh), bind_ret;
        (repeat split; intros; simplify_eq; auto);
        (eexists; split; [done|]); field; done. }
  all: destruct viewbox as [[|v0 l]|]; cbn [default from_option id];
    try (repeat split; intros; simplify_eq; by auto).
  all: destruct l as [|v1 [|v2 l]];
    try (cbn; split; [done|]; split; [done|]; eexists; split; [done|];
         simpl; lia).
  all: change (py_index (v0 :: v1 :: v2 :: l) 2) with (Ok v2);
    rewrite !bind_ret;
    destruct (Qeq_bool_reflect v2 0) as [Hv2|Hv2]; cbn [negb];
    rewrite ?bind_ret; try (repeat split; intros; simplify_eq; by auto).
  all: destruct l as [|v3 l];
    try (cbn; split; [done|]; split; [done|]; eexists; split; [done|];
         simpl; lia).
  all: change (py_index (v0 :: v1 :: v2 :: v3 :: l) 3) with (Ok v3);
    rewrite !bind_ret;
    destruct (Qeq_bool_reflect v3 0) as [Hv3|Hv3]; cbn [negb];
    rewrite ?bind_ret; try (repeat split; intros; simplify_eq; by auto).
  all: rewrite (py_div_nonzero _ _ Hv3), bind_ret.
  all: pose proof (Hdiv v2 v3 Hv2 Hv3) as Hratio.
  - repeat split; intros; simplify_eq; auto.
  - repeat split; intros; simplify_eq; auto.
    eexists. split; [done|]. ring.
  - rewrite (py_div_nonzero _ _ Hratio), bind_ret.
    repeat split; intros; simplify_eq; auto.
    eexists. split; [done|]. field. auto.
Qed.

(** ** [get_image_from_uri] *)

(** The exceptions that [load_image] raises and that are not image loading
    errors come from the fetcher, from reading the file object, or are a
    key missing in the resource. *)
Lemma load_image_raised `{Libraries} (url_fetcher : url_fetcher_t)
    (optimize_images : bool) (url : string) (forced_mime_type : option string)
    (e : error) :
  load_image url_fetcher optimize_images url forced_mime_type = raised e ->
  fetch url_fetcher url = raised e
  \/ (exists result,
        fetch url_fetcher url = returned result
        /\ ((e = KeyError "file_obj" /\ result !! "string" = None
             /\ result !! "file_obj" = None)
            \/ (exists file_obj,
                  result !! "string" = None
                  /\ result !! "file_obj" = Some file_obj
                  /\ read file_obj = raised e)
            \/ (e = KeyError "mime_type" /\ result !! "mime_type" = None)))
  \/ exists message, e = ImageLoadingError message.
Proof.
  unfold load_image. intros Hload.
  destruct (fetch url_fetcher url) as [result|e'] eqn:Hfetch;
    [|left; by simplify_eq/=].
  right. cbn [mbind outcome_bind] in Hload.
  assert (Hbytes : forall k : string -> outcome image,
    ((if bool_decide (is_Some (result !! "string"))
      then getitem result "string"
      else getitem result "file_obj" ≫= read)
       ≫= k) = raised e ->
    (e = KeyError "file_obj" /\ result !! "string" = None
     /\ result !! "file_obj" = None)
    \/ (exists file_obj,
          result !! "string" = None
          /\ result !! "file_obj" = Some file_obj
          /\ read file_obj = raised e)
    \/ exists data, k data = raised e).
  { intros k Hk. unfold getitem in Hk. case_bool_decide as Hs.
    - destruct Hs as [data Hs]. rewrite Hs in Hk. right. right.
      by exists data.
    - apply eq_None_not_Some in Hs.
      destruct (result !! "file_obj") as [file_obj|] eqn:Hf.
      + cbn [mbind outcome_bind] in Hk.
        destruct (read file_obj) as [data|e'] eqn:Hread.
        * right. right. by exists data.
        * right. left. exists file_obj. by simplify_eq/=.
      + left. by simplify_eq/=. }
  apply Hbytes in Hload as [Hmissing|[Hread|[data Hload]]].
  { left. exists result. split; [done|]. by left. }
  { left. exists result. split; [done|]. right. by left. }
  assert (Hmime : forall k : string -> outcome image,
    (match forced_mime_type with
     | Some forced =>
         if negb (String.eqb forced "") then returned forced
         else getitem result "mime_type"
     | None => getitem result "mime_type"
     end ≫= k) = raised e ->
    (e = KeyError "mime_type" /\ result !! "mime_type" = None)
    \/ exists mime_type, k mime_type = raised e).
  { intros k Hk. unfold getitem in Hk.
    destruct (result !! "mime_type") as [m|] eqn:Hm.
    - right. destruct forced_mime_type as [forced|]; [|by exists m].
      destruct (negb (String.eqb forced "")); [by exists forced|by exists m].
    - destruct forced_mime_type as [forced|]; [|left; by simplify_eq/=].
      destruct (negb (String.eqb forced "")); [|left; by simplify_eq/=].
      right. by exists forced. }
  apply Hmime in Hload as [Hmissing|[mime_type Hload]].
  { left. exists result. split; [done|]. right. by right. }
  right. destruct (String.eqb mime_type "image/svg+xml").
  - unfold SVGImage.__init__ in Hload.
    destruct (ElementTree_fromstring data); simplify_eq/=.
    unfold from_exception. eauto.
  - destruct (Image_open data); simplify_eq/=.
    unfold from_exception. eauto.
Qed.

(** X27: get_image_from_uri lets an exception escape only when the URL is not
    in the cache and the exception is neither URLFetchingError nor
    ImageLoadingError: it was raised by fetch, or by read() on the file
    object of a fetched resource without 'string', or it is the KeyError of a
    fetched resource without 'string' and 'file_obj', or without 'mime_type'.
    *)
Theorem get_image_from_uri_raises `{Libraries}
    (cache : gmap string (option image)) (log : list (string * string))
    (url_fetcher : url_fetcher_t) (optimize_images : bool) (url : string)
    (forced_mime_type : option string) (e : error) :
  get_image_from_uri cache log url_fetcher optimize_images url
    forced_mime_type = raised e ->
  cache !! url = None
  /\ (forall message,
        e <> URLFetchingError message /\ e <> ImageLoadingError message)
  /\ (fetch url_fetcher url = raised e
      \/ exists result,
          fetch url_fetcher url = returned result
          /\ ((e = KeyError "file_obj" /\ result !! "string" = None
               /\ result !! "file_obj" = None)
              \/ (exists file_obj,
                    result !! "string" = None
                    /\ result !! "file_obj" = Some file_obj
                    /\ read file_obj = raised e)
              \/ (e = KeyError "mime_type"
                  /\ result !! "mime_type" = None))).
Proof.
  unfold get_image_from_uri. intros Hget.
  destruct (cache !! url) as [image|]; [done|]. split; [done|].
  destruct (load_image url_fetcher optimize_images url forced_mime_type)
    as [image|e'] eqn:Hload; [done|].
  assert (e' = e /\ forall message,
             e <> URLFetchingError message /\ e <> ImageLoadingError message)
    as [-> Hother] by (destruct e'; by simplify_eq).
  split; [done|].
  apply load_image_raised in Hload as [Hfetch|[Hkey|[message ->]]].
  - by left.
  - by right.
  - by destruct (Hother message).
Qed.

(** X28: Whenever get_image_from_uri returns, the cache maps the URL to the
    returned image (None after a logged failure) and is otherwise unchanged,
    at most one error is logged and only for a None result of a URL that was
    not cached, and every later call for that URL returns the same image from
    the cache without fetching, logging or changing the cache. *)
Theorem get_image_from_uri_cached `{Libraries}
    (cache cache' : gmap string (option image))
    (log log' : list (string * string))
    (url_fetcher : url_fetcher_t) (optimize_images : bool) (url : string)
    (forced_mime_type : option string) (image : option image) :
  get_image_from_uri cache log url_fetcher optimize_images url
    forced_mime_type = returned (image, cache', log') ->
  cache' = <[url := image]> cache
  /\ (log' = log
      \/ (image = None /\ cache !! url = None
          /\ exists message, log' = log ++ [(url, message)]))
  /\ forall log2 url_fetcher2 optimize_images2 forced_mime_type2,
       get_image_from_uri cache' log2 url_fetcher2 optimize_images2 url
         forced_mime_type2
       = returned (image, cache', log2).
Proof.
  unfold get_image_from_uri. intros Hget.
  assert (Hcache : cache' = <[url := image]> cache
                   /\ (log' = log
                       \/ (image = None /\ cache !! url = None
                           /\ exists message, log' = log ++ [(url, message)]))).
  { destruct (cache !! url) as [cached|] eqn:Hhit.
    - simplify_eq. split; [by rewrite insert_id|by left].
    - destruct (load_image _ _ _ _) as [loaded|e].
      + simplify_eq. split; [done|by left].
      + destruct e; simplify_eq; (split; [done|]); right; eauto. }
  destruct Hcache as [-> Hlog]. split; [done|]. split; [done|].
  intros log2 url_fetcher2 optimize_images2 forced_mime_type2.
  by rewrite lookup_insert_eq.
Qed.

Lemma get_image_from_uri_raises_witness :
  get_image_from_uri (H:=example_libraries) ∅ [] tt false "closed.png" None
  = raised (Exception "ValueError" "I/O operation on closed file.")
  /\ (∅ : gmap string (option (image (H:=example_libraries))))
       !! "closed.png"%string = None
  /\ (forall message,
        Exception "ValueError" "I/O operation on closed file."
        <> URLFetchingError message
        /\ Exception "ValueError" "I/O operation on closed file."
           <> ImageLoadingError message)
  /\ (fetch (Libraries:=example_libraries) tt "closed.png"
      = raised (Exception "ValueError" "I/O operation on closed file.")
      \/ exists result,
          fetch (Libraries:=example_libraries) tt "closed.png"
          = returned result
          /\ ((Exception "ValueError" "I/O operation on closed file."
               = KeyError "file_obj"
               /\ result !! "string"%string = None
               /\ result !! "file_obj"%string = None)
              \/ (exists file_obj,
                    result !! "string"%string = None
                    /\ result !! "file_obj"%string = Some file_obj
                    /\ read (Libraries:=example_libraries) file_obj
                       = raised (Exception "ValueError"
                                   "I/O operation on closed file."))
              \/ (Exception "ValueError" "I/O operation on closed file."
                  = KeyError "mime_type"
                  /\ result !! "mime_type"%string = None))).
Proof.
  assert (Hget :
    get_image_from_uri (H:=example_libraries) ∅ [] tt false "closed.png" None
    = raised (Exception "ValueError" "I/O operation on closed file."))
    by reflexivity.
  split; [exact Hget|].
  exact (get_image_from_uri_raises (H:=example_libraries) ∅ [] tt false
           "closed.png" None _ Hget).
Defined.

Lemma get_image_from_uri_cached_witness :
  get_image_from_uri (H:=example_libraries) ∅ [] tt false "text.txt" None
  = returned
      (None, <["text.txt"%string := None]> ∅,
       [("text.txt"%string,
         "UnidentifiedImageError: cannot identify image file"%string)])
  /\ forall log2 url_fetcher2 optimize_images2 forced_mime_type2,
       get_image_from_uri (H:=example_libraries)
         (<["text.txt"%string := None]> ∅) log2 url_fetcher2
         optimize_images2 "text.txt" forced_mime_type2
       = returned (None, <["text.txt"%string := None]> ∅, log2).
Proof.
  assert (Hget :
    get_image_from_uri (H:=example_libraries) ∅ [] tt false "text.txt" None
    = returned
        (None, <["text.txt"%string := None]> ∅,
         [("text.txt"%string,
           "UnidentifiedImageError: cannot identify image file"%string)]))
    by reflexivity.
  split; [exact Hget|].
  exact (proj2 (proj2 (get_image_from_uri_cached _ _ _ _ _ _ _ _ _ Hget))).
Defined.

(** * The invariants of the layout *)

(** ** The ends of the positions of a plan *)

(** When the first and the last resolved positions are equal, all of them
    are. *)
Lemma assigned_constant (l : list (option Q)) :
  forall (previous_i : Z) (base : Q) (gap : nat) (c : Q),
    base == c ->
    Forall (fun q => q == c) (values l) ->
    Forall (fun q => q == c) (values (assigned previous_i base gap l)).
Proof.
  induction l as [|[position|] l IH]; intros previous_i base gap c Hbase Hall;
    cbn [assigned].
  - rewrite values_replicate_None. constructor.
  - rewrite values_cons_Some in Hall. apply Forall_cons in Hall as [Hpos Hall].
    rewrite values_app, values_cons_Some, <- (map_map _ Some), values_Some.
    apply Forall_app. split.
    + apply Forall_forall. intros x Hx.
      apply list_elem_of_In, in_map_iff in Hx. destruct Hx as (j & <- & _).
      unfold Qdiv. rewrite Hpos, Hbase. ring.
    + constructor; [done|]. by apply IH.
  - rewrite values_cons_None in Hall. by apply IH.
Qed.

Lemma resolved_constant (vector_length : Q)
    (positions : list (option Dimension)) (first last_ : Q) :
  head (resolved vector_length positions) = Some first ->
  last (resolved vector_length positions) = Some last_ ->
  first == last_ ->
  Forall (fun q => q == first) (resolved vector_length positions).
Proof.
  intros Hhead Hlast Heq.
  destruct (decide (positions = [])) as [->|Hne]; [done|].
  destruct (resolved_cons vector_length positions Hne)
    as (f & l1 & _ & Hr & _ & Hl1).
  rewrite Hr in *. cbn [head] in Hhead. simplify_eq.
  constructor; [reflexivity|].
  destruct (default_last_cons_Some vector_length first
              (tail (map (fun p => percentage p vector_length) positions)))
    as (l1' & Hl1' & _ & Hends).
  rewrite <- Hl1 in Hl1'. simplify_eq.
  destruct l1' as [|y l1]; [constructor|].
  apply ends_set_snoc in Hends. destruct Hends as (pre & v & Hpre).
  rewrite Hpre in *.
  destruct (increasing_snoc pre v first) as (v' & Hinc & Hv' & _).
  pose proof (increasing_sorted (pre ++ [Some v]) first) as [Hsorted _].
  rewrite Hinc in *.
  destruct (assigned_snoc (increasing first pre) v' 0 first 0) as [l' Hl'].
  rewrite Hl', values_snoc, app_comm_cons, last_snoc in Hlast. simplify_eq.
  apply assigned_constant; [reflexivity|].
  assert (Hlast' : last (first :: values (increasing first pre ++ [Some last_]))
                   = Some last_)
    by (by rewrite values_snoc, app_comm_cons, last_snoc).
  pose proof (sorted_bounds _ first last_ Hsorted eq_refl Hlast') as Hbounds.
  apply Forall_cons in Hbounds as [_ Hbounds].
  eapply Forall_impl; [exact Hbounds|]. simpl. intros q Hq. lra.
Qed.

(** The positions normalized over a span that is not 0 start at 0 and end
    at 1. *)
Lemma normalized_ends (l : list Q) (first last_ : Q) :
  head l = Some first ->
  last l = Some last_ ->
  ~ last_ - first == 0 ->
  exists h t,
    head (map (fun pos => (pos - first) / (last_ - first)) l) = Some h
    /\ h == 0
    /\ last (map (fun pos => (pos - first) / (last_ - first)) l) = Some t
    /\ t == 1.
Proof.
  intros Hhead Hlast Hspan. rewrite head_map, last_map, Hhead, Hlast.
  eexists _, _. split; [reflexivity|]. split; [field; done|].
  split; [reflexivity|]. field. done.
Qed.

(** After the boundary stops are added, the first position is below the
    last one, whatever the resolved positions are. *)
Lemma linear_boundaries_ends (ps ps' : list Q) (cs cs' : list color)
    (f l : Q) :
  LinearGradient.boundaries ps cs = Ok (ps', cs') ->
  head ps = Some f ->
  last ps = Some l ->
  f <= l ->
  (f == l -> Forall (fun q => q == f) ps) ->
  exists f' l', head ps' = Some f' /\ last ps' = Some l' /\ f' < l'.
Proof.
  intros Hb Hhead Hlast Hfl Hconst. unfold LinearGradient.boundaries in Hb.
  apply py_index_head in Hhead as Hp0. rewrite Hp0, bind_ret in Hb.
  inv_bind Hb. rename a into p1. apply py_index_elem_of in Ha as Hp1.
  inv_bind Hb. destruct a as [ps1 cs1].
  assert (H1 : exists f1, head ps1 = Some f1 /\ last ps1 = Some l /\ f1 < l).
  { destruct (Qeq_bool_reflect f p1) as [Heq|Hne].
    - inv_bind Ha0. simplify_eq. exists (f - 1). split; [done|].
      split; [by destruct ps|lra].
    - simplify_eq. exists f. split; [done|]. split; [done|].
      destruct (Qlt_le_dec f l) as [|Hle]; [done|].
      assert (Heq : f == l) by lra.
      specialize (Hconst Heq). rewrite Forall_forall in Hconst.
      specialize (Hconst _ Hp1). by symmetry in Hconst. }
  destruct H1 as (f1 & Hf1 & Hl1 & Hlt).
  inv_bind Hb. rename a into p_2. inv_bind Hb. rename a into p_1.
  apply py_index_last_iff in Ha2. rewrite Hl1 in Ha2. simplify_eq.
  destruct (p_2 ==? p_1).
  - inv_bind Hb. simplify_eq. exists f1, (p_1 + 1).
    split; [by destruct ps1|]. split; [by rewrite last_snoc|lra].
  - simplify_eq. by exists f1, p_1.
Qed.

Lemma radial_boundaries_strict (ps ps' : list Q) (cs cs' : list color)
    (f l : Q) :
  RadialGradient.boundaries ps cs = Ok (ps', cs') ->
  head ps = Some f ->
  last ps = Some l ->
  f <= l ->
  (f == l -> Forall (fun q => q == f) ps) ->
  exists f' l', head ps' = Some f' /\ last ps' = Some l' /\ f' < l'.
Proof.
  intros Hb Hhead Hlast Hfl Hconst. unfold RadialGradient.boundaries in Hb.
  apply py_index_head in Hhead as Hp0. rewrite Hp0, bind_ret in Hb.
  inv_bind Hb. destruct a as [ps1 cs1].
  assert (Hstrict : forall q, q ∈ ps -> ~ f == q -> f < l).
  { intros q Hq Hne. destruct (Qlt_le_dec f l) as [|Hle]; [done|].
    assert (Heq : f == l) by lra.
    specialize (Hconst Heq). rewrite Forall_forall in Hconst.
    specialize (Hconst _ Hq). by symmetry in Hconst. }
  assert (H1 : exists f1, head ps1 = Some f1 /\ last ps1 = Some l
                          /\ (f1 < l \/ (ps1 = ps /\ f1 = f))).
  { destruct (Qlt_bool_reflect 0 f) as [Hpos|Hneg].
    - inv_bind Ha. rename a into p1. apply py_index_elem_of in Ha0 as Hp1.
      destruct (Qeq_bool_reflect f p1) as [Heq|Hne].
      + inv_bind Ha. simplify_eq. exists 0. split; [done|].
        split; [by destruct ps|]. left. lra.
      + simplify_eq. exists f. split; [done|]. split; [done|].
        left. by apply (Hstrict p1).
    - simplify_eq. exists f. split; [done|]. split; [done|]. by right. }
  destruct H1 as (f1 & Hf1 & Hl1 & Hcases).
  inv_bind Hb. rename a into p_2. inv_bind Hb. rename a into p_1.
  apply py_index_elem_of in Ha0 as Hp_2.
  apply py_index_last_iff in Ha1. rewrite Hl1 in Ha1. simplify_eq.
  destruct (Qeq_bool_reflect p_2 p_1) as [Heq|Hne].
  - inv_bind Hb. simplify_eq. exists f1, (p_1 + 1).
    split; [by destruct ps1|]. split; [by rewrite last_snoc|].
    destruct Hcases as [|[_ ->]]; lra.
  - simplify_eq. exists f1, p_1. split; [done|]. split; [done|].
    destruct Hcases as [|[-> ->]]; [done|].
    destruct (Qlt_le_dec f p_1) as [|Hle]; [done|].
    assert (Heq : f == p_1) by lra.
    specialize (Hconst Heq). rewrite Forall_forall in Hconst.
    specialize (Hconst _ Hp_2). rewrite Hconst in Hne. done.
Qed.

(** ** The tiled positions are ascending *)

Lemma tiles_sorted (g : Z -> Q) (positions : list Q) (a b : Z) :
  (forall i, g (i + 1)%Z == g i + 1) ->
  StronglySorted Qle positions ->
  Forall (fun p => 0 <= p <= 1) positions ->
  StronglySorted Qle
    (flat_map (fun i => map (fun position => g i + position) positions)
              (py_range a b))
  /\ Forall (fun q => g a <= q <= g a + inject_Z (b - a))
       (flat_map (fun i => map (fun position => g i + position) positions)
                 (py_range a b)).
Proof.
  intros Hg Hsorted Hunit. remember (Z.to_nat (b - a)) as n eqn:Hn.
  revert a Hn. induction n as [|n IH]; intros a Hn.
  - rewrite py_range_nil by lia. split; constructor.
  - rewrite py_range_cons by lia. cbn [flat_map].
    destruct (IH (a + 1)%Z) as [Hs Hb]; [lia|].
    assert (Hspan : inject_Z (b - (a + 1)) + 1 == inject_Z (b - a)).
    { change 1 with (inject_Z 1). rewrite <- inject_Z_plus.
      by replace (b - (a + 1) + 1)%Z with (b - a)%Z by lia. }
    assert (Hpos : 0 <= inject_Z (b - (a + 1)))
      by (rewrite <- (Zle_Qle 0); lia).
    assert (Hcopy : Forall (fun q => g a <= q <= g a + 1)
                      (map (fun position => g a + position) positions)).
    { apply Forall_forall. intros q Hq.
      apply list_elem_of_In, in_map_iff in Hq. destruct Hq as (p & <- & Hp).
      rewrite Forall_forall in Hunit.
      apply list_elem_of_In, Hunit in Hp. lra. }
    split.
    + apply StronglySorted_app_2; [| |done].
      * intros x1 x2 Hx1 Hx2. rewrite Forall_forall in Hcopy, Hb.
        specialize (Hcopy _ Hx1). specialize (Hb _ Hx2).
        rewrite Hg in Hb. lra.
      * apply (StronglySorted_fmap _ Qle Qle); [|done].
        intros x y Hxy. lra.
    + apply Forall_app. split.
      * eapply Forall_impl; [exact Hcopy|]. simpl. intros q Hq. lra.
      * eapply Forall_impl; [exact Hb|]. simpl. intros q Hq.
        rewrite Hg in Hq. lra.
Qed.

(** The positions that the loop of lines 571-598 puts before the others
    keep the list ascending.  [revhead] holds the positions already seen,
    from the last one backwards; all are above [ratio]. *)
Lemma center_scan_sorted (original_colors : list color)
    (original_positions : list Q) (full_repeat : Z) (ratio p_1 : Q)
    (points positions : list Q) (colors : list color)
    (points' positions' : list Q) (colors' : list color)
    (revtail : list Q) :
  forall revhead : list Q,
    original_positions = rev revtail ++ rev revhead ->
    StronglySorted Qle original_positions ->
    last original_positions = Some p_1 ->
    p_1 == 1 ->
    ratio < 1 ->
    Forall (fun q => ratio < q) revhead ->
    StronglySorted Qle positions ->
    Forall (fun q => - inject_Z full_repeat <= q) positions ->
    RadialGradient.center_scan original_colors original_positions full_repeat
      ratio points positions colors
      (py_enumerate (Z.of_nat (S (length revhead))) revtail)
    = Ok (points', positions', colors') ->
    StronglySorted Qle positions'.
Proof.
  induction revtail as [|position revtail IH];
    intros revhead Horiginal Hsorted Hlast Hp_1 Hratio Hseen Hs Hlow Hscan;
    [done|].
  rewrite py_enumerate_cons in Hscan.
  cbn [RadialGradient.center_scan] in Hscan.
  cbn [rev] in Horiginal. rewrite <- app_assoc in Horiginal.
  cbn [app] in Horiginal.
  assert (Hlen : length original_positions
                 = (length revtail + S (length revhead))%nat).
  { rewrite Horiginal, length_app. cbn [length].
    by rewrite !length_rev. }
  assert (Hsuffix : StronglySorted Qle (position :: rev revhead)).
  { rewrite Horiginal in Hsorted.
    by apply StronglySorted_app_1_r in Hsorted. }
  assert (Hle1 : Forall (fun q => q <= 1) (position :: rev revhead)).
  { assert (Hlast' : last (position :: rev revhead) = Some p_1).
    { rewrite Horiginal in Hlast.
      destruct (exists_last (l:=position :: rev revhead)) as (pre & y & Hy);
        [done|].
      rewrite Hy in Hlast |- *.
      by rewrite app_assoc, last_snoc in Hlast; rewrite last_snoc. }
    pose proof (sorted_bounds _ position p_1 Hsuffix eq_refl Hlast') as Hb.
    eapply Forall_impl; [exact Hb|]. simpl. intros q Hq. lra. }
  assert (Hdrop : drop (length revtail) original_positions
                  = position :: rev revhead).
  { rewrite Horiginal, <- (length_rev revtail). by rewrite drop_app_length. }
  destruct (Qeq_bool_reflect position ratio) as [Heq|Hneq].
  { injection Hscan as _ <- _. unfold py_slice_from.
    rewrite py_bound_neg by lia. rewrite Hlen.
    replace (length revtail + S (length revhead)
             - Z.to_nat (Z.of_nat (S (length revhead))))%nat
      with (length revtail) by lia.
    rewrite Hdrop.
    apply StronglySorted_app_2.
    - intros x1 x2 Hx1 Hx2. apply list_elem_of_In, in_map_iff in Hx1.
      destruct Hx1 as (p & <- & Hp).
      rewrite Forall_forall in Hle1, Hlow.
      apply list_elem_of_In, Hle1 in Hp. specialize (Hlow _ Hx2). lra.
    - apply (StronglySorted_fmap _ Qle Qle); [|done].
      intros x y Hxy. lra.
    - done. }
  destruct (Qlt_bool_reflect position ratio) as [Hlt|Hge].
  - inv_bind Hscan. inv_bind Hscan. inv_bind Hscan. inv_bind Hscan.
    injection Hscan as _ <- _.
    destruct revhead as [|seen revhead].
    { rewrite Horiginal in Hlast. cbn [rev] in Hlast.
      rewrite last_snoc in Hlast. injection Hlast as ->. lra. }
    unfold py_slice_from.
    replace (- (Z.of_nat (S (length (seen :: revhead))) - 1))%Z
      with (- Z.of_nat (length (seen :: revhead)))%Z by lia.
    rewrite py_bound_neg by (cbn [length] in *; lia). rewrite Hlen.
    replace (length revtail + S (length (seen :: revhead))
             - Z.to_nat (Z.of_nat (length (seen :: revhead))))%nat
      with (S (length revtail)) by lia.
    assert (Hdrop' : drop (S (length revtail)) original_positions
                     = rev (seen :: revhead)).
    { replace (S (length revtail)) with (length revtail + 1)%nat by lia.
      by rewrite <- drop_drop, Hdrop. }
    rewrite Hdrop'.
    apply StronglySorted_inv in Hsuffix as [Hsuffix _].
    apply Forall_cons in Hle1 as [_ Hle1].
    assert (Hseen' : Forall (fun q => ratio < q) (rev (seen :: revhead))).
    { apply Forall_forall. intros q Hq. rewrite Forall_forall in Hseen.
      apply Hseen. apply list_elem_of_In. apply list_elem_of_In in Hq.
      by apply in_rev. }
    cbn [app]. constructor.
    + apply StronglySorted_app_2.
      * intros x1 x2 Hx1 Hx2. apply list_elem_of_In, in_map_iff in Hx1.
        destruct Hx1 as (p & <- & Hp).
        rewrite Forall_forall in Hle1, Hlow.
        apply list_elem_of_In, Hle1 in Hp. specialize (Hlow _ Hx2). lra.
      * apply (StronglySorted_fmap _ Qle Qle); [|done].
        intros x y Hxy. lra.
      * done.
    + apply Forall_app. split.
      * apply Forall_forall. intros x Hx.
        apply list_elem_of_In, in_map_iff in Hx.
        destruct Hx as (p & <- & Hp).
        rewrite Forall_forall in Hseen'.
        apply list_elem_of_In, Hseen' in Hp. lra.
      * eapply Forall_impl; [exact Hlow|]. simpl. intros q Hq. lra.
  - apply (IH (revhead ++ [position])); try done.
    + rewrite rev_app_distr. done.
    + apply Forall_app. split; [done|]. repeat constructor. lra.
    + rewrite length_app. cbn [length].
      replace (Z.of_nat (S (length revhead + 1)))
        with (Z.of_nat (S (length revhead)) + 1)%Z by lia.
      done.
Qed.

(** Tiling keeps the positions ascending. *)
Lemma repeat_sorted `{Math} (width height s cx cy first last_ : Q)
    (positions : list Q) (colors : list color) (p0 p_1 : Q)
    (points' positions' : list Q) (colors' : list color) :
  0 <= first -> first < last_ -> ~ s == 0 ->
  head positions = Some p0 -> p0 == 0 ->
  last positions = Some p_1 -> p_1 == 1 ->
  StronglySorted Qle positions ->
  RadialGradient._repeat width height s [cx; cy; first; cx; cy; last_]
    positions colors
  = Ok (points', positions', colors') ->
  StronglySorted Qle positions'.
Proof.
  intros Hfirst Hlt Hs Hhead Hp0 Hlast Hp_1 Hsorted Hrepeat.
  assert (Hunit : Forall (fun p => 0 <= p <= 1) positions).
  { pose proof (sorted_bounds _ p0 p_1 Hsorted Hhead Hlast) as Hb.
    eapply Forall_impl; [exact Hb|]. simpl. intros q Hq. lra. }
  destruct (max_distance_Ok width height s _ cx cy first last_ cx cy Hs eq_refl)
    as [md Hmd].
  unfold RadialGradient._repeat in Hrepeat. rewrite Hmd in Hrepeat.
  change (py_index [cx; cy; first; cx; cy; last_] 5) with (Ok last_)
    in Hrepeat.
  change (py_index [cx; cy; first; cx; cy; last_] 2) with (Ok first)
    in Hrepeat.
  rewrite !bind_ret in Hrepeat.
  assert (Hgl : ~ last_ - first == 0) by lra.
  rewrite (py_div_nonzero _ _ Hgl), bind_ret in Hrepeat.
  set (gl := last_ - first) in *.
  assert (Hglpos : 0 < gl) by (unfold gl; lra).
  set (ra := py_ceil ((md - last_) / gl)) in *.
  (* the outward repeats *)
  assert (Hout : exists r5 positions1 colors1,
    (if (0 <? ra)%Z
     then (py_slice_to [cx; cy; first; cx; cy; last_] 5
             ++ [last_ + gl * inject_Z ra],
           flat_map (fun i => map (fun position => inject_Z i + position)
                                  positions) (py_range 0 (1 + ra)),
           py_repeat_list colors (1 + ra))
     else ([cx; cy; first; cx; cy; last_], positions, colors))
    = ([cx; cy; first; cx; cy; r5], positions1, colors1)
    /\ StronglySorted Qle positions1
    /\ Forall (fun q => 0 <= q) positions1).
  { destruct (Z.ltb_spec 0 ra) as [Hra|Hra].
    - eexists _, _, _. split; [reflexivity|].
      destruct (tiles_sorted inject_Z positions 0 (1 + ra)) as [Hs1 Hb1];
        try done.
      { intros i. rewrite inject_Z_plus. reflexivity. }
      split; [done|]. eapply Forall_impl; [exact Hb1|].
      simpl. intros q Hq. change (inject_Z 0) with 0 in Hq. lra.
    - eexists _, _, _. split; [reflexivity|]. split; [done|].
      eapply Forall_impl; [exact Hunit|]. simpl. intros q Hq. lra. }
  destruct Hout as (r5 & positions1 & colors1 & Hout & Hs1 & Hb1).
  rewrite Hout in Hrepeat. clear Hout.
  change (py_index [cx; cy; first; cx; cy; r5] 2) with (Ok first) in Hrepeat.
  rewrite bind_ret in Hrepeat.
  destruct (Qeq_bool_reflect first 0) as [Hzero|Hnz].
  { by injection Hrepeat as _ <- _. }
  rewrite (py_div_nonzero _ _ Hgl), bind_ret in Hrepeat.
  set (rb := first / gl) in *.
  assert (Hrb : 0 <= rb).
  { unfold rb. apply Qle_shift_div_l; lra. }
  pose proof (py_int_nonneg rb Hrb) as Hint.
  set (fr := py_int rb) in *.
  assert (Hfr : (0 <= fr)%Z).
  { assert (Hlt1 : inject_Z (-1) < inject_Z fr)
      by (change (inject_Z (-1)) with (-1); lra).
    rewrite <- Zlt_Qlt in Hlt1. lia. }
  assert (Hfr' : 0 <= inject_Z fr) by (by rewrite <- (Zle_Qle 0)).
  (* the whole inward repeats *)
  assert (Hin : exists positions2 colors2,
    (if negb (fr =? 0)%Z
     then (flat_map (fun i => map (fun position =>
                                     inject_Z (i - fr) + position)
                                  positions) (py_range 0 fr) ++ positions1,
           colors1 ++ py_repeat_list colors fr)
     else (positions1, colors1))
    = (positions2, colors2)
    /\ StronglySorted Qle positions2
    /\ Forall (fun q => - inject_Z fr <= q) positions2).
  { destruct (Z.eqb_spec fr 0) as [Hz|Hnz']; cbn [negb].
    - eexists _, _. split; [reflexivity|]. split; [done|].
      eapply Forall_impl; [exact Hb1|]. simpl. intros q Hq. lra.
    - eexists _, _. split; [reflexivity|].
      destruct (tiles_sorted (fun i => inject_Z (i - fr)) positions 0 fr)
        as [Hs2 Hb2]; try done.
      { intros i. replace (i + 1 - fr)%Z with (i - fr + 1)%Z by lia.
        rewrite inject_Z_plus. reflexivity. }
      cbn beta in Hb2.
      assert (Hg0 : inject_Z (0 - fr) == - inject_Z fr).
      { change (0 - fr)%Z with (- fr)%Z. by rewrite inject_Z_opp. }
      assert (Hspan : inject_Z (fr - 0) == inject_Z fr)
        by (by rewrite Z.sub_0_r).
      split.
      + apply StronglySorted_app_2; [|done|done].
        intros x1 x2 Hx1 Hx2. rewrite Forall_forall in Hb2, Hb1.
        specialize (Hb2 _ Hx1). specialize (Hb1 _ Hx2).
        rewrite Hg0, Hspan in Hb2. lra.
      + apply Forall_app. split.
        * eapply Forall_impl; [exact Hb2|]. simpl. intros q Hq.
          rewrite Hg0 in Hq. lra.
        * eapply Forall_impl; [exact Hb1|]. simpl. intros q Hq. lra. }
  destruct Hin as (positions2 & colors2 & Hin & Hs2 & Hb2).
  rewrite Hin in Hrepeat. clear Hin.
  destruct (Qeq_bool_reflect (rb - inject_Z fr) 0) as [Hpartial|Hpartial].
  { by injection Hrepeat as _ <- _. }
  inv_bind Hrepeat. inv_bind Hrepeat. inv_bind Hrepeat. inv_bind Hrepeat.
  apply (center_scan_sorted _ _ _ _ p_1 _ _ _ _ _ _ (rev positions) [])
    in Hrepeat; try done.
  - cbn [rev]. by rewrite rev_involutive, app_nil_r.
  - lra.
Qed.

(** ** The vertical scale *)

(** The vertical scale is positive unless the two explicit radii have
    opposite signs. *)
Lemma resolved_scale_positive `{Math} (self : RadialGradient.t)
    (width height sx sy : Q) :
  (forall a b, 0 <= hypot a b) ->
  0 <= sqrt 2 ->
  (forall rx ry, RadialGradient.size self = RadialGradient.explicit rx ry ->
                 0 <= percentage_of rx width * percentage_of ry height) ->
  RadialGradient.resolved_size self width height = (sx, sy) ->
  0 < sy / sx.
Proof.
  intros Hhypot Hsqrt Hexplicit Hsize.
  destruct (RadialGradient.size self) as [name|rx ry] eqn:Hs.
  { apply (resolved_size_positive self width height); try done.
    intros rx ry Hrx. by rewrite Hs in Hrx. }
  specialize (Hexplicit rx ry eq_refl).
  unfold RadialGradient.resolved_size in Hsize.
  destruct (RadialGradient.resolved_center _ _ _) as [center_x center_y].
  unfold RadialGradient._resolve_size in Hsize. rewrite Hs in Hsize.
  set (a := percentage_of rx width) in *.
  set (b := percentage_of ry height) in *. clearbody a b.
  unfold RadialGradient._handle_degenerate in Hsize.
  destruct (Qeq_bool_reflect a b) as [Hab|Hab];
    destruct (Qeq_bool_reflect b 0) as [Hb|Hb];
    destruct (Qeq_bool_reflect a 0) as [Ha|Ha]; cbn [andb] in Hsize;
    try (exfalso; lra); injection Hsize as <- <-; try (by vm_compute).
  - destruct (Qlt_le_dec 0 a) as [Hpos|Hneg].
    + apply Qlt_shift_div_l; [done|]. nra.
    + assert (Heq : b / a == (- b) / (- a)) by (field; done).
      rewrite Heq. apply Qlt_shift_div_l; [lra|]. nra.
  - destruct (Qlt_le_dec 0 a) as [Hpos|Hneg].
    + apply Qlt_shift_div_l; [done|]. nra.
    + assert (Heq : b / a == (- b) / (- a)) by (field; done).
      rewrite Heq. apply Qlt_shift_div_l; [lra|]. nra.
Qed.

(** ** What [circles] returns: ends and order of the positions *)

Lemma positive_realm_repeating_sorted (self : RadialGradient.t)
    (positions positions' : list Q) (colors colors' : list color) :
  RadialGradient.repeating self = true ->
  RadialGradient.positive_realm self positions colors
  = Ok (inr (positions', colors')) ->
  StronglySorted Qle positions ->
  StronglySorted Qle positions'.
Proof.
  intros Hrep. unfold RadialGradient.positive_realm. rewrite Hrep.
  intros Hr Hsorted. inv_bind Hr. destruct (a <? 0).
  - inv_bind Hr. unfold RadialGradient.shift in Ha0.
    inv_bind Ha0. inv_bind Ha0. inv_bind Ha0. simplify_eq.
    apply (StronglySorted_fmap _ Qle Qle); [|done].
    intros x y Hxy. lra.
  - by simplify_eq.
Qed.

Lemma circles_repeating_sorted `{Math}
    (color_stops : list (color * option Dimension)) (shape : string)
    (size : RadialGradient.size_t)
    (center : string * Dimension * string * Dimension)
    (self : RadialGradient.t) (width height s : Q)
    (points normalized ps : list Q) (cs : list color) :
  RadialGradient.__init__ color_stops shape size center true = Ok self ->
  RadialGradient.circles self width height
  = Ok (inr (s, points, normalized, cs)) ->
  process_color_stops (fst (RadialGradient.resolved_size self width height))
    (RadialGradient.stop_positions self) = Ok ps ->
  StronglySorted Qle ps ->
  StronglySorted Qle normalized.
Proof.
  intros Hinit Hc Hps Hsorted.
  apply RadialGradient_init_Ok in Hinit as [Hne ->].
  unfold RadialGradient.circles in Hc.
  cbn [RadialGradient.colors RadialGradient.stop_positions
       RadialGradient.repeating] in Hc, Hps.
  rewrite length_map in Hc.
  destruct (Nat.eqb_spec (length color_stops) 1) as [|Hlen];
    [by inv_bind Hc|].
  destruct (RadialGradient.resolved_center _ _ _) as [center_x center_y].
  destruct (RadialGradient.resolved_size _ _ _) as [size_x size_y] eqn:Hsize.
  cbn [fst] in Hps.
  apply resolved_size_nonzero in Hsize as [Hsx Hsy].
  rewrite (py_div_nonzero size_y size_x Hsx), bind_ret in Hc.
  rewrite Hps, bind_ret in Hc.
  apply process_color_stops_Ok in Hps as (Hne' & -> & Hlp).
  cbn [negb] in Hc. rewrite bind_ret in Hc. inv_bind Hc.
  destruct a as [solid|[positions' colors']]; [done|].
  destruct (resolved_first_last size_x (map snd color_stops) Hne')
    as (f0 & l0 & Hf0 & Hl0 & Hfl).
  apply positive_realm_repeating_sorted in Ha as Hsorted'; [|done|done].
  apply (positive_realm_repeating_spec _ _ _ _ _ f0 l0) in Ha; try done.
  destruct Ha as (f1 & l1 & Hf1 & Hl1 & Hpos & Hspan & -> & Hlen').
  rewrite (normalize_stop_positions_spec _ f1 l1 Hf1 Hl1), bind_ret in Hc.
  destruct (Qeq_bool_reflect f1 l1) as [|Hne1]; cbn [andb] in Hc;
    [by inv_bind Hc|].
  inv_bind Hc.
  destruct (Qeq_bool_reflect (l1 - f1) 0) as [|Hspan1]; [lra|].
  injection Hc as _ _ <- _.
  assert (Hlt : f1 < l1) by lra.
  by destruct (normalized_unit_interval _ f1 l1 Hsorted' Hf1 Hl1 Hlt).
Qed.

Lemma circles_ends `{Math}
    (color_stops : list (color * option Dimension)) (shape : string)
    (size : RadialGradient.size_t)
    (center : string * Dimension * string * Dimension)
    (self : RadialGradient.t) (width height s : Q)
    (points normalized : list Q) (cs : list color) :
  RadialGradient.__init__ color_stops shape size center false = Ok self ->
  RadialGradient.circles self width height
  = Ok (inr (s, points, normalized, cs)) ->
  exists h t,
    head normalized = Some h /\ h == 0
    /\ last normalized = Some t /\ t == 1.
Proof.
  intros Hinit Hc. apply RadialGradient_init_Ok in Hinit as [Hne ->].
  unfold RadialGradient.circles in Hc.
  cbn [RadialGradient.colors RadialGradient.stop_positions
       RadialGradient.repeating] in Hc.
  rewrite length_map in Hc.
  destruct (Nat.eqb_spec (length color_stops) 1) as [|Hlen];
    [by inv_bind Hc|].
  destruct (RadialGradient.resolved_center _ _ _) as [center_x center_y].
  destruct (RadialGradient.resolved_size _ _ _) as [size_x size_y] eqn:Hsize.
  inv_bind Hc. rename a into scale. inv_bind Hc. rename a into ps.
  match goal with
  | Hp : process_color_stops _ _ = Ok _ |- _ =>
      apply process_color_stops_Ok in Hp as (Hne' & -> & Hlp)
  end.
  rewrite length_map in Hlp.
  cbn [negb] in Hc. inv_bind Hc. destruct a as [ps1 cs1].
  inv_bind Hc. destruct a as [solid|[ps2 cs2]]; [done|].
  inv_bind Hc. destruct a as [[first last_] normalized'].
  rewrite andb_false_r in Hc. inv_bind Hc. injection Hc as _ _ <- _.
  match goal with
  | Hn : normalize_stop_positions _ = Ok _ |- _ =>
      apply normalize_stop_positions_Ok in Hn as (Hhead & Hlast & Hln & ->)
  end.
  destruct (resolved_first_last size_x (map snd color_stops) Hne')
    as (f0 & l0 & Hf0 & Hl0 & Hfl).
  match goal with
  | Hb : RadialGradient.boundaries _ _ = Ok _ |- _ =>
      destruct (radial_boundaries_strict _ _ _ _ f0 l0 Hb Hf0 Hl0 Hfl)
        as (f1 & l1 & Hf1 & Hl1 & Hlt1);
      [intros Heq; by apply resolved_constant with l0|];
      apply radial_boundaries_spec in Hb as (Hlen1 & Hn1 & _);
      [|by rewrite length_map]
  end.
  match goal with
  | Hr : RadialGradient.positive_realm _ _ _ = Ok _ |- _ =>
      eapply positive_realm_clip_spec in Hr
        as (_ & _ & (f' & t' & Hf' & Ht' & Hft) & _);
      [|done|done|done|exact Hf1|exact Hl1]
  end.
  specialize (Hft Hlt1). simplify_eq.
  destruct (Qeq_bool_reflect (last_ - first) 0) as [|Hspan]; [lra|].
  by apply normalized_ends.
Qed.

(** ** The positions kept by a radial gradient that does not repeat *)

Lemma from_zero_drop (l : list Q) (i : nat) (position : Q) :
  l !! i = Some position ->
  0 <= position ->
  (forall j q, (j < i)%nat -> l !! j = Some q -> q < 0) ->
  from_zero l = drop i l.
Proof.
  revert i. induction l as [|q l IH]; intros i Hi Hpos Hbefore; [done|].
  destruct i as [|i]; cbn [from_zero].
  - cbn in Hi. simplify_eq.
    by destruct (Qlt_bool_reflect position 0) as [|_]; [lra|].
  - destruct (Qlt_bool_reflect q 0) as [_|Hq].
    + apply IH; [done|done|].
      intros j q' Hj Hq'. apply (Hbefore (S j)); [lia|done].
    + exfalso. apply Hq. apply (Hbefore 0%nat); [lia|done].
Qed.

Lemma from_zero_head (l : list Q) (f : Q) :
  head l = Some f -> 0 <= f -> from_zero l = l.
Proof.
  destruct l as [|q l]; [done|]. cbn [head from_zero]. intros [= ->] Hf.
  by destruct (Qlt_bool_reflect f 0) as [|_]; [lra|].
Qed.

Lemma from_zero_snoc (l : list Q) (p_1 : Q) :
  last l = Some p_1 ->
  StronglySorted Qle (from_zero l) ->
  StronglySorted Qle (from_zero (l ++ [p_1 + 1])).
Proof.
  induction l as [|q l IH]; intros Hlast Hsorted; [done|].
  cbn [app from_zero] in *. destruct (Qlt_bool_reflect q 0) as [Hq|Hq].
  - destruct l as [|q' l].
    + cbn [app from_zero]. destruct (_ <? 0); repeat constructor.
    + apply IH; [|done]. by rewrite last_cons_cons in Hlast.
  - change (q :: l ++ [p_1 + 1]) with ((q :: l) ++ [p_1 + 1]).
    pose proof (sorted_bounds _ q p_1 Hsorted eq_refl Hlast) as Hb.
    apply StronglySorted_app_2; [|done|repeat constructor].
    intros x1 x2 Hx1 Hx2. apply list_elem_of_singleton in Hx2. subst.
    rewrite Forall_forall in Hb. specialize (Hb _ Hx1). lra.
Qed.

Lemma radial_boundaries_from_zero (ps ps' : list Q) (cs cs' : list color) :
  RadialGradient.boundaries ps cs = Ok (ps', cs') ->
  StronglySorted Qle (from_zero ps) ->
  StronglySorted Qle (from_zero ps').
Proof.
  intros Hb Hsorted. unfold RadialGradient.boundaries in Hb.
  inv_bind Hb. rename a into p0. apply py_index_head in Ha as Hhead.
  inv_bind Hb. destruct a as [ps1 cs1].
  assert (H1 : StronglySorted Qle (from_zero ps1)).
  { destruct (Qlt_bool_reflect 0 p0) as [Hpos|Hneg]; [|by simplify_eq].
    inv_bind Ha0. rename a into p1.
    destruct (Qeq_bool_reflect p0 p1); [|by simplify_eq].
    inv_bind Ha0. simplify_eq.
    rewrite (from_zero_head ps p0) in Hsorted by (done || lra).
    cbn [from_zero]. change (0 <? 0) with false.
    constructor; [done|].
    destruct ps as [|x ps]; [done|]. cbn [head] in Hhead. simplify_eq.
    apply StronglySorted_inv in Hsorted as [_ Hall].
    constructor; [lra|]. eapply Forall_impl; [exact Hall|].
    simpl. intros; lra. }
  inv_bind Hb. rename a into p_2. inv_bind Hb. rename a into p_1.
  match goal with
  | Hl : py_index ps1 (-1) = Ok p_1 |- _ => apply py_index_last_iff in Hl
  end.
  destruct (p_2 ==? p_1).
  - inv_bind Hb. simplify_eq. by apply from_zero_snoc.
  - by simplify_eq.
Qed.

Lemma positive_realm_clip_from_zero (self : RadialGradient.t)
    (ps ps' : list Q) (cs cs' : list color) (f t : Q) :
  RadialGradient.repeating self = false ->
  RadialGradient.positive_realm self ps cs = Ok (inr (ps', cs')) ->
  length cs = length ps ->
  head ps = Some f ->
  last ps = Some t ->
  StronglySorted Qle (from_zero ps) ->
  StronglySorted Qle ps'.
Proof.
  intros Hrep Hrealm Hlen Hhead Hlast Hsorted.
  unfold RadialGradient.positive_realm in Hrealm.
  apply py_index_head in Hhead as Hp0.
  apply py_index_last_iff in Hlast as Hp_1.
  rewrite Hp0, bind_ret, Hrep in Hrealm.
  destruct (Qlt_bool_reflect f 0) as [Hneg|Hnonneg].
  2:{ simplify_eq. rewrite (from_zero_head ps' f) in Hsorted; [done..|lra]. }
  rewrite Hp_1, bind_ret in Hrealm.
  destruct (Qle_bool_reflect t 0) as [|Hpos]; [by inv_bind Hrealm|].
  destruct ps as [|p ps]; [done|]. cbn [head] in Hhead. simplify_eq.
  rewrite py_enumerate_cons in Hrealm.
  cbn [RadialGradient.keep_from_zero] in Hrealm.
  destruct (Qeq_bool_reflect f 0) as [|_]; [lra|].
  destruct (Qlt_bool_reflect 0 f) as [|_]; [lra|].
  destruct (keep_from_zero_spec cs (f :: ps) [f] ps)
    as (i & position & colors' & positions' & Hk & Hi & Hbefore & Hnonneg
        & Hrange & Hcases); try done.
  { repeat constructor. done. }
  { destruct (decide (ps = [])) as [->|Hps]; [simplify_eq/=; lra|].
    destruct (exists_last Hps) as (pre & y & ->).
    rewrite app_comm_cons, last_snoc in Hlast. simplify_eq.
    apply Exists_app. right. constructor. lra. }
  change (Z.of_nat (length [f])) with (0 + 1)%Z in Hk.
  rewrite Hk, bind_ret in Hrealm. simplify_eq.
  rewrite (from_zero_drop _ i position Hi Hnonneg Hbefore) in Hsorted.
  destruct Hcases as [(Hz & -> & ->)|(Hz & pc & c_ & pp & c & _ & _ & _
                                      & _ & -> & ->)]; [done|].
  constructor; [done|].
  rewrite (drop_S _ _ _ Hi) in Hsorted |- *.
  apply StronglySorted_inv in Hsorted as [_ Hall].
  constructor; [lra|]. eapply Forall_impl; [exact Hall|].
  simpl. intros; lra.
Qed.

Lemma from_zero_sorted (l : list Q) :
  StronglySorted Qle l -> StronglySorted Qle (from_zero l).
Proof.
  induction 1 as [|q l Hsorted IH Hall]; [constructor|].
  cbn [from_zero]. destruct (q <? 0); [done|]. by constructor.
Qed.

(** The normalized positions of a radial gradient that does not repeat are
    ascending from 0 to 1 when the resolved positions are non-decreasing
    from the first one that is not negative on. *)
Lemma circles_unit_interval `{Math}
    (color_stops : list (color * option Dimension)) (shape : string)
    (size : RadialGradient.size_t)
    (center : string * Dimension * string * Dimension)
    (self : RadialGradient.t) (width height s : Q)
    (points normalized ps : list Q) (cs : list color) :
  RadialGradient.__init__ color_stops shape size center false = Ok self ->
  RadialGradient.circles self width height
  = Ok (inr (s, points, normalized, cs)) ->
  process_color_stops (fst (RadialGradient.resolved_size self width height))
    (RadialGradient.stop_positions self) = Ok ps ->
  StronglySorted Qle (from_zero ps) ->
  unit_interval normalized.
Proof.
  intros Hinit Hc Hps Hsorted.
  apply RadialGradient_init_Ok in Hinit as [Hne ->].
  unfold RadialGradient.circles in Hc.
  cbn [RadialGradient.colors RadialGradient.stop_positions
       RadialGradient.repeating] in Hc, Hps.
  rewrite length_map in Hc.
  destruct (Nat.eqb_spec (length color_stops) 1) as [|Hlen];
    [by inv_bind Hc|].
  destruct (RadialGradient.resolved_center _ _ _) as [center_x center_y].
  destruct (RadialGradient.resolved_size _ _ _) as [size_x size_y] eqn:Hsize.
  cbn [fst] in Hps.
  inv_bind Hc. rename a into scale. rewrite Hps, bind_ret in Hc.
  apply process_color_stops_Ok in Hps as (Hne' & -> & Hlp).
  rewrite length_map in Hlp.
  cbn [negb] in Hc. inv_bind Hc. destruct a as [ps1 cs1].
  inv_bind Hc. destruct a as [solid|[ps2 cs2]]; [done|].
  inv_bind Hc. destruct a as [[first last_] normalized'].
  rewrite andb_false_r in Hc. inv_bind Hc. injection Hc as _ _ <- _.
  match goal with
  | Hn : normalize_stop_positions _ = Ok _ |- _ =>
      apply normalize_stop_positions_Ok in Hn as (Hhead & Hlast & Hln & ->)
  end.
  destruct (resolved_first_last size_x (map snd color_stops) Hne')
    as (f0 & l0 & Hf0 & Hl0 & Hfl).
  match goal with
  | Hb : RadialGradient.boundaries _ _ = Ok _ |- _ =>
      destruct (radial_boundaries_strict _ _ _ _ f0 l0 Hb Hf0 Hl0 Hfl)
        as (f1 & l1 & Hf1 & Hl1 & Hlt1);
      [intros Heq; by apply resolved_constant with l0|];
      pose proof (radial_boundaries_from_zero _ _ _ _ Hb Hsorted) as Hs1;
      apply radial_boundaries_spec in Hb as (Hlen1 & Hn1 & _);
      [|by rewrite length_map]
  end.
  match goal with
  | Hr : RadialGradient.positive_realm _ _ _ = Ok _ |- _ =>
      pose proof Hr as Hs2;
      eapply positive_realm_clip_from_zero in Hs2;
      [|done|exact Hlen1|exact Hf1|exact Hl1|exact Hs1];
      eapply positive_realm_clip_spec in Hr
        as (_ & _ & (f' & t' & Hf' & Ht' & Hft) & _);
      [|done|done|done|exact Hf1|exact Hl1]
  end.
  specialize (Hft Hlt1). simplify_eq.
  destruct (Qeq_bool_reflect (last_ - first) 0) as [|Hspan]; [lra|].
  by apply normalized_unit_interval.
Qed.

(** ** Invariants of the layout *)

(** C1, as amended: every layout that is not solid has as many positions
    as colors, at least two, and a positive [scale_y] (for a radial
    gradient, unless the two explicit radii have opposite signs; [hypot]
    and [sqrt] are assumed not to return negative numbers).  The positions
    of a linear plan, and of a radial plan that does not repeat, start at
    exactly 0 and end at exactly 1.  Those of a repeating radial plan start
    at [- r0 / (r1 - r0)] and end at 1 plus the number of periods added
    outward, [max 0 (ceil ((max_distance - r1) / (r1 - r0)))], for the
    radii [0 <= r0 < r1] of the period: at 0 or below, and at 1 or above.
    Whenever the positions returned by [process_color_stops] are
    non-decreasing (for a radial plan that does not repeat: from the first
    one that is not negative on, the earlier ones being clipped), the
    positions of the plan are ascending, and those of a linear or
    non-repeating radial plan lie in [[0, 1]]. *)
Theorem layout_invariants `{Math} (width height : Q) :
  (forall a b, 0 <= hypot a b) ->
  0 <= sqrt 2 ->
  (forall color_stops direction repeating self plan,
      LinearGradient.__init__ color_stops direction repeating = Ok self ->
      LinearGradient.layout self width height = Ok plan ->
      type_ plan <> "solid" ->
      length (positions plan) = length (colors plan)
      /\ (2 <= length (positions plan))%nat
      /\ 0 < scale_y plan
      /\ (exists first last_,
             head (positions plan) = Some first /\ first == 0
             /\ last (positions plan) = Some last_ /\ last_ == 1)
      /\ exists dx dy resolved_positions,
          LinearGradient.unit_vector self width height = Ok (dx, dy)
          /\ process_color_stops (Qabs (width * dx) + Qabs (height * dy))
               (LinearGradient.stop_positions self) = Ok resolved_positions
          /\ (StronglySorted Qle resolved_positions ->
              unit_interval (positions plan)))
  /\ (forall color_stops shape size center repeating self plan,
         RadialGradient.__init__ color_stops shape size center repeating
         = Ok self ->
         RadialGradient.layout self width height = Ok plan ->
         type_ plan <> "solid" ->
         length (positions plan) = length (colors plan)
         /\ (2 <= length (positions plan))%nat
         /\ ((forall rx ry, size = RadialGradient.explicit rx ry ->
                            0 <= percentage_of rx width
                                 * percentage_of ry height) ->
             0 < scale_y plan)
         /\ (exists first last_,
                head (positions plan) = Some first
                /\ last (positions plan) = Some last_
                /\ if repeating
                   then
                     first <= 0 /\ 1 <= last_
                     /\ exists s period_points period_positions
                               period_colors r0 r1 max_distance,
                         RadialGradient.circles self width height
                         = Ok (inr (s, period_points, period_positions,
                                    period_colors))
                         /\ py_index period_points 2 = Ok r0
                         /\ py_index period_points 5 = Ok r1
                         /\ RadialGradient.max_distance width height s
                              period_points = Ok max_distance
                         /\ 0 <= r0 < r1
                         /\ first * (r1 - r0) == - r0
                         /\ last_
                            == 1 + inject_Z
                                     (Z.max 0
                                        (py_ceil ((max_distance - r1)
                                                  / (r1 - r0))))
                   else first == 0 /\ last_ == 1)
         /\ exists resolved_positions,
             process_color_stops
               (fst (RadialGradient.resolved_size self width height))
               (RadialGradient.stop_positions self) = Ok resolved_positions
             /\ (StronglySorted Qle
                   (if repeating then resolved_positions
                    else from_zero resolved_positions) ->
                 StronglySorted Qle (positions plan)
                 /\ (repeating = false -> unit_interval (positions plan)))).
Proof.
  intros Hhypot Hsqrt. split.
  - intros color_stops direction repeating self plan Hinit Hlayout Htype.
    apply LinearGradient_init_Ok in Hinit as [Hne ->].
    unfold LinearGradient.layout in Hlayout.
    cbn [LinearGradient.colors LinearGradient.stop_positions
         LinearGradient.repeating] in *.
    rewrite length_map in Hlayout.
    destruct (Nat.eqb_spec (length color_stops) 1) as [|Hlen].
    { inv_bind Hlayout. by simplify_eq. }
    assert (Hn : (2 <= length color_stops)%nat)
      by (destruct color_stops as [|? [|? ?]]; simpl in *; try done; lia).
    inv_bind Hlayout. destruct a as [dx dy].
    inv_bind Hlayout. rename a into ps.
    set (vector_length := Qabs (width * dx) + Qabs (height * dy)) in *.
    match goal with
    | Hp : process_color_stops _ _ = Ok ps |- _ =>
        pose proof Hp as Hps;
        apply process_color_stops_Ok in Hp as (Hne' & Hres & Hlp)
    end.
    rewrite length_map in Hlp.
    destruct (resolved_first_last vector_length (map snd color_stops) Hne')
      as (f0 & l0 & Hf0 & Hl0 & Hfl).
    assert (Hconst : f0 == l0 -> Forall (fun q => q == f0) ps).
    { intros Heq. rewrite Hres. by apply resolved_constant with l0. }
    rewrite <- Hres in Hf0, Hl0.
    inv_bind Hlayout. destruct a as [ps1 cs1].
    inv_bind Hlayout. destruct a as [[first last_] normalized].
    match goal with
    | Hnorm : normalize_stop_positions _ = Ok _ |- _ =>
        apply normalize_stop_positions_Ok in Hnorm
          as (Hhead & Hlast & Hln & Hnorm)
    end.
    assert (H1 : length cs1 = length ps1 /\ (2 <= length ps1)%nat
                 /\ (repeating = false -> first < last_)
                 /\ (StronglySorted Qle ps -> StronglySorted Qle ps1)).
    { destruct repeating; cbn [negb] in *.
      - simplify_eq. rewrite length_map.
        split; [lia|]. split; [lia|]. by split.
      - match goal with
        | Hb : LinearGradient.boundaries _ _ = Ok _ |- _ =>
            destruct (linear_boundaries_ends _ _ _ _ f0 l0 Hb Hf0 Hl0 Hfl
                        Hconst) as (f1 & l1 & Hf1 & Hl1 & Hlt1);
            apply linear_boundaries_spec in Hb as (Hl1' & Hn1 & Hs1);
            [|by rewrite length_map]
        end.
        split; [done|]. split; [done|]. split.
        + intros _. by simplify_eq.
        + intros Hsorted. by destruct (Hs1 Hsorted). }
    destruct H1 as (Hl1 & Hn1 & Hstrict & Hs1).
    assert (Hspan : ~ last_ - first == 0 /\ plan = mkLayout 1 "linear"
              (Some [(width - dx * vector_length) / 2 + dx * first;
                     (height - dy * vector_length) / 2 + dy * first;
                     (width - dx * vector_length) / 2 + dx * last_;
                     (height - dy * vector_length) / 2 + dy * last_])
              normalized cs1).
    { destruct (Qeq_bool_reflect first last_) as [Heq|Hne1];
        destruct repeating; cbn [andb] in Hlayout;
        try (inv_bind Hlayout; by simplify_eq); simplify_eq.
      - specialize (Hstrict eq_refl). split; [lra|done].
      - split; [lra|done].
      - split; [lra|done]. }
    destruct Hspan as [Hspan ->]. cbn [positions colors scale_y].
    destruct (Qeq_bool_reflect (last_ - first) 0) as [|_]; [done|].
    subst normalized.
    split; [rewrite length_map; lia|]. split; [rewrite length_map; lia|].
    split; [done|]. split.
    { destruct (normalized_ends ps1 first last_ Hhead Hlast Hspan)
        as (h & t & ?). by exists h, t. }
    exists dx, dy, ps. split; [done|]. split; [done|].
    intros Hsorted. specialize (Hs1 Hsorted).
    apply normalized_unit_interval; try done.
    pose proof (sorted_bounds _ _ _ Hs1 Hhead Hlast) as Hb.
    destruct ps1 as [|p ps1]; [done|]. cbn [head] in Hhead. simplify_eq.
    apply Forall_inv in Hb. lra.
  - intros color_stops shape size center repeating self plan Hinit Hlayout
      Htype.
    unfold RadialGradient.layout in Hlayout. inv_bind Hlayout.
    destruct a as [solid|[[[s points] normalized] cs]].
    { simplify_eq. by apply circles_inl in Ha. }
    destruct (circles_inr _ _ _ _ _ _ _ _ _ _ _ _ Hinit Ha)
      as (sx & sy & ps & Hsize & -> & Hps & Hlen & Hn & Hunit).
    assert (Hscale : (forall rx ry, size = RadialGradient.explicit rx ry ->
                                    0 <= percentage_of rx width
                                         * percentage_of ry height) ->
                     0 < sy / sx).
    { intros Hexplicit.
      apply (resolved_scale_positive self width height); try done.
      apply RadialGradient_init_Ok in Hinit as [_ ->]. done. }
    rewrite Hsize. cbn [fst].
    destruct (RadialGradient.repeating self) eqn:Hrep.
    + assert (repeating = true) as ->
        by (apply RadialGradient_init_Ok in Hinit as [_ ->]; done).
      inv_bind Hlayout. destruct a as [[points' positions'] colors'].
      simplify_eq. cbn [positions colors scale_y].
      destruct (circles_repeating _ _ _ _ _ _ _ _ _ _ _ Hinit Ha)
        as (cx & cy & first & last_ & p0 & p_1 & -> & Hfirst & Hlt & Hs
            & Hhead & Hp0 & Hlast & Hp_1 & _ & _).
      destruct (repeat_spec width height (sy / sx) cx cy first last_
                  normalized cs p0 p_1)
        as (md & r2 & r5 & positions'' & colors'' & Hmd & Hr & Hr2 & Hr5 & _
            & Hlen' & Hn'); try done.
      match goal with
      | Hrep' : RadialGradient._repeat _ _ _ _ _ _ = Ok (points', _, _) |- _ =>
          rewrite Hr in Hrep'; injection Hrep' as <- <- <-
      end.
      destruct (repeat_ends width height (sy / sx) cx cy first last_
                  normalized cs p0 p_1 _ _ _ Hfirst Hlt Hs Hhead Hp0 Hlast
                  Hp_1 Hr)
        as (r2' & r5' & h & l & Hpoints & Hh & Hl & Hr2' & Hr5').
      injection Hpoints as <- <-.
      split; [done|]. split; [done|]. split; [done|]. split.
      { exists h, l. split; [done|]. split; [done|].
        set (ra := py_ceil ((md - last_) / (last_ - first))) in *.
        assert (Hgl : 0 < last_ - first) by lra.
        assert (Hends : h * (last_ - first) == - first
                        /\ l == 1 + inject_Z (Z.max 0 ra)).
        { split; [nra|].
          assert (Hr5eq : r5 == last_ + (last_ - first) * inject_Z (Z.max 0 ra)).
          { rewrite Hr5. destruct (Z.ltb_spec 0 ra) as [Hra|Hra].
            - by rewrite Z.max_r by lia.
            - rewrite Z.max_l by lia. change (inject_Z 0) with 0. ring. }
          assert (Hz : (last_ - first) * (l - (1 + inject_Z (Z.max 0 ra)))
                       == 0) by nra.
          apply Qmult_integral in Hz as [Hz|Hz]; lra. }
        destruct Hends as [Hhz Hlz].
        assert (Hmax : 0 <= inject_Z (Z.max 0 ra))
          by (rewrite <- (Zle_Qle 0); lia).
        split; [nra|]. split; [lra|].
        exists (sy / sx), [cx; cy; first; cx; cy; last_], normalized, cs,
          first, last_, md.
        by repeat split. }
      exists ps. split; [done|]. intros Hsorted. split; [|done].
      eapply (repeat_sorted width height (sy / sx) cx cy first last_
                normalized cs p0 p_1);
        [exact Hfirst|exact Hlt|exact Hs|exact Hhead|exact Hp0|exact Hlast
        |exact Hp_1| |exact Hr].
      eapply circles_repeating_sorted; [exact Hinit|exact Ha| |exact Hsorted].
      by rewrite Hsize.
    + assert (repeating = false) as ->
        by (apply RadialGradient_init_Ok in Hinit as [_ ->]; done).
      rewrite bind_ret in Hlayout. simplify_eq.
      cbn [positions colors scale_y].
      split; [done|]. split; [done|]. split; [done|]. split.
      { destruct (circles_ends _ _ _ _ _ _ _ _ _ _ _ Hinit Ha)
          as (h & t & Hh & Hhz & Ht & Htz).
        by exists h, t. }
      exists ps. split; [done|]. intros Hsorted.
      assert (Hu : unit_interval normalized).
      { eapply circles_unit_interval; [exact Hinit|exact Ha| |exact Hsorted].
        by rewrite Hsize. }
      split; [|done]. by destruct Hu.
Qed.

(** The theorem on scenario A (a linear gradient of angle 0 with two stops
    without position, in a box of 100 by 100), on scenario D (an ellipse of
    explicit size (50, 20) with stops at -10px, 50px and 150px) and on a
    repeating circle centered at the corner of a box of 3 by 4, with stops
    at 3px, 5px and 7px. *)
Lemma layout_invariants_witness :
  (exists plan first last_,
      LinearGradient.layout (H:=rational_math)
        (LinearGradient.mk [red; blue] [None; None] false
           (LinearGradient.angle 0)) 100 100 = Ok plan
      /\ length (positions plan) = length (colors plan)
      /\ 0 < scale_y plan
      /\ head (positions plan) = Some first /\ first == 0
      /\ last (positions plan) = Some last_ /\ last_ == 1
      /\ unit_interval (positions plan))
  /\ (exists plan first last_,
         RadialGradient.layout (H:=rational_math)
           (RadialGradient.mk [red; green; blue]
              [Some (Px (-10)); Some (Px 50); Some (Px 150)] false
              ("left", Percent 50, "top", Percent 50) "ellipse"
              (RadialGradient.explicit (Px 50) (Px 20))) 100 100 = Ok plan
         /\ length (positions plan) = length (colors plan)
         /\ 0 < scale_y plan
         /\ head (positions plan) = Some first /\ first == 0
         /\ last (positions plan) = Some last_ /\ last_ == 1
         /\ unit_interval (positions plan))
  /\ (exists plan first last_,
         RadialGradient.layout (H:=rational_math)
           (RadialGradient.mk [red; green; blue]
              [Some (Px 3); Some (Px 5); Some (Px 7)] true
              ("left", Px 0, "top", Px 0) "circle"
              (RadialGradient.explicit (Px 1) (Px 1))) 3 4 = Ok plan
         /\ length (positions plan) = length (colors plan)
         /\ 0 < scale_y plan
         /\ head (positions plan) = Some first /\ first <= 0
         /\ last (positions plan) = Some last_ /\ 1 <= last_
         /\ StronglySorted Qle (positions plan)).
Proof.
  destruct (layout_invariants (H:=rational_math) 100 100)
    as [Hlinear Hradial].
  { intros a b. apply sqrt_down_nonneg. }
  { apply sqrt_down_nonneg. }
  destruct (layout_invariants (H:=rational_math) 3 4)
    as [_ Hrepeating].
  { intros a b. apply sqrt_down_nonneg. }
  { apply sqrt_down_nonneg. }
  split; [|split].
  - edestruct (Hlinear [(red, None); (blue, None)] (LinearGradient.angle 0)
                 false)
      as (Hlen & _ & Hscale & (first & last_ & Hf & Hfz & Hl & Hlz)
          & dx & dy & ps & Hvector & Hps & Hunit);
      [reflexivity|by vm_compute|done|].
    eexists _, first, last_. split; [reflexivity|]. split; [exact Hlen|].
    split; [exact Hscale|]. split; [exact Hf|]. split; [exact Hfz|].
    split; [exact Hl|]. split; [exact Hlz|]. apply Hunit.
    vm_compute in Hvector. injection Hvector as <- <-.
    vm_compute in Hps. injection Hps as <-.
    repeat constructor; by vm_compute.
  - edestruct (Hradial [(red, Some (Px (-10))); (green, Some (Px 50));
                        (blue, Some (Px 150))]
                 "ellipse" (RadialGradient.explicit (Px 50) (Px 20))
                 ("left", Percent 50, "top", Percent 50) false)
      as (Hlen & _ & Hscale & (first & last_ & Hf & Hl & Hfz & Hlz)
          & ps & Hps & Hunit);
      [reflexivity|by vm_compute|done|].
    eexists _, first, last_. split; [reflexivity|]. split; [exact Hlen|].
    split.
    { apply Hscale. intros rx ry [= <- <-]. by vm_compute. }
    split; [exact Hf|]. split; [exact Hfz|].
    split; [exact Hl|]. split; [exact Hlz|].
    assert (Hs : StronglySorted Qle (from_zero ps)).
    { vm_compute in Hps. injection Hps as <-.
      change (from_zero [-10; 50; 150]) with [50; 150].
      repeat constructor; by vm_compute. }
    by apply (Hunit Hs).
  - edestruct (Hrepeating [(red, Some (Px 3)); (green, Some (Px 5));
                           (blue, Some (Px 7))]
                 "circle" (RadialGradient.explicit (Px 1) (Px 1))
                 ("left", Px 0, "top", Px 0) true)
      as (Hlen & _ & Hscale & (first & last_ & Hf & Hl & Hfz & Hlz & _)
          & ps & Hps & Hsorted);
      [reflexivity|by vm_compute|done|].
    eexists _, first, last_. split; [reflexivity|]. split; [exact Hlen|].
    split.
    { apply Hscale. intros rx ry [= <- <-]. by vm_compute. }
    split; [exact Hf|]. split; [exact Hfz|].
    split; [exact Hl|]. split; [exact Hlz|].
    assert (Hs : StronglySorted Qle ps).
    { vm_compute in Hps. injection Hps as <-.
      repeat constructor; by vm_compute. }
    exact (proj1 (Hsorted Hs)).
Defined.

(** C1, as stated, fails for a repeating radial gradient: a circle
    centered at the corner of a box of 3 by 4, with stops at 1px and 2px,
    is tiled over one period inward and three periods outward; its
    positions are ascending and go from -1 to 4. *)
Lemma layout_repeating_radial_ends :
  exists plan first last_,
    RadialGradient.layout (H:=rational_math)
      (RadialGradient.mk [red; green] [Some (Px 1); Some (Px 2)] true
         ("left", Px 0, "top", Px 0) "circle"
         (RadialGradient.explicit (Px 1) (Px 1))) 3 4 = Ok plan
    /\ type_ plan = "radial"
    /\ positions plan = [-1; 0; 0; 1; 1; 2; 2; 3; 3; 4]
    /\ head (positions plan) = Some first
    /\ last (positions plan) = Some last_
    /\ ~ first == 0
    /\ ~ last_ == 1
    /\ ~ Forall (fun q => 0 <= q <= 1) (positions plan).
Proof.
  eexists _, _, _. split; [by vm_compute|]. split; [reflexivity|].
  split; [reflexivity|]. split; [reflexivity|]. split; [reflexivity|].
  split; [by vm_compute|]. split; [by vm_compute|].
  intros Hall. apply Forall_inv in Hall. lra.
Qed.

(** The positions of a plan are not ascending where
    [process_color_stops] exceeds the next set position (see
    [process_color_stops_overshoots]): a linear gradient of angle 0 in a
    box of 20 by 20, with stops at 0px, 0px, 10px, none and 20px. *)
Lemma layout_linear_overshoot :
  exists plan p q,
    LinearGradient.layout (H:=rational_math)
      (LinearGradient.mk [red; green; blue; red; green]
         [Some (Px 0); Some (Px 0); Some (Px 10); None; Some (Px 20)] false
         (LinearGradient.angle 0)) 20 20 = Ok plan
    /\ type_ plan = "linear"
    /\ positions plan !! 4%nat = Some p
    /\ positions plan !! 5%nat = Some q
    /\ p == 26 / 21
    /\ q == 1
    /\ q < p.
Proof.
  eexists _, _, _. split; [by vm_compute|]. split; [reflexivity|].
  split; [reflexivity|]. split; [reflexivity|]. repeat split; by vm_compute.
Qed.

(** The vertical scale is negative when the explicit radii have opposite
    signs. *)
Lemma layout_opposite_radii :
  exists plan,
    RadialGradient.layout (H:=rational_math)
      (RadialGradient.mk [red; green] [None; None] false
         ("left", Px 0, "top", Px 0) "ellipse"
         (RadialGradient.explicit (Px 2) (Px (-1)))) 3 4 = Ok plan
    /\ type_ plan = "radial"
    /\ scale_y plan < 0.
Proof.
  eexists. split; [by vm_compute|]. split; [reflexivity|]. by vm_compute.
Qed.
